(** * Graph kit: the graph structure, the edge parser and the algorithms

    A shallow embedding of the TypeScript sources of the graph kit
    (Graph class, edge-notation parser, traversal, shortest paths,
    spanning trees, connectivity, structural properties and metrics),
    followed by the properties established about them.

    Modelling conventions.
    - A JavaScript number is modelled by an integer [Z]; the embedding is
      exact for the integers of absolute value at most 2^53 (node ids,
      weights, counters): they are doubles, their sums within this
      range are computed without rounding, and [String] prints all
      their digits.  The statements about numerals and about sums of
      weights carry this bound as a hypothesis ([safeInteger],
      [safeEdge], [safeWeights]).  The two quotients the sources
      compute ([totalEdgeCount], [calculateDensity]) are rationals [Q].
    - A JavaScript string is a [string] of 8-bit code units.
    - [Set<NodeId>] and [Map<NodeId, _>] iterate in insertion order: they
      are lists (without duplicates) and association lists kept in
      insertion order.
    - The adjacency object [{ [key: string]: ... }] is a finite map on
      strings, which holds the lists that the object has as properties
      of its own.  A read under a key that has no list of its own
      goes, in the program, to the prototype of the object
      ([Object.prototype], or what an assignment to the key
      [__proto__] has put in its place); these reads are not part of
      the model, which finds nothing there.  Where a function reads
      the list of a node that it is given, or that a neighbor entry
      names, the statements assume a well-formed graph ([wellFormed]:
      every node has its list, every entry names a node) and, for a
      start node, a node of the graph: every read is then the read of
      the list of a node.
    - An exception is the [Throw] case of [result]; a loop that the
      source runs until a queue or a stack is empty is a [Fixpoint] on a
      fuel argument, [None] meaning that the fuel ran out. *)

From Stdlib Require Import ZArith QArith Ascii String List Lia.
From Stdlib Require Classical_Prop.
From stdpp Require Import gmap strings list pretty.

Open Scope string_scope.
Open Scope Z_scope.
Open Scope list_scope.

(** ** Results of operations that may throw *)

Inductive result (A : Type) : Type :=
| Ok (a : A)
| Throw (msg : string).
Arguments Ok {A} a.
Arguments Throw {A} msg.

#[global] Instance result_ret : MRet result := fun A a => Ok a.
#[global] Instance result_bind : MBind result := fun A B f m =>
  match m with
  | Ok a => f a
  | Throw msg => Throw msg
  end.

Definition TypeError : string := "TypeError".

(** ** types/graph.ts *)

(** [type NodeId = string | number] *)
Inductive NodeId : Type :=
| NNum (z : Z)
| NStr (s : string).

#[global] Instance NodeId_eq_dec : EqDecision NodeId.
Proof. solve_decision. Defined.

(** [String(id)]: the decimal numeral of a number, a string as it is.
    All the digits are printed, as [String] does for the integers
    below 10^21. *)
Definition String_of (id : NodeId) : string :=
  match id with
  | NNum z => pretty z
  | NStr s => s
  end.

(** [interface Edge { from; to; weight? }] *)
Record Edge : Type := mkEdge {
  efrom : NodeId;
  eto : NodeId;
  eweight : option Z
}.

#[global] Instance Edge_eq_dec : EqDecision Edge.
Proof. solve_decision. Defined.

Record GraphConfig : Type := mkConfig {
  directed : bool;
  weighted : bool;
  allowSelfLoops : bool;
  allowMultipleEdges : bool
}.

#[global] Instance GraphConfig_eq_dec : EqDecision GraphConfig.
Proof. solve_decision. Defined.

(** An entry [{ node; weight }] of a neighbor list. *)
Record Neighbor : Type := mkNeighbor {
  node : NodeId;
  weight : Z
}.

#[global] Instance Neighbor_eq_dec : EqDecision Neighbor.
Proof. solve_decision. Defined.

(** [interface Node { id; ... }] and [interface GraphData]; the label,
    the metadata, the description and the two time stamps play no part
    in the conversions and are left out. *)
Record GraphData : Type := mkGraphData {
  d_id : string;
  d_name : string;
  d_nodes : list NodeId;
  d_edges : list Edge;
  d_config : GraphConfig
}.

(** ** The Graph class *)

Record Graph : Type := mkGraph {
  adjacencyList : gmap string (list Neighbor);
  nodes : list NodeId;
  config : GraphConfig;
  edgeCount : Z
}.

(** [new Graph(config)], the defaults of the constructor being applied
    by [defaultConfig]. *)
Definition defaultConfig (d w : option bool) : GraphConfig :=
  mkConfig (default false d) (default false w) true false.

Definition newGraph (c : GraphConfig) : Graph :=
  mkGraph ∅ [] c 0.

Definition withAdjacency (g : Graph) (a : gmap string (list Neighbor)) : Graph :=
  mkGraph a (nodes g) (config g) (edgeCount g).

(** [this.adjacencyList[key]] where the source goes on to call a method
    of the array: [undefined] there raises a TypeError. *)
Definition listAt (key : string) (g : Graph) : result (list Neighbor) :=
  match adjacencyList g !! key with
  | Some l => Ok l
  | None => Throw TypeError
  end.

Definition addNode (id : NodeId) (g : Graph) : Graph :=
  let key := String_of id in
  if decide (id ∈ nodes g) then g
  else mkGraph (<[key := []]> (adjacencyList g)) (nodes g ++ [id])
               (config g) (edgeCount g).

(** [list.find(n => n.node === to)] followed by [existing.weight = w]:
    the first entry for [to] gets the weight [w]; [None] when there is
    no such entry. *)
Fixpoint setFirstWeight (target : NodeId) (w : Z) (l : list Neighbor)
  : option (list Neighbor) :=
  match l with
  | [] => None
  | n :: l' =>
      if decide (node n = target) then Some (mkNeighbor (node n) w :: l')
      else (fun r => n :: r) <$> setFirstWeight target w l'
  end.

Definition addEdge (edge : Edge) (g : Graph) : result Graph :=
  let from := efrom edge in
  let to := eto edge in
  let w := default 1 (eweight edge) in
  if negb (allowSelfLoops (config g)) && bool_decide (from = to)
  then Throw "Self-loops are not allowed in this graph"
  else
    let g := addNode to (addNode from g) in
    let fromKey := String_of from in
    let toKey := String_of to in
    fromList ← listAt fromKey g;
    match (if allowMultipleEdges (config g) then None
           else setFirstWeight to w fromList) with
    | Some updated => Ok (withAdjacency g (<[fromKey := updated]> (adjacencyList g)))
    | None =>
        let g1 := mkGraph (<[fromKey := fromList ++ [mkNeighbor to w]]> (adjacencyList g))
                          (nodes g) (config g) (edgeCount g + 1) in
        if negb (directed (config g)) then
          toList ← listAt toKey g1;
          Ok (withAdjacency g1 (<[toKey := toList ++ [mkNeighbor from w]]> (adjacencyList g1)))
        else Ok g1
    end.

(** [list.findIndex(n => n.node === target)] *)
Fixpoint findIndex (target : NodeId) (l : list Neighbor) : option nat :=
  match l with
  | [] => None
  | n :: l' =>
      if decide (node n = target) then Some 0%nat
      else S <$> findIndex target l'
  end.

(** [list.splice(i, 1)] *)
Definition splice1 (i : nat) (l : list Neighbor) : list Neighbor :=
  take i l ++ drop (S i) l.

Definition removeEdge (from to : NodeId) (g : Graph) : result Graph :=
  let fromKey := String_of from in
  match adjacencyList g !! fromKey with
  | None => Ok g
  | Some fromList =>
      match findIndex to fromList with
      | None => Ok g
      | Some index =>
          let g1 := mkGraph (<[fromKey := splice1 index fromList]> (adjacencyList g))
                            (nodes g) (config g) (edgeCount g - 1) in
          if negb (directed (config g)) then
            let toKey := String_of to in
            toList ← listAt toKey g1;
            match findIndex from toList with
            | Some reverseIndex =>
                Ok (withAdjacency g1 (<[toKey := splice1 reverseIndex toList]> (adjacencyList g1)))
            | None => Ok g1
            end
          else Ok g1
      end
  end.

(** The loop of [removeNode] over [this.nodes]. *)
Fixpoint removeIncident (id : NodeId) (ns : list NodeId) (g : Graph) : result Graph :=
  match ns with
  | [] => Ok g
  | nodeId :: ns' =>
      g1 ← removeEdge nodeId id g;
      g2 ← removeEdge id nodeId g1;
      removeIncident id ns' g2
  end.

Definition removeNode (id : NodeId) (g : Graph) : result Graph :=
  if decide (id ∈ nodes g) then
    g1 ← removeIncident id (nodes g) g;
    Ok (mkGraph (delete (String_of id) (adjacencyList g1))
                (filter (fun x => x ≠ id) (nodes g1))
                (config g1) (edgeCount g1))
  else Ok g.

(** [getNeighbors], [hasEdge] and [getEdgeWeight] read
    [this.adjacencyList[key]]: the list that the object has under the
    key, or nothing. *)
Definition getNeighbors (id : NodeId) (g : Graph) : list Neighbor :=
  default [] (adjacencyList g !! String_of id).

Definition hasEdge (from to : NodeId) (g : Graph) : bool :=
  match adjacencyList g !! String_of from with
  | None => false
  | Some l => existsb (fun n => bool_decide (node n = to)) l
  end.

Definition getEdgeWeight (from to : NodeId) (g : Graph) : option Z :=
  l ← adjacencyList g !! String_of from;
  n ← List.find (fun n => bool_decide (node n = to)) l;
  Some (weight n).

Definition getNodes (g : Graph) : list NodeId := nodes g.

Definition nodeCount (g : Graph) : Z := Z.of_nat (length (nodes g)).

Definition isDirected (g : Graph) : bool := directed (config g).

Definition isWeighted (g : Graph) : bool := weighted (config g).

Definition configuration (g : Graph) : GraphConfig := config g.

(** [get totalEdgeCount]: the counter, halved for an undirected graph. *)
Definition totalEdgeCount (g : Graph) : Q :=
  if directed (config g) then inject_Z (edgeCount g)
  else (inject_Z (edgeCount g) / 2)%Q.

(** The number of entries of all neighbor lists together (the directed
    slots of the adjacency representation). *)
Definition slotCount (g : Graph) : Z :=
  map_fold (fun _ l acc => Z.of_nat (length l) + acc) 0 (adjacencyList g).

(** Runs a list of edges through [addEdge], as the loops of
    [buildGraphFromData], [buildGraphFromEdges] and [clone] do. *)
Fixpoint addEdges (es : list Edge) (g : Graph) : result Graph :=
  match es with
  | [] => Ok g
  | e :: es' => g1 ← addEdge e g; addEdges es' g1
  end.

Definition addNodes (ns : list NodeId) (g : Graph) : Graph :=
  foldl (fun g id => addNode id g) g ns.

(** [Array.prototype.sort] without a comparator orders the elements by
    their string conversions; on a pair it swaps exactly when the
    second converts to a strictly smaller string. *)
Definition sortPair (a b : NodeId) : NodeId * NodeId :=
  if String.ltb (String_of b) (String_of a) then (b, a) else (a, b).

Definition edgeKey (dir : bool) (from to : NodeId) : string :=
  if dir then String_of from +:+ "->" +:+ String_of to
  else let '(a, b) := sortPair from to in String_of a +:+ "-" +:+ String_of b.

(** The inner loop of [getEdges] over one neighbor list. *)
Fixpoint getEdgesFrom (dir : bool) (from : NodeId) (l : list Neighbor)
    (acc : list Edge * list string) : list Edge * list string :=
  match l with
  | [] => acc
  | n :: l' =>
      let '(edges, seen) := acc in
      let key := edgeKey dir from (node n) in
      if decide (key ∈ seen) then getEdgesFrom dir from l' acc
      else getEdgesFrom dir from l'
             (edges ++ [mkEdge from (node n)
                          (if decide (weight n = 1) then None else Some (weight n))],
              seen ++ [key])
  end.

(** The outer loop of [getEdges] over [this.nodes]; iterating over an
    [undefined] neighbor list raises a TypeError. *)
Fixpoint getEdgesLoop (g : Graph) (ns : list NodeId)
    (acc : list Edge * list string) : result (list Edge) :=
  match ns with
  | [] => Ok (fst acc)
  | from :: ns' =>
      l ← listAt (String_of from) g;
      getEdgesLoop g ns' (getEdgesFrom (directed (config g)) from l acc)
  end.

Definition getEdges (g : Graph) : result (list Edge) :=
  getEdgesLoop g (nodes g) ([], []).

Record Degree : Type := mkDegree {
  inDegree : Z;
  outDegree : Z;
  degree : Z
}.

Definition getDegree (id : NodeId) (g : Graph) : Degree :=
  let outD := match adjacencyList g !! String_of id with
              | Some l => Z.of_nat (length l)
              | None => 0
              end in
  let inD := if directed (config g)
             then Z.of_nat (length (filter (fun nodeId => hasEdge nodeId id g = true) (nodes g)))
             else outD in
  mkDegree inD outD (if directed (config g) then inD + outD else outD).

(** [clone] *)
Definition clone (g : Graph) : result Graph :=
  es ← getEdges g;
  addEdges es (addNodes (nodes g) (newGraph (config g))).

(** [reverse] *)
Definition reverse (g : Graph) : result Graph :=
  if negb (directed (config g)) then clone g
  else
    es ← getEdges g;
    addEdges (map (fun e => mkEdge (eto e) (efrom e) (eweight e)) es)
             (addNodes (nodes g) (newGraph (config g))).

(** ** lib/graph/parser.ts *)

Definition isWhitespace (c : ascii) : bool :=
  let n := nat_of_ascii c in
  ((9 <=? n) && (n <=? 13) || (n =? 32) || (n =? 160))%nat.

(** The characters that the [.] of a regular expression does not match. *)
Definition isLineTerminator (c : ascii) : bool :=
  let n := nat_of_ascii c in
  ((n =? 10) || (n =? 13))%nat.

Definition isEmpty (s : string) : bool :=
  match s with
  | EmptyString => true
  | String _ _ => false
  end.

Fixpoint trimStart (s : string) : string :=
  match s with
  | EmptyString => EmptyString
  | String c s' => if isWhitespace c then trimStart s' else s
  end.

Fixpoint trimEnd (s : string) : string :=
  match s with
  | EmptyString => EmptyString
  | String c s' =>
      let r := trimEnd s' in
      if isWhitespace c && isEmpty r then EmptyString else String c r
  end.

(** [s.trim()] *)
Definition trim (s : string) : string := trimEnd (trimStart s).

Fixpoint hasLineTerminator (s : string) : bool :=
  match s with
  | EmptyString => false
  | String c s' => isLineTerminator c || hasLineTerminator s'
  end.

(** [input.split(/[,;\n]+/)]: a run of separators separates two fields;
    [cur] is the field being read and [afterSep] tells that the
    previous character was a separator. *)
Definition isSeparator (c : ascii) : bool :=
  (Ascii.eqb c "," || Ascii.eqb c ";" || Ascii.eqb c "010")%char.

Fixpoint splitFields (s : string) (cur : string) (afterSep : bool) : list string :=
  match s with
  | EmptyString => [cur]
  | String c s' =>
      if isSeparator c then
        if afterSep then splitFields s' EmptyString true
        else cur :: splitFields s' EmptyString true
      else splitFields s' (cur +:+ String c EmptyString) false
  end.

Definition split (input : string) : list string :=
  splitFields input EmptyString false.

(** [stripPrefix p s]: what follows [p] when [s] starts with [p]. *)
Fixpoint stripPrefix (p s : string) : option string :=
  match p, s with
  | EmptyString, _ => Some s
  | String a p', String b s' => if Ascii.eqb a b then stripPrefix p' s' else None
  | String _ _, EmptyString => None
  end.

(** The search of [/^(.+?)<sep>(.+)$/]: [pre] is the candidate for the
    first group (never empty), [s] what follows it.  The lazy group
    takes the shortest [pre] after which a separator stands and is
    followed by at least one more character.  [sepAt s] gives what
    follows the separator when one stands at the head of [s]. *)
Fixpoint lazySearch (sepAt : string -> option string) (pre s : string)
  : option (string * string) :=
  match s with
  | EmptyString => None
  | String c s' =>
      match sepAt s with
      | Some rest =>
          if isEmpty rest then lazySearch sepAt (pre +:+ String c EmptyString) s'
          else Some (pre, rest)
      | None => lazySearch sepAt (pre +:+ String c EmptyString) s'
      end
  end.

(** [s.match(/^(.+?)<sep>(.+)$/)]: both groups are made of characters
    that [.] matches, so a string with a line terminator has no match. *)
Definition regexMatch (sepAt : string -> option string) (s : string)
  : option (string * string) :=
  if hasLineTerminator s then None
  else match s with
       | EmptyString => None
       | String c s' => lazySearch sepAt (String c EmptyString) s'
       end.

(** The separator [[:=]] *)
Definition weightSep (s : string) : option string :=
  match s with
  | String c rest => if (Ascii.eqb c ":" || Ascii.eqb c "=")%char then Some rest else None
  | EmptyString => None
  end.

Definition digitValue (c : ascii) : option Z :=
  let n := nat_of_ascii c in
  if ((48 <=? n) && (n <=? 57))%nat then Some (Z.of_nat (n - 48)) else None.

(** The longest prefix of digits, read as a decimal numeral; [None]
    when the string does not start with a digit. *)
Fixpoint parseDigits (s : string) (acc : option Z) : option Z :=
  match s with
  | EmptyString => acc
  | String c s' =>
      match digitValue c with
      | Some d => parseDigits s' (Some (10 * default 0 acc + d))
      | None => acc
      end
  end.

(** [parseFloat] on the integer numerals: leading white space, a sign,
    digits; [None] is NaN.  The source's [parseFloat] goes on to read a
    fraction and an exponent, and reads [Infinity], which the integer
    model of numbers leaves out. *)
Definition parseFloat (s : string) : option Z :=
  match trimStart s with
  | String "-" s' => Z.opp <$> parseDigits s' None
  | String "+" s' => parseDigits s' None
  | s' => parseDigits s' None
  end.

Definition parseNodeId (id : string) : result NodeId :=
  match parseFloat id with
  | Some num =>
      if String.eqb (pretty num) id then Ok (NNum num)
      else if isEmpty id then Throw "Empty node ID" else Ok (NStr id)
  | None => if isEmpty id then Throw "Empty node ID" else Ok (NStr id)
  end.

Record ParsedEdge : Type := mkParsedEdge {
  p_from : NodeId;
  p_to : NodeId;
  p_weight : option Z;
  p_isDirected : option bool
}.

(** The three attempts of [parseEdgeSegment], in the order of the
    source: [->], then [-], then [<->]. *)
Definition parseEdgeSegment (segment : string) (defaultWeight : Z) : result ParsedEdge :=
  '(edgePart, w) ←
    match regexMatch weightSep segment with
    | Some (g1, g2) =>
        let weightStr := trim g2 in
        match parseFloat weightStr with
        | Some w => Ok (trim g1, Some w)
        | None => Throw ("Invalid weight: " +:+ String "034" weightStr +:+ String "034" EmptyString)
        end
    | None => Ok (segment, None)
    end;
  match regexMatch (stripPrefix "->") edgePart with
  | Some (g1, g2) =>
      from ← parseNodeId (trim g1);
      to ← parseNodeId (trim g2);
      Ok (mkParsedEdge from to w (Some true))
  | None =>
      match regexMatch (stripPrefix "-") edgePart with
      | Some (g1, g2) =>
          from ← parseNodeId (trim g1);
          to ← parseNodeId (trim g2);
          Ok (mkParsedEdge from to w (Some false))
      | None =>
          match regexMatch (stripPrefix "<->") edgePart with
          | Some (g1, g2) =>
              from ← parseNodeId (trim g1);
              to ← parseNodeId (trim g2);
              Ok (mkParsedEdge from to w (Some false))
          | None =>
              Throw ("Invalid edge format: " +:+ String "034" segment
                       +:+ String "034" ". Use formats like "
                       +:+ String "034" "1-2" +:+ String "034" ", "
                       +:+ String "034" "1->2" +:+ String "034" ", or "
                       +:+ String "034" "1-2:5" +:+ String "034" EmptyString)
          end
      end
  end.

Record ParseResult : Type := mkParseResult {
  r_edges : list Edge;
  r_errors : list string;
  r_warnings : list string
}.

Record ParserOptions : Type := mkParserOptions {
  assumeDirected : option bool;
  defaultWeight : option Z
}.

Record ParseState : Type := mkParseState {
  s_edges : list Edge;
  s_errors : list string;
  hasDirectedArrows : bool;
  hasUndirectedDashes : bool
}.

(** One turn of the loop of [parseEdgeInput] over the segments. *)
Definition parseStep (dw : Z) (st : ParseState) (lineNum : nat) (segment : string)
  : ParseState :=
  match parseEdgeSegment segment dw with
  | Ok edge =>
      mkParseState
        (s_edges st ++ [mkEdge (p_from edge) (p_to edge) (p_weight edge)])
        (s_errors st)
        (match p_isDirected edge with Some true => true | _ => hasDirectedArrows st end)
        (match p_isDirected edge with Some false => true | _ => hasUndirectedDashes st end)
  | Throw msg =>
      mkParseState (s_edges st)
        (s_errors st ++ ["Line " +:+ pretty lineNum +:+ ": " +:+ msg])
        (hasDirectedArrows st) (hasUndirectedDashes st)
  end.

Fixpoint parseLoop (dw : Z) (segments : list string) (lineNum : nat) (st : ParseState)
  : ParseState :=
  match segments with
  | [] => st
  | segment :: rest => parseLoop dw rest (S lineNum) (parseStep dw st lineNum segment)
  end.

Definition parseEdgeInput (input : string) (options : option ParserOptions) : ParseResult :=
  let assumeDir := default false (options ≫= assumeDirected) in
  let dw := default 1 (options ≫= defaultWeight) in
  let segments := filter (fun s => isEmpty s = false) (map trim (split input)) in
  match segments with
  | [] => mkParseResult [] ["No edges provided"] []
  | _ =>
      let st := parseLoop dw segments 1 (mkParseState [] [] false false) in
      let warnings :=
        if hasDirectedArrows st && hasUndirectedDashes st && negb assumeDir
        then ["Mixed directed (->) and undirected (-) notation detected. Treating all as "
                +:+ (if assumeDir then "directed" else "undirected")]
        else [] in
      mkParseResult (s_edges st) (s_errors st) warnings
  end.

(** ** lib/graph/graph-builder: conversions *)

Definition buildGraphFromData (data : GraphData) : result Graph :=
  addEdges (d_edges data) (addNodes (d_nodes data) (newGraph (d_config data))).

Definition graphToData (g : Graph) (id name : string) : result GraphData :=
  es ← getEdges g;
  Ok (mkGraphData id name (getNodes g) es (configuration g)).

Record BuildResult : Type := mkBuildResult {
  b_graph : Graph;
  b_errors : list string;
  b_warnings : list string
}.

Definition buildGraphFromEdges (edgeInput : string) (dir w : bool) : result BuildResult :=
  let parseResult := parseEdgeInput edgeInput (Some (mkParserOptions (Some dir) None)) in
  let empty := newGraph (defaultConfig (Some dir) (Some w)) in
  match r_errors parseResult with
  | _ :: _ => Ok (mkBuildResult empty (r_errors parseResult) (r_warnings parseResult))
  | [] =>
      g ← addEdges (r_edges parseResult) empty;
      Ok (mkBuildResult g [] (r_warnings parseResult))
  end.

(** ** Sets and maps in insertion order *)

(** [set.add(x)] on a [Set] kept as the list of its elements in
    insertion order. *)
Definition setAdd {K : Type} `{EqDecision K} (x : K) (s : list K) : list K :=
  if decide (x ∈ s) then s else s ++ [x].

(** [map.get(k)], [map.has(k)] and [map.set(k, v)] on a [Map] kept as
    an association list in insertion order. *)
Fixpoint mapGet {K V : Type} `{EqDecision K} (k : K) (m : list (K * V)) : option V :=
  match m with
  | [] => None
  | (k', v) :: m' => if decide (k' = k) then Some v else mapGet k m'
  end.

Definition mapHas {K V : Type} `{EqDecision K} (k : K) (m : list (K * V)) : bool :=
  match mapGet k m with
  | Some _ => true
  | None => false
  end.

Fixpoint mapSet {K V : Type} `{EqDecision K} (k : K) (v : V) (m : list (K * V))
  : list (K * V) :=
  match m with
  | [] => [(k, v)]
  | (k', v') :: m' =>
      if decide (k' = k) then (k', v) :: m' else (k', v') :: mapSet k v m'
  end.

(** A [for ... of] loop whose body may stop the whole computation
    ([None]): the fold of the body over the elements. *)
Fixpoint forEachM {A S : Type} (body : A -> S -> option S) (l : list A) (s : S)
  : option S :=
  match l with
  | [] => Some s
  | a :: l' =>
      match body a s with
      | Some s' => forEachM body l' s'
      | None => None
      end
  end.

(** ** lib/algorithms/connected-components.ts *)

(** [dfsVisit(graph, node, visited, component)]; the state is the pair
    of the set [visited] and the array [component]. *)
Fixpoint dfsVisit (fuel : nat) (g : Graph) (nd : NodeId)
    (st : list NodeId * list NodeId) : option (list NodeId * list NodeId) :=
  match fuel with
  | O => None
  | S fuel' =>
      forEachM
        (fun n st => if decide (node n ∈ st.1) then Some st
                     else dfsVisit fuel' g (node n) st)
        (getNeighbors nd g)
        (setAdd nd st.1, st.2 ++ [nd])
  end.

(** The loop of [findConnectedComponents] over [graph.getNodes()]. *)
Fixpoint componentsLoop (fuel : nat) (g : Graph) (ns : list NodeId)
    (visited : list NodeId) (components : list (list NodeId))
  : option (list (list NodeId)) :=
  match ns with
  | [] => Some components
  | nd :: ns' =>
      if decide (nd ∈ visited) then componentsLoop fuel g ns' visited components
      else
        match dfsVisit fuel g nd (visited, []) with
        | Some (visited', component) =>
            componentsLoop fuel g ns' visited' (components ++ [component])
        | None => None
        end
  end.

Record ComponentResult : Type := mkComponentResult {
  components : list (list NodeId);
  count : Z;
  c_isConnected : bool
}.

Definition findConnectedComponents (fuel : nat) (g : Graph) : option ComponentResult :=
  cs ← componentsLoop fuel g (getNodes g) [] [];
  Some (mkComponentResult cs (Z.of_nat (length cs)) (Z.of_nat (length cs) <=? 1)).

Definition isConnected (fuel : nat) (g : Graph) : option bool :=
  if nodeCount g =? 0 then Some true
  else
    match getNodes g with
    | [] => Some false
    | start :: _ =>
        st ← dfsVisit fuel g start ([], []);
        Some (Z.of_nat (length st.1) =? nodeCount g)
    end.

Record BipartiteResult : Type := mkBipartiteResult {
  r_isBipartite : bool;
  partitions : option (list NodeId * list NodeId)
}.

(** The loop of [isBipartite] over the neighbors of [current]; [None]
    is the [return { isBipartite: false }] of the source. *)
Definition colorNeighbor (currentColor : Z) (n : Neighbor)
    (st : list (NodeId * Z) * list NodeId) : option (list (NodeId * Z) * list NodeId) :=
  let '(color, queue) := st in
  match mapGet (node n) color with
  | None => Some (mapSet (node n) (1 - currentColor) color, queue ++ [node n])
  | Some c => if decide (c = currentColor) then None else Some st
  end.

(** The [while (queue.length > 0)] loop; the outer [None] is the lack
    of fuel, the inner one the early return.  A node enters the queue
    with a color, so that [color.get(current)] is defined. *)
Fixpoint colorWhile (fuel : nat) (g : Graph) (st : list (NodeId * Z) * list NodeId)
  : option (option (list (NodeId * Z))) :=
  match fuel with
  | O => None
  | S fuel' =>
      match st.2 with
      | [] => Some (Some st.1)
      | current :: queue =>
          let currentColor := default 0 (mapGet current st.1) in
          match forEachM (colorNeighbor currentColor) (getNeighbors current g) (st.1, queue) with
          | Some st' => colorWhile fuel' g st'
          | None => Some None
          end
      end
  end.

(** The loop over the start nodes. *)
Fixpoint colorFor (fuel : nat) (g : Graph) (starts : list NodeId) (color : list (NodeId * Z))
  : option (option (list (NodeId * Z))) :=
  match starts with
  | [] => Some (Some color)
  | start :: starts' =>
      if mapHas start color then colorFor fuel g starts' color
      else
        match colorWhile fuel g (mapSet start 0 color, [start]) with
        | Some (Some color') => colorFor fuel g starts' color'
        | Some None => Some None
        | None => None
        end
  end.

Definition isBipartite (fuel : nat) (g : Graph) : option BipartiteResult :=
  match colorFor fuel g (getNodes g) [] with
  | None => None
  | Some None => Some (mkBipartiteResult false None)
  | Some (Some color) =>
      Some (mkBipartiteResult true
              (Some (map fst (filter (fun kv => kv.2 = 0) color),
                     map fst (filter (fun kv => kv.2 ≠ 0) color))))
  end.

(** ** lib/algorithms/properties *)

Definition isComplete (g : Graph) : bool :=
  let ns := getNodes g in
  let n := Z.of_nat (length ns) in
  if n <=? 1 then true
  else
    forallb (fun nd =>
               let d := getDegree nd g in
               if isDirected g
               then (inDegree d =? n - 1) && (outDegree d =? n - 1)
               else degree d =? n - 1) ns.

(** The [for] loop that pushes the unvisited neighbors of the current
    node, in adjacency order; the array used as a stack is a list whose
    head is the top. *)
Definition pushUnvisited (ns : list Neighbor) (visited : list NodeId)
    (stack : list NodeId) : list NodeId :=
  foldl (fun st n => if decide (node n ∈ visited) then st else node n :: st) stack ns.

(** The [while (stack.length > 0)] loop of [isCycle], [isPath] and
    [isTree]; it returns the set [visited]. *)
Fixpoint reachLoop (fuel : nat) (g : Graph) (stack visited : list NodeId)
  : option (list NodeId) :=
  match fuel with
  | O => None
  | S fuel' =>
      match stack with
      | [] => Some visited
      | current :: stack' =>
          if decide (current ∈ visited) then reachLoop fuel' g stack' visited
          else
            let visited' := setAdd current visited in
            reachLoop fuel' g (pushUnvisited (getNeighbors current g) visited' stack') visited'
      end
  end.

Definition isCycle (fuel : nat) (g : Graph) : option bool :=
  let ns := getNodes g in
  let n := Z.of_nat (length ns) in
  if n <? 3 then Some false
  else if negb (forallb (fun nd => degree (getDegree nd g) =? 2) ns) then Some false
  else
    match ns with
    | [] => Some false
    | first :: _ =>
        visited ← reachLoop fuel g [first] [];
        Some (Z.of_nat (length visited) =? n)
    end.

Definition isTree (fuel : nat) (g : Graph) : option bool :=
  if isDirected g then Some false
  else
    let ns := getNodes g in
    let n := Z.of_nat (length ns) in
    if n =? 0 then Some true
    else if n =? 1 then Some true
    else if negb (Qeq_bool (totalEdgeCount g) (inject_Z (n - 1))) then Some false
    else
      match ns with
      | [] => Some false
      | first :: _ =>
          visited ← reachLoop fuel g [first] [];
          Some (Z.of_nat (length visited) =? n)
      end.

(** ** lib/algorithms/metrics *)

Definition calculateDensity (g : Graph) : Q :=
  let n := nodeCount g in
  if n <=? 1 then 0%Q
  else
    let maxEdges := inject_Z (n * (n - 1)) in
    let actualEdges := totalEdgeCount g in
    if isDirected g then (actualEdges / maxEdges)%Q
    else (2 * actualEdges / maxEdges)%Q.

(** ** lib/algorithms/traversal.ts *)

(** [dfsRecursive(node)] inside [dfs]; the state is the pair of the set
    [visited] and the array [order].  Recording steps only appends to
    [steps], which the traversal never reads: the model keeps [order]. *)
Fixpoint dfsRecursive (fuel : nat) (g : Graph) (nd : NodeId)
    (st : list NodeId * list NodeId) : option (list NodeId * list NodeId) :=
  match fuel with
  | O => None
  | S fuel' =>
      forEachM
        (fun n st => if decide (node n ∈ st.1) then Some st
                     else dfsRecursive fuel' g (node n) st)
        (getNeighbors nd g)
        (setAdd nd st.1, st.2 ++ [nd])
  end.

Definition dfs (fuel : nat) (g : Graph) (start : NodeId) : option (list NodeId) :=
  st ← dfsRecursive fuel g start ([], []);
  Some st.2.

(** The loop [for (let i = neighbors.length - 1; i >= 0; i--)] of
    [dfsIterative]: the unvisited neighbors are pushed from the last to
    the first. *)
Definition pushReversed (ns : list Neighbor) (visited : list NodeId)
    (stack : list NodeId) : list NodeId :=
  foldl (fun st n => if decide (node n ∈ visited) then st else node n :: st)
        stack (rev ns).

(** The [while (stack.length > 0)] loop of [dfsIterative]; the array
    used as a stack is a list whose head is the top. *)
Fixpoint dfsLoop (fuel : nat) (g : Graph) (stack : list NodeId)
    (st : list NodeId * list NodeId) : option (list NodeId * list NodeId) :=
  match fuel with
  | O => None
  | S fuel' =>
      match stack with
      | [] => Some st
      | current :: stack' =>
          if decide (current ∈ st.1) then dfsLoop fuel' g stack' st
          else
            let visited' := setAdd current st.1 in
            dfsLoop fuel' g (pushReversed (getNeighbors current g) visited' stack')
                    (visited', st.2 ++ [current])
      end
  end.

Definition dfsIterative (fuel : nat) (g : Graph) (start : NodeId) : option (list NodeId) :=
  st ← dfsLoop fuel g [start] ([], []);
  Some st.2.

(** ** lib/algorithms/spanning-tree *)

(** [class UnionFind].  A lookup of a key that a [Map] does not hold
    gives [undefined], which the class then uses as a node and as a
    rank: keys and values are options, [None] being [undefined] (and,
    for a rank, the NaN that arithmetic on [undefined] gives). *)
Record UnionFind : Type := mkUnionFind {
  parent : list (option NodeId * option NodeId);
  rank : list (option NodeId * option Z)
}.

Definition newUnionFind (ns : list NodeId) : UnionFind :=
  foldl (fun uf nd => mkUnionFind (mapSet (Some nd) (Some nd) (parent uf))
                                  (mapSet (Some nd) (Some 0) (rank uf)))
        (mkUnionFind [] []) ns.

Definition getParent (x : option NodeId) (uf : UnionFind) : option NodeId :=
  default None (mapGet x (parent uf)).

Definition getRank (x : option NodeId) (uf : UnionFind) : option Z :=
  default None (mapGet x (rank uf)).

(** [find(node)], with path compression. *)
Fixpoint uf_find (fuel : nat) (x : option NodeId) (uf : UnionFind)
  : option (option NodeId * UnionFind) :=
  match fuel with
  | O => None
  | S fuel' =>
      if decide (getParent x uf = x) then Some (getParent x uf, uf)
      else
        '(root, uf1) ← uf_find fuel' (getParent x uf) uf;
        let uf2 := mkUnionFind (mapSet x root (parent uf1)) (rank uf1) in
        Some (getParent x uf2, uf2)
  end.

(** [union(node1, node2)], by rank; a comparison with an undefined
    rank is false. *)
Definition uf_union (fuel : nat) (x y : option NodeId) (uf : UnionFind)
  : option (bool * UnionFind) :=
  '(root1, uf1) ← uf_find fuel x uf;
  '(root2, uf2) ← uf_find fuel y uf1;
  if decide (root1 = root2) then Some (false, uf2)
  else
    let rank1 := getRank root1 uf2 in
    let rank2 := getRank root2 uf2 in
    let lt a b := match a, b with Some a, Some b => a <? b | _, _ => false end in
    if lt rank1 rank2 then
      Some (true, mkUnionFind (mapSet root1 root2 (parent uf2)) (rank uf2))
    else if lt rank2 rank1 then
      Some (true, mkUnionFind (mapSet root2 root1 (parent uf2)) (rank uf2))
    else
      Some (true, mkUnionFind (mapSet root2 root1 (parent uf2))
                              (mapSet root1 ((fun r => r + 1) <$> rank1) (rank uf2))).

Inductive StepAction : Type := Add | Skip.

Record SpanningStep : Type := mkSpanningStep {
  st_step : Z;
  st_edge : Edge;
  st_action : StepAction;
  st_reason : string
}.

Record SpanningTreeResult : Type := mkSpanningTreeResult {
  t_edges : list Edge;
  totalWeight : Z;
  t_steps : option (list SpanningStep)
}.

(** [array.sort((a, b) => key(a) - key(b))]: a stable sort, by
    insertion after the elements that are not greater. *)
Fixpoint insertBy {A : Type} (key : A -> Z) (x : A) (l : list A) : list A :=
  match l with
  | [] => [x]
  | y :: l' => if key x <? key y then x :: y :: l' else y :: insertBy key x l'
  end.

Definition sortBy {A : Type} (key : A -> Z) (l : list A) : list A :=
  foldl (fun acc x => insertBy key x acc) [] l.

Record KruskalState : Type := mkKruskalState {
  k_uf : UnionFind;
  mstEdges : list Edge;
  k_steps : list SpanningStep;
  k_totalWeight : Z;
  stepCount : Z
}.

(** The loop of [kruskal] over the sorted edges; [break] ends it. *)
Fixpoint kruskalLoop (fuel : nat) (recordSteps : bool) (n : nat) (es : list Edge)
    (st : KruskalState) : option KruskalState :=
  match es with
  | [] => Some st
  | edge :: es' =>
      let w := default 1 (eweight edge) in
      '(r1, uf1) ← uf_find fuel (Some (efrom edge)) (k_uf st);
      '(r2, uf2) ← uf_find fuel (Some (eto edge)) uf1;
      if decide (r1 ≠ r2) then
        '(_, uf3) ← uf_union fuel (Some (efrom edge)) (Some (eto edge)) uf2;
        let st' :=
          mkKruskalState uf3 (mstEdges st ++ [edge])
            (if recordSteps
             then k_steps st ++ [mkSpanningStep (stepCount st) edge Add
                                   "Edge connects two different components"]
             else k_steps st)
            (k_totalWeight st + w)
            (if recordSteps then stepCount st + 1 else stepCount st) in
        if Z.of_nat (length (mstEdges st')) =? Z.of_nat n - 1 then Some st'
        else kruskalLoop fuel recordSteps n es' st'
      else
        kruskalLoop fuel recordSteps n es'
          (mkKruskalState uf2 (mstEdges st)
             (if recordSteps
              then k_steps st ++ [mkSpanningStep (stepCount st) edge Skip
                                    "Edge would create a cycle"]
              else k_steps st)
             (k_totalWeight st)
             (if recordSteps then stepCount st + 1 else stepCount st))
  end.

(** [kruskal(graph, options)]: [Throw] is the exception, the inner
    [None] the lack of fuel for [find]. *)
Definition kruskal (fuel : nat) (g : Graph) (recordSteps : bool)
  : result (option SpanningTreeResult) :=
  if isDirected g then Throw "Kruskal's algorithm only works on undirected graphs"
  else
    let ns := getNodes g in
    edges ← getEdges g;
    let sortedEdges := sortBy (fun e => default 1 (eweight e)) edges in
    Ok (st ← kruskalLoop fuel recordSteps (length ns) sortedEdges
               (mkKruskalState (newUnionFind ns) [] [] 0 0);
        Some (mkSpanningTreeResult (mstEdges st) (k_totalWeight st)
                (if recordSteps then Some (k_steps st) else None))).

Record PrimState : Type := mkPrimState {
  p_visited : list NodeId;
  p_mstEdges : list Edge;
  p_steps : list SpanningStep;
  p_totalWeight : Z;
  p_stepCount : Z;
  pq : list (Edge * Z)
}.

(** The edges of a node that enter the queue of [prim]; [keep] tells
    which neighbors are taken. *)
Definition frontier (from : NodeId) (keep : NodeId -> bool) (ns : list Neighbor)
  : list (Edge * Z) :=
  map (fun n => (mkEdge from (node n) (Some (weight n)), weight n))
      (filter (fun n => keep (node n) = true) ns).

(** The [while (pq.length > 0 && visited.size < nodes.length)] loop. *)
Fixpoint primLoop (fuel : nat) (g : Graph) (recordSteps : bool) (n : nat)
    (st : PrimState) : option PrimState :=
  match fuel with
  | O => None
  | S fuel' =>
      match sortBy snd (pq st) with
      | [] => Some st
      | (edge, w) :: rest =>
          if negb (length (p_visited st) <? n)%nat then Some st
          else if decide (eto edge ∈ p_visited st) then
            primLoop fuel' g recordSteps n
              (mkPrimState (p_visited st) (p_mstEdges st)
                 (if recordSteps
                  then p_steps st ++ [mkSpanningStep (p_stepCount st) edge Skip
                                        "Both endpoints already in MST"]
                  else p_steps st)
                 (p_totalWeight st)
                 (if recordSteps then p_stepCount st + 1 else p_stepCount st)
                 rest)
          else
            let visited' := setAdd (eto edge) (p_visited st) in
            primLoop fuel' g recordSteps n
              (mkPrimState visited' (p_mstEdges st ++ [edge])
                 (if recordSteps
                  then p_steps st ++ [mkSpanningStep (p_stepCount st) edge Add
                                        "Minimum weight edge connecting MST to new node"]
                  else p_steps st)
                 (p_totalWeight st + w)
                 (if recordSteps then p_stepCount st + 1 else p_stepCount st)
                 (rest ++ frontier (eto edge)
                            (fun x => bool_decide (x ∉ visited'))
                            (getNeighbors (eto edge) g)))
      end
  end.

Definition prim (fuel : nat) (g : Graph) (start : option NodeId) (recordSteps : bool)
  : result (option SpanningTreeResult) :=
  if isDirected g then Throw "Prim's algorithm only works on undirected graphs"
  else
    match getNodes g with
    | [] => Ok (Some (mkSpanningTreeResult [] 0 None))
    | first :: _ =>
        let startNode := default first start in
        Ok (st ← primLoop fuel g recordSteps (length (getNodes g))
                   (mkPrimState [startNode] [] [] 0 0
                      (frontier startNode (fun _ => true) (getNeighbors startNode g)));
            Some (mkSpanningTreeResult (p_mstEdges st) (p_totalWeight st)
                    (if recordSteps then Some (p_steps st) else None)))
    end.

(** ** lib/algorithms/shortest-path: Bellman-Ford *)

(** A distance: a number or [Infinity]. *)
Inductive Dist : Type :=
| Fin (z : Z)
| Infinity.

#[global] Instance Dist_eq_dec : EqDecision Dist.
Proof. solve_decision. Defined.

(** [distance + weight] and [a < b] on distances, with the sum and
    the order of the integers. *)
Definition distAdd (d : Dist) (w : Z) : Dist :=
  match d with
  | Fin z => Fin (z + w)
  | Infinity => Infinity
  end.

Definition distLt (a b : Dist) : bool :=
  match a, b with
  | Fin x, Fin y => x <? y
  | Fin _, Infinity => true
  | Infinity, _ => false
  end.

Record PathResult : Type := mkPathResult {
  path : list NodeId;
  distance : Dist
}.

(** [distances.get(u)! + weight < distances.get(v)!]; a distance that
    the map does not hold is [undefined], and the comparison is false. *)
Definition relaxable (distances : list (NodeId * Dist)) (edge : Edge) : bool :=
  match mapGet (efrom edge) distances, mapGet (eto edge) distances with
  | Some du, Some dv => distLt (distAdd du (default 1 (eweight edge))) dv
  | _, _ => false
  end.

Definition BFState : Type := (list (NodeId * Dist) * list (NodeId * option NodeId))%type.

(** The body of the relaxation loop. *)
Definition relax (st : BFState) (edge : Edge) : BFState :=
  let u := efrom edge in
  let v := eto edge in
  if relaxable st.1 edge then
    (mapSet v (distAdd (default Infinity (mapGet u st.1)) (default 1 (eweight edge))) st.1,
     mapSet v (Some u) st.2)
  else st.

(** [for (let i = 0; i < nodes.length - 1; i++)] around the loop over
    the edges. *)
Fixpoint relaxRounds (rounds : nat) (edges : list Edge) (st : BFState) : BFState :=
  match rounds with
  | O => st
  | S r => relaxRounds r edges (foldl relax st edges)
  end.

(** The initialisation of [distances] and [previous]. *)
Definition bfInit (ns : list NodeId) (start : NodeId) : BFState :=
  let st := foldl (fun (st : BFState) nd => (mapSet nd Infinity st.1, mapSet nd None st.2))
                  ([], []) ns in
  (mapSet start (Fin 0) st.1, st.2).

(** The [while (current !== null)] loop of [reconstructPath];
    [path.unshift] puts the node in front. *)
Fixpoint reconstructLoop (fuel : nat) (previous : list (NodeId * option NodeId))
    (start : NodeId) (current : option NodeId) (path : list NodeId)
  : option (list NodeId) :=
  match fuel with
  | O => None
  | S fuel' =>
      match current with
      | None => Some path
      | Some c =>
          if decide (c = start) then Some (c :: path)
          else reconstructLoop fuel' previous start
                 (default None (mapGet c previous)) (c :: path)
      end
  end.

Definition reconstructPath (fuel : nat) (previous : list (NodeId * option NodeId))
    (start target : NodeId) : option (list NodeId) :=
  p ← reconstructLoop fuel previous start (Some target) [];
  match p with
  | first :: _ => if decide (first = start) then Some p else Some []
  | [] => Some []
  end.

(** The loop that builds the result of [bellmanFord]. *)
Fixpoint bfResult (fuel : nat) (st : BFState) (start : NodeId) (ns : list NodeId)
    (acc : list (NodeId * PathResult)) : option (list (NodeId * PathResult)) :=
  match ns with
  | [] => Some acc
  | nd :: ns' =>
      if decide (nd = start) then bfResult fuel st start ns' acc
      else
        p ← reconstructPath fuel st.2 start nd;
        bfResult fuel st start ns'
          (mapSet nd (mkPathResult p (default Infinity (mapGet nd st.1))) acc)
  end.

(** What [bellmanFord] returns: [null] or the map of the paths. *)
Inductive BFOutcome : Type :=
| Null
| Paths (m : list (NodeId * PathResult)).

(** The state after the [nodes.length - 1] rounds. *)
Definition bfRelaxed (g : Graph) (start : NodeId) (edges : list Edge) : BFState :=
  relaxRounds (length (getNodes g) - 1) edges (bfInit (getNodes g) start).

(** [bellmanFord(graph, start)]: [Throw] is an exception of
    [getEdges], the inner [None] the lack of fuel for
    [reconstructPath]. *)
Definition bellmanFord (fuel : nat) (g : Graph) (start : NodeId)
  : result (option BFOutcome) :=
  let ns := getNodes g in
  edges ← getEdges g;
  let st := bfRelaxed g start edges in
  if existsb (relaxable st.1) edges then Ok (Some Null)
  else Ok (Paths <$> bfResult fuel st start ns []).

(** ** Notions used in the statements and in the termination arguments *)

(** The nodes that occur as a target in some neighbor list. *)
Definition allTargets (g : Graph) : list NodeId :=
  map_to_list (adjacencyList g) ≫= (fun kv => node <$> kv.2).

(** How many elements of [universe] the set [visited] does not hold. *)
Definition unvisited (universe visited : list NodeId) : nat :=
  length (filter (fun x => x ∉ visited) universe).

(** How many elements of [universe] have no entry in the map [m]. *)
Definition unmapped {V : Type} (universe : list NodeId) (m : list (NodeId * V)) : nat :=
  length (filter (fun x => mapGet x m = None) universe).

(** The nodes that a traversal of [g] can meet: the nodes of the graph
    and the targets of its neighbor lists. *)
Definition universe (g : Graph) : list NodeId := nodes g ++ allTargets g.

(** What a run of the coloring loop over neighbors keeps and changes,
    from the state [st] (colors, queue) to the state [st']: colors
    stay, the queue grows, what gets a color enters the queue, and the
    measure of the remaining work does not grow. *)
Record colorStep (U : list NodeId) (st st' : list (NodeId * Z) * list NodeId) : Prop := {
  cs_mono : forall x cx, mapGet x st.1 = Some cx -> mapGet x st'.1 = Some cx;
  cs_queue : forall x, x ∈ st.2 -> x ∈ st'.2;
  cs_new : forall x, mapGet x st'.1 <> None -> mapGet x st.1 <> None \/ x ∈ st'.2;
  cs_colored : (forall x, x ∈ st.2 -> mapGet x st.1 <> None) ->
               forall x, x ∈ st'.2 -> mapGet x st'.1 <> None;
  cs_measure : (length st'.2 + 2 * unmapped U st'.1
                <= length st.2 + 2 * unmapped U st.1)%nat
}.

(** The final pass of [bellmanFord] finds an edge that can still be
    relaxed: this is how a negative cycle is detected. *)
Definition negativeCycleDetected (g : Graph) (start : NodeId) (edges : list Edge) : Prop :=
  exists e, e ∈ edges /\ relaxable (bfRelaxed g start edges).1 e = true.

(** The invariant of the relaxations on the map [previous]: an entry
    [previous(v) = u] comes from an edge u -> v of [edges] between two
    nodes at a finite distance, which is tight or can be relaxed again;
    when it cannot, the distance of [u] was last set before that of [v]
    ([T] dates the last change of a distance). *)
Definition predInv (edges : list Edge) (T : NodeId -> nat) (st : BFState) : Prop :=
  forall v u, mapGet v st.2 = Some (Some u) ->
    exists e du dv,
      e ∈ edges /\ efrom e = u /\ eto e = v
      /\ mapGet u st.1 = Some (Fin du) /\ mapGet v st.1 = Some (Fin dv)
      /\ du + default 1 (eweight e) <= dv
      /\ (du + default 1 (eweight e) < dv \/ (T u < T v)%nat).

(** The directed graph of the edges 1 -> 2 and 2 -> 1, both of weight -5. *)
Definition negativeTwoCycle : result Graph :=
  addEdges [mkEdge (NNum 1) (NNum 2) (Some (-5)); mkEdge (NNum 2) (NNum 1) (Some (-5))]
           (newGraph (mkConfig true true true false)).

(** ** The round trip through [GraphData] *)

(** [graphToData(buildGraphFromData(d), id, name)] *)
Definition roundTrip (d : GraphData) (id name : string) : result GraphData :=
  g ← buildGraphFromData d;
  graphToData g id name.

(** The weight of an edge, the absent weight being 1. *)
Definition edgeWeight (e : Edge) : Z := default 1 (eweight e).

(** The edge [e] joins [u] to [v]; in an undirected graph the two
    orientations are the same edge. *)
Definition connects (dir : bool) (e : Edge) (u v : NodeId) : Prop :=
  (efrom e = u /\ eto e = v) \/ (dir = false /\ efrom e = v /\ eto e = u).

(** The list [es] holds an edge from [u] to [v] of weight [w]. *)
Definition hasWeightedEdge (dir : bool) (es : list Edge) (u v : NodeId) (w : Z) : Prop :=
  exists e, e ∈ es /\ edgeWeight e = w /\ connects dir e u v.

(** The same set of edges, taken as weighted pairs. *)
Definition sameEdgeSet (dir : bool) (es es' : list Edge) : Prop :=
  forall u v w, hasWeightedEdge dir es u v w <-> hasWeightedEdge dir es' u v w.

Definition sameNodeSet (ns ns' : list NodeId) : Prop :=
  forall x, x ∈ ns <-> x ∈ ns'.

(** A record valid under its configuration: the edges join listed
    nodes, there is no self-loop unless the configuration allows it,
    and no two edges join the same nodes unless it allows multiple
    edges. *)
Definition validGraphData (d : GraphData) : Prop :=
  (forall e, e ∈ d_edges d -> efrom e ∈ d_nodes d /\ eto e ∈ d_nodes d)
  /\ (allowSelfLoops (d_config d) = false ->
      forall e, e ∈ d_edges d -> efrom e <> eto e)
  /\ (allowMultipleEdges (d_config d) = false ->
      forall (i j : nat) e1 e2, i <> j ->
        d_edges d !! i = Some e1 -> d_edges d !! j = Some e2 ->
        ~ connects (directed (d_config d)) e1 (efrom e2) (eto e2)).

(** What the round trip is to preserve: the node set, the edge set and
    the configuration. *)
Definition preserved (d d' : GraphData) : Prop :=
  sameNodeSet (d_nodes d) (d_nodes d')
  /\ sameEdgeSet (directed (d_config d)) (d_edges d) (d_edges d')
  /\ d_config d' = d_config d.

(** The key under which [getEdges] remembers an edge. *)
Definition keyOf (dir : bool) (e : Edge) : string := edgeKey dir (efrom e) (eto e).

(** The listed nodes have different adjacency keys, and the edges have
    different keys for [getEdges]. *)
Definition distinctKeys (d : GraphData) : Prop :=
  (forall x y, x ∈ d_nodes d -> y ∈ d_nodes d -> String_of x = String_of y -> x = y)
  /\ NoDup (map (keyOf (directed (d_config d))) (d_edges d)).

(** The neighbor list under a key, empty when there is none. *)
Definition slotsOf (g : Graph) (key : string) : list Neighbor :=
  default [] (adjacencyList g !! key).

(** The weight that [getEdges] reports. *)
Definition reportedWeight (w : Z) : option Z :=
  if decide (w = 1) then None else Some w.

(** Two parallel edges in a directed graph that allows them. *)
Definition parallelEdgesData : GraphData :=
  mkGraphData "g" "parallel" [NNum 1; NNum 2]
    [mkEdge (NNum 1) (NNum 2) (Some 3); mkEdge (NNum 1) (NNum 2) (Some 5)]
    (mkConfig true true true true).

(** Two undirected edges whose keys for [getEdges] are both "a-b-c". *)
Definition dashedNamesData : GraphData :=
  mkGraphData "g" "dashes" [NStr "a-b"; NStr "c"; NStr "a"; NStr "b-c"]
    [mkEdge (NStr "a-b") (NStr "c") None; mkEdge (NStr "a") (NStr "b-c") (Some 2)]
    (mkConfig false true true false).

(** The neighbor entry [n] under the key [key] was written for the
    edge [e]: as its forward slot or, in an undirected graph, as its
    mirrored slot. *)
Definition slotFrom (dir : bool) (key : string) (n : Neighbor) (e : Edge) : Prop :=
  weight n = edgeWeight e
  /\ ((String_of (efrom e) = key /\ eto e = node n)
      \/ (dir = false /\ String_of (eto e) = key /\ efrom e = node n)).

(** The state of [buildGraphFromData] once the edges [done] of the
    record [d] are added. *)
Record buildInv (d : GraphData) (done : list Edge) (g : Graph) : Prop := {
  bi_nodes : sameNodeSet (nodes g) (d_nodes d);
  bi_config : config g = d_config d;
  bi_count : edgeCount g = Z.of_nat (length done);
  bi_lists : forall x, x ∈ nodes g -> is_Some (adjacencyList g !! String_of x);
  bi_sound : forall key n, n ∈ slotsOf g key ->
               exists e, e ∈ done /\ slotFrom (directed (d_config d)) key n e;
  bi_complete : forall e, e ∈ done ->
                  mkNeighbor (eto e) (edgeWeight e) ∈ slotsOf g (String_of (efrom e))
}.

(** What [getEdges] has done once it has gone through the neighbor
    entries [slots] (each with the node whose list holds it), from the
    accumulator [acc] (edges, seen keys) to [acc']: every new edge
    comes from an entry, nothing is forgotten, the key of every entry
    is seen, and every seen key is the key of a reported edge. *)
Record scanned (dir : bool) (slots : list (NodeId * Neighbor))
    (acc acc' : list Edge * list string) : Prop := {
  sc_from : forall out, out ∈ acc'.1 ->
              out ∈ acc.1
              \/ exists from n, (from, n) ∈ slots
                   /\ out = mkEdge from (node n) (reportedWeight (weight n));
  sc_keep : forall out, out ∈ acc.1 -> out ∈ acc'.1;
  sc_seen : forall k, k ∈ acc.2 -> k ∈ acc'.2;
  sc_all : forall from n, (from, n) ∈ slots -> edgeKey dir from (node n) ∈ acc'.2;
  sc_keys : (forall k, k ∈ acc.2 -> exists out, out ∈ acc.1 /\ keyOf dir out = k) ->
            forall k, k ∈ acc'.2 -> exists out, out ∈ acc'.1 /\ keyOf dir out = k
}.

(** The neighbor entries of the nodes [ns], each with its node. *)
Definition slotsOfNodes (g : Graph) (ns : list NodeId) : list (NodeId * Neighbor) :=
  ns ≫= (fun from => (fun n => (from, n)) <$> slotsOf g (String_of from)).

(** A directed edge that leaves the string "1" in a record that also
    lists the number 1. *)
Definition numberAndStringData : GraphData :=
  mkGraphData "g" "one" [NNum 1; NStr "1"; NNum 3]
    [mkEdge (NStr "1") (NNum 3) None]
    (mkConfig true false true false).

(** The triangle as a record. *)
Definition triangleData : GraphData :=
  mkGraphData "g" "triangle" [NNum 1; NNum 2; NNum 3]
    [mkEdge (NNum 1) (NNum 2) None; mkEdge (NNum 2) (NNum 3) (Some 4);
     mkEdge (NNum 3) (NNum 1) None]
    (mkConfig false true true false).

(** ** Walks and negative cycles *)

(** The nodes that have an entry in the map [distances] of
    [bellmanFord]: the start node and the nodes of the graph. *)
Definition known (g : Graph) (start x : NodeId) : Prop :=
  x = start \/ x ∈ nodes g.

(** [p] is a walk from [x] to [y]: a chain of edges of [edges], each of
    which leads to a node of [K]. *)
Fixpoint isWalk (edges : list Edge) (K : NodeId -> Prop) (x : NodeId) (p : list Edge)
    (y : NodeId) : Prop :=
  match p with
  | [] => x = y
  | e :: p' => e ∈ edges /\ efrom e = x /\ K (eto e) /\ isWalk edges K (eto e) p' y
  end.

Definition walkWeight (p : list Edge) : Z :=
  foldr (fun e acc => edgeWeight e + acc) 0 p.

(** The nodes that a walk from [x] along [p] goes through. *)
Definition visits (x : NodeId) (p : list Edge) : list NodeId :=
  x :: map eto p.

(** A cycle of negative weight can be reached from [start]. *)
Definition negativeCycleReachable (edges : list Edge) (K : NodeId -> Prop)
    (start : NodeId) : Prop :=
  exists c p0 pc,
    isWalk edges K start p0 c /\ isWalk edges K c pc c /\ walkWeight pc < 0.

(** No cycle that can be reached from [start] has a negative weight. *)
Definition noNegativeCycle (edges : list Edge) (K : NodeId -> Prop)
    (start : NodeId) : Prop :=
  forall c p0 pc,
    isWalk edges K start p0 c -> isWalk edges K c pc c -> 0 <= walkWeight pc.

(** Every finite distance is the weight of a walk from [start]. *)
Definition realizable (edges : list Edge) (K : NodeId -> Prop) (start : NodeId)
    (distances : list (NodeId * Dist)) : Prop :=
  forall v z, mapGet v distances = Some (Fin z) ->
    exists p, isWalk edges K start p v /\ walkWeight p = z.

(** The distances are at most the weights of the walks from [start]
    of at most [k] edges. *)
Definition boundedBy (edges : list Edge) (K : NodeId -> Prop) (start : NodeId)
    (k : nat) (distances : list (NodeId * Dist)) : Prop :=
  forall p v, isWalk edges K start p v -> (length p <= k)%nat ->
    exists z, mapGet v distances = Some (Fin z) /\ z <= walkWeight p.

(** The map [d'] has the keys of [d] and smaller distances. *)
Definition improves (d' d : list (NodeId * Dist)) : Prop :=
  (forall x, is_Some (mapGet x d') <-> is_Some (mapGet x d))
  /\ forall x z, mapGet x d = Some (Fin z) ->
       exists z', mapGet x d' = Some (Fin z') /\ z' <= z.

(** ** Further functions of the sources *)

(** *** lib/algorithms/traversal.ts: breadth-first search *)

(** The body of the loop of [bfs] over the neighbors: a neighbor not
    yet visited is marked visited and enters the queue.  The state is
    the pair of the set [visited] and the array [queue]. *)
Definition enqueueNew (st : list NodeId * list NodeId) (n : Neighbor)
  : list NodeId * list NodeId :=
  if decide (node n ∈ st.1) then st
  else (setAdd (node n) st.1, st.2 ++ [node n]).

(** The [while (queue.length > 0)] loop of [bfs]; [queue.shift()]
    takes the head of the list.  As for [dfs], the model keeps [order]
    and leaves out the step records, which the loop never reads. *)
Fixpoint bfsLoop (fuel : nat) (g : Graph) (queue visited order : list NodeId)
  : option (list NodeId) :=
  match fuel with
  | O => None
  | S fuel' =>
      match queue with
      | [] => Some order
      | current :: queue' =>
          let st := foldl enqueueNew (visited, queue') (getNeighbors current g) in
          bfsLoop fuel' g st.2 st.1 (order ++ [current])
      end
  end.

Definition bfs (fuel : nat) (g : Graph) (start : NodeId) : option (list NodeId) :=
  bfsLoop fuel g [start] (setAdd start []) [].

(** *** lib/algorithms/properties: paths, stars, regular graphs *)

(** The loop of [isPath] over the nodes: it counts the nodes of degree
    1 and stops ([None]) at a node whose degree is neither 1 nor 2. *)
Definition countEndpoint (g : Graph) (nd : NodeId) (endpointCount : Z) : option Z :=
  let d := degree (getDegree nd g) in
  if d =? 1 then Some (endpointCount + 1)
  else if negb (d =? 2) then None
  else Some endpointCount.

Definition isPath (fuel : nat) (g : Graph) : option bool :=
  let ns := getNodes g in
  let n := Z.of_nat (length ns) in
  if n <? 2 then Some (n =? 1)
  else
    match forEachM (countEndpoint g) ns 0 with
    | None => Some false
    | Some endpointCount =>
        if negb (endpointCount =? 2) then Some false
        else
          match ns with
          | [] => Some false
          | first :: _ =>
              visited ← reachLoop fuel g [first] [];
              Some (Z.of_nat (length visited) =? n)
          end
    end.

(** The loop of [isStar]: it counts the nodes of degree n - 1 and
    stops at a node whose degree is neither n - 1 nor 1. *)
Definition countCenter (g : Graph) (n : Z) (nd : NodeId) (centerCount : Z) : option Z :=
  let d := degree (getDegree nd g) in
  if d =? n - 1 then Some (centerCount + 1)
  else if negb (d =? 1) then None
  else Some centerCount.

Definition isStar (g : Graph) : bool :=
  let ns := getNodes g in
  let n := Z.of_nat (length ns) in
  if n <? 3 then false
  else
    match forEachM (countCenter g n) ns 0 with
    | None => false
    | Some centerCount => centerCount =? 1
    end.

Record RegularResult : Type := mkRegularResult {
  regular : bool;
  r_degree : option Z
}.

Definition isRegular (g : Graph) : RegularResult :=
  match getNodes g with
  | [] => mkRegularResult true (Some 0)
  | first :: _ =>
      let firstDegree := degree (getDegree first g) in
      if forallb (fun nd => degree (getDegree nd g) =? firstDegree) (getNodes g)
      then mkRegularResult true (Some firstDegree)
      else mkRegularResult false None
  end.

(** *** lib/graph/parser.ts: [formatEdges] *)

(** One edge of [formatEdges]: [`${from}${connector}${to}${weight}`]. *)
Definition formatEdge (dir : bool) (edge : Edge) : string :=
  String_of (efrom edge) +:+ (if dir then "->" else "-") +:+ String_of (eto edge)
  +:+ match eweight edge with
      | Some w => ":" +:+ pretty w
      | None => ""
      end.

(** [array.join(sep)] *)
Fixpoint join (sep : string) (l : list string) : string :=
  match l with
  | [] => ""
  | [s] => s
  | s :: l' => s +:+ sep +:+ join sep l'
  end.

Definition formatEdges (edges : list Edge) (dir : bool) : string :=
  join ", " (map (formatEdge dir) edges).

(** ** Notions used in the statements about these functions *)

(** Every node of the graph has a neighbor list. *)
Definition wellKeyed (g : Graph) : Prop :=
  forall x, x ∈ nodes g -> is_Some (adjacencyList g !! String_of x).

(** Every neighbor entry points to a node of the graph. *)
Definition closedTargets (g : Graph) : Prop :=
  forall key l n, adjacencyList g !! key = Some l -> n ∈ l -> node n ∈ nodes g.

(** [y] is a neighbor of [x], and the nodes that can be reached from
    a node by following neighbor entries. *)
Definition neighborOf (g : Graph) (x y : NodeId) : Prop :=
  exists n, n ∈ getNeighbors x g /\ node n = y.

Definition reachable (g : Graph) : NodeId -> NodeId -> Prop := rtc (neighborOf g).


(** The two together: the state that the methods of the class keep. *)
Definition wellFormed (g : Graph) : Prop := wellKeyed g /\ closedTargets g.


(** The characters that [parseDigits] reads. *)
Definition isDigit (c : ascii) : bool :=
  match digitValue c with Some _ => true | None => false end.


(** Every character of the string satisfies [p]. *)
Fixpoint allChars (p : ascii -> bool) (s : string) : bool :=
  match s with
  | EmptyString => true
  | String c s' => p c && allChars p s'
  end.

(** An edge between two numbers. *)
Definition numericEdge (e : Edge) : Prop :=
  exists a b : Z, efrom e = NNum a /\ eto e = NNum b.

(** The characters of the segments that [formatEdges] writes for
    numeric edges: digits, the minus sign, [>] and [:]. *)
Definition isSegmentChar (c : ascii) : bool :=
  (isDigit c || Ascii.eqb c "-" || Ascii.eqb c ">" || Ascii.eqb c ":")%char.


(** The work that is left for a search that has visited [visited]:
    one unit for every node of [universe] that is not visited, and one
    for each of its neighbor entries. *)
Definition pending (g : Graph) (universe visited : list NodeId) : nat :=
  sum_list (map (fun x => S (length (getNeighbors x g)))
                (filter (fun x => x ∉ visited) universe)).


(** The path 1 - 2 - 3 as a record: a tree. *)
Definition pathData : GraphData :=
  mkGraphData "g" "path" [NNum 1; NNum 2; NNum 3]
    [mkEdge (NNum 1) (NNum 2) None; mkEdge (NNum 2) (NNum 3) None]
    (mkConfig false false true false).


(** The state of the coloring of [isBipartite]: the colors are 0 and
    1, every node of the queue has a color, and a node that has a
    color and has left the queue has its neighbors in the other
    color. *)
Record coloring (g : Graph) (color : list (NodeId * Z)) (queue : list NodeId) : Prop := {
  col_keys : NoDup (map fst color);
  col_values : forall x c, mapGet x color = Some c -> c = 0 \/ c = 1;
  col_queue : forall x, x ∈ queue -> mapGet x color <> None;
  col_done : forall x c, mapGet x color = Some c ->
               x ∈ queue
               \/ forall n, n ∈ getNeighbors x g -> mapGet (node n) color = Some (1 - c)
}.

(** A coloring of the nodes in which every neighbor entry of a node
    joins two nodes of different colors. *)
Definition properColoring (g : Graph) (f : NodeId -> bool) : Prop :=
  forall x n, x ∈ nodes g -> n ∈ getNeighbors x g -> f (node n) = negb (f x).

(** Every neighbor entry of a node has its mirror. *)
Definition symmetric (g : Graph) : Prop :=
  forall x y, x ∈ nodes g -> neighborOf g x y -> neighborOf g y x.


(** The state of one run of the coloring of [isBipartite], started at
    [start] with the colors [color0], against a proper coloring [f]:
    what has a color is a node, the colors of [color0] stay, the queue
    holds nodes that this run has colored, and these have the color 0
    exactly when [f] gives them the color of [start]. *)
Record runInv (g : Graph) (f : NodeId -> bool) (color0 : list (NodeId * Z))
    (start : NodeId) (color : list (NodeId * Z)) (queue : list NodeId) : Prop := {
  ri_nodes : forall x, mapGet x color <> None -> x ∈ nodes g;
  ri_old : forall x cx, mapGet x color0 = Some cx -> mapGet x color = Some cx;
  ri_queue : forall x, x ∈ queue -> mapGet x color0 = None;
  ri_side : forall x cx, mapGet x color0 = None -> mapGet x color = Some cx ->
              (cx = 0 <-> f x = f start)
}.


(** The state of the loop of [prim] started at [s]: the visited nodes
    are [s] and the targets of the chosen edges, in the order in which
    they were chosen; each chosen edge leaves a node visited before it
    along a neighbor entry of the graph; the queue holds entries of the
    graph that leave visited nodes; and a neighbor of a visited node is
    visited or waits in the queue. *)
Record primInv (g : Graph) (s : NodeId) (st : PrimState) : Prop := {
  pi_visited : p_visited st = s :: map eto (p_mstEdges st);
  pi_nodup : NoDup (p_visited st);
  pi_weight : p_totalWeight st = walkWeight (p_mstEdges st);
  pi_tree : forall before e after, p_mstEdges st = before ++ e :: after ->
              efrom e ∈ s :: map eto before
              /\ mkNeighbor (eto e) (edgeWeight e) ∈ getNeighbors (efrom e) g;
  pi_queue : forall e w, (e, w) ∈ pq st ->
               efrom e ∈ p_visited st /\ eweight e = Some w
               /\ mkNeighbor (eto e) w ∈ getNeighbors (efrom e) g;
  pi_reach : forall x, x ∈ p_visited st -> reachable g s x;
  pi_frontier : forall x n, x ∈ p_visited st -> n ∈ getNeighbors x g ->
                  node n ∈ p_visited st
                  \/ exists e w, (e, w) ∈ pq st /\ eto e = node n
}.


(** The loop of [removeNode id] on a graph [g], after the nodes [done]:
    the nodes, the configuration and the keys of the lists are those of
    [g], no list names a node twice, and the list of a node other than
    [id] is its list in [g] from which at most entries for [id] have
    been removed, all of them once the node is done. *)
Record removeInv (g : Graph) (id : NodeId) (done : list NodeId) (h : Graph) : Prop := {
  rm_nodes : nodes h = nodes g;
  rm_config : config h = config g;
  rm_keys : forall key, is_Some (adjacencyList h !! key) <-> is_Some (adjacencyList g !! key);
  rm_simple : forall key l, adjacencyList h !! key = Some l -> NoDup (map node l);
  rm_lists : forall x, x ∈ nodes g -> x ≠ id ->
    exists l, adjacencyList h !! String_of x = Some l
      /\ filter (fun n => node n ≠ id) l = filter (fun n => node n ≠ id) (getNeighbors x g)
      /\ (x ∈ done -> l = filter (fun n => node n ≠ id) (getNeighbors x g))
}.


(** A graph in which every list belongs to a node, different nodes
    have different keys, and no list names a node twice. *)
Definition simpleGraph (g : Graph) : Prop :=
  (forall key, is_Some (adjacencyList g !! key) ->
     exists x, x ∈ nodes g /\ key = String_of x)
  /\ (forall x y, x ∈ nodes g -> y ∈ nodes g -> String_of x = String_of y -> x = y)
  /\ (forall key l, adjacencyList g !! key = Some l -> NoDup (map node l)).


(** An edge of [es] joins [x] and [y], in one direction or the other;
    and the nodes joined by a chain of edges of [es]. *)
Definition joins (es : list Edge) (x y : NodeId) : Prop :=
  exists e, e ∈ es /\ ((efrom e = x /\ eto e = y) \/ (efrom e = y /\ eto e = x)).

Definition joined (es : list Edge) : NodeId -> NodeId -> Prop := rtc (joins es).

(** The union-find structure over the nodes [ns], with the
    representative [rep x] of the class of each node: the parent of a
    node is a node of its class, the roots are the representatives, the
    ranks lie between 0 and [K] and grow from a node to its parent. *)
Record ufInv (ns : list NodeId) (K : Z) (rep : NodeId -> NodeId) (uf : UnionFind)
  : Prop := {
  uf_rep : forall x, x ∈ ns -> rep x ∈ ns /\ rep (rep x) = rep x;
  uf_parent : forall x, x ∈ ns ->
    exists p, getParent (Some x) uf = Some p /\ p ∈ ns /\ rep p = rep x
      /\ (p = x <-> rep x = x);
  uf_rank : forall x, x ∈ ns -> exists r, getRank (Some x) uf = Some r /\ 0 <= r <= K;
  uf_order : forall x p r rp, x ∈ ns ->
    getParent (Some x) uf = Some p -> p ≠ x ->
    getRank (Some x) uf = Some r -> getRank (Some p) uf = Some rp -> r < rp
}.

(** The state of the loop of [kruskal] over the nodes [ns]: the
    classes of the union-find structure are the sets of nodes joined
    by the chosen edges, there are as many classes as nodes less
    chosen edges, and [totalWeight] is the weight of the chosen
    edges. *)
Record kruskalInv (ns : list NodeId) (rep : NodeId -> NodeId) (st : KruskalState)
  : Prop := {
  ki_uf : ufInv ns (Z.of_nat (length (mstEdges st))) rep (k_uf st);
  ki_ends : forall e, e ∈ mstEdges st -> efrom e ∈ ns /\ eto e ∈ ns;
  ki_same : forall e, e ∈ mstEdges st -> rep (efrom e) = rep (eto e);
  ki_joined : forall x, x ∈ ns -> joined (mstEdges st) x (rep x);
  ki_count : (length (filter (fun x => rep x = x) ns) + length (mstEdges st)
              = length ns)%nat;
  ki_forest : forall before e after, mstEdges st = before ++ e :: after ->
    ~ joined before (efrom e) (eto e);
  ki_weight : k_totalWeight st = walkWeight (mstEdges st)
}.


(** *** lib/algorithms/shortest-path: Dijkstra *)

Inductive DijkstraAction : Type := Process | Relax | SkipNeighbor.

(** A step record; [neighbor], [oldDistance] and [newDistance] are
    optional, and a distance read from the map may be [undefined]. *)
Record DijkstraStep : Type := mkDijkstraStep {
  ds_step : Z;
  ds_action : DijkstraAction;
  ds_currentNode : NodeId;
  ds_neighbor : option NodeId;
  ds_oldDistance : option Dist;
  ds_newDistance : option Dist;
  ds_distances : list (NodeId * Dist);
  ds_visited : list NodeId
}.

(** The variables of [dijkstra]; [dj_items] is the array of the
    priority queue. *)
Record DijkstraState : Type := mkDijkstraState {
  dj_distances : list (NodeId * Dist);
  dj_previous : list (NodeId * option NodeId);
  dj_items : list (NodeId * Z);
  dj_visited : list NodeId;
  dj_steps : list DijkstraStep;
  dj_stepCount : Z
}.

(** [PriorityQueue.enqueue]: push, then sort by priority. *)
Definition enqueue (element : NodeId) (priority : Z) (items : list (NodeId * Z))
  : list (NodeId * Z) :=
  sortBy snd (items ++ [(element, priority)]).

(** The body of the loop over the neighbors of [current].  The
    comparison [newDist < oldDist] is false when [oldDist] is
    [undefined] and when [newDist] is not a finite number. *)
Definition relaxNeighbor (recordSteps : bool) (current : NodeId) (currentDist : option Dist)
    (st : DijkstraState) (n : Neighbor) : DijkstraState :=
  let neighbor := node n in
  let newDist := (fun d => distAdd d (weight n)) <$> currentDist in
  let oldDist := mapGet neighbor (dj_distances st) in
  let skipped :=
    if recordSteps then
      mkDijkstraState (dj_distances st) (dj_previous st) (dj_items st) (dj_visited st)
        (dj_steps st ++ [mkDijkstraStep (dj_stepCount st) SkipNeighbor current (Some neighbor)
                           oldDist None (dj_distances st) (dj_visited st)])
        (dj_stepCount st + 1)
    else st in
  match newDist, oldDist with
  | Some (Fin z), Some old =>
      if distLt (Fin z) old then
        let distances := mapSet neighbor (Fin z) (dj_distances st) in
        mkDijkstraState distances (mapSet neighbor (Some current) (dj_previous st))
          (enqueue neighbor z (dj_items st)) (dj_visited st)
          (if recordSteps
           then dj_steps st ++ [mkDijkstraStep (dj_stepCount st) Relax current (Some neighbor)
                                  oldDist newDist distances (dj_visited st)]
           else dj_steps st)
          (if recordSteps then dj_stepCount st + 1 else dj_stepCount st)
      else skipped
  | _, _ => skipped
  end.

(** The [while (!pq.isEmpty())] loop; [target] is the optional [end]. *)
Fixpoint dijkstraLoop (fuel : nat) (g : Graph) (target : option NodeId)
    (recordSteps : bool) (st : DijkstraState) : option DijkstraState :=
  match fuel with
  | O => None
  | S fuel' =>
      match dj_items st with
      | [] => Some st
      | (current, _) :: rest =>
          let currentDist := mapGet current (dj_distances st) in
          if decide (current ∈ dj_visited st) then
            dijkstraLoop fuel' g target recordSteps
              (mkDijkstraState (dj_distances st) (dj_previous st) rest (dj_visited st)
                 (dj_steps st) (dj_stepCount st))
          else
            let visited := setAdd current (dj_visited st) in
            let st1 :=
              mkDijkstraState (dj_distances st) (dj_previous st) rest visited
                (if recordSteps
                 then dj_steps st ++ [mkDijkstraStep (dj_stepCount st) Process current None
                                        None None (dj_distances st) visited]
                 else dj_steps st)
                (if recordSteps then dj_stepCount st + 1 else dj_stepCount st) in
            if decide (target = Some current) then Some st1
            else if decide (currentDist = Some Infinity) then
              dijkstraLoop fuel' g target recordSteps st1
            else
              dijkstraLoop fuel' g target recordSteps
                (foldl (relaxNeighbor recordSteps current currentDist) st1
                       (getNeighbors current g))
      end
  end.

(** What [dijkstra] returns with an [end] node: the distance is
    [distances.get(end)!]. *)
Record SinglePath : Type := mkSinglePath {
  sp_path : list NodeId;
  sp_distance : option Dist;
  sp_steps : option (list DijkstraStep)
}.

Inductive DijkstraResult : Type :=
| Single (r : SinglePath)
| AllPaths (m : list (NodeId * PathResult)).

(** [dijkstra(graph, start, end, options)]; [None] is the lack of
    fuel.  The maps are initialised as in [bellmanFord], and without an
    [end] the result is built by the same loop over the nodes, each of
    which has a distance in the map. *)
Definition dijkstra (fuel : nat) (g : Graph) (start : NodeId) (target : option NodeId)
    (recordSteps : bool) : option DijkstraResult :=
  let init := bfInit (getNodes g) start in
  st ← dijkstraLoop fuel g target recordSteps
         (mkDijkstraState init.1 init.2 (enqueue start 0 []) [] [] 0);
  match target with
  | Some e =>
      p ← reconstructPath fuel (dj_previous st) start e;
      Some (Single (mkSinglePath p (mapGet e (dj_distances st))
                      (if recordSteps then Some (dj_steps st) else None)))
  | None =>
      AllPaths <$> bfResult fuel (dj_distances st, dj_previous st) start (getNodes g) []
  end.

(** A route from [x] to [y]: a chain of neighbor entries; its weight;
    and the nodes that it goes through. *)
Fixpoint isRoute (g : Graph) (x : NodeId) (p : list Neighbor) (y : NodeId) : Prop :=
  match p with
  | [] => x = y
  | n :: p' => n ∈ getNeighbors x g /\ isRoute g (node n) p' y
  end.

Definition routeWeight (p : list Neighbor) : Z :=
  foldr (fun n acc => weight n + acc) 0 p.

Definition routeNodes (x : NodeId) (p : list Neighbor) : list NodeId :=
  x :: map node p.

(** A queue in ascending order of priority. *)
Fixpoint ascending (l : list (NodeId * Z)) : Prop :=
  match l with
  | [] => True
  | a :: l' => (forall b, b ∈ l' -> a.2 <= b.2) /\ ascending l'
  end.

(** The state of the loop of [dijkstra] from [start]; [todo] holds
    the neighbor entries of the current node that the inner loop has
    still to look at.  Every finite distance is the weight of a route
    from [start]; the entries of [previous] lead back to nodes visited
    earlier, along an entry whose weight is the difference of the
    distances; the visited nodes are at most as far as the others; the
    queue is in ascending order, has an entry for every node at a
    finite distance that is not visited, and no priority below the
    distance of its node; and no entry out of a visited node shortens
    a distance, those of [todo] apart. *)
Record dijkstraInv (g : Graph) (start : NodeId) (todo : list (NodeId * Neighbor))
    (st : DijkstraState) : Prop := {
  di_keys : forall x, is_Some (mapGet x (dj_distances st)) <-> known g start x;
  di_start : mapGet start (dj_distances st) = Some (Fin 0);
  di_route : forall v z, mapGet v (dj_distances st) = Some (Fin z) ->
    exists p, isRoute g start p v /\ routeWeight p = z;
  di_previous : forall v u, mapGet v (dj_previous st) = Some (Some u) ->
    v ≠ start /\ u ∈ dj_visited st
    /\ exists n du, n ∈ getNeighbors u g /\ node n = v
         /\ mapGet u (dj_distances st) = Some (Fin du)
         /\ mapGet v (dj_distances st) = Some (Fin (du + weight n));
  di_before : forall v u V1 V2, mapGet v (dj_previous st) = Some (Some u) ->
    dj_visited st = V1 ++ v :: V2 -> u ∈ V1;
  di_has_previous : forall v z, mapGet v (dj_distances st) = Some (Fin z) ->
    v = start \/ exists u, mapGet v (dj_previous st) = Some (Some u);
  di_visited : forall v, v ∈ dj_visited st ->
    exists z, mapGet v (dj_distances st) = Some (Fin z);
  di_nodup : NoDup (dj_visited st);
  di_order : forall u x du dx, u ∈ dj_visited st -> x ∉ dj_visited st ->
    mapGet u (dj_distances st) = Some (Fin du) ->
    mapGet x (dj_distances st) = Some (Fin dx) -> du <= dx;
  di_items : forall x p, (x, p) ∈ dj_items st ->
    exists z, mapGet x (dj_distances st) = Some (Fin z) /\ z <= p;
  di_sorted : ascending (dj_items st);
  di_pending : forall x z, x ∉ dj_visited st ->
    mapGet x (dj_distances st) = Some (Fin z) -> (x, z) ∈ dj_items st;
  di_settled : forall u n du, u ∈ dj_visited st -> n ∈ getNeighbors u g ->
    mapGet u (dj_distances st) = Some (Fin du) ->
    (u, n) ∈ todo
    \/ exists dv, mapGet (node n) (dj_distances st) = Some (Fin dv) /\ dv <= du + weight n
}.

(** The distance [d] and the path [p] that [dijkstra] gives for a
    node: a finite distance is the weight of a lightest route from
    [start], and the path lists the nodes of a route of this weight;
    otherwise no route reaches the node, and the path is empty. *)
Definition shortestTo (g : Graph) (start nd : NodeId) (d : option Dist)
    (p : list NodeId) : Prop :=
  match d with
  | Some (Fin z) =>
      (exists q, isRoute g start q nd /\ routeWeight q = z /\ p = routeNodes start q)
      /\ forall q, isRoute g start q nd -> z <= routeWeight q
  | _ => p = [] /\ forall q, ~ isRoute g start q nd
  end.

(** ** The domain on which the embedding is exact *)

(** An integer that is a double, as are all the integers between it
    and 0: on these [String] prints all the digits and [parseFloat]
    reads them back as the same number. *)
Definition safeInteger (z : Z) : Prop := Z.abs z <= 2 ^ 53.

(** The weights of the graph are small enough for any [count] of them
    to be added without rounding: a sum that an algorithm forms from
    at most [count] weights is an integer of absolute value at most
    2^53, and on these the addition and the comparison of doubles are
    those of [Z]. *)
Definition safeWeights (g : Graph) (count : nat) : Prop :=
  exists bound,
    (forall x n, n ∈ getNeighbors x g -> Z.abs (weight n) <= bound)
    /\ Z.of_nat count * bound <= 2 ^ 53.

(** An edge between two such numbers, with such a weight when it has
    one. *)
Definition safeEdge (e : Edge) : Prop :=
  (exists a b, efrom e = NNum a /\ eto e = NNum b /\ safeInteger a /\ safeInteger b)
  /\ forall w, eweight e = Some w -> safeInteger w.

(** ** Negative cycles of the graph itself *)

(** No neighbor list names a node twice: the graph has no parallel
    edges. *)
Definition noParallelEntries (g : Graph) : Prop :=
  forall key l, adjacencyList g !! key = Some l -> NoDup (map node l).

(** Different pairs of nodes have different keys for [getEdges]. *)
Definition distinctPairKeys (g : Graph) : Prop :=
  forall a b c d, a ∈ nodes g -> b ∈ nodes g -> c ∈ nodes g -> d ∈ nodes g ->
    edgeKey (directed (config g)) a b = edgeKey (directed (config g)) c d ->
    a = c /\ b = d.

(** A cycle of negative weight can be reached from [start] by
    following neighbor entries. *)
Definition negativeCycleFrom (g : Graph) (start : NodeId) : Prop :=
  exists c p0 pc, isRoute g start p0 c /\ isRoute g c pc c /\ routeWeight pc < 0.

(** The neighbor entry that an edge of [getEdges] comes from. *)
Definition entryOf (e : Edge) : Neighbor := mkNeighbor (eto e) (edgeWeight e).

(** The directed graph with the parallel edges 1 -> 2 of weight 5 and
    1 -> 2 of weight -10, and the edge 2 -> 1 of weight 3
    ([allowMultipleEdges] is set). *)
Definition parallelEdgeCycle : result Graph :=
  addEdges [mkEdge (NNum 1) (NNum 2) (Some 5); mkEdge (NNum 1) (NNum 2) (Some (-10));
            mkEdge (NNum 2) (NNum 1) (Some 3)]
           (newGraph (mkConfig true true true true)).

(** On a new directed graph that allows multiple edges:
    [addEdge({from: "a", to: "toString"})] twice,
    [removeNode("toString")], then [addEdge({from: "u", to: "u"})]. *)
Definition danglingSelfLoop : result Graph :=
  g1 ← addEdges [mkEdge (NStr "a") (NStr "toString") None;
                 mkEdge (NStr "a") (NStr "toString") None]
                (newGraph (mkConfig true false true true));
  g2 ← removeNode (NStr "toString") g1;
  addEdge (mkEdge (NStr "u") (NStr "u") None) g2.

(** * Properties *)

(** ** Concrete graphs used below *)

Definition undirectedConfig : GraphConfig := mkConfig false false true false.
Definition directedWeightedConfig : GraphConfig := mkConfig true true true false.

(** [addNode(1); addEdge({from: 1, to: 2})] on a new undirected graph. *)
Definition oneEdgeGraph : result Graph :=
  addEdge (mkEdge (NNum 1) (NNum 2) None) (addNode (NNum 1) (newGraph undirectedConfig)).

(** The graph of the edge input ["1-2, 2-3, 3-1"], undirected and
    unweighted. *)
Definition triangle : result BuildResult :=
  buildGraphFromEdges "1-2, 2-3, 3-1" false false.

(** * Theorems *)

(** ** Checks of the embedding on small inputs *)

Example parse_triangle :
  r_edges (parseEdgeInput "1-2, 2-3, 3-1" None)
  = [mkEdge (NNum 1) (NNum 2) None; mkEdge (NNum 2) (NNum 3) None;
     mkEdge (NNum 3) (NNum 1) None].
Proof. vm_compute. reflexivity. Qed.

Example parse_weighted_arrow :
  parseEdgeSegment "1 -> 2 : 5" 1
  = Ok (mkParsedEdge (NNum 1) (NNum 2) (Some 5) (Some true)).
Proof. vm_compute. reflexivity. Qed.

Example parse_names :
  parseEdgeSegment "A-B=7" 1
  = Ok (mkParsedEdge (NStr "A") (NStr "B") (Some 7) (Some false)).
Proof. vm_compute. reflexivity. Qed.

Example parse_empty :
  parseEdgeInput "" None = mkParseResult [] ["No edges provided"] [].
Proof. vm_compute. reflexivity. Qed.

Example parse_mixed :
  let r := parseEdgeInput "1-2, 2->3" (Some (mkParserOptions (Some false) None)) in
  length (r_edges r) = 2%nat /\ length (r_warnings r) = 1%nat /\ r_errors r = [].
Proof. vm_compute. auto. Qed.

Example parse_errors :
  r_errors (parseEdgeInput "1-2; x; 3-4:w" None)
  = ["Line 2: Invalid edge format: " +:+ String "034" "x" +:+ String "034"
       ". Use formats like " +:+ String "034" "1-2" +:+ String "034" ", "
       +:+ String "034" "1->2" +:+ String "034" ", or "
       +:+ String "034" "1-2:5" +:+ String "034" "";
     "Line 3: Invalid weight: " +:+ String "034" "w" +:+ String "034" ""].
Proof. vm_compute. reflexivity. Qed.

Example removeNode_run :
  (g ← addEdges [mkEdge (NNum 1) (NNum 2) None; mkEdge (NNum 2) (NNum 3) None]
        (newGraph undirectedConfig);
   g' ← removeNode (NNum 2) g;
   Ok (nodes g', edgeCount g', getNeighbors (NNum 1) g', getNeighbors (NNum 3) g'))
  = Ok ([NNum 1; NNum 3], 0, [], []).
Proof. vm_compute. reflexivity. Qed.

Example getEdges_run :
  (g ← addEdges [mkEdge (NNum 2) (NNum 1) (Some 4); mkEdge (NNum 2) (NNum 3) None]
        (newGraph undirectedConfig);
   getEdges g)
  = Ok [mkEdge (NNum 2) (NNum 1) (Some 4); mkEdge (NNum 2) (NNum 3) None].
Proof. vm_compute. reflexivity. Qed.

(** ** The edge counter of an undirected graph *)

(** C1. On a new undirected graph, [addEdge({from: 1, to: 2})] adds two
    neighbor slots but counts one insertion: the reported
    [totalEdgeCount] is 1/2, which is neither the slot count halved
    (2 / 2 = 1) nor a whole number, and not the number k = 1 of edges
    added. *)
Theorem totalEdgeCount_one_undirected_edge :
  exists g,
    addEdge (mkEdge (NNum 1) (NNum 2) None) (newGraph undirectedConfig) = Ok g
    /\ slotCount g = 2
    /\ edgeCount g = 1
    /\ (totalEdgeCount g == 1 # 2)%Q
    /\ ~ (totalEdgeCount g == inject_Z (slotCount g) / 2)%Q
    /\ ~ (exists k : Z, (totalEdgeCount g == inject_Z k)%Q).
Proof.
  eexists. split; [vm_compute; reflexivity|].
  split; [vm_compute; reflexivity|].
  split; [vm_compute; reflexivity|].
  split; [vm_compute; reflexivity|].
  split.
  - intros H. vm_compute in H. discriminate H.
  - intros [k H]. unfold Qeq in H. cbn in H. lia.
Qed.

(** [isTree] compares [totalEdgeCount] with n - 1: the path 1 - 2, a
    tree of two nodes and one edge, is not taken for a tree. *)
Example isTree_single_edge :
  (g ← addEdge (mkEdge (NNum 1) (NNum 2) None) (newGraph undirectedConfig);
   Ok (isTree 5 g)) = Ok (Some false).
Proof. vm_compute. reflexivity. Qed.

(** ** Adding an edge that exists already *)

Lemma addNode_known id g : id ∈ nodes g -> addNode id g = g.
Proof. intros H. unfold addNode. destruct (decide (id ∈ nodes g)); [reflexivity | contradiction]. Qed.

Lemma setFirstWeight_found target w l n :
  List.find (fun n => bool_decide (node n = target)) l = Some n ->
  exists l', setFirstWeight target w l = Some l'
    /\ List.find (fun n => bool_decide (node n = target)) l' = Some (mkNeighbor (node n) w)
    /\ length l' = length l.
Proof.
  induction l as [|a l IH]; simpl; [discriminate|].
  destruct (decide (node a = target)) as [Heq|Hne].
  - rewrite bool_decide_eq_true_2 by assumption. intros [= ->].
    eexists. split; [reflexivity|]. simpl.
    rewrite bool_decide_eq_true_2 by assumption. auto.
  - rewrite bool_decide_eq_false_2 by assumption. intros Hf.
    destruct (IH Hf) as (l' & -> & Hf' & Hlen).
    eexists. split; [reflexivity|]. simpl.
    rewrite bool_decide_eq_false_2 by assumption. auto.
Qed.

(** C4. In a graph without multiple edges, [addEdge] of an edge u-v
    that exists already (u and v under different adjacency keys) writes
    the new weight into the entry of v in the list of u, adds no slot
    and leaves the counter alone; it then returns, so that the list of v,
    and with it [getEdgeWeight(v, u)], is what it was: in an undirected
    graph the mirrored entry keeps the old weight. *)
Theorem addEdge_existing_updates_one_direction g u v w1 w2 :
  allowMultipleEdges (config g) = false ->
  u ∈ nodes g -> v ∈ nodes g ->
  String_of u <> String_of v ->
  getEdgeWeight u v g = Some w1 ->
  exists g',
    addEdge (mkEdge u v (Some w2)) g = Ok g'
    /\ getEdgeWeight u v g' = Some w2
    /\ edgeCount g' = edgeCount g
    /\ length (getNeighbors u g') = length (getNeighbors u g)
    /\ getNeighbors v g' = getNeighbors v g
    /\ getEdgeWeight v u g' = getEdgeWeight v u g.
Proof.
  intros Hmulti Hu Hv Hkey Hw.
  assert (Huv : u <> v) by (intros ->; contradiction).
  unfold getEdgeWeight in Hw.
  destruct (adjacencyList g !! String_of u) as [l|] eqn:Hl; [|discriminate].
  simpl in Hw.
  destruct (List.find (fun n => bool_decide (node n = v)) l) as [n|] eqn:Hfind;
    [|discriminate].
  destruct (setFirstWeight_found v w2 l n Hfind) as (l' & Hset & Hfind' & Hlen).
  exists (withAdjacency g (<[String_of u := l']> (adjacencyList g))).
  split.
  - unfold addEdge. simpl.
    rewrite (bool_decide_eq_false_2 _ Huv), andb_false_r.
    rewrite (addNode_known u g Hu), (addNode_known v g Hv).
    unfold listAt. rewrite Hl. simpl. rewrite Hmulti, Hset. reflexivity.
  - unfold getEdgeWeight, getNeighbors. simpl.
    rewrite lookup_insert_eq, Hl. simpl. rewrite Hfind'. simpl.
    rewrite lookup_insert_ne by assumption.
    repeat split; auto.
Qed.

(** The theorem at [addEdge({from: 1, to: 2, weight: 5})] followed by
    [addEdge({from: 1, to: 2, weight: 7})] on an undirected graph:
    [getEdgeWeight(1, 2)] is 7 and [getEdgeWeight(2, 1)] is still 5. *)
Lemma addEdge_twice_keeps_mirror_weight :
  exists g g',
    addEdge (mkEdge (NNum 1) (NNum 2) (Some 5)) (newGraph undirectedConfig) = Ok g
    /\ addEdge (mkEdge (NNum 1) (NNum 2) (Some 7)) g = Ok g'
    /\ getEdgeWeight (NNum 1) (NNum 2) g' = Some 7
    /\ getEdgeWeight (NNum 2) (NNum 1) g' = Some 5
    /\ edgeCount g' = edgeCount g.
Proof.
  eexists. 
  destruct (addEdge_existing_updates_one_direction
              (mkGraph (<["2" := [mkNeighbor (NNum 1) 5]]>
                          (<["1" := [mkNeighbor (NNum 2) 5]]> ∅))
                       [NNum 1; NNum 2] undirectedConfig 1)
              (NNum 1) (NNum 2) 5 7)
    as (g' & Hadd & Huv & Hcount & _ & _ & Hvu).
  - reflexivity.
  - apply list_elem_of_In. simpl. auto.
  - apply list_elem_of_In. simpl. auto.
  - vm_compute. discriminate.
  - vm_compute. reflexivity.
  - exists g'. split; [vm_compute; reflexivity|].
    split; [exact Hadd|]. split; [exact Huv|]. split; [|exact Hcount].
    rewrite Hvu. vm_compute. reflexivity.
Defined.

(** ** Node identity and adjacency keys *)

(** [addNode] of an id that the node set does not hold gives the empty
    neighbor list to its key, whatever list the key had. *)
Lemma addNode_new_resets_key g id x :
  id ∉ nodes g -> String_of x = String_of id ->
  getNeighbors x (addNode id g) = [].
Proof.
  intros Hnew Hkey. unfold addNode, getNeighbors.
  destruct (decide (id ∈ nodes g)); [contradiction|].
  simpl. rewrite Hkey, lookup_insert_eq. reflexivity.
Qed.

(** C5. After [addNode(1); addEdge({from: 1, to: 2}); addNode("1")] the
    node set holds the number 1 and the string "1" as two nodes, but
    the two share the adjacency key "1": adding "1" has replaced the
    neighbor list of 1 by the empty list, and [getNeighbors(1)] no
    longer holds the entry for 2. *)
Theorem addNode_string_clears_number_neighbors :
  exists g,
    oneEdgeGraph = Ok g
    /\ getNeighbors (NNum 1) g = [mkNeighbor (NNum 2) 1]
    /\ NNum 1 <> NStr "1"
    /\ nodes (addNode (NStr "1") g) = [NNum 1; NNum 2; NStr "1"]
    /\ getNeighbors (NNum 1) (addNode (NStr "1") g) = []
    /\ getNeighbors (NNum 2) (addNode (NStr "1") g) = [mkNeighbor (NNum 1) 1].
Proof.
  eexists. split; [vm_compute; reflexivity|].
  repeat split; try (vm_compute; reflexivity). discriminate.
Qed.

(** ** The triangle *)

(** C2. On the graph of ["1-2, 2-3, 3-1"] (undirected, unweighted)
    [isCycle], [isComplete] and [isConnected] are true, and
    [calculateDensity] is 1/2, not 1: the three edges are counted as
    3 / 2 by [totalEdgeCount]. *)
Theorem triangle_scenario :
  exists g,
    triangle = Ok (mkBuildResult g [] [])
    /\ (forall k, isCycle (10 + k) g = Some true)
    /\ isComplete g = true
    /\ (forall k, isConnected (10 + k) g = Some true)
    /\ (totalEdgeCount g == 3 # 2)%Q
    /\ (calculateDensity g == 1 # 2)%Q
    /\ ~ (calculateDensity g == 1)%Q.
Proof.
  eexists. split; [vm_compute; reflexivity|].
  split; [intros k; vm_compute; reflexivity|].
  split; [vm_compute; reflexivity|].
  split; [intros k; vm_compute; reflexivity|].
  split; [vm_compute; reflexivity|].
  split; [vm_compute; reflexivity|].
  intros H. vm_compute in H. discriminate H.
Qed.

(** ** The order of the operators in the parser *)

Lemma lazySearch_arrow_of_bidirectional s :
  forall pre r,
    lazySearch (stripPrefix "<->") pre s = Some r ->
    forall pre', exists r', lazySearch (stripPrefix "->") pre' s = Some r'.
Proof.
  induction s as [|c s IH]; intros pre r H pre'; [discriminate H|].
  assert (Hnext : (exists r0 pre0, lazySearch (stripPrefix "<->") pre0 s = Some r0) ->
                  exists r', lazySearch (stripPrefix "->") pre' (String c s) = Some r').
  { intros (r0 & pre0 & H0). cbn [lazySearch].
    destruct (stripPrefix "->" (String c s)) as [rest|].
    - destruct (isEmpty rest); [eapply IH; eassumption | eauto].
    - eapply IH; eassumption. }
  cbn [lazySearch] in H.
  destruct (stripPrefix "<->" (String c s)) as [rest|] eqn:Hsep;
    [destruct (isEmpty rest) eqn:Hrest|]; try (apply Hnext; eauto; fail).
  (* the separator stands here: the arrow is found one character on *)
  clear Hnext IH H. cbn [stripPrefix] in Hsep.
  destruct (Ascii.eqb "<" c) eqn:Hc; [|discriminate Hsep].
  apply Ascii.eqb_eq in Hc. subst c.
  destruct s as [|c1 s]; [discriminate Hsep|]. cbn [stripPrefix] in Hsep.
  destruct (Ascii.eqb "-" c1) eqn:Hc1; [|discriminate Hsep].
  apply Ascii.eqb_eq in Hc1. subst c1.
  destruct s as [|c2 s]; [discriminate Hsep|]. cbn [stripPrefix] in Hsep.
  destruct (Ascii.eqb ">" c2) eqn:Hc2; [|discriminate Hsep].
  apply Ascii.eqb_eq in Hc2. subst c2.
  injection Hsep as ->.
  destruct rest as [|a rest]; [cbn in Hrest; discriminate Hrest|].
  eexists. reflexivity.
Qed.

(** Whatever the pattern of [<->] matches, the pattern of [->], which
    is tried first, matches too: the third attempt of
    [parseEdgeSegment] is never reached. *)
Lemma arrow_matches_bidirectional s r :
  regexMatch (stripPrefix "<->") s = Some r ->
  exists r', regexMatch (stripPrefix "->") s = Some r'.
Proof.
  unfold regexMatch. destruct (hasLineTerminator s); [discriminate|].
  destruct s as [|c s]; [discriminate|].
  intros H. eapply lazySearch_arrow_of_bidirectional. eassumption.
Qed.

(** C3. The parser tries [->], then [-], then [<->].  The segment
    [A<->B] is taken by the first attempt: the edge is directed, from
    ["A<"] and not from ["A"]; with a weight it is the same.  No edge
    part that the pattern of [<->] matches gets as far as the third
    attempt. *)
Theorem parseEdgeSegment_bidirectional_taken_as_arrow :
  parseEdgeSegment "A<->B" 1 = Ok (mkParsedEdge (NStr "A<") (NStr "B") None (Some true))
  /\ parseEdgeSegment "A<->B:5" 1
     = Ok (mkParsedEdge (NStr "A<") (NStr "B") (Some 5) (Some true))
  /\ parseEdgeSegment "1<->2" 1 = Ok (mkParsedEdge (NStr "1<") (NNum 2) None (Some true))
  /\ (forall s r, regexMatch (stripPrefix "<->") s = Some r ->
        exists r', regexMatch (stripPrefix "->") s = Some r').
Proof.
  split; [vm_compute; reflexivity|].
  split; [vm_compute; reflexivity|].
  split; [vm_compute; reflexivity|].
  exact arrow_matches_bidirectional.
Qed.

(** ** Spanning trees of directed graphs *)

(** C9. On a directed graph [kruskal] and [prim] raise their "only
    works on undirected graphs" error, whatever the other arguments:
    no spanning tree is computed and no result is returned. *)
Theorem spanning_tree_rejects_directed fuel g start recordSteps :
  isDirected g = true ->
  kruskal fuel g recordSteps
    = Throw "Kruskal's algorithm only works on undirected graphs"
  /\ prim fuel g start recordSteps
    = Throw "Prim's algorithm only works on undirected graphs".
Proof.
  intros Hdir. unfold kruskal, prim. rewrite Hdir. split; reflexivity.
Qed.

Lemma spanning_tree_rejects_directed_edge :
  exists g,
    addEdge (mkEdge (NNum 1) (NNum 2) (Some 4)) (newGraph directedWeightedConfig) = Ok g
    /\ kruskal 5 g false = Throw "Kruskal's algorithm only works on undirected graphs"
    /\ prim 5 g None false = Throw "Prim's algorithm only works on undirected graphs".
Proof.
  eexists. split; [vm_compute; reflexivity|].
  apply (spanning_tree_rejects_directed 5 _ None false). reflexivity.
Defined.

(** On an undirected graph both run: the triangle with the weights 1,
    2 and 3 has the spanning tree of weight 3. *)
Example spanning_tree_undirected :
  exists g,
    addEdges [mkEdge (NNum 1) (NNum 2) (Some 1); mkEdge (NNum 2) (NNum 3) (Some 2);
              mkEdge (NNum 3) (NNum 1) (Some 3)] (newGraph undirectedConfig) = Ok g
    /\ kruskal 5 g false
       = Ok (Some (mkSpanningTreeResult
                     [mkEdge (NNum 1) (NNum 2) None; mkEdge (NNum 2) (NNum 3) (Some 2)] 3 None))
    /\ prim 9 g None false
       = Ok (Some (mkSpanningTreeResult
                     [mkEdge (NNum 1) (NNum 2) (Some 1); mkEdge (NNum 2) (NNum 3) (Some 2)] 3 None)).
Proof.
  eexists. split; [vm_compute; reflexivity|].
  split; vm_compute; reflexivity.
Qed.

(** ** Insertion-ordered maps and sets *)

Section MapFacts.
Context {K V : Type} `{EqDecision K}.
Implicit Types (m : list (K * V)) (k : K) (v : V).

Lemma mapGet_mapSet_eq m k v : mapGet k (mapSet k v m) = Some v.
Proof.
  induction m as [|[k' v'] m IH]; simpl.
  - destruct (decide (k = k)); [reflexivity | contradiction].
  - destruct (decide (k' = k)) as [->|Hne]; simpl.
    + destruct (decide (k = k)); [reflexivity | contradiction].
    + destruct (decide (k' = k)); [contradiction | exact IH].
Qed.

Lemma mapGet_mapSet_ne m k k' v : k <> k' -> mapGet k' (mapSet k v m) = mapGet k' m.
Proof.
  intros Hne. induction m as [|[k0 v0] m IH]; simpl.
  - destruct (decide (k = k')); [contradiction | reflexivity].
  - destruct (decide (k0 = k)) as [->|Hne0]; simpl.
    + destruct (decide (k = k')); [contradiction | reflexivity].
    + destruct (decide (k0 = k')); [reflexivity | exact IH].
Qed.

Lemma mapGet_mapSet m k k' v :
  mapGet k' (mapSet k v m) = if decide (k = k') then Some v else mapGet k' m.
Proof.
  destruct (decide (k = k')) as [->|Hne].
  - apply mapGet_mapSet_eq.
  - apply mapGet_mapSet_ne, Hne.
Qed.
End MapFacts.

Lemma setAdd_new {K : Type} `{EqDecision K} (x : K) (s : list K) :
  x ∉ s -> setAdd x s = s ++ [x].
Proof. intros H0. unfold setAdd. destruct (decide (x ∈ s)); [contradiction | reflexivity]. Qed.

Lemma elem_of_setAdd {K : Type} `{EqDecision K} (x y : K) (s : list K) :
  y ∈ setAdd x s <-> y = x \/ y ∈ s.
Proof.
  unfold setAdd. destruct (decide (x ∈ s)).
  - split; [auto | intros [->|]; assumption].
  - rewrite elem_of_app, list_elem_of_singleton. tauto.
Qed.

Lemma getNeighbors_targets g x n :
  n ∈ getNeighbors x g -> node n ∈ allTargets g.
Proof.
  unfold getNeighbors, allTargets. intros Hn.
  destruct (adjacencyList g !! String_of x) as [l|] eqn:Hl; simpl in Hn.
  - apply list_elem_of_bind. exists (String_of x, l). split.
    + simpl. apply list_elem_of_fmap. exists n. auto.
    + apply elem_of_map_to_list. exact Hl.
  - apply elem_of_nil in Hn. contradiction.
Qed.

Lemma forEachM_app {A S : Type} (body : A -> S -> option S) l1 l2 s :
  forEachM body (l1 ++ l2) s
  = match forEachM body l1 s with
    | Some s' => forEachM body l2 s'
    | None => None
    end.
Proof.
  revert s. induction l1 as [|a l1 IH]; intros s; simpl; [reflexivity|].
  destruct (body a s); [apply IH | reflexivity].
Qed.
(** ** Two-coloring a graph with a self-loop *)

Lemma unmapped_mapSet_le {V : Type} (U : list NodeId) (m : list (NodeId * V)) x v :
  (unmapped U (mapSet x v m) <= unmapped U m)%nat.
Proof.
  unfold unmapped. induction U as [|y U IH]; [reflexivity|].
  rewrite !filter_cons, mapGet_mapSet.
  destruct (decide (x = y)) as [->|Hne].
  - destruct (decide (Some v = None)) as [Hd|_]; [discriminate Hd|].
    destruct (decide (mapGet y m = None)); simpl; lia.
  - destruct (decide (mapGet y m = None)); simpl; lia.
Qed.

Lemma unmapped_mapSet_lt {V : Type} (U : list NodeId) (m : list (NodeId * V)) x v :
  x ∈ U -> mapGet x m = None ->
  (unmapped U (mapSet x v m) < unmapped U m)%nat.
Proof.
  unfold unmapped. intros Hin Hx. induction U as [|y U IH].
  - apply elem_of_nil in Hin. contradiction.
  - rewrite !filter_cons, mapGet_mapSet.
    destruct (decide (x = y)) as [->|Hne].
    + destruct (decide (Some v = None)) as [Hd|_]; [discriminate Hd|].
      destruct (decide (mapGet y m = None)); [|contradiction].
      simpl. pose proof (unmapped_mapSet_le U m y v) as Hle.
      unfold unmapped in Hle. lia.
    + apply elem_of_cons in Hin as [->|Hin]; [contradiction|].
      specialize (IH Hin).
      destruct (decide (mapGet y m = None)); simpl; lia.
Qed.

Section Coloring.
Variable g : Graph.
Variable u : NodeId.
Hypothesis self_loop : exists n, n ∈ getNeighbors u g /\ node n = u.

Local Abbreviation U := (universe g).

Lemma colorStep_refl st : colorStep U st st.
Proof. split; auto. Qed.

Lemma colorStep_trans st1 st2 st3 :
  colorStep U st1 st2 -> colorStep U st2 st3 -> colorStep U st1 st3.
Proof.
  intros [m1 q1 n1 c1 s1] [m2 q2 n2 c2 s2]. split; auto.
  - intros x Hx. destruct (n2 x Hx) as [H|H]; [|auto].
    destruct (n1 x H) as [H'|H']; auto.
  - lia.
Qed.

Lemma colorNeighbor_step c n st st' :
  node n ∈ U -> colorNeighbor c n st = Some st' -> colorStep U st st'.
Proof.
  intros HU. destruct st as [color queue]. unfold colorNeighbor.
  destruct (mapGet (node n) color) as [cn|] eqn:Hn.
  - destruct (decide (cn = c)); [discriminate|]. intros [= <-]. apply colorStep_refl.
  - intros [= <-]. split; simpl.
    + intros x cx Hx. rewrite mapGet_mapSet.
      destruct (decide (node n = x)) as [<-|]; [congruence | exact Hx].
    + intros x Hx. apply elem_of_app. auto.
    + intros x. rewrite mapGet_mapSet, elem_of_app, list_elem_of_singleton.
      destruct (decide (node n = x)); auto.
    + intros Hq x. rewrite mapGet_mapSet, elem_of_app, list_elem_of_singleton.
      destruct (decide (node n = x)); [discriminate|].
      intros [Hx|Hx]; [auto | congruence].
    + rewrite length_app. simpl.
      pose proof (unmapped_mapSet_lt U color (node n) (1 - c) HU Hn). lia.
Qed.

Lemma colorNeighbors_step c ns st st' :
  (forall n, n ∈ ns -> node n ∈ U) ->
  forEachM (colorNeighbor c) ns st = Some st' -> colorStep U st st'.
Proof.
  revert st. induction ns as [|n ns IH]; intros st HU; simpl.
  - intros [= <-]. apply colorStep_refl.
  - destruct (colorNeighbor c n st) as [st1|] eqn:Hstep; [|discriminate].
    intros Hrest. eapply colorStep_trans.
    + eapply colorNeighbor_step; [|eassumption]. apply HU, elem_of_cons. auto.
    + apply IH; [|assumption]. intros n' Hn'. apply HU, elem_of_cons. auto.
Qed.

(** A neighbor that has the color of the current node stops the loop. *)
Lemma colorNeighbors_conflict c ns st n :
  (forall n, n ∈ ns -> node n ∈ U) ->
  n ∈ ns -> mapGet (node n) st.1 = Some c ->
  forEachM (colorNeighbor c) ns st = None.
Proof.
  revert st. induction ns as [|a ns IH]; intros st HU Hin Hc.
  - apply elem_of_nil in Hin. contradiction.
  - simpl. destruct (colorNeighbor c a st) as [st1|] eqn:Hstep; [|reflexivity].
    apply elem_of_cons in Hin as [->|Hin].
    + exfalso. destruct st as [color queue]. unfold colorNeighbor in Hstep.
      simpl in Hc. rewrite Hc in Hstep.
      destruct (decide (c = c)); [discriminate | contradiction].
    + apply IH; [intros n' Hn'; apply HU, elem_of_cons; auto | assumption |].
      eapply cs_mono; [|exact Hc].
      eapply colorNeighbor_step; [|exact Hstep]. apply HU, elem_of_cons. auto.
Qed.

Lemma neighbors_in_U x n : n ∈ getNeighbors x g -> node n ∈ U.
Proof. intros H. apply elem_of_app. right. eapply getNeighbors_targets, H. Qed.

(** The [while] loop from a state in which [u], if it has a color,
    still waits in the queue: the loop ends, and if it ends without a
    conflict then [u] has no color. *)
Lemma colorWhile_self_loop fuel :
  forall color queue,
    (forall x, x ∈ queue -> mapGet x color <> None) ->
    (mapGet u color <> None -> u ∈ queue) ->
    (length queue + 2 * unmapped U color < fuel)%nat ->
    exists r, colorWhile fuel g (color, queue) = Some r
      /\ forall color', r = Some color' ->
           (forall x cx, mapGet x color = Some cx -> mapGet x color' = Some cx)
           /\ mapGet u color' = None.
Proof.
  induction fuel as [|fuel IH]; intros color queue Hq Hu Hm; [lia|].
  destruct queue as [|current queue]; simpl.
  - eexists. split; [reflexivity|]. intros color' [= <-]. split; [auto|].
    destruct (mapGet u color) eqn:E; [|reflexivity].
    exfalso. eapply elem_of_nil, Hu. discriminate.
  - destruct (mapGet current color) as [c|] eqn:Hcur;
      [|exfalso; eapply Hq; [apply elem_of_cons; auto | exact Hcur]].
    simpl.
    destruct (forEachM (colorNeighbor c) (getNeighbors current g) (color, queue))
      as [[color1 queue1]|] eqn:Hloop.
    + pose proof (colorNeighbors_step c _ _ _ (neighbors_in_U current) Hloop)
        as [Hmono Hqueue Hnew Hcol Hmeas]. simpl in *.
      destruct (IH color1 queue1) as (r & Hr & Hpost).
      * apply Hcol. intros x Hx. apply Hq, elem_of_cons. auto.
      * intros Hu1. destruct (Hnew u Hu1) as [Hold|]; [|assumption].
        apply Hu in Hold. apply elem_of_cons in Hold as [->|Hold]; [|auto].
        exfalso. destruct self_loop as (n & Hn & Hnode).
        rewrite (colorNeighbors_conflict c _ (color, queue) n
                   (neighbors_in_U current) Hn) in Hloop; [discriminate|].
        simpl. rewrite Hnode. exact Hcur.
      * lia.
      * exists r. split; [exact Hr|]. intros color' Hc'.
        destruct (Hpost color' Hc') as [Hm' Hu']. split; auto.
    + eexists. split; [reflexivity|]. discriminate.
Qed.

Lemma unmapped_le {V : Type} (m : list (NodeId * V)) : (unmapped U m <= length U)%nat.
Proof. apply length_filter. Qed.

(** The loop over the start nodes meets [u] and reports the conflict. *)
Lemma colorFor_self_loop fuel starts :
  (2 + 2 * length U <= fuel)%nat ->
  forall color,
    mapGet u color = None -> u ∈ starts ->
    colorFor fuel g starts color = Some None.
Proof.
  intros Hfuel. induction starts as [|start starts IH]; intros color Hu Hin.
  - apply elem_of_nil in Hin. contradiction.
  - simpl. unfold mapHas. destruct (mapGet start color) as [c|] eqn:Hstart.
    + apply IH; [assumption|].
      apply elem_of_cons in Hin as [->|]; [congruence | assumption].
    + destruct (colorWhile_self_loop fuel (mapSet start 0 color) [start])
        as (r & -> & Hpost).
      * intros x Hx. apply list_elem_of_singleton in Hx as ->.
        rewrite mapGet_mapSet_eq. discriminate.
      * rewrite mapGet_mapSet. destruct (decide (start = u)) as [->|].
        -- intros _. apply list_elem_of_singleton. reflexivity.
        -- congruence.
      * simpl. pose proof (unmapped_le (mapSet start 0 color)). lia.
      * destruct r as [color'|]; [|reflexivity].
        destruct (Hpost color' eq_refl) as [Hmono Hu'].
        apply IH; [assumption|].
        apply elem_of_cons in Hin as [->|]; [|assumption].
        rewrite (Hmono start 0) in Hu'; [discriminate|].
        apply mapGet_mapSet_eq.
Qed.
End Coloring.

(** A well-formed graph, directed or not, with a node [u] that occurs
    in its own neighbor list is reported as not bipartite: with enough
    fuel [isBipartite] returns [{ isBipartite: false }].  In a
    well-formed graph every list that the coloring reads is the list
    of a node. *)
Theorem isBipartite_self_loop g u :
  wellFormed g ->
  u ∈ nodes g ->
  (exists n, n ∈ getNeighbors u g /\ node n = u) ->
  exists N, forall fuel, (N <= fuel)%nat ->
    isBipartite fuel g = Some (mkBipartiteResult false None).
Proof.
  intros _ Hu Hloop. exists (2 + 2 * length (universe g))%nat.
  intros fuel Hfuel. unfold isBipartite, getNodes.
  rewrite (colorFor_self_loop g u Hloop fuel (nodes g) Hfuel []); auto.
Qed.

Example isBipartite_self_loop_run :
  (g ← addEdge (mkEdge (NNum 1) (NNum 1) None) (newGraph undirectedConfig);
   Ok (isBipartite 5 g)) = Ok (Some (mkBipartiteResult false None)).
Proof. vm_compute. reflexivity. Qed.

Example isBipartite_path_run :
  (g ← addEdges [mkEdge (NNum 1) (NNum 2) None; mkEdge (NNum 2) (NNum 3) None]
        (newGraph undirectedConfig);
   Ok (isBipartite 5 g))
  = Ok (Some (mkBipartiteResult true (Some ([NNum 1; NNum 3], [NNum 2])))).
Proof. vm_compute. reflexivity. Qed.

(** ** Recursive and iterative depth-first search *)

Lemma unvisited_mono U V V' :
  (forall x, x ∈ V -> x ∈ V') -> (unvisited U V' <= unvisited U V)%nat.
Proof.
  intros Hsub. unfold unvisited. induction U as [|y U IH]; [reflexivity|].
  rewrite !filter_cons.
  destruct (decide (y ∉ V')) as [Hy'|Hy'], (decide (y ∉ V)) as [Hy|Hy]; simpl; try lia.
  exfalso. apply Hy. intros Hin. apply Hy', Hsub, Hin.
Qed.

Lemma unvisited_setAdd U V x :
  x ∈ U -> x ∉ V -> (unvisited U (setAdd x V) < unvisited U V)%nat.
Proof.
  intros Hin Hx. unfold unvisited. induction U as [|y U IH].
  - apply elem_of_nil in Hin. contradiction.
  - pose proof (unvisited_mono U V (setAdd x V)) as Hle. unfold unvisited in Hle.
    assert (Hsub : forall z, z ∈ V -> z ∈ setAdd x V)
      by (intros z Hz; apply elem_of_setAdd; auto).
    specialize (Hle Hsub). rewrite !filter_cons.
    destruct (decide (x = y)) as [<-|Hne].
    + destruct (decide (x ∉ setAdd x V)) as [Hn|_].
      * exfalso. apply Hn, elem_of_setAdd. auto.
      * destruct (decide (x ∉ V)); [simpl; lia | contradiction].
    + apply elem_of_cons in Hin as [->|Hin]; [contradiction|].
      specialize (IH Hin).
      destruct (decide (y ∉ setAdd x V)) as [Hy'|Hy'], (decide (y ∉ V)) as [Hy|Hy];
        simpl; try lia.
      exfalso. apply Hy. intros Hin'. apply Hy', Hsub, Hin'.
Qed.

Lemma pushReversed_filter ns V stack :
  pushReversed ns V stack = filter (fun x => x ∉ V) (map node ns) ++ stack.
Proof.
  unfold pushReversed. induction ns as [|n ns IH]; [reflexivity|].
  simpl rev. rewrite foldl_app, IH. simpl. rewrite filter_cons.
  destruct (decide (node n ∈ V)), (decide (node n ∉ V)); try contradiction;
    reflexivity.
Qed.

Section DepthFirst.
Variable g : Graph.

(** The body of the loop of [dfsRecursive] over the neighbors. *)
Local Abbreviation visit fuel :=
  (fun (n : Neighbor) (st : list NodeId * list NodeId) =>
     if decide (node n ∈ st.1) then Some st else dfsRecursive fuel g (node n) st).

Lemma dfsRecursive_S fuel nd st :
  dfsRecursive (S fuel) g nd st
  = forEachM (visit fuel) (getNeighbors nd g) (setAdd nd st.1, st.2 ++ [nd]).
Proof. reflexivity. Qed.

(** The visited set only grows. *)
Lemma dfsRecursive_visited fuel :
  forall nd st st', dfsRecursive fuel g nd st = Some st' ->
    forall x, x ∈ st.1 -> x ∈ st'.1.
Proof.
  induction fuel as [|fuel IH]; intros nd st st' H; [discriminate H|].
  rewrite dfsRecursive_S in H.
  assert (Hloop : forall ns s s', forEachM (visit fuel) ns s = Some s' ->
                    forall x, x ∈ s.1 -> x ∈ s'.1).
  { induction ns as [|n ns IHns]; intros s s' Hs x Hx; simpl in Hs.
    - injection Hs as <-. exact Hx.
    - destruct (decide (node n ∈ s.1)).
      + eapply IHns; eassumption.
      + destruct (dfsRecursive fuel g (node n) s) as [s1|] eqn:Hrec; [|discriminate Hs].
        eapply IHns; [eassumption|]. eapply IH; eassumption. }
  intros x Hx. eapply Hloop; [exact H|]. simpl. apply elem_of_setAdd. auto.
Qed.

(** More fuel does not change a result. *)
Lemma dfsRecursive_fuel_mono fuel :
  forall fuel' nd st st', (fuel <= fuel')%nat ->
    dfsRecursive fuel g nd st = Some st' -> dfsRecursive fuel' g nd st = Some st'.
Proof.
  induction fuel as [|fuel IH]; intros fuel' nd st st' Hle H; [discriminate H|].
  destruct fuel' as [|fuel']; [lia|].
  rewrite dfsRecursive_S in *. revert H.
  generalize (setAdd nd st.1, st.2 ++ [nd]). 
  induction (getNeighbors nd g) as [|n ns IHns]; intros s Hs; simpl in *; [exact Hs|].
  destruct (decide (node n ∈ s.1)); [apply IHns, Hs|].
  destruct (dfsRecursive fuel g (node n) s) as [s1|] eqn:Hrec; [|discriminate Hs].
  rewrite (IH fuel' (node n) s s1) by (lia || assumption). apply IHns, Hs.
Qed.

Lemma dfsLoop_fuel_mono fuel :
  forall fuel' stack st st', (fuel <= fuel')%nat ->
    dfsLoop fuel g stack st = Some st' -> dfsLoop fuel' g stack st = Some st'.
Proof.
  induction fuel as [|fuel IH]; intros fuel' stack st st' Hle H; [discriminate H|].
  destruct fuel' as [|fuel']; [lia|]. simpl in *.
  destruct stack as [|current stack]; [exact H|].
  destruct (decide (current ∈ st.1)); apply IH; (lia || assumption).
Qed.

(** The recursive search ends: its depth is bounded by the number of
    nodes of [U] not yet visited. *)
Lemma dfsRecursive_terminates (U : list NodeId) :
  (forall x n, n ∈ getNeighbors x g -> node n ∈ U) ->
  forall fuel nd st,
    nd ∈ U -> nd ∉ st.1 -> (unvisited U st.1 <= fuel)%nat ->
    exists st', dfsRecursive fuel g nd st = Some st'.
Proof.
  intros HU. induction fuel as [|fuel IH]; intros nd st Hnd Hnew Hm.
  - pose proof (unvisited_setAdd U st.1 nd Hnd Hnew). lia.
  - rewrite dfsRecursive_S.
    assert (Hloop : forall ns s, (forall n, n ∈ ns -> node n ∈ U) ->
                      (unvisited U s.1 <= fuel)%nat ->
                      exists s', forEachM (visit fuel) ns s = Some s').
    { induction ns as [|n ns IHns]; intros s Hns Hs; simpl; [eauto|].
      assert (Hns' : forall n', n' ∈ ns -> node n' ∈ U)
        by (intros n' Hn'; apply Hns, elem_of_cons; auto).
      destruct (decide (node n ∈ s.1)) as [Hin|Hout]; [apply IHns; assumption|].
      destruct (IH (node n) s) as [s1 Hs1]; [apply Hns, elem_of_cons; auto | assumption..|].
      rewrite Hs1. apply IHns; [assumption|].
      pose proof (unvisited_mono U s.1 s1.1 (dfsRecursive_visited _ _ _ _ Hs1)). lia. }
    apply Hloop; [intros n Hn; eapply HU, Hn|]. simpl.
    pose proof (unvisited_setAdd U st.1 nd Hnd Hnew). lia.
Qed.

(** The iterative loop follows the recursive search: what the call on
    [nd] does to the state, the loop does while it consumes [nd] from
    the top of its stack. *)
Lemma dfsLoop_simulates fuel :
  forall nd st st',
    dfsRecursive fuel g nd st = Some st' -> nd ∉ st.1 ->
    forall stack, exists k, forall f,
      dfsLoop (k + f) g (nd :: stack) st = dfsLoop f g stack st'.
Proof.
  induction fuel as [|fuel IH]; intros nd st st' H Hnew stack; [discriminate H|].
  rewrite dfsRecursive_S in H.
  assert (Hloop : forall ns s s', forEachM (visit fuel) ns s = Some s' ->
            forall V0 : list NodeId, (forall x, x ∈ V0 -> x ∈ s.1) ->
            exists k, forall f,
              dfsLoop (k + f) g (filter (fun x => x ∉ V0) (map node ns) ++ stack) s
              = dfsLoop f g stack s').
  { induction ns as [|n ns IHns]; intros s s' Hs V0 HV0; simpl in Hs.
    - injection Hs as <-. exists 0%nat. reflexivity.
    - simpl map. rewrite filter_cons.
      destruct (decide (node n ∈ s.1)) as [Hin|Hout].
      + destruct (IHns s s' Hs V0 HV0) as [k Hk].
        destruct (decide (node n ∉ V0)); [|exists k; exact Hk].
        exists (S k). intros f. simpl.
        destruct (decide (node n ∈ s.1)); [apply Hk | contradiction].
      + destruct (dfsRecursive fuel g (node n) s) as [s1|] eqn:Hrec; [|discriminate Hs].
        destruct (decide (node n ∉ V0)) as [_|Hn]; [|exfalso; apply Hn; auto].
        destruct (IH (node n) s s1 Hrec Hout
                    (filter (fun x => x ∉ V0) (map node ns) ++ stack)) as [k1 Hk1].
        destruct (IHns s1 s' Hs V0) as [k2 Hk2].
        { intros x Hx. eapply dfsRecursive_visited; eauto. }
        exists (k1 + k2)%nat. intros f.
        rewrite <- Nat.add_assoc, Hk1. apply Hk2. }
  destruct (Hloop _ _ _ H (setAdd nd st.1)) as [k Hk]; [auto|].
  exists (S k). intros f. simpl.
  destruct (decide (nd ∈ st.1)); [contradiction|].
  rewrite pushReversed_filter. apply Hk.
Qed.
End DepthFirst.

(** On a well-formed graph and from one of its nodes, the recursive
    [dfs] and the iterative [dfsIterative] end, and with the same
    [order]: there is one sequence that both return as soon as they
    have enough fuel, and neither returns another one with any fuel.
    The two hypotheses keep every read of a neighbor list on the list
    of a node of the graph. *)
Theorem dfs_dfsIterative_same_order g start :
  wellFormed g -> start ∈ nodes g ->
  exists order N,
    (forall fuel, (N <= fuel)%nat ->
       dfs fuel g start = Some order /\ dfsIterative fuel g start = Some order)
    /\ (forall fuel o, dfs fuel g start = Some o -> o = order)
    /\ (forall fuel o, dfsIterative fuel g start = Some o -> o = order).
Proof.
  intros _ _. set (U := start :: allTargets g).
  destruct (dfsRecursive_terminates g U) with (fuel := length U) (nd := start)
    (st := ([] : list NodeId, [] : list NodeId)) as [st' Hrec].
  { intros x n Hn. apply elem_of_cons. right. eapply getNeighbors_targets, Hn. }
  { apply elem_of_cons. auto. }
  { apply not_elem_of_nil. }
  { apply length_filter. }
  destruct (dfsLoop_simulates g _ _ _ _ Hrec (not_elem_of_nil _) []) as [k Hk].
  assert (Hiter : dfsLoop (k + 1) g [start] ([], []) = Some st')
    by (rewrite Hk; reflexivity).
  exists st'.2, (length U + (k + 1))%nat.
  assert (Hboth : forall fuel, (length U + (k + 1) <= fuel)%nat ->
            dfs fuel g start = Some st'.2 /\ dfsIterative fuel g start = Some st'.2).
  { intros fuel Hfuel. unfold dfs, dfsIterative.
    rewrite (dfsRecursive_fuel_mono g (length U) fuel _ _ _ ltac:(lia) Hrec).
    rewrite (dfsLoop_fuel_mono g (k + 1) fuel _ _ _ ltac:(lia) Hiter). auto. }
  split; [exact Hboth|]. split.
  - intros fuel o Ho. unfold dfs in Ho.
    destruct (dfsRecursive fuel g start ([], [])) as [s|] eqn:Hs; [|discriminate Ho].
    injection Ho as <-.
    pose proof (dfsRecursive_fuel_mono g fuel (fuel + length U) _ _ _ ltac:(lia) Hs) as H1.
    pose proof (dfsRecursive_fuel_mono g (length U) (fuel + length U) _ _ _ ltac:(lia) Hrec) as H2.
    congruence.
  - intros fuel o Ho. unfold dfsIterative in Ho.
    destruct (dfsLoop fuel g [start] ([], [])) as [s|] eqn:Hs; [|discriminate Ho].
    injection Ho as <-.
    pose proof (dfsLoop_fuel_mono g fuel (fuel + (k + 1)) _ _ _ ltac:(lia) Hs) as H1.
    pose proof (dfsLoop_fuel_mono g (k + 1) (fuel + (k + 1)) _ _ _ ltac:(lia) Hiter) as H2.
    congruence.
Qed.

(** Both on the triangle with a pendant node, from the node 1. *)
Example dfs_both_run :
  exists g,
    addEdges [mkEdge (NNum 1) (NNum 2) None; mkEdge (NNum 1) (NNum 3) None;
              mkEdge (NNum 2) (NNum 3) None; mkEdge (NNum 3) (NNum 4) None]
             (newGraph undirectedConfig) = Ok g
    /\ dfs 5 g (NNum 1) = Some [NNum 1; NNum 2; NNum 3; NNum 4]
    /\ dfsIterative 8 g (NNum 1) = Some [NNum 1; NNum 2; NNum 3; NNum 4].
Proof. eexists. split; [vm_compute; reflexivity|]. split; vm_compute; reflexivity. Qed.

(** ** The round trip through [GraphData] *)

Lemma slotsOf_insert g key l k :
  default [] (<[key := l]> (adjacencyList g) !! k)
  = if decide (k = key) then l else slotsOf g k.
Proof.
  unfold slotsOf. destruct (decide (k = key)) as [->|Hne].
  - rewrite lookup_insert_eq. reflexivity.
  - rewrite lookup_insert_ne by congruence. reflexivity.
Qed.

Lemma listAt_Some key g l :
  adjacencyList g !! key = Some l -> listAt key g = Ok l.
Proof. intros H. unfold listAt. rewrite H. reflexivity. Qed.

Lemma addNode_spec id g :
  config (addNode id g) = config g
  /\ edgeCount (addNode id g) = edgeCount g
  /\ (forall x, x ∈ nodes (addNode id g) <-> x ∈ nodes g \/ x = id)
  /\ ((forall k, slotsOf g k = []) -> forall k, slotsOf (addNode id g) k = [])
  /\ ((forall x, x ∈ nodes g -> is_Some (adjacencyList g !! String_of x)) ->
      forall x, x ∈ nodes (addNode id g) ->
        is_Some (adjacencyList (addNode id g) !! String_of x)).
Proof.
  unfold addNode. destruct (decide (id ∈ nodes g)) as [Hin|Hout]; simpl.
  - repeat split; auto. intros [H| ->]; assumption.
  - split; [reflexivity|]. split; [reflexivity|]. split; [|split].
    + intros x. rewrite elem_of_app, list_elem_of_singleton. reflexivity.
    + intros Hempty k. unfold slotsOf. simpl. rewrite slotsOf_insert.
      destruct (decide (k = String_of id)); auto.
    + intros Hlists x Hx. apply elem_of_app in Hx.
      destruct (decide (String_of x = String_of id)) as [->|Hne].
      * rewrite lookup_insert_eq. eauto.
      * rewrite lookup_insert_ne by congruence.
        destruct Hx as [Hx|Hx]; [auto|].
        apply list_elem_of_singleton in Hx. congruence.
Qed.

Lemma addNodes_spec ns :
  forall g,
    config (addNodes ns g) = config g
    /\ edgeCount (addNodes ns g) = edgeCount g
    /\ (forall x, x ∈ nodes (addNodes ns g) <-> x ∈ nodes g \/ x ∈ ns)
    /\ ((forall k, slotsOf g k = []) -> forall k, slotsOf (addNodes ns g) k = [])
    /\ ((forall x, x ∈ nodes g -> is_Some (adjacencyList g !! String_of x)) ->
        forall x, x ∈ nodes (addNodes ns g) ->
          is_Some (adjacencyList (addNodes ns g) !! String_of x)).
Proof.
  induction ns as [|id ns IH]; intros g; simpl.
  - repeat split; auto. intros [|H]; [assumption|]. apply elem_of_nil in H. contradiction.
  - destruct (addNode_spec id g) as (Hc & Hcount & Hn & He & Hl).
    destruct (IH (addNode id g)) as (Hc' & Hcount' & Hn' & He' & Hl').
    unfold addNodes in *. simpl. split; [congruence|]. split; [congruence|].
    split; [|split; auto].
    intros x. rewrite Hn', Hn, elem_of_cons. tauto.
Qed.

Lemma setFirstWeight_absent target w l :
  (forall n, n ∈ l -> node n <> target) -> setFirstWeight target w l = None.
Proof.
  induction l as [|a l IH]; intros Hl; simpl; [reflexivity|].
  destruct (decide (node a = target)) as [Heq|_].
  - exfalso. eapply Hl; [apply elem_of_cons; auto | exact Heq].
  - rewrite IH; [reflexivity|]. intros n Hn. apply Hl, elem_of_cons. auto.
Qed.

(** [addEdge] of an edge between two known nodes, when the list of
    [from] has no entry for [to]: one slot is appended under the key of
    [from] and, in an undirected graph, one under the key of [to]. *)
Lemma addEdge_fresh g e :
  efrom e ∈ nodes g -> eto e ∈ nodes g ->
  (allowSelfLoops (config g) = false -> efrom e <> eto e) ->
  (forall x, x ∈ nodes g -> is_Some (adjacencyList g !! String_of x)) ->
  (forall n, n ∈ slotsOf g (String_of (efrom e)) -> node n <> eto e) ->
  exists g',
    addEdge e g = Ok g' /\ nodes g' = nodes g /\ config g' = config g
    /\ edgeCount g' = edgeCount g + 1
    /\ (forall x, x ∈ nodes g' -> is_Some (adjacencyList g' !! String_of x))
    /\ forall k, slotsOf g' k
         = slotsOf g k
           ++ (if decide (k = String_of (efrom e))
               then [mkNeighbor (eto e) (edgeWeight e)] else [])
           ++ (if directed (config g) then []
               else if decide (k = String_of (eto e))
                    then [mkNeighbor (efrom e) (edgeWeight e)] else []).
Proof.
  intros Hfrom Hto Hself Hlists Hfresh. unfold addEdge. cbv zeta.
  rewrite (addNode_known _ _ Hfrom), (addNode_known _ _ Hto).
  assert (Hguard : negb (allowSelfLoops (config g)) && bool_decide (efrom e = eto e) = false).
  { destruct (allowSelfLoops (config g)); [reflexivity|]. simpl.
    apply bool_decide_eq_false_2, Hself. reflexivity. }
  rewrite Hguard.
  destruct (Hlists _ Hfrom) as [fromList HfromList].
  rewrite (listAt_Some _ _ _ HfromList). simpl.
  assert (Hnone : (if allowMultipleEdges (config g) then None
                   else setFirstWeight (eto e) (default 1 (eweight e)) fromList) = None).
  { destruct (allowMultipleEdges (config g)); [reflexivity|].
    apply setFirstWeight_absent. intros n Hn. apply Hfresh.
    unfold slotsOf. rewrite HfromList. exact Hn. }
  rewrite Hnone.
  assert (HslotFrom : slotsOf g (String_of (efrom e)) = fromList)
    by (unfold slotsOf; rewrite HfromList; reflexivity).
  destruct (directed (config g)) eqn:Hdir; simpl.
  - eexists. split; [reflexivity|]. simpl. split; [reflexivity|]. split; [reflexivity|].
    split; [reflexivity|]. split.
    + intros x Hx. destruct (decide (String_of x = String_of (efrom e))) as [->|Hne].
      * rewrite lookup_insert_eq. eauto.
      * rewrite lookup_insert_ne by congruence. auto.
    + intros k. unfold slotsOf at 1. simpl. rewrite slotsOf_insert, app_nil_r.
      destruct (decide (k = String_of (efrom e))) as [->|Hne].
      * rewrite HslotFrom. reflexivity.
      * rewrite app_nil_r. reflexivity.
  - destruct (Hlists _ Hto) as [toList0 HtoList0].
    unfold listAt. simpl.
    destruct (<[String_of (efrom e) := fromList ++ [mkNeighbor (eto e) (default 1 (eweight e))]]>
                (adjacencyList g) !! String_of (eto e)) as [toList|] eqn:HtoList.
    2:{ exfalso. destruct (decide (String_of (eto e) = String_of (efrom e))) as [Heq|Hne].
        - rewrite Heq, lookup_insert_eq in HtoList. discriminate.
        - rewrite lookup_insert_ne in HtoList by congruence. congruence. }
    simpl. eexists. split; [reflexivity|]. simpl.
    split; [reflexivity|]. split; [reflexivity|]. split; [reflexivity|]. split.
    + intros x Hx.
      destruct (decide (String_of x = String_of (eto e))) as [->|Hne].
      * rewrite lookup_insert_eq. eauto.
      * rewrite lookup_insert_ne by congruence.
        destruct (decide (String_of x = String_of (efrom e))) as [->|Hne'].
        -- rewrite lookup_insert_eq. eauto.
        -- rewrite lookup_insert_ne by congruence. auto.
    + intros k. unfold slotsOf at 1. simpl.
      destruct (decide (k = String_of (eto e))) as [->|Hne].
      * rewrite lookup_insert_eq. simpl.
        destruct (decide (String_of (eto e) = String_of (efrom e))) as [Heq|Hne'].
        -- rewrite Heq, lookup_insert_eq in HtoList. injection HtoList as <-.
           rewrite Heq, HslotFrom. unfold edgeWeight. rewrite <- app_assoc. reflexivity.
        -- rewrite lookup_insert_ne in HtoList by congruence.
           unfold slotsOf. rewrite HtoList. reflexivity.
      * rewrite lookup_insert_ne by congruence.
        rewrite slotsOf_insert, app_nil_r.
        destruct (decide (k = String_of (efrom e))) as [->|Hne'].
        -- rewrite HslotFrom. reflexivity.
        -- rewrite app_nil_r. reflexivity.
Qed.

Lemma sortPair_swap a b :
  let '(x, y) := sortPair a b in
  let '(x', y') := sortPair b a in
  String_of x +:+ "-" +:+ String_of y = String_of x' +:+ "-" +:+ String_of y'.
Proof.
  unfold sortPair, String.ltb.
  rewrite (String.compare_antisym (String_of b) (String_of a)).
  destruct (String.compare (String_of a) (String_of b)) eqn:Hc; simpl; try reflexivity.
  apply String.compare_eq_iff in Hc. rewrite Hc. reflexivity.
Qed.

Lemma edgeKey_swap a b : edgeKey false a b = edgeKey false b a.
Proof.
  unfold edgeKey. pose proof (sortPair_swap a b) as H.
  destruct (sortPair a b), (sortPair b a). exact H.
Qed.

Lemma connects_keyOf dir e e' :
  connects dir e' (efrom e) (eto e) -> keyOf dir e' = keyOf dir e.
Proof.
  unfold connects, keyOf. intros [[Hf Ht]|(Hd & Hf & Ht)].
  - rewrite Hf, Ht. reflexivity.
  - rewrite Hd, Hf, Ht. apply edgeKey_swap.
Qed.

Section Build.
Variable d : GraphData.
Hypothesis d_valid : validGraphData d.
Hypothesis d_keys : distinctKeys d.

Local Abbreviation dir := (directed (d_config d)).

Lemma addNodes_buildInv :
  buildInv d [] (addNodes (d_nodes d) (newGraph (d_config d))).
Proof.
  destruct (addNodes_spec (d_nodes d) (newGraph (d_config d)))
    as (Hc & Hcount & Hn & He & Hl).
  split.
  - intros x. rewrite Hn. simpl. rewrite elem_of_nil. tauto.
  - exact Hc.
  - exact Hcount.
  - apply Hl. simpl. intros x Hx. apply elem_of_nil in Hx. contradiction.
  - intros key n Hn'. rewrite He in Hn'; [apply elem_of_nil in Hn'; contradiction|].
    intros k. unfold slotsOf. simpl. rewrite lookup_empty. reflexivity.
  - intros e He'. apply elem_of_nil in He'. contradiction.
Qed.

Lemma addEdges_buildInv rest :
  forall done g,
    d_edges d = done ++ rest -> buildInv d done g ->
    exists g', addEdges rest g = Ok g' /\ buildInv d (done ++ rest) g'.
Proof.
  destruct d_valid as (Hends & Hself & _). destruct d_keys as (Hinj & Hnodup).
  induction rest as [|e rest IH]; intros done g Hsplit Hinv; simpl.
  - exists g. rewrite app_nil_r. auto.
  - destruct Hinv as [Hnodes Hconfig Hcount Hlists Hsound Hcomplete].
    assert (He : e ∈ d_edges d)
      by (rewrite Hsplit; apply elem_of_app; right; apply elem_of_cons; auto).
    destruct (Hends e He) as [Hfrom Hto].
    destruct (addEdge_fresh g e) as (g1 & -> & Hn1 & Hc1 & Hcount1 & Hl1 & Hslots).
    + apply Hnodes, Hfrom.
    + apply Hnodes, Hto.
    + rewrite Hconfig. intros Hno. apply Hself; assumption.
    + exact Hlists.
    + intros n Hn Hnode.
      destruct (Hsound _ n Hn) as (e' & He' & Hw & Hslot).
      assert (Hkey : keyOf dir e' = keyOf dir e).
      { apply connects_keyOf. unfold connects.
        assert (He'd : e' ∈ d_edges d) by (rewrite Hsplit; apply elem_of_app; auto).
        destruct (Hends e' He'd) as [Hfrom' Hto'].
        destruct Hslot as [[Hk Ht]|(Hd & Hk & Hf)].
        - left. split; [apply Hinj; assumption | congruence].
        - right. split; [exact Hd|]. split; [congruence | apply Hinj; assumption]. }
      rewrite Hsplit, map_app in Hnodup. apply NoDup_app in Hnodup as (_ & Hdisj & _).
      eapply (Hdisj (keyOf dir e)).
      * rewrite <- Hkey. apply list_elem_of_In, in_map, list_elem_of_In, He'.
      * simpl. apply elem_of_cons. auto.
    + simpl. destruct (IH (done ++ [e]) g1) as (g' & Hg' & Hinv').
      * rewrite Hsplit, <- app_assoc. reflexivity.
      * split.
        -- rewrite Hn1. exact Hnodes.
        -- congruence.
        -- rewrite Hcount1, Hcount, length_app. simpl. lia.
        -- exact Hl1.
        -- intros key n Hn. rewrite Hslots in Hn.
           apply elem_of_app in Hn as [Hn|Hn].
           { destruct (Hsound key n Hn) as (e0 & He0 & Hs0).
             exists e0. split; [apply elem_of_app; auto | exact Hs0]. }
           exists e. split; [apply elem_of_app; right; apply list_elem_of_singleton; reflexivity|].
           apply elem_of_app in Hn as [Hn|Hn].
           { destruct (decide (key = String_of (efrom e))) as [->|];
               [|apply elem_of_nil in Hn; contradiction].
             apply list_elem_of_singleton in Hn as ->. split; [reflexivity|]. left. auto. }
           rewrite Hconfig in Hn. destruct dir eqn:Hdir;
             [apply elem_of_nil in Hn; contradiction|].
           destruct (decide (key = String_of (eto e))) as [->|];
             [|apply elem_of_nil in Hn; contradiction].
           apply list_elem_of_singleton in Hn as ->. split; [reflexivity|]. right. auto.
        -- intros e0 He0. rewrite Hslots.
           apply elem_of_app in He0 as [He0|He0].
           { apply elem_of_app. left. apply Hcomplete, He0. }
           apply list_elem_of_singleton in He0 as ->.
           apply elem_of_app. right. apply elem_of_app. left.
           destruct (decide (String_of (efrom e) = String_of (efrom e))); [|contradiction].
           apply list_elem_of_singleton. reflexivity.
      * exists g'. rewrite <- app_assoc in Hinv'. auto.
Qed.
End Build.

(** The counter of edge insertions after [buildGraphFromData]: for an
    undirected record of k edges with different keys, [totalEdgeCount]
    is k / 2. *)
Lemma totalEdgeCount_half_of_edges d g :
  validGraphData d -> distinctKeys d -> directed (d_config d) = false ->
  buildGraphFromData d = Ok g ->
  (totalEdgeCount g == inject_Z (Z.of_nat (length (d_edges d))) / 2)%Q.
Proof.
  intros Hvalid Hkeys Hdir Hbuild.
  destruct (addEdges_buildInv d Hvalid Hkeys (d_edges d) []
              (addNodes (d_nodes d) (newGraph (d_config d))) eq_refl
              (addNodes_buildInv d))
    as (g' & Hbuild' & [_ Hconfig Hcount _ _ _]).
  unfold buildGraphFromData in Hbuild. rewrite Hbuild' in Hbuild.
  injection Hbuild as <-. simpl in Hcount.
  unfold totalEdgeCount. rewrite Hconfig, Hdir, Hcount. reflexivity.
Qed.

Section Scan.
Variable dir : bool.

Lemma scanned_nil acc : scanned dir [] acc acc.
Proof.
  split; auto.
  intros from n H. apply elem_of_nil in H. contradiction.
Qed.

Lemma scanned_app s1 s2 acc1 acc2 acc3 :
  scanned dir s1 acc1 acc2 -> scanned dir s2 acc2 acc3 ->
  scanned dir (s1 ++ s2) acc1 acc3.
Proof.
  intros [f1 k1 n1 a1 y1] [f2 k2 n2 a2 y2]. split; auto.
  - intros out Hout. destruct (f2 out Hout) as [H|(from & n & Hin & ->)].
    + destruct (f1 out H) as [H'|(from & n & Hin & ->)]; [auto|].
      right. exists from, n. split; [apply elem_of_app; auto | reflexivity].
    + right. exists from, n. split; [apply elem_of_app; auto | reflexivity].
  - intros from n Hin. apply elem_of_app in Hin as [Hin|Hin]; eauto.
Qed.

(** One turn of the inner loop of [getEdges]. *)
Lemma getEdgesFrom_scanned from l :
  forall acc, scanned dir ((fun n => (from, n)) <$> l) acc (getEdgesFrom dir from l acc).
Proof.
  induction l as [|n l IH]; intros [edges seen]; [apply scanned_nil|].
  simpl getEdgesFrom. change ((fun n => (from, n)) <$> n :: l)
    with ([(from, n)] ++ ((fun n => (from, n)) <$> l)).
  destruct (decide (edgeKey dir from (node n) ∈ seen)) as [Hseen|Hnew].
  - eapply scanned_app; [|apply IH]. split; auto.
    intros from' n' H. apply list_elem_of_singleton in H. injection H as -> ->. exact Hseen.
  - eapply scanned_app; [|apply IH]. split; simpl.
    + intros out Hout. apply elem_of_app in Hout as [H|H]; [auto|].
      apply list_elem_of_singleton in H as ->. right. exists from, n.
      split; [apply list_elem_of_singleton; reflexivity | reflexivity].
    + intros out Hout. apply elem_of_app. auto.
    + intros k Hk. apply elem_of_app. auto.
    + intros from' n' H. apply list_elem_of_singleton in H. injection H as -> ->.
      apply elem_of_app. right. apply list_elem_of_singleton. reflexivity.
    + intros Hkeys k Hk. apply elem_of_app in Hk as [Hk|Hk].
      * destruct (Hkeys k Hk) as (out & Hout & Hkey). exists out.
        split; [apply elem_of_app; auto | exact Hkey].
      * apply list_elem_of_singleton in Hk as ->. eexists.
        split; [apply elem_of_app; right; apply list_elem_of_singleton; reflexivity|].
        reflexivity.
Qed.
End Scan.

(** [getEdges] on a graph in which every node has a neighbor list. *)
Lemma getEdgesLoop_scanned g ns :
  (forall x, x ∈ ns -> is_Some (adjacencyList g !! String_of x)) ->
  forall acc, exists acc',
    getEdgesLoop g ns acc = Ok acc'.1
    /\ scanned (directed (config g)) (slotsOfNodes g ns) acc acc'.
Proof.
  induction ns as [|from ns IH]; intros Hlists acc; simpl.
  - exists acc. split; [reflexivity | apply scanned_nil].
  - destruct (Hlists from) as [l Hl]; [apply elem_of_cons; auto|].
    rewrite (listAt_Some _ _ _ Hl). simpl.
    destruct (IH (fun x Hx => Hlists x (proj2 (elem_of_cons _ _ _) (or_intror Hx)))
                (getEdgesFrom (directed (config g)) from l acc)) as (acc' & Hrun & Hscan).
    exists acc'. split; [exact Hrun|].
    unfold slotsOfNodes. simpl. eapply scanned_app; [|exact Hscan].
    unfold slotsOf. rewrite Hl. simpl. apply getEdgesFrom_scanned.
Qed.

Lemma edgeWeight_reported from to w :
  edgeWeight (mkEdge from to (reportedWeight w)) = w.
Proof.
  unfold edgeWeight, reportedWeight. simpl.
  destruct (decide (w = 1)); simpl; congruence.
Qed.

(** C6.  For a valid record whose listed nodes have different
    adjacency keys and whose edges have different keys for [getEdges]
    (so that no two of them are parallel), the round trip
    [graphToData(buildGraphFromData(d), id, name)] succeeds and gives a
    record with the same node set, the same edge set taken as weighted
    pairs (an absent weight being 1, the two orientations of an
    undirected edge being the same edge) and the same configuration. *)
Theorem roundTrip_preserves d id name :
  validGraphData d -> distinctKeys d ->
  exists d', roundTrip d id name = Ok d' /\ preserved d d'.
Proof.
  intros Hvalid Hkeys.
  destruct (addEdges_buildInv d Hvalid Hkeys (d_edges d) []
              (addNodes (d_nodes d) (newGraph (d_config d))) eq_refl
              (addNodes_buildInv d))
    as (g & Hbuild & [Hnodes Hconfig _ Hlists Hsound Hcomplete]).
  simpl in Hsound, Hcomplete.
  destruct (getEdgesLoop_scanned g (nodes g) Hlists ([], []))
    as ([out seen] & Hrun & [Hfrom _ _ Hall Hseen]).
  simpl in *.
  exists (mkGraphData id name (getNodes g) out (configuration g)). split.
  { unfold roundTrip, buildGraphFromData. rewrite Hbuild. simpl.
    unfold graphToData, getEdges. rewrite Hrun. reflexivity. }
  destruct Hvalid as (Hends & _). destruct Hkeys as (Hinj & Hnodup).
  (* every reported edge is an edge of the record, up to orientation *)
  assert (Hback : forall o, o ∈ out ->
            exists e, e ∈ d_edges d /\ edgeWeight o = edgeWeight e
              /\ connects (directed (d_config d)) e (efrom o) (eto o)).
  { intros o Ho. destruct (Hfrom o Ho) as [H|(from & n & Hin & ->)];
      [apply elem_of_nil in H; contradiction|].
    unfold slotsOfNodes in Hin. apply list_elem_of_bind in Hin as (x & Hin & Hx).
    apply list_elem_of_fmap in Hin as (n' & [= -> ->] & Hn).
    destruct (Hsound _ _ Hn) as (e & He & Hw & Hslot).
    exists e. split; [exact He|]. split; [rewrite edgeWeight_reported; exact Hw|].
    destruct (Hends e He) as [Hef Het]. simpl.
    destruct Hslot as [[Hk Ht]|(Hd & Hk & Hf)].
    - left. split; [apply Hinj; auto; apply Hnodes, Hx | exact Ht].
    - right. split; [exact Hd|]. split; [exact Hf | apply Hinj; auto; apply Hnodes, Hx]. }
  split; [|split].
  - intros x. unfold getNodes. simpl. symmetry. apply Hnodes.
  - intros u v w. simpl. split.
    + (* an edge of the record is reported *)
      intros (e & He & Hw & Hconn).
      destruct (Hends e He) as [Hef _].
      assert (Hin : edgeKey (directed (config g)) (efrom e) (eto e) ∈ seen).
      { apply (Hall (efrom e) (mkNeighbor (eto e) (edgeWeight e))).
        unfold slotsOfNodes. apply list_elem_of_bind.
        exists (efrom e). split; [|apply Hnodes, Hef].
        apply list_elem_of_fmap. eexists. split; [reflexivity|].
        apply Hcomplete, He. }
      apply Hseen in Hin as (o & Ho & Hkey);
        [|intros k Hk; apply elem_of_nil in Hk; contradiction].
      destruct (Hback o Ho) as (e' & He' & Hw' & Hconn').
      assert (e' = e) as ->.
      { assert (Hk : keyOf (directed (d_config d)) e' = keyOf (directed (d_config d)) e).
        { rewrite Hconfig in Hkey. rewrite (connects_keyOf _ o e' Hconn'). exact Hkey. }
        apply list_elem_of_lookup in He' as [i Hi], He as [j Hj].
        assert (i = j); [|congruence].
        apply (NoDup_lookup _ i j (keyOf (directed (d_config d)) e) Hnodup);
          change (@map Edge string) with (@fmap list _ Edge string);
          rewrite list_lookup_fmap; [rewrite Hi | rewrite Hj]; simpl; congruence. }
      exists o. split; [exact Ho|]. split; [congruence|].
      unfold connects in *.
      destruct Hconn as [[<- <-]|(Hd & <- & <-)], Hconn' as [[? ?]|(? & ? & ?)]; auto.
    + (* a reported edge is an edge of the record *)
      intros (o & Ho & Hw & Hconn).
      destruct (Hback o Ho) as (e & He & Hw' & Hconn').
      exists e. split; [exact He|]. split; [congruence|].
      unfold connects in *.
      destruct Hconn as [[<- <-]|(Hd & <- & <-)], Hconn' as [[? ?]|(? & ? & ?)]; auto.
  - simpl. exact Hconfig.
Qed.

(** Membership in a list that is written out. *)
Ltac list_cases H :=
  repeat (apply elem_of_cons in H as [->|H]);
  [.. | apply elem_of_nil in H; contradiction].

Ltac in_list := apply list_elem_of_In; simpl; auto 10.

(** Membership in a list of pairs that is written out, and the lookup
    of a key in an adjacency map that is written out. *)
Ltac entry_cases H :=
  repeat (apply elem_of_cons in H as [[= -> ->]|H]);
  [.. | apply elem_of_nil in H; contradiction].

Ltac lookup_cases H :=
  apply elem_of_map_to_list in H; vm_compute in H; entry_cases H.

(** The weights of a graph that is written out are at most [B]. *)
Ltac safe_weights B :=
  exists B; split;
  [ let x := fresh "x" in let n := fresh "n" in let Hn := fresh "Hn" in
    let key := fresh "key" in let l := fresh "l" in let Hl := fresh "Hl" in
    intros x n Hn; unfold getNeighbors in Hn; revert Hn;
    generalize (String_of x); intros key Hn;
    destruct (_ !! key) as [l|] eqn:Hl; simpl in Hn;
    [|apply elem_of_nil in Hn; contradiction];
    lookup_cases Hl; list_cases Hn; simpl; lia
  | vm_compute; discriminate ].

(** The theorem at the triangle 1-2, 2-3 (weight 4), 3-1, undirected. *)
Lemma roundTrip_preserves_triangle :
  validGraphData triangleData /\ distinctKeys triangleData
  /\ exists d', roundTrip triangleData "g" "triangle" = Ok d' /\ preserved triangleData d'.
Proof.
  assert (Hvalid : validGraphData triangleData).
  { split; [|split].
    - intros e He. simpl in He. list_cases He; split; in_list.
    - discriminate.
    - intros _ i j e1 e2 Hij Hi Hj [[Hf Ht]|(_ & Hf & Ht)];
        destruct i as [|[|[|i]]], j as [|[|[|j]]]; simpl in Hi, Hj;
        try discriminate; try contradiction;
        injection Hi as <-; injection Hj as <-; discriminate. }
  assert (Hkeys : distinctKeys triangleData).
  { split.
    - intros x y Hx Hy Hxy. simpl in Hx, Hy.
      list_cases Hx; list_cases Hy; try reflexivity; vm_compute in Hxy; discriminate.
    - apply (bool_decide_unpack _). vm_compute. exact I. }
  split; [exact Hvalid|]. split; [exact Hkeys|].
  exact (roundTrip_preserves triangleData "g" "triangle" Hvalid Hkeys).
Defined.

(** C6 does not hold for every valid record.  With two parallel edges
    1 -> 2 of the weights 3 and 5 in a directed graph that allows
    multiple edges, the record is valid but [getEdges] reports one edge
    for the key "1->2": the edge of weight 5 is lost.  With the
    undirected edges "a-b" - "c" and "a" - "b-c" the two keys are both
    "a-b-c", and the second edge is lost.  With the nodes 1 and "1",
    which share the adjacency key "1", the edge "1" -> 3 comes back as
    the edge 1 -> 3. *)
Lemma roundTrip_loses_edges :
  (validGraphData parallelEdgesData
   /\ ~ exists d', roundTrip parallelEdgesData "g" "parallel" = Ok d'
                  /\ preserved parallelEdgesData d')
  /\ (validGraphData dashedNamesData
      /\ ~ exists d', roundTrip dashedNamesData "g" "dashes" = Ok d'
                     /\ preserved dashedNamesData d')
  /\ (validGraphData numberAndStringData
      /\ ~ exists d', roundTrip numberAndStringData "g" "one" = Ok d'
                     /\ preserved numberAndStringData d').
Proof.
  split; [|split]; split.
  - split; [|split].
    + intros e He. simpl in He. list_cases He; split; in_list.
    + discriminate.
    + discriminate.
  - intros (d' & Hrun & _ & Hedges & _).
    vm_compute in Hrun. injection Hrun as <-.
    destruct (proj1 (Hedges (NNum 1) (NNum 2) 5)) as (e & He & Hw & _).
    + exists (mkEdge (NNum 1) (NNum 2) (Some 5)).
      split; [in_list|]. split; [reflexivity|]. left. auto.
    + simpl in He. list_cases He. discriminate Hw.
  - split; [|split].
    + intros e He. simpl in He. list_cases He; split; in_list.
    + discriminate.
    + intros _ i j e1 e2 Hij Hi Hj [[Hf Ht]|(_ & Hf & Ht)];
        destruct i as [|[|i]], j as [|[|j]]; simpl in Hi, Hj;
        try discriminate; try contradiction;
        injection Hi as <-; injection Hj as <-; discriminate.
  - intros (d' & Hrun & _ & Hedges & _).
    vm_compute in Hrun. injection Hrun as <-.
    destruct (proj1 (Hedges (NStr "a") (NStr "b-c") 2)) as (e & He & Hw & _).
    + exists (mkEdge (NStr "a") (NStr "b-c") (Some 2)).
      split; [in_list|]. split; [reflexivity|]. left. auto.
    + simpl in He. list_cases He. discriminate Hw.
  - split; [|split].
    + intros e He. simpl in He. list_cases He; split; in_list.
    + discriminate.
    + intros _ i j e1 e2 Hij Hi Hj _.
      destruct i as [|i], j as [|j]; simpl in Hi, Hj;
        try discriminate; contradiction.
  - intros (d' & Hrun & _ & Hedges & _).
    vm_compute in Hrun. injection Hrun as <-.
    destruct (proj1 (Hedges (NStr "1") (NNum 3) 1)) as (e & He & _ & Hconn).
    + exists (mkEdge (NStr "1") (NNum 3) None).
      split; [in_list|]. split; [reflexivity|]. left. auto.
    + simpl in He. list_cases He.
      destruct Hconn as [[Hf _]|(Hd & _)]; discriminate.
Qed.

(** ** Bellman-Ford: the failure sentinel *)

Lemma relaxable_finite d e :
  relaxable d e = true ->
  exists a dv, mapGet (efrom e) d = Some (Fin a) /\ mapGet (eto e) d = Some dv
    /\ distLt (Fin (a + default 1 (eweight e))) dv = true.
Proof.
  unfold relaxable. intros H.
  destruct (mapGet (efrom e) d) as [[a|]|]; [| |discriminate H].
  - destruct (mapGet (eto e) d) as [dv|]; [|discriminate H]. eauto.
  - destruct (mapGet (eto e) d) as [dv|]; discriminate H.
Qed.

Section Relaxation.
Variable edges : list Edge.

Lemma relax_predInv T now st e :
  e ∈ edges -> predInv edges T st -> (forall x, (T x < now)%nat) ->
  exists T', predInv edges T' (relax st e) /\ (forall x, (T' x < S now)%nat).
Proof.
  intros He Hinv HT. unfold relax.
  destruct (relaxable st.1 e) eqn:Hrel; [|exists T; split; [exact Hinv | intros x; specialize (HT x); lia]].
  destruct (relaxable_finite _ _ Hrel) as (a & dv0 & Hu0 & Hv0 & Hlt).
  rewrite Hu0. simpl.
  exists (fun x => if decide (x = eto e) then now else T x). split.
  2:{ intros x. destruct (decide (x = eto e)); [lia | specialize (HT x); lia]. }
  intros v u. simpl. rewrite mapGet_mapSet.
  destruct (decide (eto e = v)) as [Hv|Hv].
  - (* the entry that the relaxation has just written *)
    intros [= <-]. subst v. exists e. rewrite !mapGet_mapSet.
    destruct (decide (eto e = eto e)); [|contradiction].
    destruct (decide (eto e = efrom e)) as [Hself|Hself].
    + rewrite Hself in Hv0. rewrite Hu0 in Hv0. injection Hv0 as <-.
      simpl in Hlt. apply Z.ltb_lt in Hlt.
      exists (a + default 1 (eweight e)), (a + default 1 (eweight e)).
      repeat split; auto; try lia. 
    + exists a, (a + default 1 (eweight e)). rewrite Hu0.
      repeat split; auto; try lia. right.
      destruct (decide (efrom e = eto e)); [congruence|]. apply HT.
  - (* an older entry *)
    intros Hp. destruct (Hinv v u Hp) as (e1 & du & dv & He1 & Hf & Ht & Hdu & Hdv & Hle & Hor).
    rewrite !mapGet_mapSet.
    destruct (decide (eto e = v)); [contradiction|].
    destruct (decide (v = eto e)); [congruence|].
    destruct (decide (eto e = u)) as [Hu|Hu].
    + rewrite <- Hu in Hdu. rewrite Hdu in Hv0. injection Hv0 as <-.
      simpl in Hlt. apply Z.ltb_lt in Hlt.
      exists e1, (a + default 1 (eweight e)), dv. repeat split; auto; try lia.
    + exists e1, du, dv. repeat split; auto.
      destruct (decide (u = eto e)); [congruence | exact Hor].
Qed.

Lemma relax_all_predInv es :
  forall T now st,
    (forall e, e ∈ es -> e ∈ edges) ->
    predInv edges T st -> (forall x, (T x < now)%nat) ->
    exists T' now', predInv edges T' (foldl relax st es) /\ (forall x, (T' x < now')%nat).
Proof.
  induction es as [|e es IH]; intros T now st Hes Hinv HT; simpl; [eauto|].
  destruct (relax_predInv T now st e) as (T1 & Hinv1 & HT1);
    [apply Hes, elem_of_cons; auto | assumption..|].
  apply (IH T1 (S now)); auto. intros e' He'. apply Hes, elem_of_cons. auto.
Qed.

Lemma relaxRounds_predInv rounds :
  forall T now st,
    predInv edges T st -> (forall x, (T x < now)%nat) ->
    exists T' now', predInv edges T' (relaxRounds rounds edges st)
                    /\ (forall x, (T' x < now')%nat).
Proof.
  induction rounds as [|rounds IH]; intros T now st Hinv HT; simpl; [eauto|].
  destruct (relax_all_predInv edges T now st) as (T1 & now1 & Hinv1 & HT1); auto.
  eapply IH; eauto.
Qed.
End Relaxation.

Lemma bfInit_no_previous ns start v u :
  mapGet v (bfInit ns start).2 <> Some (Some u).
Proof.
  unfold bfInit. simpl.
  assert (H : forall (st : BFState),
            (forall v u, mapGet v st.2 <> Some (Some u)) ->
            forall v u, mapGet v (foldl (fun (st : BFState) nd =>
                           (mapSet nd Infinity st.1, mapSet nd None st.2)) st ns).2
                        <> Some (Some u)).
  { induction ns as [|nd ns IH]; intros st Hst; simpl; [exact Hst|].
    apply IH. intros v' u'. simpl. rewrite mapGet_mapSet.
    destruct (decide (nd = v')); [discriminate | apply Hst]. }
  apply H. intros v' u'. discriminate.
Qed.

(** After the rounds, and when no edge can be relaxed any more, the
    map [previous] leads from every node back to the start or to a
    node without a predecessor: [reconstructPath] ends. *)
Lemma reconstructLoop_terminates (previous : list (NodeId * option NodeId))
    (T : NodeId -> nat) start :
  (forall v u, mapGet v previous = Some (Some u) -> (T u < T v)%nat) ->
  forall fuel c path, (T c + 2 <= fuel)%nat ->
    exists p, reconstructLoop fuel previous start (Some c) path = Some p.
Proof.
  intros HT. induction fuel as [|fuel IH]; intros c path Hfuel; [lia|].
  simpl. destruct (decide (c = start)); [eauto|].
  destruct (mapGet c previous) as [[u|]|] eqn:Hc; simpl.
  - apply IH. specialize (HT c u Hc). lia.
  - destruct fuel; [lia | simpl; eauto].
  - destruct fuel; [lia | simpl; eauto].
Qed.

Lemma reconstructPath_terminates previous T start :
  (forall v u, mapGet v previous = Some (Some u) -> (T u < T v)%nat) ->
  forall fuel target, (T target + 2 <= fuel)%nat ->
    exists p, reconstructPath fuel previous start target = Some p.
Proof.
  intros HT fuel target Hfuel. unfold reconstructPath.
  destruct (reconstructLoop_terminates previous T start HT fuel target [] Hfuel)
    as [p ->].
  simpl. destruct p as [|first p]; [eauto|].
  destruct (decide (first = start)); eauto.
Qed.

Lemma bfResult_terminates st T start fuel :
  (forall v u, mapGet v st.2 = Some (Some u) -> (T u < T v)%nat) ->
  (forall x, (T x + 2 <= fuel)%nat) ->
  forall ns acc,
    exists m, bfResult fuel st start ns acc = Some m
      /\ forall nd, nd <> start ->
           (nd ∈ ns \/ exists r, mapGet nd acc = Some r /\ distance r = default Infinity (mapGet nd st.1)) ->
           exists r, mapGet nd m = Some r /\ distance r = default Infinity (mapGet nd st.1).
Proof.
  intros HT Hfuel. induction ns as [|n ns IH]; intros acc; simpl.
  - eexists. split; [reflexivity|]. intros nd _ [Hin|Hacc]; [|exact Hacc].
    apply elem_of_nil in Hin. contradiction.
  - destruct (decide (n = start)) as [->|Hn].
    + destruct (IH acc) as (m & -> & Hm). exists m. split; [reflexivity|].
      intros nd Hnd [Hin|Hacc]; apply Hm; auto.
      apply elem_of_cons in Hin as [->|Hin]; [contradiction | auto].
    + destruct (reconstructPath_terminates st.2 T start HT fuel n (Hfuel n)) as [p ->].
      simpl.
      destruct (IH (mapSet n (mkPathResult p (default Infinity (mapGet n st.1))) acc))
        as (m & -> & Hm).
      exists m. split; [reflexivity|].
      intros nd Hnd Hcase. apply Hm; [assumption|].
      rewrite mapGet_mapSet. destruct (decide (n = nd)) as [->|Hne].
      * right. eexists. split; [reflexivity|]. reflexivity.
      * destruct Hcase as [Hin|Hacc]; [|auto].
        apply elem_of_cons in Hin as [->|Hin]; [contradiction | auto].
Qed.

(** ** Bellman-Ford: negative cycles *)

Lemma improves_refl d : improves d d.
Proof. split; [tauto|]. intros x z Hx. exists z. split; [exact Hx | lia]. Qed.

Lemma improves_trans d1 d2 d3 : improves d2 d1 -> improves d3 d2 -> improves d3 d1.
Proof.
  intros [Hk1 Hd1] [Hk2 Hd2]. split.
  - intros x. rewrite Hk2, Hk1. reflexivity.
  - intros x z Hx. destruct (Hd1 x z Hx) as (z1 & Hz1 & Hle1).
    destruct (Hd2 x z1 Hz1) as (z2 & Hz2 & Hle2). exists z2. split; [exact Hz2 | lia].
Qed.

Lemma relax_distances st e :
  (relaxable st.1 e = false /\ relax st e = st)
  \/ exists a dv,
       mapGet (efrom e) st.1 = Some (Fin a) /\ mapGet (eto e) st.1 = Some dv
       /\ distLt (Fin (a + edgeWeight e)) dv = true
       /\ (relax st e).1 = mapSet (eto e) (Fin (a + edgeWeight e)) st.1.
Proof.
  unfold relax. destruct (relaxable st.1 e) eqn:Hrel; [right | left; auto].
  destruct (relaxable_finite _ _ Hrel) as (a & dv & Hu & Hv & Hlt).
  exists a, dv. rewrite Hu. simpl. auto.
Qed.

Lemma relax_improves st e : improves (relax st e).1 st.1.
Proof.
  destruct (relax_distances st e) as [[_ ->]|(a & dv & Hu & Hv & Hlt & ->)];
    [apply improves_refl|].
  split.
  - intros x. rewrite mapGet_mapSet. destruct (decide (eto e = x)) as [<-|]; [|tauto].
    rewrite Hv. split; eauto.
  - intros x z Hx. rewrite mapGet_mapSet. destruct (decide (eto e = x)) as [<-|].
    + rewrite Hx in Hv. injection Hv as <-. simpl in Hlt. apply Z.ltb_lt in Hlt.
      eexists. split; [reflexivity | lia].
    + exists z. split; [exact Hx | lia].
Qed.

Lemma relax_all_improves es : forall st, improves (foldl relax st es).1 st.1.
Proof.
  induction es as [|e es IH]; intros st; simpl; [apply improves_refl|].
  eapply improves_trans; [apply relax_improves | apply IH].
Qed.

Lemma relaxRounds_improves edges rounds :
  forall st, improves (relaxRounds rounds edges st).1 st.1.
Proof.
  induction rounds as [|rounds IH]; intros st; simpl; [apply improves_refl|].
  eapply improves_trans; [apply relax_all_improves | apply IH].
Qed.

(** Once an edge whose source is at a finite distance is relaxed, its
    target is at most one edge further. *)
Lemma relax_bound st e a :
  mapGet (efrom e) st.1 = Some (Fin a) -> is_Some (mapGet (eto e) st.1) ->
  exists z, mapGet (eto e) (relax st e).1 = Some (Fin z) /\ z <= a + edgeWeight e.
Proof.
  intros Hu [dv Hv].
  destruct (relax_distances st e) as [[Hrel ->]|(a' & dv' & Hu' & Hv' & Hlt & ->)].
  - unfold relaxable in Hrel. rewrite Hu, Hv in Hrel. simpl in Hrel.
    destruct dv as [b|]; [|discriminate Hrel].
    apply Z.ltb_ge in Hrel. exists b. split; [exact Hv | exact Hrel].
  - rewrite mapGet_mapSet_eq. rewrite Hu in Hu'. injection Hu' as <-.
    eexists. split; [reflexivity | lia].
Qed.

Lemma not_relaxable_bound d e a :
  relaxable d e = false ->
  mapGet (efrom e) d = Some (Fin a) -> is_Some (mapGet (eto e) d) ->
  exists z, mapGet (eto e) d = Some (Fin z) /\ z <= a + edgeWeight e.
Proof.
  intros Hrel Hu [dv Hv]. unfold relaxable in Hrel. rewrite Hu, Hv in Hrel.
  simpl in Hrel. destruct dv as [b|]; [|discriminate Hrel].
  apply Z.ltb_ge in Hrel. exists b. split; [exact Hv | exact Hrel].
Qed.

Section Walks.
Variable edges : list Edge.
Variable K : NodeId -> Prop.

Lemma isWalk_app p q x z :
  isWalk edges K x (p ++ q) z <-> exists y, isWalk edges K x p y /\ isWalk edges K y q z.
Proof.
  revert x. induction p as [|e p IH]; intros x; simpl.
  - split; [eauto | intros (y & -> & H); exact H].
  - rewrite IH. split.
    + intros (He & Hf & Hk & y & Hp & Hq). eauto 10.
    + intros (y & (He & Hf & Hk & Hp) & Hq). eauto 10.
Qed.

Lemma walkWeight_app p q : walkWeight (p ++ q) = walkWeight p + walkWeight q.
Proof. unfold walkWeight. induction p as [|e p IH]; simpl; lia. Qed.

Lemma isWalk_snoc p e x :
  isWalk edges K x (p ++ [e]) (eto e)
  <-> exists y, isWalk edges K x p y /\ e ∈ edges /\ efrom e = y /\ K (eto e).
Proof.
  rewrite isWalk_app. simpl. split.
  - intros (y & Hp & He & Hf & Hk & _). eauto.
  - intros (y & Hp & He & Hf & Hk). eauto 10.
Qed.

(** A walk that goes through [c] splits there. *)
Lemma isWalk_split p x y c :
  isWalk edges K x p y -> c ∈ visits x p ->
  exists p1 p2, p = p1 ++ p2 /\ isWalk edges K x p1 c /\ isWalk edges K c p2 y
    /\ forall l, visits x p = l -> exists l1, l = l1 ++ visits c p2.
Proof.
  revert x. induction p as [|e p IH]; intros x Hp Hc.
  - apply list_elem_of_singleton in Hc as ->. exists [], []. simpl in *.
    split; [reflexivity|]. split; [reflexivity|]. split; [exact Hp|].
    intros l <-. exists []. reflexivity.
  - unfold visits in Hc. simpl in Hc. apply elem_of_cons in Hc as [->|Hc].
    + exists [], (e :: p). split; [reflexivity|]. split; [reflexivity|].
      split; [exact Hp|]. intros l <-. exists []. reflexivity.
    + destruct Hp as (He & Hf & Hk & Hp).
      destruct (IH (eto e) Hp Hc) as (p1 & p2 & -> & Hp1 & Hp2 & Hsuffix).
      exists (e :: p1), p2. split; [reflexivity|]. split; [simpl; auto|].
      split; [exact Hp2|].
      intros l <-. destruct (Hsuffix _ eq_refl) as [l1 Hl1].
      exists (x :: l1). unfold visits in *. simpl. rewrite <- Hl1. reflexivity.
Qed.

Lemma isWalk_targets p x y :
  isWalk edges K x p y -> forall v, v ∈ map eto p -> K v.
Proof.
  revert x. induction p as [|e p IH]; intros x Hp v Hv; simpl in *.
  - apply elem_of_nil in Hv. contradiction.
  - destruct Hp as (_ & _ & Hk & Hp).
    apply elem_of_cons in Hv as [->|Hv]; [exact Hk | eapply IH; eassumption].
Qed.

Variable start : NodeId.
Hypothesis no_negative : noNegativeCycle edges K start.

(** Without negative cycles a walk can be replaced by one that is not
    heavier and goes through no node twice. *)
Lemma simple_walk p :
  forall x y p0, isWalk edges K start p0 x -> isWalk edges K x p y ->
    exists q, isWalk edges K x q y /\ walkWeight q <= walkWeight p
              /\ NoDup (visits x q).
Proof.
  induction p as [|e p IH]; intros x y p0 Hreach Hp.
  - exists []. split; [exact Hp|]. split; [lia|].
    unfold visits. simpl. apply NoDup_singleton.
  - destruct Hp as (He & Hf & Hk & Hp).
    destruct (IH (eto e) y (p0 ++ [e])) as (q & Hq & Hw & Hnd); [|exact Hp|].
    { apply isWalk_snoc. eauto. }
    destruct (decide (x ∈ visits (eto e) q)) as [Hin|Hout].
    + destruct (isWalk_split q (eto e) y x Hq Hin) as (q1 & q2 & -> & Hq1 & Hq2 & Hsuf).
      exists q2. split; [exact Hq2|]. split.
      * assert (0 <= walkWeight (e :: q1)).
        { apply (no_negative x p0 (e :: q1) Hreach). simpl. auto. }
        rewrite walkWeight_app in Hw. unfold walkWeight in *. simpl in *. lia.
      * destruct (Hsuf _ eq_refl) as [l1 Hl1]. rewrite Hl1 in Hnd.
        apply NoDup_app in Hnd as (_ & _ & Hnd). exact Hnd.
    + exists (e :: q). split; [simpl; auto|]. split.
      * unfold walkWeight in *. simpl. lia.
      * unfold visits in *. simpl. apply NoDup_cons. split; assumption.
Qed.
End Walks.

Lemma bfInit_distances ns start x :
  mapGet x (bfInit ns start).1
  = if decide (start = x) then Some (Fin 0)
    else if decide (x ∈ ns) then Some Infinity else None.
Proof.
  unfold bfInit. simpl. rewrite mapGet_mapSet.
  destruct (decide (start = x)); [reflexivity|].
  assert (H : forall (st : BFState),
            mapGet x (foldl (fun (st : BFState) nd =>
                               (mapSet nd Infinity st.1, mapSet nd None st.2)) st ns).1
            = if decide (x ∈ ns) then Some Infinity else mapGet x st.1).
  { induction ns as [|nd ns IH]; intros st; simpl.
    - destruct (decide (x ∈ [])) as [H|_]; [apply elem_of_nil in H; contradiction|].
      reflexivity.
    - rewrite IH. simpl. rewrite mapGet_mapSet.
      destruct (decide (x ∈ ns)) as [Hin|Hout].
      + destruct (decide (x ∈ nd :: ns)) as [_|Hn]; [reflexivity|].
        exfalso. apply Hn, elem_of_cons. auto.
      + destruct (decide (nd = x)) as [->|Hne].
        * destruct (decide (x ∈ x :: ns)) as [_|Hn]; [reflexivity|].
          exfalso. apply Hn, elem_of_cons. auto.
        * destruct (decide (x ∈ nd :: ns)) as [Hin|_]; [|reflexivity].
          apply elem_of_cons in Hin as [->|Hin]; contradiction. }
  rewrite H. reflexivity.
Qed.

Section Distances.
Variable g : Graph.
Variable start : NodeId.
Variable edges : list Edge.

Local Abbreviation K := (known g start).
Local Abbreviation final := (bfRelaxed g start edges).

Lemma bfInit_keys x :
  is_Some (mapGet x (bfInit (getNodes g) start).1) <-> K x.
Proof.
  rewrite bfInit_distances. unfold known, getNodes.
  destruct (decide (start = x)) as [->|Hne]; [split; eauto|].
  destruct (decide (x ∈ nodes g)) as [Hin|Hout]; [split; eauto|].
  split; [intros [? H]; discriminate H | intros [->|H]; contradiction].
Qed.

Lemma final_keys x : is_Some (mapGet x final.1) <-> K x.
Proof.
  unfold bfRelaxed. rewrite (proj1 (relaxRounds_improves _ _ _)). apply bfInit_keys.
Qed.

Lemma final_start : exists z, mapGet start final.1 = Some (Fin z).
Proof.
  destruct (proj2 (relaxRounds_improves edges (length (getNodes g) - 1)
                     (bfInit (getNodes g) start)) start 0) as (z & Hz & _).
  - rewrite bfInit_distances. destruct (decide (start = start)); [reflexivity | contradiction].
  - exists z. exact Hz.
Qed.

(** When no edge can be relaxed, the distances are a potential: along
    a walk they grow by at most the weight of the walk. *)
Lemma potential_along_walk d :
  (forall x, K x -> is_Some (mapGet x d)) ->
  (forall e, e ∈ edges -> relaxable d e = false) ->
  forall p x y a, isWalk edges K x p y -> mapGet x d = Some (Fin a) ->
    exists b, mapGet y d = Some (Fin b) /\ b <= a + walkWeight p.
Proof.
  intros Hkeys Hnone. induction p as [|e p IH]; intros x y a Hp Hx; simpl in Hp.
  - subst y. exists a. split; [exact Hx|]. unfold walkWeight. simpl. lia.
  - destruct Hp as (He & Hf & Hk & Hp). subst x.
    destruct (not_relaxable_bound d e a (Hnone e He) Hx (Hkeys _ Hk)) as (z & Hz & Hle).
    destruct (IH _ _ z Hp Hz) as (b & Hb & Hle').
    exists b. split; [exact Hb|]. unfold walkWeight in *. simpl. lia.
Qed.

(** A negative cycle that can be reached from the start is detected. *)
Lemma negative_cycle_detected :
  negativeCycleReachable edges K start -> negativeCycleDetected g start edges.
Proof.
  intros (c & p0 & pc & Hp0 & Hpc & Hneg).
  destruct (existsb (relaxable final.1) edges) eqn:Hex.
  - apply existsb_exists in Hex as (e & He & Hr). exists e.
    split; [apply list_elem_of_In, He | exact Hr].
  - exfalso.
    assert (Hnone : forall e, e ∈ edges -> relaxable final.1 e = false).
    { intros e He. apply not_true_is_false. intros Hr.
      rewrite (proj2 (existsb_exists _ _)) in Hex; [discriminate Hex|].
      exists e. split; [apply list_elem_of_In, He | exact Hr]. }
    destruct final_start as [z0 Hz0].
    destruct (potential_along_walk final.1 (fun x => proj2 (final_keys x)) Hnone
                p0 start c z0 Hp0 Hz0) as (a & Ha & _).
    destruct (potential_along_walk final.1 (fun x => proj2 (final_keys x)) Hnone
                pc c c a Hpc Ha) as (b & Hb & Hle).
    rewrite Ha in Hb. injection Hb as <-. lia.
Qed.

Lemma relax_realizable st e :
  e ∈ edges -> (forall x, is_Some (mapGet x st.1) -> K x) ->
  realizable edges K start st.1 -> realizable edges K start (relax st e).1.
Proof.
  intros He Hkeys Hreal.
  destruct (relax_distances st e) as [[_ ->]|(a & dv & Hu & Hv & Hlt & ->)];
    [exact Hreal|].
  intros v z. rewrite mapGet_mapSet. destruct (decide (eto e = v)) as [<-|].
  - intros [= <-]. destruct (Hreal _ _ Hu) as (p & Hp & Hw).
    exists (p ++ [e]). split.
    + apply isWalk_snoc. exists (efrom e).
      split; [exact Hp|]. split; [exact He|]. split; [reflexivity|].
      apply Hkeys. eauto.
    + rewrite walkWeight_app, Hw. unfold walkWeight. simpl. lia.
  - apply Hreal.
Qed.

Lemma relax_all_realizable es :
  forall st, (forall e, e ∈ es -> e ∈ edges) ->
    (forall x, is_Some (mapGet x st.1) -> K x) ->
    realizable edges K start st.1 -> realizable edges K start (foldl relax st es).1.
Proof.
  induction es as [|e es IH]; intros st Hes Hkeys Hreal; simpl; [exact Hreal|].
  apply IH.
  - intros e' He'. apply Hes, elem_of_cons. auto.
  - intros x Hx. apply Hkeys. apply (proj1 (relax_improves st e)). exact Hx.
  - apply relax_realizable; auto. apply Hes, elem_of_cons. auto.
Qed.

Lemma relaxRounds_realizable rounds :
  forall st, (forall x, is_Some (mapGet x st.1) -> K x) ->
    realizable edges K start st.1 ->
    realizable edges K start (relaxRounds rounds edges st).1.
Proof.
  induction rounds as [|rounds IH]; intros st Hkeys Hreal; simpl; [exact Hreal|].
  apply IH.
  - intros x Hx. apply Hkeys. apply (proj1 (relax_all_improves edges st)). exact Hx.
  - apply relax_all_realizable; auto.
Qed.

Lemma final_realizable : realizable edges K start final.1.
Proof.
  apply relaxRounds_realizable.
  - intros x. apply bfInit_keys.
  - intros v z. rewrite bfInit_distances.
    destruct (decide (start = v)) as [->|].
    + intros [= <-]. exists []. split; reflexivity.
    + destruct (decide (v ∈ getNodes g)); discriminate.
Qed.

(** One round makes the distances right for the walks of one more edge. *)
Lemma relax_all_bounded k st :
  (forall x, K x -> is_Some (mapGet x st.1)) ->
  boundedBy edges K start k st.1 ->
  boundedBy edges K start (S k) (foldl relax st edges).1.
Proof.
  intros Hkeys Hb p v Hp Hlen.
  destruct (decide (length p <= k)%nat) as [Hshort|Hlong].
  { destruct (Hb p v Hp Hshort) as (z & Hz & Hle).
    destruct (proj2 (relax_all_improves edges st) v z Hz) as (z' & Hz' & Hle').
    exists z'. split; [exact Hz' | lia]. }
  destruct p as [|e0 p0] using rev_ind; [simpl in Hlong; lia|]. clear IHp0.
  rewrite length_app in Hlen, Hlong. simpl in Hlen, Hlong.
  apply isWalk_app in Hp as (y & Hp & He & Hf & Hk & Hend). simpl in Hend. subst v.
  destruct (Hb p0 y Hp ltac:(lia)) as (z & Hz & Hle).
  apply list_elem_of_split in He as (es1 & es2 & Hsplit).
  rewrite Hsplit, foldl_app. simpl.
  destruct (proj2 (relax_all_improves es1 st) y z Hz) as (z1 & Hz1 & Hle1).
  destruct (relax_bound (foldl relax st es1) e0 z1) as (z2 & Hz2 & Hle2).
  - rewrite Hf. exact Hz1.
  - apply (proj1 (relax_all_improves es1 st)), Hkeys, Hk.
  - destruct (proj2 (relax_all_improves es2 (relax (foldl relax st es1) e0)) _ _ Hz2)
      as (z3 & Hz3 & Hle3).
    exists z3. split; [exact Hz3|].
    rewrite walkWeight_app. unfold walkWeight at 2. simpl. lia.
Qed.

Lemma relaxRounds_bounded rounds :
  forall k st,
    (forall x, K x -> is_Some (mapGet x st.1)) ->
    boundedBy edges K start k st.1 ->
    boundedBy edges K start (k + rounds) (relaxRounds rounds edges st).1.
Proof.
  induction rounds as [|rounds IH]; intros k st Hkeys Hb; simpl.
  - rewrite Nat.add_0_r. exact Hb.
  - rewrite Nat.add_succ_r. apply (IH (S k)).
    + intros x Hx. apply (proj1 (relax_all_improves edges st)), Hkeys, Hx.
    + apply relax_all_bounded; assumption.
Qed.

Lemma final_bounded :
  boundedBy edges K start (length (getNodes g) - 1) final.1.
Proof.
  apply (relaxRounds_bounded (length (getNodes g) - 1) 0).
  - intros x. apply bfInit_keys.
  - intros p v Hp Hlen. destruct p; [|simpl in Hlen; lia]. simpl in Hp. subst v.
    exists 0. split; [|reflexivity].
    rewrite bfInit_distances. destruct (decide (start = start)); [reflexivity | contradiction].
Qed.

(** Without a negative cycle that can be reached from the start, no
    edge can be relaxed after the rounds: nothing is detected.  The
    edges are those of [getEdges], which leave nodes of the graph. *)
Lemma no_negative_cycle_not_detected :
  (forall e, e ∈ edges -> efrom e ∈ nodes g) ->
  noNegativeCycle edges K start -> ~ negativeCycleDetected g start edges.
Proof.
  intros Hfrom Hno (e & He & Hrel).
  destruct (relaxable_finite _ _ Hrel) as (a & dv & Hu & Hv & Hlt).
  destruct (final_realizable _ _ Hu) as (p & Hp & Hw).
  assert (Hpe : isWalk edges K start (p ++ [e]) (eto e)).
  { apply isWalk_snoc. exists (efrom e).
    split; [exact Hp|]. split; [exact He|]. split; [reflexivity|].
    apply final_keys. eauto. }
  destruct (simple_walk edges K start Hno (p ++ [e]) start (eto e) [] eq_refl Hpe)
    as (q & Hq & Hwq & Hnd).
  assert (Hshort : (length q <= length (getNodes g) - 1)%nat).
  { destruct q as [|e1 q]; [simpl; lia|].
    assert (Hstart : start ∈ nodes g).
    { destruct Hq as (He1 & <- & _). apply Hfrom, He1. }
    assert (Hsub : forall x, x ∈ visits start (e1 :: q) -> x ∈ nodes g).
    { intros x Hx. unfold visits in Hx. apply elem_of_cons in Hx as [->|Hx];
        [exact Hstart|].
      destruct (isWalk_targets edges K _ _ _ Hq x Hx) as [->|Hk]; assumption. }
    pose proof (submseteq_length _ _ (NoDup_submseteq _ _ Hnd Hsub)) as Hlen.
    unfold visits in Hlen. simpl in Hlen. rewrite length_map in Hlen.
    unfold getNodes. simpl. lia. }
  destruct (final_bounded q (eto e) Hq Hshort) as (z & Hz & Hle).
  rewrite Hz in Hv. injection Hv as <-. simpl in Hlt. apply Z.ltb_lt in Hlt.
  rewrite walkWeight_app in Hwq. unfold walkWeight at 3 in Hwq. simpl in Hwq.
  unfold edgeWeight in *. lia.
Qed.
End Distances.

(** The edges that [getEdges] reports leave nodes of the graph. *)
Lemma getEdgesLoop_lists g ns :
  forall acc r, getEdgesLoop g ns acc = Ok r ->
    forall x, x ∈ ns -> is_Some (adjacencyList g !! String_of x).
Proof.
  induction ns as [|from ns IH]; intros acc r Hrun x Hx; simpl in Hrun.
  - apply elem_of_nil in Hx. contradiction.
  - unfold listAt in Hrun.
    destruct (adjacencyList g !! String_of from) as [l|] eqn:Hl; [|discriminate Hrun].
    simpl in Hrun. apply elem_of_cons in Hx as [->|Hx]; [rewrite Hl; eauto|].
    eapply IH; eassumption.
Qed.

Lemma getEdges_from_nodes g edges :
  getEdges g = Ok edges -> forall e, e ∈ edges -> efrom e ∈ nodes g.
Proof.
  unfold getEdges. intros Hrun e He.
  destruct (getEdgesLoop_scanned g (nodes g) (getEdgesLoop_lists _ _ _ _ Hrun) ([], []))
    as ([out seen] & Hrun' & [Hfrom _ _ _ _]).
  rewrite Hrun in Hrun'. injection Hrun' as ->. simpl in Hfrom.
  destruct (Hfrom e He) as [H|(from & n & Hin & ->)];
    [apply elem_of_nil in H; contradiction|].
  unfold slotsOfNodes in Hin. apply list_elem_of_bind in Hin as (x & Hin & Hx).
  apply list_elem_of_fmap in Hin as (n' & [= -> ->] & _). exact Hx.
Qed.

(** When [getEdges] gives the edges of the graph, [bellmanFord]
    returns [null] exactly when its final pass finds an edge that can
    still be relaxed after the [nodes.length - 1] rounds.  This
    happens when a cycle of negative weight can be reached from the
    start along these edges, and does not happen when every such cycle
    has a weight of at least 0.  When it does not happen,
    [bellmanFord] returns, with enough fuel for the reconstruction of
    the paths, a map that gives every node other than the start a path
    and its distance. *)
Lemma bellmanFord_null_iff_detected g start edges :
  getEdges g = Ok edges ->
  (forall fuel,
     bellmanFord fuel g start = Ok (Some Null) <-> negativeCycleDetected g start edges)
  /\ (negativeCycleReachable edges (known g start) start ->
      negativeCycleDetected g start edges)
  /\ (noNegativeCycle edges (known g start) start ->
      ~ negativeCycleDetected g start edges)
  /\ (~ negativeCycleDetected g start edges ->
      exists N, forall fuel, (N <= fuel)%nat ->
        exists m, bellmanFord fuel g start = Ok (Some (Paths m))
          /\ forall nd, nd ∈ getNodes g -> nd <> start ->
               exists r, mapGet nd m = Some r
                 /\ distance r = default Infinity (mapGet nd (bfRelaxed g start edges).1)).
Proof.
  intros Hedges.
  assert (Hdec : existsb (relaxable (bfRelaxed g start edges).1) edges = true
                 <-> negativeCycleDetected g start edges).
  { rewrite existsb_exists. unfold negativeCycleDetected.
    split; intros (e & He & Hr); exists e; split; auto; apply list_elem_of_In; exact He. }
  split; [|split; [|split]].
  - intros fuel. unfold bellmanFord. rewrite Hedges. simpl.
    destruct (existsb (relaxable (bfRelaxed g start edges).1) edges) eqn:Hex.
    + split; [intros _; apply Hdec; reflexivity | reflexivity].
    + split.
      * destruct (bfResult fuel _ start (getNodes g) []); discriminate.
      * intros Hd. apply Hdec in Hd. discriminate Hd.
  - apply negative_cycle_detected.
  - apply no_negative_cycle_not_detected. apply getEdges_from_nodes, Hedges.
  - intros Hnot.
    assert (Hex : existsb (relaxable (bfRelaxed g start edges).1) edges = false).
    { apply not_true_is_false. intros E. apply Hnot, Hdec, E. }
    destruct (relaxRounds_predInv edges (length (getNodes g) - 1) (fun _ => O) 1%nat
                (bfInit (getNodes g) start)) as (T & now & Hinv & HT).
    { intros v u Hp. exfalso. eapply bfInit_no_previous, Hp. }
    { intros x. lia. }
    fold (bfRelaxed g start edges) in Hinv.
    assert (Horder : forall v u, mapGet v (bfRelaxed g start edges).2 = Some (Some u) ->
                       (T u < T v)%nat).
    { intros v u Hp.
      destruct (Hinv v u Hp) as (e & du & dv & He & Hf & Ht & Hdu & Hdv & Hle & [Hlt|Hlt]);
        [|exact Hlt].
      exfalso. apply Hnot. exists e. split; [exact He|].
      unfold relaxable. rewrite Hf, Ht, Hdu, Hdv. simpl. apply Z.ltb_lt. exact Hlt. }
    exists (now + 2)%nat. intros fuel Hfuel.
    destruct (bfResult_terminates (bfRelaxed g start edges) T start fuel Horder)
      with (ns := getNodes g) (acc := [] : list (NodeId * PathResult))
      as (m & Hm & Hkeys).
    { intros x. specialize (HT x). lia. }
    exists m. split.
    + unfold bellmanFord. rewrite Hedges. simpl. rewrite Hex, Hm. reflexivity.
    + intros nd Hnd Hne. apply Hkeys; auto.
Qed.

(** Without a negative cycle the result is the map of the paths. *)
Example bellmanFord_paths_run :
  (g ← addEdges [mkEdge (NNum 1) (NNum 2) (Some 5); mkEdge (NNum 2) (NNum 3) (Some (-3));
                 mkEdge (NNum 1) (NNum 3) (Some 100)]
        (newGraph (mkConfig true true true false));
   bellmanFord 5 g (NNum 1))
  = Ok (Some (Paths [(NNum 2, mkPathResult [NNum 1; NNum 2] (Fin 5));
                     (NNum 3, mkPathResult [NNum 1; NNum 2; NNum 3] (Fin 2))])).
Proof. vm_compute. reflexivity. Qed.

(** ** The Graph class: edges added, looked up and removed *)

Lemma setFirstWeight_Some t w l l' :
  setFirstWeight t w l = Some l' ->
  List.find (fun n => bool_decide (node n = t)) l' = Some (mkNeighbor t w).
Proof.
  revert l'. induction l as [|n l IH]; intros l' H; simpl in H; [discriminate|].
  destruct (decide (node n = t)) as [Heq|Hne].
  - injection H as <-. simpl. rewrite bool_decide_eq_true_2 by exact Heq. now rewrite Heq.
  - destruct (setFirstWeight t w l) as [r|] eqn:Hr; [|discriminate].
    injection H as <-. simpl. rewrite bool_decide_eq_false_2 by exact Hne. now apply IH.
Qed.

Lemma setFirstWeight_None t w l :
  setFirstWeight t w l = None ->
  List.find (fun n => bool_decide (node n = t)) l = None.
Proof.
  induction l as [|n l IH]; intros H; simpl in *; [reflexivity|].
  destruct (decide (node n = t)) as [Heq|Hne]; [discriminate|].
  rewrite bool_decide_eq_false_2 by exact Hne.
  destruct (setFirstWeight t w l); [discriminate|]. now apply IH.
Qed.

Lemma find_app_l {A} (p : A -> bool) l1 l2 x :
  List.find p l1 = Some x -> List.find p (l1 ++ l2) = Some x.
Proof.
  induction l1 as [|a l1 IH]; simpl; [discriminate|].
  destruct (p a); [trivial|exact IH].
Qed.

Lemma find_app_r {A} (p : A -> bool) l1 l2 :
  List.find p l1 = None -> List.find p (l1 ++ l2) = List.find p l2.
Proof.
  induction l1 as [|a l1 IH]; simpl; [trivial|].
  destruct (p a); [discriminate|exact IH].
Qed.

Lemma find_existsb {A} (p : A -> bool) l x :
  List.find p l = Some x -> existsb p l = true.
Proof.
  induction l as [|a l IH]; simpl; [discriminate|].
  destruct (p a); [trivial|exact IH].
Qed.

Lemma addNode_config id g : config (addNode id g) = config g.
Proof. unfold addNode. now destruct (decide _). Qed.

(** X1. After a call of [addEdge] that returns, [hasEdge(from, to)]
    is true; when the graph does not allow multiple edges,
    [getEdgeWeight(from, to)] is the weight of the edge that was added
    (1 when the edge has none), whether the call has appended a new
    entry or updated the entry that was there. *)
Theorem addEdge_then_hasEdge (e : Edge) (g g' : Graph) :
  addEdge e g = Ok g' ->
  hasEdge (efrom e) (eto e) g' = true /\
  (allowMultipleEdges (config g) = false ->
   getEdgeWeight (efrom e) (eto e) g' = Some (default 1 (eweight e))).
Proof.
  unfold addEdge. cbv zeta.
  destruct (negb (allowSelfLoops (config g)) && bool_decide (efrom e = eto e)); [discriminate|].
  set (g0 := addNode (eto e) (addNode (efrom e) g)).
  assert (Hc : config g0 = config g) by (unfold g0; now rewrite !addNode_config).
  rewrite Hc.
  destruct (listAt (String_of (efrom e)) g0) as [fromList|] eqn:Hfrom; simpl; [|discriminate].
  set (p := fun n : Neighbor => bool_decide (node n = eto e)).
  assert (Hget : forall g1 l, adjacencyList g1 !! String_of (efrom e) = Some l ->
            List.find p l = Some (mkNeighbor (eto e) (default 1 (eweight e))) ->
            hasEdge (efrom e) (eto e) g1 = true /\
            (false = false ->
             getEdgeWeight (efrom e) (eto e) g1 = Some (default 1 (eweight e)))).
  { intros g1 l Hl Hf. unfold hasEdge, getEdgeWeight. rewrite Hl. simpl.
    fold p. rewrite Hf. simpl. split; [|reflexivity]. eapply find_existsb, Hf. }
  destruct (allowMultipleEdges (config g)) eqn:Hmulti.
  - (* multiple edges allowed: a new entry is pushed *)
    assert (Hex : existsb p (fromList ++ [mkNeighbor (eto e) (default 1 (eweight e))]) = true).
    { rewrite existsb_app. simpl. unfold p at 2. simpl.
      rewrite bool_decide_eq_true_2 by reflexivity. now rewrite orb_true_r. }
    destruct (negb (directed (config g))).
    + unfold listAt. simpl.
      destruct (<[_ := _]> (adjacencyList g0) !! String_of (eto e)) as [toList|] eqn:Hto;
        simpl; [|discriminate].
      intros [= <-]. split; [|discriminate].
      unfold hasEdge. simpl.
      destruct (decide (String_of (eto e) = String_of (efrom e))) as [Hk|Hk].
      * rewrite Hk in *. rewrite lookup_insert_eq in Hto. injection Hto as <-.
        rewrite lookup_insert_eq. fold p. rewrite existsb_app, Hex. reflexivity.
      * rewrite lookup_insert_ne by exact Hk. rewrite lookup_insert_eq. exact Hex.
    + intros [= <-]. split; [|discriminate].
      unfold hasEdge. simpl. rewrite lookup_insert_eq. exact Hex.
  - destruct (setFirstWeight (eto e) (default 1 (eweight e)) fromList) as [updated|] eqn:Hset.
    + intros [= <-]. apply setFirstWeight_Some in Hset.
      apply (Hget _ updated); [apply lookup_insert_eq|exact Hset].
    + apply setFirstWeight_None in Hset. fold p in Hset.
      assert (Hf : List.find p (fromList ++ [mkNeighbor (eto e) (default 1 (eweight e))])
                   = Some (mkNeighbor (eto e) (default 1 (eweight e)))).
      { rewrite find_app_r by exact Hset. simpl. unfold p. simpl.
        now rewrite bool_decide_eq_true_2 by reflexivity. }
      destruct (negb (directed (config g))).
      * unfold listAt. simpl.
        destruct (<[_ := _]> (adjacencyList g0) !! String_of (eto e)) as [toList|] eqn:Hto;
          simpl; [|discriminate].
        intros [= <-].
        destruct (decide (String_of (eto e) = String_of (efrom e))) as [Hk|Hk].
        -- rewrite Hk in *. rewrite lookup_insert_eq in Hto. injection Hto as <-.
           eapply Hget; [simpl; apply lookup_insert_eq|].
           apply find_app_l, Hf.
        -- eapply Hget; [simpl; rewrite lookup_insert_ne by exact Hk; apply lookup_insert_eq|].
           exact Hf.
      * intros [= <-].
        eapply Hget; [simpl; apply lookup_insert_eq|exact Hf].
Qed.

Lemma addEdge_then_hasEdge_witness :
  exists g', addEdge (mkEdge (NNum 1) (NNum 2) (Some 7)) (newGraph undirectedConfig) = Ok g'
    /\ hasEdge (NNum 1) (NNum 2) g' = true
    /\ getEdgeWeight (NNum 1) (NNum 2) g' = Some 7.
Proof.
  destruct (addEdge (mkEdge (NNum 1) (NNum 2) (Some 7)) (newGraph undirectedConfig))
    as [g'|msg] eqn:Hrun; [|vm_compute in Hrun; discriminate Hrun].
  exists g'. split; [reflexivity|].
  destruct (addEdge_then_hasEdge _ _ _ Hrun) as [Hhas Hweight].
  split; [exact Hhas|]. apply Hweight. reflexivity.
Defined.

Lemma existsb_false_findIndex t l :
  existsb (fun n => bool_decide (node n = t)) l = false -> findIndex t l = None.
Proof.
  induction l as [|n l IH]; simpl; [trivial|].
  destruct (decide (node n = t)) as [Heq|Hne].
  - rewrite bool_decide_eq_true_2 by exact Heq. discriminate.
  - rewrite bool_decide_eq_false_2 by exact Hne. intros H. now rewrite IH.
Qed.

Lemma findIndex_app_new t l w l2 :
  findIndex t l = None ->
  findIndex t (l ++ mkNeighbor t w :: l2) = Some (length l).
Proof.
  induction l as [|n l IH]; simpl.
  - intros _. now rewrite decide_True.
  - destruct (decide (node n = t)); [discriminate|].
    destruct (findIndex t l); [discriminate|]. intros _. now rewrite IH.
Qed.

Lemma splice1_app_new l n l2 : splice1 (length l) (l ++ n :: l2) = l ++ l2.
Proof.
  unfold splice1. rewrite take_app_length. f_equal.
  induction l as [|a l IH]; simpl; [reflexivity|exact IH].
Qed.

Lemma graph_eq a a' n c k k' :
  a = a' -> k = k' -> mkGraph a n c k = mkGraph a' n c k'.
Proof. now intros -> ->. Qed.

(** X2. [removeEdge] undoes [addEdge]: when the two end points are
    nodes of the graph and neither has an entry for the other,
    [addEdge(e)] followed by [removeEdge(e.from, e.to)] gives back the
    graph as it was, with its neighbor lists and its edge counter. *)
Theorem removeEdge_addEdge (e : Edge) (g g' : Graph) :
  efrom e ∈ nodes g -> eto e ∈ nodes g ->
  hasEdge (efrom e) (eto e) g = false ->
  hasEdge (eto e) (efrom e) g = false ->
  addEdge e g = Ok g' ->
  removeEdge (efrom e) (eto e) g' = Ok g.
Proof.
  intros Hf Ht Hft Htf. unfold addEdge. cbv zeta.
  destruct (negb (allowSelfLoops (config g)) && bool_decide (efrom e = eto e)); [discriminate|].
  rewrite (addNode_known _ _ Hf), (addNode_known _ _ Ht).
  destruct (listAt (String_of (efrom e)) g) as [fromList|] eqn:Hfrom; simpl;
    [|discriminate].
  unfold listAt in Hfrom.
  destruct (adjacencyList g !! String_of (efrom e)) as [fromList'|] eqn:Hfrom';
    [|discriminate Hfrom].
  injection Hfrom as ->. rename Hfrom' into Hfrom.
  unfold hasEdge in Hft. rewrite Hfrom in Hft.
  pose proof (existsb_false_findIndex _ _ Hft) as Hidx.
  assert (Hset : (if allowMultipleEdges (config g) then None
                  else setFirstWeight (eto e) (default 1 (eweight e)) fromList) = None).
  { destruct (allowMultipleEdges (config g)); [reflexivity|].
    destruct (setFirstWeight _ _ fromList) as [u|] eqn:Hs; [|reflexivity].
    exfalso. clear -Hs Hidx. revert u Hs.
    induction fromList as [|n l IH]; intros u Hs; simpl in *; [discriminate Hs|].
    destruct (decide (node n = eto e)); [discriminate Hidx|].
    destruct (findIndex (eto e) l); [discriminate Hidx|].
    destruct (setFirstWeight (eto e) (default 1 (eweight e)) l); [|discriminate Hs].
    eapply IH; reflexivity. }
  rewrite Hset. clear Hset.
  destruct g as [adj ns c k]. simpl in *.
  destruct (directed c) eqn:Hdir; simpl.
  - intros [= <-]. unfold removeEdge. simpl. rewrite lookup_insert_eq.
    rewrite (findIndex_app_new _ _ _ [] Hidx). rewrite Hdir. simpl.
    rewrite splice1_app_new, app_nil_r. f_equal. apply graph_eq; [|lia].
    rewrite insert_insert_eq. apply insert_id. exact Hfrom.
  - unfold listAt. simpl.
    unfold hasEdge in Htf. simpl in Htf.
    destruct (decide (String_of (eto e) = String_of (efrom e))) as [Hk|Hk].
    + rewrite Hk in *. rewrite lookup_insert_eq. simpl. intros [= <-].
      rewrite Hfrom in Htf. pose proof (existsb_false_findIndex _ _ Htf) as Hidx'.
      unfold removeEdge. simpl. rewrite lookup_insert_eq, <- app_assoc. simpl.
      rewrite (findIndex_app_new _ _ _ _ Hidx), Hdir. simpl.
      rewrite splice1_app_new. unfold listAt. simpl. rewrite Hk, lookup_insert_eq. simpl.
      rewrite (findIndex_app_new _ _ _ [] Hidx'), splice1_app_new, app_nil_r.
      unfold withAdjacency; simpl. f_equal. apply graph_eq; [|lia].
      rewrite !insert_insert_eq. apply insert_id. exact Hfrom.
    + rewrite lookup_insert_ne by congruence.
      destruct (adj !! String_of (eto e)) as [toList|] eqn:Hto; simpl; [|discriminate].
      intros [= <-].
      pose proof (existsb_false_findIndex _ _ Htf) as Hidx'.
      unfold removeEdge. simpl. rewrite lookup_insert_ne by exact Hk.
      rewrite lookup_insert_eq.
      rewrite (findIndex_app_new _ _ _ [] Hidx), Hdir. simpl.
      rewrite splice1_app_new, app_nil_r. unfold listAt. simpl.
      rewrite lookup_insert_ne by congruence. rewrite lookup_insert_eq. simpl.
      rewrite (findIndex_app_new _ _ _ [] Hidx'), splice1_app_new, app_nil_r.
      unfold withAdjacency; simpl. f_equal. apply graph_eq; [|lia].
      apply map_eq. intros i.
      destruct (decide (i = String_of (eto e))) as [->|Hi].
      * rewrite lookup_insert_eq. now rewrite Hto.
      * rewrite lookup_insert_ne by congruence.
        destruct (decide (i = String_of (efrom e))) as [->|Hi'].
        -- rewrite lookup_insert_eq. now rewrite Hfrom.
        -- rewrite !lookup_insert_ne by congruence. reflexivity.
Qed.

Lemma removeEdge_addEdge_witness :
  exists g',
    addEdge (mkEdge (NNum 1) (NNum 2) None)
            (addNodes [NNum 1; NNum 2] (newGraph undirectedConfig)) = Ok g'
    /\ removeEdge (NNum 1) (NNum 2) g'
       = Ok (addNodes [NNum 1; NNum 2] (newGraph undirectedConfig)).
Proof.
  destruct (addEdge (mkEdge (NNum 1) (NNum 2) None)
              (addNodes [NNum 1; NNum 2] (newGraph undirectedConfig)))
    as [g'|msg] eqn:Hrun; [|vm_compute in Hrun; discriminate Hrun].
  exists g'. split; [reflexivity|].
  apply (removeEdge_addEdge (mkEdge (NNum 1) (NNum 2) None)).
  - vm_compute. apply list_elem_of_In. simpl. auto.
  - vm_compute. apply list_elem_of_In. simpl. auto.
  - vm_compute. reflexivity.
  - vm_compute. reflexivity.
  - exact Hrun.
Defined.

(** ** Well-formed graphs *)

Lemma addNode_nodes id g x : x ∈ nodes (addNode id g) <-> x ∈ nodes g \/ x = id.
Proof.
  unfold addNode. destruct (decide (id ∈ nodes g)) as [Hin|Hnew]; simpl.
  - split; [auto|]. intros [H| ->]; assumption.
  - rewrite elem_of_app, list_elem_of_singleton. reflexivity.
Qed.

Lemma newGraph_wellFormed c : wellFormed (newGraph c).
Proof.
  split.
  - intros x Hx. simpl in Hx. apply elem_of_nil in Hx. contradiction.
  - intros key l n Hl. simpl in Hl. rewrite lookup_empty in Hl. discriminate Hl.
Qed.

Lemma addNode_wellFormed id g : wellFormed g -> wellFormed (addNode id g).
Proof.
  intros [Hkeys Hclosed]. unfold addNode.
  destruct (decide (id ∈ nodes g)) as [Hin|Hnew]; [split; assumption|].
  split.
  - intros x Hx. simpl in *. apply elem_of_app in Hx as [Hx|Hx].
    + destruct (decide (String_of id = String_of x)) as [->|Hne].
      * rewrite lookup_insert_eq. eauto.
      * rewrite lookup_insert_ne by exact Hne. auto.
    + apply list_elem_of_singleton in Hx as ->. rewrite lookup_insert_eq. eauto.
  - intros key l n Hl Hn. simpl in *. apply elem_of_app. left.
    destruct (decide (String_of id = key)) as [<-|Hne].
    + rewrite lookup_insert_eq in Hl. injection Hl as <-.
      apply elem_of_nil in Hn. contradiction.
    + rewrite lookup_insert_ne in Hl by exact Hne. eapply Hclosed; eassumption.
Qed.

Lemma setFirstWeight_nodes t w l l' :
  setFirstWeight t w l = Some l' -> map node l' = map node l.
Proof.
  revert l'. induction l as [|n l IH]; intros l' H; simpl in H; [discriminate H|].
  destruct (decide (node n = t)).
  - injection H as <-. reflexivity.
  - destruct (setFirstWeight t w l) as [r|]; [|discriminate H].
    injection H as <-. simpl. f_equal. now apply IH.
Qed.

Lemma closedTargets_insert g key l :
  closedTargets g ->
  (forall n, n ∈ l -> node n ∈ nodes g) ->
  forall key' l' n, <[key := l]> (adjacencyList g) !! key' = Some l' -> n ∈ l' ->
    node n ∈ nodes g.
Proof.
  intros Hclosed Hl key' l' n Hl' Hn.
  destruct (decide (key = key')) as [<-|Hne].
  - rewrite lookup_insert_eq in Hl'. injection Hl' as <-. auto.
  - rewrite lookup_insert_ne in Hl' by exact Hne. eapply Hclosed; eassumption.
Qed.

Lemma wellKeyed_insert (a : gmap string (list Neighbor)) key l x :
  is_Some (a !! x) -> is_Some (<[key := l]> a !! x).
Proof.
  intros H. destruct (decide (key = x)) as [->|Hne].
  - rewrite lookup_insert_eq. eauto.
  - now rewrite lookup_insert_ne.
Qed.

Lemma addNode_NoDup id g : NoDup (nodes g) -> NoDup (nodes (addNode id g)).
Proof.
  intros Hnd. unfold addNode. destruct (decide (id ∈ nodes g)) as [Hin|Hnew]; [exact Hnd|].
  simpl. apply NoDup_app. split; [exact Hnd|]. split; [|apply NoDup_singleton].
  intros x Hx Hx'. apply list_elem_of_singleton in Hx' as ->. contradiction.
Qed.

(** [addEdge] keeps a graph well formed. *)
Lemma addEdge_keeps_wellFormed (e : Edge) (g : Graph) :
  wellFormed g ->
  allowSelfLoops (config g) = true \/ efrom e <> eto e ->
  exists g', addEdge e g = Ok g' /\ wellFormed g'
    /\ config g' = config g
    /\ (NoDup (nodes g) -> NoDup (nodes g'))
    /\ forall x, x ∈ nodes g' <-> x ∈ nodes g \/ x = efrom e \/ x = eto e.
Proof.
  intros Hwf Hallowed.
  - unfold addEdge. cbv zeta.
    assert (Hguard : negb (allowSelfLoops (config g)) && bool_decide (efrom e = eto e) = false).
    { destruct Hallowed as [->|Hne]; [reflexivity|].
      rewrite (bool_decide_eq_false_2 _ Hne). apply andb_false_r. }
    rewrite Hguard.
    set (g0 := addNode (eto e) (addNode (efrom e) g)).
    assert (Hwf0 : wellFormed g0) by (unfold g0; now do 2 apply addNode_wellFormed).
    assert (Hnodes : forall x, x ∈ nodes g0 <-> x ∈ nodes g \/ x = efrom e \/ x = eto e).
    { intros x. unfold g0. rewrite !addNode_nodes. tauto. }
    assert (Hc : config g0 = config g) by (unfold g0; now rewrite !addNode_config).
    assert (Hdistinct : NoDup (nodes g) -> NoDup (nodes g0))
      by (intros H; unfold g0; now do 2 apply addNode_NoDup).
    destruct Hwf0 as [Hkeys Hclosed].
    destruct (Hkeys (efrom e)) as [fromList Hfrom]; [apply Hnodes; auto|].
    rewrite (listAt_Some _ _ _ Hfrom). simpl.
    destruct (if allowMultipleEdges (config g0) then None
              else setFirstWeight (eto e) (default 1 (eweight e)) fromList)
      as [updated|] eqn:Hset.
    + exists (withAdjacency g0 (<[String_of (efrom e) := updated]> (adjacencyList g0))).
      split; [reflexivity|]. split; [|split; [exact Hc|split; [exact Hdistinct|exact Hnodes]]].
      destruct (allowMultipleEdges (config g0)); [discriminate Hset|].
      apply setFirstWeight_nodes in Hset. split.
      * intros x Hx. simpl. apply wellKeyed_insert, Hkeys, Hx.
      * intros key l n. simpl. apply closedTargets_insert; [exact Hclosed|].
        intros n' Hn'. assert (Hin : node n' ∈ map node fromList).
        { rewrite <- Hset. apply list_elem_of_fmap. eauto. }
        apply list_elem_of_fmap in Hin as (n0 & -> & Hn0).
        eapply Hclosed; eassumption.
    + set (g1 := mkGraph _ _ _ _).
      assert (Hwf1 : wellFormed g1).
      { split.
        - intros x Hx. simpl. apply wellKeyed_insert, Hkeys, Hx.
        - intros key l n. simpl. apply closedTargets_insert; [exact Hclosed|].
          intros n' Hn'. apply elem_of_app in Hn' as [Hn'|Hn'].
          + eapply Hclosed; eassumption.
          + apply list_elem_of_singleton in Hn' as ->. simpl. apply Hnodes. auto. }
      destruct (negb (directed (config g0))).
      * destruct Hwf1 as [Hkeys1 Hclosed1].
        destruct (Hkeys1 (eto e)) as [toList Hto]; [apply Hnodes; auto|].
        rewrite (listAt_Some _ _ _ Hto). simpl.
        eexists. split; [reflexivity|]. split; [|split; [exact Hc|split; [exact Hdistinct|exact Hnodes]]].
        split.
        -- intros x Hx. simpl. apply wellKeyed_insert, Hkeys1, Hx.
        -- intros key l n. apply (closedTargets_insert g1); [exact Hclosed1|].
           intros n' Hn'. apply elem_of_app in Hn' as [Hn'|Hn'].
           ++ eapply Hclosed1; eassumption.
           ++ apply list_elem_of_singleton in Hn' as ->. simpl. apply Hnodes. auto.
      * exists g1. split; [reflexivity|]. split; [exact Hwf1|split; [exact Hc|split; [exact Hdistinct|exact Hnodes]]].
Qed.

(** X3. On a well-formed graph (every node has a neighbor list and
    every neighbor entry points to a node), [addEdge] throws only the
    self-loop error, and exactly when the graph forbids self-loops and
    the edge is one.  Otherwise it returns a well-formed graph with the
    same configuration, whose nodes are those of the graph and the two
    end points, without a duplicate if there was none. *)
Theorem addEdge_wellFormed (e : Edge) (g : Graph) :
  wellFormed g ->
  (allowSelfLoops (config g) = false /\ efrom e = eto e ->
   addEdge e g = Throw "Self-loops are not allowed in this graph")
  /\ (allowSelfLoops (config g) = true \/ efrom e <> eto e ->
      exists g', addEdge e g = Ok g' /\ wellFormed g'
        /\ config g' = config g
        /\ (NoDup (nodes g) -> NoDup (nodes g'))
        /\ forall x, x ∈ nodes g' <-> x ∈ nodes g \/ x = efrom e \/ x = eto e).
Proof.
  intros Hwf. split.
  - intros [Hself Heq]. unfold addEdge. rewrite Hself.
    now rewrite bool_decide_eq_true_2 by exact Heq.
  - apply addEdge_keeps_wellFormed, Hwf.
Qed.

Lemma addEdge_wellFormed_witness :
  exists g', addEdge (mkEdge (NNum 1) (NNum 2) None) (newGraph undirectedConfig) = Ok g'
    /\ wellFormed g' /\ NoDup (nodes g').
Proof.
  destruct (addEdge_wellFormed (mkEdge (NNum 1) (NNum 2) None) (newGraph undirectedConfig)
              (newGraph_wellFormed _)) as [_ Hok].
  destruct Hok as (g' & Hrun & Hwf & _ & Hnd & _); [left; reflexivity|].
  exists g'. split; [exact Hrun|]. split; [exact Hwf|]. apply Hnd, NoDup_nil_2.
Defined.

Lemma findIndex_lookup t l i :
  findIndex t l = Some i -> exists n, l !! i = Some n /\ node n = t.
Proof.
  revert i. induction l as [|n l IH]; intros i H; simpl in H; [discriminate H|].
  destruct (decide (node n = t)) as [Heq|Hne].
  - injection H as <-. exists n. split; [reflexivity|exact Heq].
  - destruct (findIndex t l) as [j|]; [|discriminate H]. injection H as <-.
    destruct (IH j eq_refl) as (n' & Hn' & Ht). exists n'. split; assumption.
Qed.

Lemma elem_of_splice1 i l n : n ∈ splice1 i l -> n ∈ l.
Proof.
  unfold splice1. intros H. apply elem_of_app in H as [H|H].
  - rewrite <- (take_drop i l). apply elem_of_app. auto.
  - rewrite <- (take_drop (S i) l). apply elem_of_app. auto.
Qed.

(** X4. On a well-formed graph in which [from] has a neighbor list,
    [removeEdge(from, to)] never throws: the entry that it finds names
    a node, so that the lookup of the list of [to] that it makes in an
    undirected graph finds a list.  The graph that it returns is well
    formed and has the same nodes and the same configuration. *)
Theorem removeEdge_wellFormed (from to : NodeId) (g : Graph) :
  wellFormed g ->
  is_Some (adjacencyList g !! String_of from) ->
  exists g', removeEdge from to g = Ok g' /\ wellFormed g'
    /\ nodes g' = nodes g /\ config g' = config g.
Proof.
  intros [Hkeys Hclosed] _. unfold removeEdge. cbv zeta.
  destruct (adjacencyList g !! String_of from) as [fromList|] eqn:Hfrom;
    [|exists g; split; [reflexivity|split; [split; assumption|split; reflexivity]]].
  destruct (findIndex to fromList) as [index|] eqn:Hidx;
    [|exists g; split; [reflexivity|split; [split; assumption|split; reflexivity]]].
  set (g1 := mkGraph _ _ _ _).
  assert (Hwf1 : wellKeyed g1 /\ closedTargets g1).
  { split.
    - intros x Hx. simpl. apply wellKeyed_insert, Hkeys, Hx.
    - intros key l n. simpl. apply closedTargets_insert; [exact Hclosed|].
      intros n' Hn'. apply elem_of_splice1 in Hn'. eapply Hclosed; eassumption. }
  destruct (negb (directed (config g)));
    [|exists g1; split; [reflexivity|split; [exact Hwf1|split; reflexivity]]].
  destruct Hwf1 as [Hkeys1 Hclosed1].
  apply findIndex_lookup in Hidx as (n & Hn & Hto).
  assert (Hin : to ∈ nodes g).
  { rewrite <- Hto. eapply Hclosed; [exact Hfrom|]. eapply list_elem_of_lookup_2, Hn. }
  destruct (Hkeys1 to Hin) as [toList Hlist].
  rewrite (listAt_Some _ _ _ Hlist). simpl.
  destruct (findIndex from toList) as [reverseIndex|];
    [|exists g1; split; [reflexivity|split; [split; assumption|split; reflexivity]]].
  eexists. split; [reflexivity|]. split; [|split; reflexivity].
  split.
  - intros x Hx. simpl. apply wellKeyed_insert, Hkeys1, Hx.
  - intros key l n'. apply (closedTargets_insert g1); [exact Hclosed1|].
    intros n'' Hn''. apply elem_of_splice1 in Hn''. eapply Hclosed1; eassumption.
Qed.

(** ** What [getEdges] reports *)

Lemma getEdgesFrom_keys dir from l :
  forall acc, map (keyOf dir) acc.1 = acc.2 -> NoDup acc.2 ->
    map (keyOf dir) (getEdgesFrom dir from l acc).1 = (getEdgesFrom dir from l acc).2
    /\ NoDup (getEdgesFrom dir from l acc).2.
Proof.
  induction l as [|n l IH]; intros [edges seen] Hmap Hnd; simpl; [auto|].
  destruct (decide (edgeKey dir from (node n) ∈ seen)) as [Hseen|Hnew].
  - apply IH; assumption.
  - apply IH; simpl in *.
    + rewrite map_app, Hmap. reflexivity.
    + apply NoDup_app. split; [exact Hnd|]. split; [|apply NoDup_singleton].
      intros k Hk Hk'. apply list_elem_of_singleton in Hk' as ->. contradiction.
Qed.

Lemma getEdgesLoop_keys g ns :
  forall acc r, getEdgesLoop g ns acc = Ok r ->
    map (keyOf (directed (config g))) acc.1 = acc.2 -> NoDup acc.2 ->
    NoDup (map (keyOf (directed (config g))) r).
Proof.
  induction ns as [|from ns IH]; intros acc r Hrun Hmap Hnd; simpl in Hrun.
  - injection Hrun as <-. now rewrite Hmap.
  - destruct (listAt (String_of from) g) as [l|]; [|discriminate Hrun]. simpl in Hrun.
    destruct (getEdgesFrom_keys (directed (config g)) from l acc Hmap Hnd) as [Hmap' Hnd'].
    eapply IH; eassumption.
Qed.

Lemma slotsOfNodes_elem g ns from n :
  (from, n) ∈ slotsOfNodes g ns <-> from ∈ ns /\ n ∈ getNeighbors from g.
Proof.
  unfold slotsOfNodes, getNeighbors, slotsOf. rewrite list_elem_of_bind. split.
  - intros (x & Hin & Hx). apply list_elem_of_fmap in Hin as (n' & [= -> ->] & Hn').
    auto.
  - intros [Hx Hn]. exists from. split; [|exact Hx].
    apply list_elem_of_fmap. eauto.
Qed.

(** X5. [getEdges] returns (rather than raising a TypeError) exactly
    when every node has a neighbor list.  The edges that it returns
    have pairwise different keys (the [from->to] or sorted [a-b] string
    that the method uses to skip what it has seen); each of them
    leaves a node of the graph along one of its neighbor entries, with
    the weight of that entry; and the key of every neighbor entry of a
    node is the key of a returned edge. *)
Theorem getEdges_reports (g : Graph) :
  ((exists edges, getEdges g = Ok edges) <-> wellKeyed g)
  /\ forall edges, getEdges g = Ok edges ->
       NoDup (map (keyOf (directed (config g))) edges)
       /\ (forall e, e ∈ edges ->
             efrom e ∈ nodes g
             /\ mkNeighbor (eto e) (edgeWeight e) ∈ getNeighbors (efrom e) g)
       /\ (forall from n, from ∈ nodes g -> n ∈ getNeighbors from g ->
             exists e, e ∈ edges
               /\ keyOf (directed (config g)) e
                  = edgeKey (directed (config g)) from (node n)).
Proof.
  split.
  - split.
    + intros [edges Hrun] x Hx. eapply getEdgesLoop_lists; eassumption.
    + intros Hkeys. destruct (getEdgesLoop_scanned g (nodes g) Hkeys ([], []))
        as (acc' & Hrun & _). eauto.
  - intros edges Hrun. split; [|split].
    + eapply getEdgesLoop_keys; [exact Hrun|reflexivity|apply NoDup_nil_2].
    + intros e He.
      destruct (getEdgesLoop_scanned g (nodes g) (getEdgesLoop_lists _ _ _ _ Hrun) ([], []))
        as ([out seen] & Hrun' & [Hfrom _ _ _ _]).
      unfold getEdges in Hrun. rewrite Hrun in Hrun'. injection Hrun' as ->.
      simpl in Hfrom.
      destruct (Hfrom e He) as [H|(from & n & Hin & ->)];
        [apply elem_of_nil in H; contradiction|].
      apply slotsOfNodes_elem in Hin as [Hx Hn]. simpl. split; [exact Hx|].
      rewrite edgeWeight_reported. now destruct n.
    + intros from n Hx Hn.
      destruct (getEdgesLoop_scanned g (nodes g) (getEdgesLoop_lists _ _ _ _ Hrun) ([], []))
        as ([out seen] & Hrun' & [_ _ _ Hall Hkeys]).
      unfold getEdges in Hrun. rewrite Hrun in Hrun'. injection Hrun' as ->.
      simpl in *. apply Hkeys.
      * intros k Hk. apply elem_of_nil in Hk. contradiction.
      * apply Hall. apply slotsOfNodes_elem. auto.
Qed.

Lemma getEdges_reports_witness :
  exists g, buildGraphFromData triangleData = Ok g
    /\ exists edges, getEdges g = Ok edges /\ NoDup (map (keyOf false) edges).
Proof.
  eexists. split; [vm_compute; reflexivity|].
  match goal with
  | |- exists edges, getEdges ?g = Ok edges /\ _ =>
      destruct (getEdges g) as [edges|msg] eqn:Hrun; [|vm_compute in Hrun; discriminate Hrun]
  end.
  exists edges. split; [reflexivity|].
  apply (proj2 (getEdges_reports _) edges Hrun).
Defined.

(** ** The graphs of the builders *)

Lemma addNodes_wellFormed ns :
  forall g, wellFormed g -> NoDup (nodes g) ->
    wellFormed (addNodes ns g) /\ NoDup (nodes (addNodes ns g)).
Proof.
  unfold addNodes. induction ns as [|id ns IH]; intros g Hwf Hnd; simpl; [auto|].
  apply IH; [apply addNode_wellFormed, Hwf|apply addNode_NoDup, Hnd].
Qed.

(** A list of edges added to a well-formed graph in which self-loops
    are allowed, or none of which is a self-loop. *)
Lemma addEdges_keeps_wellFormed es :
  forall g, wellFormed g ->
    (allowSelfLoops (config g) = true \/ forall e, e ∈ es -> efrom e <> eto e) ->
    exists g', addEdges es g = Ok g' /\ wellFormed g'
      /\ config g' = config g
      /\ (NoDup (nodes g) -> NoDup (nodes g'))
      /\ forall x, x ∈ nodes g' <->
           x ∈ nodes g \/ exists e, e ∈ es /\ (x = efrom e \/ x = eto e).
Proof.
  induction es as [|e es IH]; intros g Hwf Hallowed; simpl.
  - exists g. split; [reflexivity|]. split; [exact Hwf|]. split; [reflexivity|].
    split; [auto|]. intros x. split; [auto|].
    intros [H|(e & He & _)]; [exact H|]. apply elem_of_nil in He. contradiction.
  - destruct (addEdge_keeps_wellFormed e g Hwf) as (g1 & -> & Hwf1 & Hc1 & Hnd1 & Hn1).
    { destruct Hallowed as [H|H]; [auto|]. right. apply H, elem_of_cons. auto. }
    simpl. destruct (IH g1 Hwf1) as (g' & Hrun & Hwf' & Hc' & Hnd' & Hn').
    { rewrite Hc1. destruct Hallowed as [H|H]; [auto|].
      right. intros e' He'. apply H, elem_of_cons. auto. }
    exists g'. split; [exact Hrun|]. split; [exact Hwf'|].
    split; [congruence|]. split; [auto|].
    intros x. rewrite Hn', Hn1. split.
    + intros [[H|H]|(e' & He' & H)].
      * auto.
      * right. exists e. split; [apply elem_of_cons; auto|exact H].
      * right. exists e'. split; [apply elem_of_cons; auto|exact H].
    + intros [H|(e' & He' & H)]; [auto|].
      apply elem_of_cons in He' as [->|He']; [auto|].
      right. exists e'. auto.
Qed.

(** The first self-loop stops the loop over the edges of a graph that
    forbids them. *)
Lemma addEdges_self_loop es :
  forall g, wellFormed g -> allowSelfLoops (config g) = false ->
    (exists e, e ∈ es /\ efrom e = eto e) ->
    addEdges es g = Throw "Self-loops are not allowed in this graph".
Proof.
  induction es as [|e es IH]; intros g Hwf Hno (e0 & He0 & Hself).
  - apply elem_of_nil in He0. contradiction.
  - simpl. destruct (decide (efrom e = eto e)) as [Heq|Hne].
    + unfold addEdge. rewrite Hno. now rewrite bool_decide_eq_true_2 by exact Heq.
    + destruct (addEdge_keeps_wellFormed e g Hwf (or_intror Hne))
        as (g1 & -> & Hwf1 & Hc1 & _).
      simpl. apply IH; [exact Hwf1|congruence|].
      apply elem_of_cons in He0 as [->|He0]; [contradiction|eauto].
Qed.

(** X6. [buildGraphFromData] throws the self-loop error when the
    configuration forbids self-loops and an edge of the record is one.
    Otherwise it returns a well-formed graph with the configuration of
    the record, whose nodes, without a duplicate, are the listed nodes
    and the end points of the edges (an end point that the record does
    not list is added). *)
Theorem buildGraphFromData_wellFormed (d : GraphData) :
  (allowSelfLoops (d_config d) = false /\ (exists e, e ∈ d_edges d /\ efrom e = eto e) ->
   buildGraphFromData d = Throw "Self-loops are not allowed in this graph")
  /\ (allowSelfLoops (d_config d) = true \/ (forall e, e ∈ d_edges d -> efrom e <> eto e) ->
      exists g, buildGraphFromData d = Ok g
        /\ wellFormed g /\ NoDup (nodes g) /\ config g = d_config d
        /\ forall x, x ∈ nodes g <->
             x ∈ d_nodes d \/ exists e, e ∈ d_edges d /\ (x = efrom e \/ x = eto e)).
Proof.
  unfold buildGraphFromData.
  set (g0 := addNodes (d_nodes d) (newGraph (d_config d))).
  destruct (addNodes_wellFormed (d_nodes d) (newGraph (d_config d))
              (newGraph_wellFormed _) (NoDup_nil_2 : NoDup (nodes (newGraph _))))
    as [Hwf0 Hnd0].
  destruct (addNodes_spec (d_nodes d) (newGraph (d_config d))) as (Hc0 & _ & Hn0 & _).
  fold g0 in Hwf0, Hnd0, Hc0, Hn0. simpl in Hc0.
  split.
  - intros [Hno Hself]. apply addEdges_self_loop; [exact Hwf0|congruence|exact Hself].
  - intros Hallowed.
    destruct (addEdges_keeps_wellFormed (d_edges d) g0 Hwf0) as (g & Hrun & Hwf & Hc & Hnd & Hn).
    { rewrite Hc0. exact Hallowed. }
    exists g. split; [exact Hrun|]. split; [exact Hwf|]. split; [auto|].
    split; [congruence|]. intros x. rewrite Hn, Hn0. simpl.
    rewrite elem_of_nil. tauto.
Qed.

Lemma buildGraphFromData_wellFormed_witness :
  exists g, buildGraphFromData triangleData = Ok g /\ wellFormed g /\ NoDup (nodes g).
Proof.
  destruct (proj2 (buildGraphFromData_wellFormed triangleData) (or_introl eq_refl))
    as (g & Hrun & Hwf & Hnd & _).
  exists g. split; [exact Hrun|]. split; assumption.
Defined.

(** X7. [buildGraphFromEdges] never throws, whatever the input: it
    returns a well-formed graph without duplicate nodes, configured as
    asked with self-loops allowed, and this graph is empty when the
    parser has reported an error. *)
Theorem buildGraphFromEdges_wellFormed (edgeInput : string) (dir w : bool) :
  exists r, buildGraphFromEdges edgeInput dir w = Ok r
    /\ wellFormed (b_graph r) /\ NoDup (nodes (b_graph r))
    /\ config (b_graph r) = mkConfig dir w true false
    /\ (b_errors r <> [] -> b_graph r = newGraph (mkConfig dir w true false)).
Proof.
  unfold buildGraphFromEdges. cbv zeta.
  set (parsed := parseEdgeInput edgeInput _).
  change (defaultConfig (Some dir) (Some w)) with (mkConfig dir w true false).
  destruct (r_errors parsed) as [|msg msgs] eqn:Herr.
  - destruct (addEdges_keeps_wellFormed (r_edges parsed) (newGraph (mkConfig dir w true false))
                (newGraph_wellFormed _) (or_introl eq_refl))
      as (g & -> & Hwf & Hc & Hnd & _).
    simpl. eexists. split; [reflexivity|]. simpl.
    split; [exact Hwf|]. split; [apply Hnd, NoDup_nil_2|]. split; [exact Hc|].
    intros H. contradiction.
  - eexists. split; [reflexivity|]. simpl.
    split; [apply newGraph_wellFormed|]. split; [apply NoDup_nil_2|]. split; reflexivity.
Qed.

(** ** Traversals and reachability *)

Lemma setAdd_fresh {K} `{EqDecision K} (x : K) s : x ∉ s -> setAdd x s = s ++ [x].
Proof. intros H. unfold setAdd. now rewrite decide_False by exact H. Qed.

Lemma reachable_step g x y n :
  reachable g x y -> n ∈ getNeighbors y g -> reachable g x (node n).
Proof.
  intros Hxy Hn. eapply rtc_r; [exact Hxy|]. exists n. auto.
Qed.

Section DepthFirstReach.
Variable g : Graph.

Local Abbreviation visit fuel :=
  (fun (n : Neighbor) (st : list NodeId * list NodeId) =>
     if decide (node n ∈ st.1) then Some st else dfsRecursive fuel g (node n) st).

(** What a call of [dfsRecursive] on an unvisited node adds to the
    state: the same nodes, in the same order, to the set and to the
    array; they can be reached from the node, none was visited, and
    when the call returns their neighbors are all visited. *)
Lemma dfsRecursive_adds fuel :
  forall nd st st', dfsRecursive fuel g nd st = Some st' -> nd ∉ st.1 ->
    exists new,
      st'.1 = st.1 ++ nd :: new /\ st'.2 = st.2 ++ nd :: new
      /\ (NoDup st.1 -> NoDup st'.1)
      /\ (forall x, x ∈ nd :: new -> reachable g nd x)
      /\ (forall x n, x ∈ nd :: new -> n ∈ getNeighbors x g -> node n ∈ st'.1).
Proof.
  induction fuel as [|fuel IH]; intros nd st st' H Hnew; [discriminate H|].
  rewrite dfsRecursive_S in H.
  assert (Hloop : forall ns s s', forEachM (visit fuel) ns s = Some s' ->
            exists new,
              s'.1 = s.1 ++ new /\ s'.2 = s.2 ++ new
              /\ (NoDup s.1 -> NoDup s'.1)
              /\ (forall x, x ∈ new -> exists n, n ∈ ns /\ reachable g (node n) x)
              /\ (forall x n, x ∈ new -> n ∈ getNeighbors x g -> node n ∈ s'.1)
              /\ (forall n, n ∈ ns -> node n ∈ s'.1)).
  { induction ns as [|n ns IHns]; intros s s' Hs; simpl in Hs.
    - injection Hs as <-. exists []. rewrite !app_nil_r.
      split; [reflexivity|]. split; [reflexivity|]. split; [auto|].
      split; [intros x Hx; apply elem_of_nil in Hx; contradiction|].
      split; [intros x n Hx; apply elem_of_nil in Hx; contradiction|].
      intros n Hn. apply elem_of_nil in Hn. contradiction.
    - destruct (decide (node n ∈ s.1)) as [Hin|Hout].
      + destruct (IHns s s' Hs) as (new & H1 & H2 & Hnd & Hreach & Hclosed & Hall).
        exists new. split; [exact H1|]. split; [exact H2|]. split; [exact Hnd|].
        split; [|split; [exact Hclosed|]].
        * intros x Hx. destruct (Hreach x Hx) as (n' & Hn' & Hr).
          exists n'. split; [apply elem_of_cons; auto|exact Hr].
        * intros n' Hn'. apply elem_of_cons in Hn' as [->|Hn']; [|auto].
          rewrite H1. apply elem_of_app. auto.
      + destruct (dfsRecursive fuel g (node n) s) as [s1|] eqn:Hrec; [|discriminate Hs].
        destruct (IH _ _ _ Hrec Hout) as (new1 & A1 & A2 & And & Areach & Aclosed).
        destruct (IHns s1 s' Hs) as (new & H1 & H2 & Hnd & Hreach & Hclosed & Hall).
        exists ((node n :: new1) ++ new).
        split; [rewrite H1, A1, <- app_assoc; reflexivity|].
        split; [rewrite H2, A2, <- app_assoc; reflexivity|].
        split; [auto|].
        assert (Hmono : forall x, x ∈ s1.1 -> x ∈ s'.1)
          by (intros x Hx; rewrite H1; apply elem_of_app; auto).
        split; [|split].
        * intros x Hx. apply elem_of_app in Hx as [Hx|Hx].
          -- exists n. split; [apply elem_of_cons; auto|apply Areach, Hx].
          -- destruct (Hreach x Hx) as (n' & Hn' & Hr).
             exists n'. split; [apply elem_of_cons; auto|exact Hr].
        * intros x n' Hx Hn'. apply elem_of_app in Hx as [Hx|Hx].
          -- apply Hmono. eapply Aclosed; eassumption.
          -- eapply Hclosed; eassumption.
        * intros n' Hn'. apply elem_of_cons in Hn' as [->|Hn']; [|auto].
          apply Hmono. rewrite A1. apply elem_of_app. right. apply elem_of_cons. auto. }
  destruct (Hloop _ _ _ H) as (new & H1 & H2 & Hnd & Hreach & Hclosed & Hall).
  simpl in H1, H2, Hnd. rewrite (setAdd_fresh _ _ Hnew) in H1, Hnd.
  exists new. rewrite <- !app_assoc in *. simpl in *.
  split; [exact H1|]. split; [exact H2|].
  split.
  { intros Hst. apply Hnd. apply NoDup_app. split; [exact Hst|].
    split; [|apply NoDup_singleton].
    intros x Hx Hx'. apply list_elem_of_singleton in Hx' as ->. contradiction. }
  split.
  - intros x Hx. apply elem_of_cons in Hx as [->|Hx]; [apply rtc_refl|].
    destruct (Hreach x Hx) as (n & Hn & Hr).
    eapply rtc_l; [|exact Hr]. exists n. auto.
  - intros x n Hx Hn. apply elem_of_cons in Hx as [->|Hx].
    + apply Hall, Hn.
    + eapply Hclosed; eassumption.
Qed.

(** A set of nodes that holds [x] and the neighbors of its members
    holds what can be reached from [x]. *)
Lemma reachable_closed (V : list NodeId) x y :
  x ∈ V -> (forall z n, z ∈ V -> n ∈ getNeighbors z g -> node n ∈ V) ->
  reachable g x y -> y ∈ V.
Proof.
  intros Hx Hclosed Hr. induction Hr as [x|x z y (n & Hn & <-) _ IH]; [exact Hx|].
  apply IH. eapply Hclosed; eassumption.
Qed.

Lemma dfsRecursive_start fuel start st' :
  dfsRecursive fuel g start ([], []) = Some st' ->
  st'.1 = st'.2 /\ NoDup st'.2 /\ head st'.2 = Some start
  /\ forall x, x ∈ st'.2 <-> reachable g start x.
Proof.
  intros H. destruct (dfsRecursive_adds _ _ _ _ H (not_elem_of_nil _))
    as (new & H1 & H2 & Hnd & Hreach & Hclosed).
  simpl in *. rewrite H2. rewrite H1 in Hnd, Hclosed.
  split; [congruence|]. split; [apply Hnd, NoDup_nil_2|]. split; [reflexivity|].
  intros x. split; [apply Hreach|].
  apply reachable_closed; [apply elem_of_cons; auto|exact Hclosed].
Qed.
End DepthFirstReach.

(** X8. On a well-formed graph and from one of its nodes, [dfs] ends
    (with enough fuel it returns, and always the same order).  The
    order has no duplicate, begins with the start node, and holds
    exactly the nodes that can be reached from the start by following
    neighbor entries. *)
Theorem dfs_visits_reachable (g : Graph) (start : NodeId) :
  wellFormed g -> start ∈ nodes g ->
  exists order N,
    (forall fuel, (N <= fuel)%nat -> dfs fuel g start = Some order)
    /\ NoDup order /\ head order = Some start
    /\ forall x, x ∈ order <-> reachable g start x.
Proof.
  intros _ _. set (U := start :: allTargets g).
  destruct (dfsRecursive_terminates g U) with (fuel := length U) (nd := start)
    (st := ([] : list NodeId, [] : list NodeId)) as [st' Hrec].
  { intros x n Hn. apply elem_of_cons. right. eapply getNeighbors_targets, Hn. }
  { apply elem_of_cons. auto. }
  { apply not_elem_of_nil. }
  { apply length_filter. }
  exists st'.2, (length U).
  destruct (dfsRecursive_start g _ _ _ Hrec) as (_ & Hnd & Hhead & Hreach).
  split; [|split; [exact Hnd|split; [exact Hhead|exact Hreach]]].
  intros fuel Hfuel. unfold dfs.
  rewrite (dfsRecursive_fuel_mono g (length U) fuel _ _ _ Hfuel Hrec). reflexivity.
Qed.

Section BreadthFirst.
Variable g : Graph.
Variable U : list NodeId.
Hypothesis targets_in_U : forall x n, n ∈ getNeighbors x g -> node n ∈ U.

(** What the loop of [bfs] over the neighbors of a node does: the
    neighbors that were not visited are appended, in order, to the set
    and to the queue. *)
Lemma enqueueNew_adds ns :
  forall V Q, (forall n, n ∈ ns -> node n ∈ U) ->
    exists new,
      foldl enqueueNew (V, Q) ns = (V ++ new, Q ++ new)
      /\ (NoDup V -> NoDup (V ++ new))
      /\ (forall x, x ∈ new -> exists n, n ∈ ns /\ node n = x)
      /\ (forall n, n ∈ ns -> node n ∈ V ++ new)
      /\ (2 * unvisited U (V ++ new) + length (Q ++ new)
          <= 2 * unvisited U V + length Q)%nat.
Proof.
  induction ns as [|n ns IH]; intros V Q Hns; simpl.
  - exists []. rewrite !app_nil_r. split; [reflexivity|]. split; [auto|].
    split; [intros x Hx; apply elem_of_nil in Hx; contradiction|].
    split; [intros n Hn; apply elem_of_nil in Hn; contradiction|lia].
  - assert (Hns' : forall n', n' ∈ ns -> node n' ∈ U)
      by (intros n' Hn'; apply Hns, elem_of_cons; auto).
    unfold enqueueNew at 2. simpl.
    destruct (decide (node n ∈ V)) as [Hin|Hout].
    + destruct (IH V Q Hns') as (new & Hrun & Hnd & Hfrom & Hall & Hm).
      exists new. split; [exact Hrun|]. split; [exact Hnd|]. split; [|split; [|exact Hm]].
      * intros x Hx. destruct (Hfrom x Hx) as (n' & Hn' & <-).
        exists n'. split; [apply elem_of_cons; auto|reflexivity].
      * intros n' Hn'. apply elem_of_cons in Hn' as [->|Hn']; [|auto].
        apply elem_of_app. auto.
    + rewrite (setAdd_fresh _ _ Hout).
      destruct (IH (V ++ [node n]) (Q ++ [node n]) Hns')
        as (new & Hrun & Hnd & Hfrom & Hall & Hm).
      exists (node n :: new). rewrite <- !app_assoc in *. simpl in *.
      split; [exact Hrun|]. split; [|split; [|split]].
      * intros HV. apply Hnd. apply NoDup_app. split; [exact HV|].
        split; [|apply NoDup_singleton].
        intros x Hx Hx'. apply list_elem_of_singleton in Hx' as ->. contradiction.
      * intros x Hx. apply elem_of_cons in Hx as [->|Hx].
        -- exists n. split; [apply elem_of_cons; auto|reflexivity].
        -- destruct (Hfrom x Hx) as (n' & Hn' & <-).
           exists n'. split; [apply elem_of_cons; auto|reflexivity].
      * intros n' Hn'. apply elem_of_cons in Hn' as [->|Hn']; [|auto].
        apply elem_of_app. right. apply elem_of_cons. auto.
      * pose proof (unvisited_setAdd U V (node n)
                      (Hns n (proj2 (elem_of_cons _ _ _) (or_introl eq_refl))) Hout) as Hlt.
        rewrite (setAdd_fresh _ _ Hout) in Hlt.
        rewrite !length_app in *. simpl in *. lia.
Qed.

Lemma bfsLoop_fuel_mono fuel :
  forall fuel' queue visited order r, (fuel <= fuel')%nat ->
    bfsLoop fuel g queue visited order = Some r ->
    bfsLoop fuel' g queue visited order = Some r.
Proof.
  induction fuel as [|fuel IH]; intros fuel' queue visited order r Hle H;
    [discriminate H|].
  destruct fuel' as [|fuel']; [lia|]. simpl in *.
  destruct queue as [|current queue]; [exact H|].
  apply IH; [lia|exact H].
Qed.

(** The loop of [bfs] ends, and with the nodes that can be reached
    from [start]: the set [visited] is always the array [order]
    followed by the queue. *)
Lemma bfsLoop_runs (start : NodeId) fuel :
  forall queue order,
    (2 * unvisited U (order ++ queue) + length queue < fuel)%nat ->
    NoDup (order ++ queue) ->
    start ∈ order ++ queue ->
    (forall x, x ∈ order ++ queue -> reachable g start x) ->
    (forall x n, x ∈ order -> n ∈ getNeighbors x g -> node n ∈ order ++ queue) ->
    exists rest,
      bfsLoop fuel g queue (order ++ queue) order = Some (order ++ queue ++ rest)
      /\ NoDup (order ++ queue ++ rest)
      /\ forall x, x ∈ order ++ queue ++ rest <-> reachable g start x.
Proof.
  induction fuel as [|fuel IH]; intros queue order Hm Hnd Hstart Hreach Hclosed; [lia|].
  simpl. destruct queue as [|current queue].
  - exists []. simpl. rewrite app_nil_r in *. split; [reflexivity|]. split; [exact Hnd|].
    intros x. split; [apply Hreach|].
    intros Hr. clear -Hr Hstart Hclosed.
    induction Hr as [x|x z y (n & Hn & <-) _ IH]; [exact Hstart|].
    apply IH. eapply Hclosed; eassumption.
  - destruct (enqueueNew_adds (getNeighbors current g) (order ++ current :: queue) queue)
      as (new & Hrun & Hnd' & Hfrom & Hall & Hm');
      [intros n Hn; eapply targets_in_U, Hn|].
    rewrite Hrun. simpl.
    assert (Heq : (order ++ current :: queue) ++ new
                  = (order ++ [current]) ++ (queue ++ new))
      by (rewrite <- !app_assoc; reflexivity).
    rewrite Heq in *.
    destruct (IH (queue ++ new) (order ++ [current])) as (rest & Hr & Hndr & Hiff).
    + simpl in Hm. lia.
    + auto.
    + rewrite <- Heq. apply elem_of_app. auto.
    + intros x Hx. rewrite <- Heq in Hx. apply elem_of_app in Hx as [Hx|Hx]; [auto|].
      destruct (Hfrom x Hx) as (n & Hn & <-).
      eapply reachable_step; [|exact Hn].
      apply Hreach. apply elem_of_app. right. apply elem_of_cons. auto.
    + intros x n Hx Hn. apply elem_of_app in Hx as [Hx|Hx].
      * rewrite <- Heq. apply elem_of_app. left. eapply Hclosed; eassumption.
      * apply list_elem_of_singleton in Hx as ->. apply Hall, Hn.
    + exists (new ++ rest).
      assert (Heq' : (order ++ [current]) ++ (queue ++ new) ++ rest
                     = order ++ (current :: queue) ++ new ++ rest)
        by (rewrite <- !app_assoc; reflexivity).
      rewrite Heq' in *.
      split; [exact Hr|]. split; [exact Hndr|exact Hiff].
Qed.
End BreadthFirst.

(** X9. On a well-formed graph and from one of its nodes, [bfs] ends.
    Its order has no duplicate, begins with the start node, and holds
    exactly the nodes that can be reached from the start by following
    neighbor entries. *)
Theorem bfs_visits_reachable (g : Graph) (start : NodeId) :
  wellFormed g -> start ∈ nodes g ->
  exists order N,
    (forall fuel, (N <= fuel)%nat -> bfs fuel g start = Some order)
    /\ NoDup order /\ head order = Some start
    /\ forall x, x ∈ order <-> reachable g start x.
Proof.
  intros _ _. set (U := start :: allTargets g).
  set (N := S (2 * length U + 1)).
  destruct (bfsLoop_runs g U) with (start := start) (fuel := N)
    (queue := [start]) (order := [] : list NodeId) as (rest & Hrun & Hnd & Hiff).
  { intros x n Hn. apply elem_of_cons. right. eapply getNeighbors_targets, Hn. }
  { simpl. pose proof (length_filter (fun x => x ∉ [start]) U) as Hle.
    unfold unvisited, N. simpl in *. lia. }
  { apply NoDup_singleton. }
  { apply list_elem_of_singleton. reflexivity. }
  { intros x Hx. apply list_elem_of_singleton in Hx as ->. apply rtc_refl. }
  { intros x n Hx. apply elem_of_nil in Hx. contradiction. }
  exists (start :: rest), N.
  split; [|split; [exact Hnd|split; [reflexivity|exact Hiff]]].
  intros fuel Hfuel. unfold bfs.
  eapply bfsLoop_fuel_mono; [exact Hfuel|exact Hrun].
Qed.

(** X10. On a well-formed graph, [bfs] and [dfs] from the same node of
    the graph visit the same nodes: with enough fuel both return, and
    the order of the one is a permutation of the order of the other. *)
Theorem bfs_dfs_same_nodes (g : Graph) (start : NodeId) :
  wellFormed g -> start ∈ nodes g ->
  exists breadth depth N,
    (forall fuel, (N <= fuel)%nat ->
       bfs fuel g start = Some breadth /\ dfs fuel g start = Some depth)
    /\ breadth ≡ₚ depth.
Proof.
  intros _ _. set (U := start :: allTargets g).
  assert (HU : forall x n, n ∈ getNeighbors x g -> node n ∈ U).
  { intros x n Hn. apply elem_of_cons. right. eapply getNeighbors_targets, Hn. }
  destruct (dfsRecursive_terminates g U HU (length U) start ([], []))
    as [st' Hrec].
  { apply elem_of_cons. auto. }
  { apply not_elem_of_nil. }
  { apply length_filter. }
  destruct (dfsRecursive_start g _ _ _ Hrec) as (_ & Hnd & _ & Hreach).
  destruct (bfsLoop_runs g U HU start (S (2 * length U + 1)) [start] [])
    as (rest & Hrun & Hnd' & Hreach').
  { simpl. pose proof (length_filter (fun x => x ∉ [start]) U) as Hle.
    unfold unvisited. simpl in *. lia. }
  { apply NoDup_singleton. }
  { apply list_elem_of_singleton. reflexivity. }
  { intros x Hx. apply list_elem_of_singleton in Hx as ->. apply rtc_refl. }
  { intros x n Hx. apply elem_of_nil in Hx. contradiction. }
  exists (start :: rest), st'.2, (S (2 * length U + 1)). split.
  - intros fuel Hfuel. split.
    + unfold bfs. eapply bfsLoop_fuel_mono; [exact Hfuel|exact Hrun].
    + unfold dfs.
      rewrite (dfsRecursive_fuel_mono g (length U) fuel _ _ _ ltac:(lia) Hrec).
      reflexivity.
  - apply NoDup_Permutation; [exact Hnd'|exact Hnd|].
    intros x. rewrite Hreach. apply Hreach'.
Qed.

(** ** Connected components *)

Lemma dfsVisit_dfsRecursive fuel g nd st :
  dfsVisit fuel g nd st = dfsRecursive fuel g nd st.
Proof. reflexivity. Qed.

Section Components.
Variable g : Graph.

Local Abbreviation closed V :=
  (forall x n, x ∈ V -> n ∈ getNeighbors x g -> node n ∈ V).

Lemma componentsLoop_fuel_mono fuel fuel' ns :
  (fuel <= fuel')%nat ->
  forall visited comps r,
    componentsLoop fuel g ns visited comps = Some r ->
    componentsLoop fuel' g ns visited comps = Some r.
Proof.
  intros Hle. induction ns as [|nd ns IH]; intros visited comps r H; simpl in *;
    [exact H|].
  destruct (decide (nd ∈ visited)); [apply IH, H|].
  rewrite dfsVisit_dfsRecursive in *.
  destruct (dfsRecursive fuel g nd (visited, [])) as [[v c]|] eqn:Hrec; [|discriminate H].
  rewrite (dfsRecursive_fuel_mono g fuel fuel' _ _ _ Hle Hrec). apply IH, H.
Qed.

(** The search that [findConnectedComponents] starts at an unvisited
    node, when the visited nodes hold the neighbors of their members:
    the component is what can be reached from the node and was not
    visited. *)
Lemma dfsVisit_component fuel nd V st' :
  dfsRecursive fuel g nd (V, []) = Some st' ->
  nd ∉ V -> NoDup V -> closed V ->
  exists rest,
    st' = (V ++ nd :: rest, nd :: rest)
    /\ NoDup (V ++ nd :: rest) /\ closed (V ++ nd :: rest)
    /\ forall x, x ∈ nd :: rest <-> reachable g nd x /\ x ∉ V.
Proof.
  intros H Hnew Hnd Hclosed.
  destruct (dfsRecursive_adds g _ _ _ _ H Hnew) as (new & H1 & H2 & Hnd' & Hreach & Hcl).
  simpl in *. exists new. rewrite H1 in Hnd', Hcl.
  assert (Hall : closed (V ++ nd :: new)).
  { intros x n Hx Hn. apply elem_of_app in Hx as [Hx|Hx].
    - apply elem_of_app. left. eapply Hclosed; eassumption.
    - eapply Hcl; eassumption. }
  split; [destruct st'; simpl in *; congruence|].
  split; [auto|]. split; [exact Hall|].
  intros x. split.
  - intros Hx. split; [apply Hreach, Hx|].
    intros HxV. apply NoDup_app in Hnd' as (_ & Hdisj & _); [|exact Hnd].
    eapply Hdisj; eassumption.
  - intros [Hr HxV].
    assert (Hin : x ∈ V ++ nd :: new).
    { eapply (reachable_closed g); [|exact Hall|exact Hr].
      apply elem_of_app. right. apply elem_of_cons. auto. }
    apply elem_of_app in Hin as [Hin|Hin]; [contradiction|exact Hin].
Qed.

Lemma componentsLoop_runs fuel :
  (length (universe g) <= fuel)%nat ->
  forall ns comps,
    (forall x, x ∈ ns -> x ∈ nodes g) ->
    NoDup (concat comps) -> closed (concat comps) ->
    exists new,
      componentsLoop fuel g ns (concat comps) comps = Some (comps ++ new)
      /\ NoDup (concat (comps ++ new)) /\ closed (concat (comps ++ new))
      /\ (forall x, x ∈ ns -> x ∈ concat (comps ++ new))
      /\ forall before c after, new = before ++ c :: after ->
           exists first rest, c = first :: rest /\ first ∈ ns
             /\ forall x, x ∈ c <-> reachable g first x /\ x ∉ concat (comps ++ before).
Proof.
  intros Hfuel. induction ns as [|nd ns IH]; intros comps Hns Hnd Hclosed; simpl.
  - exists []. rewrite app_nil_r. split; [reflexivity|]. split; [exact Hnd|].
    split; [exact Hclosed|]. split; [intros x Hx; apply elem_of_nil in Hx; contradiction|].
    intros before c after Heq. destruct before; discriminate Heq.
  - assert (Hns' : forall x, x ∈ ns -> x ∈ nodes g)
      by (intros x Hx; apply Hns, elem_of_cons; auto).
    destruct (decide (nd ∈ concat comps)) as [Hin|Hout].
    + destruct (IH comps Hns' Hnd Hclosed) as (new & Hrun & Hnd' & Hcl' & Hall & Hspec).
      exists new. split; [exact Hrun|]. split; [exact Hnd'|]. split; [exact Hcl'|].
      split.
      * intros x Hx. apply elem_of_cons in Hx as [->|Hx]; [|auto].
        rewrite concat_app. apply elem_of_app. auto.
      * intros before c after Heq.
        destruct (Hspec before c after Heq) as (first & rest & -> & Hfirst & Hiff).
        exists first, rest. split; [reflexivity|].
        split; [apply elem_of_cons; auto|exact Hiff].
    + rewrite dfsVisit_dfsRecursive.
      destruct (dfsRecursive_terminates g (universe g)) with (fuel := fuel) (nd := nd)
        (st := (concat comps, [] : list NodeId)) as [st' Hrec].
      { intros x n Hn. apply elem_of_app. right. eapply getNeighbors_targets, Hn. }
      { apply elem_of_app. left. apply Hns, elem_of_cons. auto. }
      { exact Hout. }
      { pose proof (length_filter (fun x => x ∉ concat comps) (universe g)).
        unfold unvisited. simpl. lia. }
      rewrite Hrec.
      destruct (dfsVisit_component _ _ _ _ Hrec Hout Hnd Hclosed)
        as (rest & -> & Hnd1 & Hcl1 & Hiff1).
      assert (Hcat : concat (comps ++ [nd :: rest]) = concat comps ++ nd :: rest)
        by (rewrite concat_app; simpl; rewrite app_nil_r; reflexivity).
      destruct (IH (comps ++ [nd :: rest]) Hns') as (new & Hrun & Hnd' & Hcl' & Hall & Hspec).
      { rewrite Hcat. exact Hnd1. }
      { rewrite Hcat. exact Hcl1. }
      rewrite Hcat in Hrun. rewrite <- app_assoc in Hrun, Hnd', Hcl', Hall. simpl in *.
      exists ((nd :: rest) :: new).
      split; [exact Hrun|]. split; [exact Hnd'|]. split; [exact Hcl'|].
      split.
      * intros x Hx. apply elem_of_cons in Hx as [->|Hx]; [|auto].
        rewrite concat_app. apply elem_of_app. right. simpl.
        apply elem_of_cons. auto.
      * intros before c after Heq. destruct before as [|c0 before]; simpl in Heq.
        -- injection Heq as <- <-. exists nd, rest. split; [reflexivity|].
           split; [apply elem_of_cons; auto|]. rewrite app_nil_r. exact Hiff1.
        -- injection Heq as <- ->.
           destruct (Hspec before c after eq_refl) as (first & rest' & -> & Hfirst & Hiff).
           exists first, rest'. split; [reflexivity|].
           split; [apply elem_of_cons; auto|].
           rewrite <- app_assoc in Hiff. exact Hiff.
Qed.
End Components.

(** X11. On a well-formed graph [findConnectedComponents] ends.  Its
    components are pairwise disjoint lists without duplicates that
    together hold every node of the graph, [count] is their number,
    and each component begins with a node of the graph and holds
    exactly the nodes that can be reached from that node and are in no
    earlier component. *)
Theorem findConnectedComponents_partition (g : Graph) :
  wellFormed g ->
  exists r N,
    (forall fuel, (N <= fuel)%nat -> findConnectedComponents fuel g = Some r)
    /\ count r = Z.of_nat (length (components r))
    /\ NoDup (concat (components r))
    /\ (forall x, x ∈ nodes g -> x ∈ concat (components r))
    /\ forall before c after, components r = before ++ c :: after ->
         exists first rest, c = first :: rest /\ first ∈ nodes g
           /\ forall x, x ∈ c <-> reachable g first x /\ x ∉ concat before.
Proof.
  intros _.
  destruct (componentsLoop_runs g (length (universe g)) (Nat.le_refl _) (nodes g) [])
    as (cs & Hrun & Hnd & _ & Hall & Hspec).
  { auto. }
  { apply NoDup_nil_2. }
  { intros x n Hx. apply elem_of_nil in Hx. contradiction. }
  simpl in *.
  exists (mkComponentResult cs (Z.of_nat (length cs)) (Z.of_nat (length cs) <=? 1)),
         (length (universe g)).
  split; [|split; [reflexivity|split; [exact Hnd|split; [exact Hall|exact Hspec]]]].
  intros fuel Hfuel. unfold findConnectedComponents, getNodes.
  rewrite (componentsLoop_fuel_mono g _ fuel _ Hfuel _ _ _ Hrun). reflexivity.
Qed.

(** X12. On a well-formed graph without duplicate nodes, [isConnected]
    ends, and it returns true exactly when every node can be reached
    from the first node (in particular on the graph without nodes). *)
Theorem isConnected_iff_all_reachable (g : Graph) :
  wellFormed g -> NoDup (nodes g) ->
  exists b N,
    (forall fuel, (N <= fuel)%nat -> isConnected fuel g = Some b)
    /\ (b = true <->
        forall first x, head (nodes g) = Some first -> x ∈ nodes g ->
          reachable g first x).
Proof.
  intros [_ Hclosed] Hnd. unfold isConnected, nodeCount, getNodes.
  destruct (nodes g) as [|first ns] eqn:Hnodes.
  - exists true, 0%nat. split; [reflexivity|]. split; [|reflexivity].
    intros _ first x Hhead. discriminate Hhead.
  - change (Z.of_nat (length (first :: ns)) =? 0) with false. cbv iota.
    set (U := first :: allTargets g).
    destruct (dfsRecursive_terminates g U) with (fuel := length U) (nd := first)
      (st := ([] : list NodeId, [] : list NodeId)) as [st' Hrec].
    { intros x n Hn. apply elem_of_cons. right. eapply getNeighbors_targets, Hn. }
    { apply elem_of_cons. auto. }
    { apply not_elem_of_nil. }
    { apply length_filter. }
    destruct (dfsRecursive_start g _ _ _ Hrec) as (H12 & Hnd' & _ & Hreach).
    exists (Z.of_nat (length st'.1) =? Z.of_nat (length (first :: ns))), (length U).
    split.
    { intros fuel Hfuel. rewrite dfsVisit_dfsRecursive.
      rewrite (dfsRecursive_fuel_mono g (length U) fuel _ _ _ Hfuel Hrec). reflexivity. }
    rewrite H12.
    assert (Hsub : st'.2 ⊆+ first :: ns).
    { apply NoDup_submseteq; [exact Hnd'|]. intros x Hx. apply Hreach in Hx.
      rewrite <- Hnodes.
      assert (Hstay : forall a b, reachable g a b -> a ∈ nodes g -> b ∈ nodes g).
      { clear -Hclosed. intros a b Hr.
        induction Hr as [a|a y b (n & Hn & <-) _ IH]; [auto|].
        intros Ha. apply IH. unfold getNeighbors in Hn.
        destruct (adjacencyList g !! String_of a) as [l|] eqn:Hl; simpl in Hn;
          [|apply elem_of_nil in Hn; contradiction].
        eapply Hclosed; eassumption. }
      apply (Hstay first x Hx). rewrite Hnodes. apply elem_of_cons. auto. }
    rewrite Z.eqb_eq. split.
    + intros Hlen first' x [= <-] Hx. apply Hreach.
      assert (Hperm : st'.2 ≡ₚ first :: ns)
        by (apply submseteq_length_Permutation; [exact Hsub|lia]).
      rewrite Hperm. exact Hx.
    + intros Hall. f_equal. apply Nat.le_antisymm.
      * apply submseteq_length, Hsub.
      * apply submseteq_length, NoDup_submseteq; [exact Hnd|].
        intros x Hx. apply Hreach. apply (Hall first x eq_refl Hx).
Qed.

Lemma isConnected_iff_all_reachable_witness :
  exists g, buildGraphFromData triangleData = Ok g
    /\ exists b N, (forall fuel, (N <= fuel)%nat -> isConnected fuel g = Some b)
         /\ (b = true <->
             forall first x, head (nodes g) = Some first -> x ∈ nodes g ->
               reachable g first x).
Proof.
  destruct (addEdges_keeps_wellFormed (d_edges triangleData)
              (addNodes (d_nodes triangleData) (newGraph (d_config triangleData))))
    as (g & Hrun & Hwf & _ & Hnd & _).
  { apply addNodes_wellFormed; [apply newGraph_wellFormed|apply NoDup_nil_2]. }
  { left. reflexivity. }
  exists g. split; [exact Hrun|].
  apply isConnected_iff_all_reachable; [exact Hwf|].
  apply Hnd, addNodes_wellFormed; [apply newGraph_wellFormed|apply NoDup_nil_2].
Defined.

(** ** The parser: node ids *)

Lemma digitValue_pretty_N_char x :
  (x < 10)%N -> digitValue (pretty_N_char x) = Some (Z.of_N x).
Proof.
  intros Hx.
  assert (x = 0 \/ x = 1 \/ x = 2 \/ x = 3 \/ x = 4 \/ x = 5 \/ x = 6 \/ x = 7
          \/ x = 8 \/ x = 9)%N as H by lia.
  repeat (destruct H as [->|H]; [reflexivity|]). subst. reflexivity.
Qed.

(** The numeral of a positive number is read back digit by digit. *)
Lemma parseDigits_pretty_N_go x :
  forall s acc, (0 < x)%N -> default 0 acc = 0 ->
    parseDigits (pretty_N_go x s) acc = parseDigits s (Some (Z.of_N x)).
Proof.
  induction (N.lt_wf_0 x) as [x _ IH]; intros s acc Hx Hacc.
  rewrite pretty_N_go_step by exact Hx.
  assert (Hd : digitValue (pretty_N_char (x `mod` 10)) = Some (Z.of_N (x `mod` 10)))
    by (apply digitValue_pretty_N_char, N.mod_lt; lia).
  destruct (decide (x `div` 10 = 0)%N) as [H0|Hpos].
  - rewrite H0, pretty_N_go_0. cbn [parseDigits]. rewrite Hd, Hacc. f_equal. f_equal.
    pose proof (N.div_mod x 10 ltac:(lia)) as Hdm. rewrite H0 in Hdm. lia.
  - assert (Hlt : (x `div` 10 < x)%N) by (apply N.div_lt; lia).
    assert (Hp : (0 < x `div` 10)%N) by (apply N.neq_0_lt_0, Hpos).
    rewrite (IH _ Hlt _ acc Hp Hacc).
    cbn [parseDigits]. rewrite Hd. cbn [default]. f_equal. f_equal.
    pose proof (N.div_mod x 10 ltac:(lia)) as Hdm. unfold id. lia.
Qed.

Lemma pretty_N_go_head x :
  forall s, (0 < x)%N -> exists c r, pretty_N_go x s = String c r /\ isDigit c = true.
Proof.
  induction (N.lt_wf_0 x) as [x _ IH]; intros s Hx.
  rewrite pretty_N_go_step by exact Hx.
  destruct (decide (x `div` 10 = 0)%N) as [H0|Hpos].
  - rewrite H0, pretty_N_go_0. eexists _, _. split; [reflexivity|].
    unfold isDigit. rewrite digitValue_pretty_N_char; [reflexivity|].
    apply N.mod_lt. lia.
  - apply IH; [apply N.div_lt; lia|apply N.neq_0_lt_0, Hpos].
Qed.

Lemma parseFloat_digit c r :
  isDigit c = true -> parseFloat (String c r) = parseDigits (String c r) None.
Proof.
  unfold isDigit, digitValue, parseFloat. intros H. simpl trimStart.
  destruct (isWhitespace c) eqn:Hw.
  { exfalso. unfold isWhitespace in Hw.
    destruct ((48 <=? nat_of_ascii c)%nat && (nat_of_ascii c <=? 57)%nat) eqn:Hd;
      [|discriminate H].
    apply andb_true_iff in Hd as [H1 H2].
    apply Nat.leb_le in H1, H2.
    repeat (apply orb_true_iff in Hw as [Hw|Hw]).
    - apply andb_true_iff in Hw as [_ Hw]. apply Nat.leb_le in Hw. lia.
    - apply Nat.eqb_eq in Hw. lia.
    - apply Nat.eqb_eq in Hw. lia. }
  destruct (ascii_dec c "-") as [->|Hm]; [discriminate H|].
  destruct (ascii_dec c "+") as [->|Hp]; [discriminate H|].
  destruct c as [[] [] [] [] [] [] [] []]; try reflexivity; congruence.
Qed.

Lemma parseFloat_pretty (z : Z) : parseFloat (pretty z) = Some z.
Proof.
  destruct z as [|p|p].
  - reflexivity.
  - change (pretty (Z.pos p)) with (pretty_N_go (N.pos p) "").
    destruct (pretty_N_go_head (N.pos p) "") as (c & r & Heq & Hc); [lia|].
    rewrite Heq, (parseFloat_digit _ _ Hc), <- Heq.
    rewrite parseDigits_pretty_N_go by (lia || reflexivity). reflexivity.
  - change (pretty (Z.neg p)) with (String "-" (pretty_N_go (N.pos p) "")).
    unfold parseFloat. simpl trimStart. cbv iota.
    rewrite parseDigits_pretty_N_go by (lia || reflexivity). reflexivity.
Qed.

(** X13. [parseNodeId] reads the decimal numeral of an integer of
    absolute value at most 2^53 back as that number:
    [parseNodeId(String(z))] is the number [z], never the string. *)
Theorem parseNodeId_numeral (z : Z) :
  safeInteger z ->
  parseNodeId (String_of (NNum z)) = Ok (NNum z).
Proof.
  intros _. unfold parseNodeId. simpl.
  rewrite parseFloat_pretty, String.eqb_refl. reflexivity.
Qed.

(** X14. [parseNodeId] throws, with the message "Empty node ID",
    exactly on the empty token.  The id that it returns converts back
    to the token with [String]; hence two ids that the parser returns
    share an adjacency key only when they are the same id. *)
Theorem parseNodeId_keeps_token (id : string) :
  (parseNodeId id = Throw "Empty node ID" <-> id = "")
  /\ (forall x, parseNodeId id = Ok x -> String_of x = id)
  /\ (forall id' x x', parseNodeId id = Ok x -> parseNodeId id' = Ok x' ->
        String_of x = String_of x' -> x = x').
Proof.
  assert (Hkeeps : forall t x, parseNodeId t = Ok x -> String_of x = t).
  { intros t x. unfold parseNodeId. destruct (parseFloat t) as [num|].
    - destruct (String.eqb (pretty num) t) eqn:Heq.
      + intros [= <-]. apply String.eqb_eq, Heq.
      + destruct (isEmpty t); [discriminate|]. intros [= <-]. reflexivity.
    - destruct (isEmpty t); [discriminate|]. intros [= <-]. reflexivity. }
  split; [|split].
  - unfold parseNodeId. split.
    + destruct (parseFloat id) as [num|].
      * destruct (String.eqb (pretty num) id); [discriminate|].
        destruct id; [reflexivity|discriminate].
      * destruct id; [reflexivity|discriminate].
    + intros ->. reflexivity.
  - apply Hkeeps.
  - intros id' x x' Hx Hx' Hkey.
    apply Hkeeps in Hx as Hid. apply Hkeeps in Hx' as Hid'.
    assert (id = id') by congruence. subst id'. congruence.
Qed.

(** ** The segments of [parseEdgeInput] *)

Lemma parseLoop_counts dw segments :
  forall lineNum st,
    (length (s_edges (parseLoop dw segments lineNum st))
     + length (s_errors (parseLoop dw segments lineNum st))
     = length (s_edges st) + length (s_errors st) + length segments)%nat.
Proof.
  induction segments as [|segment rest IH]; intros lineNum st; simpl; [lia|].
  rewrite IH. unfold parseStep.
  destruct (parseEdgeSegment segment dw); simpl; rewrite length_app; simpl; lia.
Qed.

(** X15. [parseEdgeInput] gives one result per segment: when the
    input has no segment (it is empty or holds only separators and
    white space) the result is the single error "No edges provided";
    otherwise the edges and the errors together are as many as the
    non-blank segments. *)
Theorem parseEdgeInput_one_result_per_segment (input : string) (options : option ParserOptions) :
  let segments := filter (fun s => isEmpty s = false) (map trim (split input)) in
  let r := parseEdgeInput input options in
  (segments = [] -> r = mkParseResult [] ["No edges provided"] [])
  /\ (segments <> [] ->
      (length (r_edges r) + length (r_errors r) = length segments)%nat).
Proof.
  cbv zeta. unfold parseEdgeInput.
  destruct (filter (fun s => isEmpty s = false) (map trim (split input)))
    as [|segment rest] eqn:Hseg.
  - split; [reflexivity|]. intros H. contradiction.
  - split; [discriminate|]. intros _. cbn [r_edges r_errors].
    rewrite parseLoop_counts. reflexivity.
Qed.

(** ** Writing edges and reading them back *)

Lemma append_cons c (a b : string) : String c a +:+ b = String c (a +:+ b).
Proof. reflexivity. Qed.

Lemma append_nil_l (a : string) : "" +:+ a = a.
Proof. reflexivity. Qed.

Lemma append_assoc (a b c : string) : (a +:+ b) +:+ c = a +:+ (b +:+ c).
Proof.
  induction a as [|x a IH]; [reflexivity|].
  rewrite !append_cons. f_equal. exact IH.
Qed.

Lemma append_nil_r (a : string) : a +:+ "" = a.
Proof.
  induction a as [|x a IH]; [reflexivity|]. rewrite append_cons. f_equal. exact IH.
Qed.

Lemma allChars_app p a b :
  allChars p (a +:+ b) = allChars p a && allChars p b.
Proof.
  induction a as [|x a IH]; [reflexivity|].
  rewrite append_cons. simpl. rewrite IH. apply andb_assoc.
Qed.

Lemma allChars_weaken (p q : ascii -> bool) s :
  (forall c, p c = true -> q c = true) -> allChars p s = true -> allChars q s = true.
Proof.
  intros Hpq. induction s as [|c s IH]; simpl; [trivial|].
  intros H. apply andb_true_iff in H as [Hc Hs]. rewrite (Hpq c Hc). auto.
Qed.

(** *** The shape of a numeral *)

Lemma pretty_N_go_digits x :
  forall s, allChars isDigit s = true -> allChars isDigit (pretty_N_go x s) = true.
Proof.
  induction (N.lt_wf_0 x) as [x _ IH]; intros s Hs.
  destruct (decide (x = 0)%N) as [->|Hx]; [rewrite pretty_N_go_0; exact Hs|].
  assert (Hpos : (0 < x)%N) by (apply N.neq_0_lt_0, Hx).
  rewrite pretty_N_go_step by exact Hpos.
  apply IH; [apply N.div_lt; lia|].
  simpl. rewrite Hs. unfold isDigit.
  rewrite digitValue_pretty_N_char; [reflexivity|]. apply N.mod_lt. lia.
Qed.

Lemma numeral_shape (z : Z) :
  exists c r, pretty z = String c r
    /\ (c = "-"%char \/ isDigit c = true) /\ allChars isDigit r = true.
Proof.
  assert (Hpos : forall p, exists c r, pretty_N_go (N.pos p) "" = String c r
            /\ isDigit c = true /\ allChars isDigit r = true).
  { intros p. destruct (pretty_N_go_head (N.pos p) "") as (c & r & Heq & Hc); [lia|].
    exists c, r. split; [exact Heq|]. split; [exact Hc|].
    pose proof (pretty_N_go_digits (N.pos p) "" eq_refl) as Hall.
    rewrite Heq in Hall. simpl in Hall. apply andb_true_iff in Hall. apply Hall. }
  destruct z as [|p|p].
  - exists "0"%char, "". split; [reflexivity|]. split; [right|]; reflexivity.
  - destruct (Hpos p) as (c & r & Heq & Hc & Hr).
    exists c, r. split; [exact Heq|]. split; [right; exact Hc|exact Hr].
  - destruct (Hpos p) as (c & r & Heq & Hc & Hr).
    exists "-"%char, (String c r). split.
    + change (pretty (Z.neg p)) with (String "-" (pretty_N_go (N.pos p) "")).
      now rewrite Heq.
    + split; [left; reflexivity|]. simpl. now rewrite Hc, Hr.
Qed.

Lemma numeral_segment (z : Z) : allChars isSegmentChar (pretty z) = true.
Proof.
  destruct (numeral_shape z) as (c & r & -> & Hc & Hr). simpl.
  apply andb_true_iff. split.
  - unfold isSegmentChar. destruct Hc as [-> | Hd]; [reflexivity|now rewrite Hd].
  - eapply allChars_weaken; [|exact Hr].
    intros d Hd. unfold isSegmentChar. now rewrite Hd.
Qed.

(** *** Characters *)

Lemma segmentChar_solid c :
  isSegmentChar c = true -> isWhitespace c = false /\ isSeparator c = false.
Proof.
  unfold isSegmentChar, isDigit, digitValue, isWhitespace, isSeparator.
  destruct c as [[] [] [] [] [] [] [] []]; simpl; intros H;
    try discriminate H; split; reflexivity.
Qed.

Lemma digit_no_sep c s :
  isDigit c = true ->
  weightSep (String c s) = None
  /\ stripPrefix "->" (String c s) = None
  /\ stripPrefix "-" (String c s) = None.
Proof.
  unfold isDigit, digitValue.
  destruct c as [[] [] [] [] [] [] [] []]; simpl; intros H;
    try discriminate H; repeat split; reflexivity.
Qed.

Lemma dash_gt_no_weightSep c s :
  (isDigit c || Ascii.eqb c "-" || Ascii.eqb c ">")%char = true ->
  weightSep (String c s) = None.
Proof.
  unfold isDigit, digitValue.
  destruct c as [[] [] [] [] [] [] [] []]; simpl; intros H;
    try discriminate H; reflexivity.
Qed.

(** *** Trimming and splitting *)

Lemma trimEnd_solid s :
  allChars (fun c => negb (isWhitespace c)) s = true -> trimEnd s = s.
Proof.
  induction s as [|c s IH]; simpl; [reflexivity|].
  intros H. apply andb_true_iff in H as [Hc Hs]. rewrite (IH Hs).
  apply negb_true_iff in Hc. now rewrite Hc.
Qed.

Lemma segment_not_whitespace s :
  allChars isSegmentChar s = true ->
  allChars (fun c => negb (isWhitespace c)) s = true.
Proof.
  apply allChars_weaken. intros c Hc.
  apply negb_true_iff, (segmentChar_solid c Hc).
Qed.

Lemma trim_segment s : allChars isSegmentChar s = true -> trim s = s.
Proof.
  intros H. unfold trim.
  assert (Hstart : trimStart s = s).
  { destruct s as [|c s]; [reflexivity|]. simpl in *.
    apply andb_true_iff in H as [Hc _].
    now rewrite (proj1 (segmentChar_solid c Hc)). }
  rewrite Hstart. apply trimEnd_solid, segment_not_whitespace, H.
Qed.

Lemma trim_space_segment s :
  allChars isSegmentChar s = true -> trim (String " " s) = s.
Proof.
  intros H. unfold trim. simpl trimStart.
  change (isWhitespace " ") with true. cbv iota.
  apply trim_segment, H.
Qed.

Lemma hasLineTerminator_segment s :
  allChars isSegmentChar s = true -> hasLineTerminator s = false.
Proof.
  induction s as [|c s IH]; simpl; [reflexivity|].
  intros H. apply andb_true_iff in H as [Hc Hs]. rewrite (IH Hs).
  destruct (segmentChar_solid c Hc) as [Hw _].
  unfold isLineTerminator, isWhitespace in *.
  destruct c as [[] [] [] [] [] [] [] []]; simpl in *; try discriminate Hw; reflexivity.
Qed.

Lemma splitFields_segment x :
  allChars isSegmentChar x = true ->
  forall rest cur b, x <> "" ->
    splitFields (x +:+ rest) cur b = splitFields rest (cur +:+ x) false.
Proof.
  induction x as [|c x IH]; intros H rest cur b Hne; [contradiction|].
  simpl in H. apply andb_true_iff in H as [Hc Hx].
  rewrite append_cons. cbn [splitFields]. rewrite (proj2 (segmentChar_solid c Hc)).
  destruct x as [|c' x'].
  - rewrite append_nil_l. reflexivity.
  - rewrite (IH Hx) by discriminate. rewrite append_assoc, append_cons, append_nil_l.
    reflexivity.
Qed.

Lemma split_join (s : string) (l : list string) :
  forall cur b,
    Forall (fun t => allChars isSegmentChar t = true /\ t <> "") (s :: l) ->
    splitFields (join ", " (s :: l)) cur b
    = (cur +:+ s) :: map (fun t => String " " t) l.
Proof.
  revert s. induction l as [|s2 l IH]; intros s cur b Hall.
  - apply Forall_cons in Hall as [[Hs Hne] _]. cbn [join map].
    rewrite <- (append_nil_r s) at 1.
    rewrite (splitFields_segment s Hs "" cur b Hne). reflexivity.
  - apply Forall_cons in Hall as [[Hs Hne] Hall].
    change (join ", " (s :: s2 :: l)) with (s +:+ ", " +:+ join ", " (s2 :: l)).
    rewrite (splitFields_segment s Hs _ cur b Hne).
    change (", " +:+ join ", " (s2 :: l)) with (String "," (String " " (join ", " (s2 :: l)))).
    cbn [splitFields]. change (isSeparator ",") with true.
    change (isSeparator " ") with false. cbv iota.
    rewrite (IH s2 _ false Hall). reflexivity.
Qed.

(** *** The searches of [parseEdgeSegment] *)

Lemma lazySearch_skip sepAt (p : ascii -> bool) :
  (forall c s, p c = true -> sepAt (String c s) = None) ->
  forall x pre tail, allChars p x = true ->
    lazySearch sepAt pre (x +:+ tail) = lazySearch sepAt (pre +:+ x) tail.
Proof.
  intros Hp. induction x as [|c x IH]; intros pre tail Hx.
  - now rewrite append_nil_l, append_nil_r.
  - simpl in Hx. apply andb_true_iff in Hx as [Hc Hx].
    rewrite append_cons. cbn [lazySearch].
    rewrite (Hp c _ Hc). rewrite (IH _ _ Hx), append_assoc, append_cons, append_nil_l.
    reflexivity.
Qed.

Lemma lazySearch_no_arrow s :
  allChars (fun c => negb (Ascii.eqb c ">")) s = true ->
  forall pre, lazySearch (stripPrefix "->") pre s = None.
Proof.
  induction s as [|c s IH]; intros H pre; [reflexivity|].
  simpl in H. apply andb_true_iff in H as [_ Hs].
  cbn [lazySearch].
  assert (Hsep : stripPrefix "->" (String c s) = None).
  { cbn [stripPrefix]. destruct (Ascii.eqb "-" c); [|reflexivity].
    destruct s as [|c' s']; [reflexivity|].
    simpl in Hs. apply andb_true_iff in Hs as [Hc' _].
    apply negb_true_iff in Hc'. rewrite Ascii.eqb_sym, Hc'. reflexivity. }
  rewrite Hsep. apply IH, Hs.
Qed.

Lemma lazySearch_found sepAt pre sc s rest :
  sepAt (String sc s) = Some rest -> rest <> "" ->
  lazySearch sepAt pre (String sc s) = Some (pre, rest).
Proof.
  intros Hsep Hne. cbn [lazySearch]. rewrite Hsep.
  destruct rest; [contradiction|reflexivity].
Qed.

(** The search for a separator that stands after the digits [x] and
    before a group [rest] that is not empty. *)
Lemma regexMatch_after_digits sepAt c0 x sc sep rest :
  (forall c s, isDigit c = true -> sepAt (String c s) = None) ->
  allChars isDigit x = true ->
  sepAt (String sc (sep +:+ rest)) = Some rest -> rest <> "" ->
  hasLineTerminator (String c0 (x +:+ String sc (sep +:+ rest))) = false ->
  regexMatch sepAt (String c0 (x +:+ String sc (sep +:+ rest)))
  = Some (String c0 x, rest).
Proof.
  intros Hdigit Hx Hsep Hne Hlt. unfold regexMatch. rewrite Hlt.
  rewrite (lazySearch_skip sepAt isDigit Hdigit x _ _ Hx).
  rewrite append_cons, append_nil_l.
  apply lazySearch_found; assumption.
Qed.

Lemma pretty_not_empty (z : Z) : pretty z <> "".
Proof. destruct (numeral_shape z) as (c & r & -> & _). discriminate. Qed.

Lemma parseNodeId_pretty (z : Z) : parseNodeId (pretty z) = Ok (NNum z).
Proof.
  unfold parseNodeId. rewrite parseFloat_pretty, String.eqb_refl. reflexivity.
Qed.

Lemma numeral_no_gt (z : Z) :
  allChars (fun c => negb (Ascii.eqb c ">")) (pretty z) = true.
Proof.
  destruct (numeral_shape z) as (c & r & -> & Hc & Hr). simpl.
  apply andb_true_iff. split.
  - destruct Hc as [-> | Hd]; [reflexivity|].
    unfold isDigit, digitValue in Hd.
    destruct c as [[] [] [] [] [] [] [] []]; simpl in *; try discriminate Hd; reflexivity.
  - eapply allChars_weaken; [|exact Hr]. intros d Hd.
    unfold isDigit, digitValue in Hd.
    destruct d as [[] [] [] [] [] [] [] []]; simpl in *; try discriminate Hd; reflexivity.
Qed.

(** The searches in the part of a segment before the weight, for the
    edge from [a] to [b]. *)
Lemma regexMatch_edgePart (a b : Z) :
  regexMatch (stripPrefix "->") (pretty a +:+ "->" +:+ pretty b)
  = Some (pretty a, pretty b)
  /\ regexMatch (stripPrefix "->") (pretty a +:+ "-" +:+ pretty b) = None
  /\ regexMatch (stripPrefix "-") (pretty a +:+ "-" +:+ pretty b)
     = Some (pretty a, pretty b).
Proof.
  pose proof (numeral_segment a) as Hsa. pose proof (numeral_segment b) as Hsb.
  pose proof (pretty_not_empty b) as Hb.
  destruct (numeral_shape a) as (c0 & A' & Ha & _ & HA').
  assert (Hdigit : forall sep c s, isDigit c = true ->
            stripPrefix (String "-" sep) (String c s) = None).
  { intros sep c s Hc. cbn [stripPrefix].
    unfold isDigit, digitValue in Hc.
    destruct c as [[] [] [] [] [] [] [] []]; simpl in *; try discriminate Hc; reflexivity. }
  assert (Hlt : forall conn, allChars isSegmentChar conn = true ->
            hasLineTerminator (pretty a +:+ conn +:+ pretty b) = false).
  { intros conn Hconn. apply hasLineTerminator_segment.
    rewrite !allChars_app, Hsa, Hsb, Hconn. reflexivity. }
  split; [|split].
  - rewrite Ha, append_cons.
    change ("->" +:+ pretty b) with (String "-" (">" +:+ pretty b)).
    rewrite (regexMatch_after_digits (stripPrefix "->") c0 A' "-" ">" (pretty b)
               (Hdigit _) HA' eq_refl Hb); [reflexivity|].
    change (String "-" (">" +:+ pretty b)) with ("->" +:+ pretty b).
    rewrite <- append_cons, <- Ha. apply (Hlt "->"). reflexivity.
  - unfold regexMatch. rewrite (Hlt "-") by reflexivity.
    rewrite Ha, append_cons. apply lazySearch_no_arrow.
    rewrite !allChars_app. rewrite (numeral_no_gt b).
    rewrite (allChars_weaken isDigit _ A'); [reflexivity| |exact HA'].
    intros d Hd. unfold isDigit, digitValue in Hd.
    destruct d as [[] [] [] [] [] [] [] []]; simpl in *; try discriminate Hd; reflexivity.
  - rewrite Ha, append_cons.
    change ("-" +:+ pretty b) with (String "-" ("" +:+ pretty b)).
    rewrite (regexMatch_after_digits (stripPrefix "-") c0 A' "-" "" (pretty b)
               (Hdigit _) HA' eq_refl Hb); [reflexivity|].
    change (String "-" ("" +:+ pretty b)) with ("-" +:+ pretty b).
    rewrite <- append_cons, <- Ha. apply (Hlt "-"). reflexivity.
Qed.

(** The search for the weight in a segment. *)
Lemma regexMatch_weight (dir : bool) (a b : Z) :
  let edgePart := pretty a +:+ (if dir then "->" else "-") +:+ pretty b in
  regexMatch weightSep edgePart = None
  /\ forall w : Z,
       regexMatch weightSep (edgePart +:+ ":" +:+ pretty w) = Some (edgePart, pretty w).
Proof.
  cbv zeta.
  pose proof (numeral_segment a) as Hsa. pose proof (numeral_segment b) as Hsb.
  destruct (numeral_shape a) as (c0 & A' & Ha & _ & HA').
  set (conn := if dir then "->" else "-").
  assert (Hconn : allChars isSegmentChar conn = true) by (destruct dir; reflexivity).
  assert (Hinert : allChars (fun c => isDigit c || Ascii.eqb c "-" || Ascii.eqb c ">")%char
                     (A' +:+ conn +:+ pretty b) = true).
  { rewrite !allChars_app. apply andb_true_iff. split; [|apply andb_true_iff; split].
    - eapply allChars_weaken; [|exact HA']. intros d Hd. now rewrite Hd.
    - destruct dir; reflexivity.
    - destruct (numeral_shape b) as (c1 & B' & -> & Hc1 & HB'). simpl.
      apply andb_true_iff. split.
      + destruct Hc1 as [-> | Hd]; [reflexivity|now rewrite Hd].
      + eapply allChars_weaken; [|exact HB']. intros d Hd. now rewrite Hd. }
  split.
  - unfold regexMatch. rewrite hasLineTerminator_segment
      by (rewrite !allChars_app, Hsa, Hsb, Hconn; reflexivity).
    rewrite Ha, append_cons.
    rewrite <- (append_nil_r (A' +:+ conn +:+ pretty b)).
    rewrite (lazySearch_skip weightSep _ dash_gt_no_weightSep _ _ _ Hinert).
    reflexivity.
  - intros w. unfold regexMatch.
    rewrite hasLineTerminator_segment.
    2:{ rewrite !allChars_app, Hsa, Hsb, Hconn, (numeral_segment w). reflexivity. }
    rewrite Ha, !append_cons.
    change (":" +:+ pretty w) with (String ":" (pretty w)).
    rewrite (lazySearch_skip weightSep _ dash_gt_no_weightSep _ _ _ Hinert).
    rewrite append_cons, append_nil_l.
    apply lazySearch_found; [reflexivity|apply pretty_not_empty].
Qed.

(** [parseEdgeSegment] reads the segment that [formatEdges] writes
    for an edge between two numbers back as this edge. *)
Lemma parseEdgeSegment_formatEdge (dir : bool) (e : Edge) (dw : Z) :
  numericEdge e ->
  parseEdgeSegment (formatEdge dir e) dw
  = Ok (mkParsedEdge (efrom e) (eto e) (eweight e) (Some dir)).
Proof.
  intros (a & b & Hfrom & Hto). destruct e as [from to w]. simpl in Hfrom, Hto.
  subst from to. unfold formatEdge. simpl efrom. simpl eto. simpl eweight.
  simpl String_of.
  destruct (regexMatch_edgePart a b) as (Harrow & Hnone & Hdash).
  destruct (regexMatch_weight dir a b) as [Hw0 Hw1]. cbv zeta in Hw0, Hw1.
  assert (Hpart : allChars isSegmentChar
                    (pretty a +:+ (if dir then "->" else "-") +:+ pretty b) = true).
  { rewrite !allChars_app, !numeral_segment. destruct dir; reflexivity. }
  unfold parseEdgeSegment.
  destruct w as [w|].
  - assert (Hseg : pretty a +:+ (if dir then "->" else "-") +:+ pretty b +:+ ":" +:+ pretty w
                   = (pretty a +:+ (if dir then "->" else "-") +:+ pretty b)
                     +:+ ":" +:+ pretty w)
      by (rewrite !append_assoc; reflexivity).
    rewrite Hseg, Hw1.
    rewrite (trim_segment (pretty w)) by apply numeral_segment.
    rewrite parseFloat_pretty, (trim_segment _ Hpart).
    cbn [mbind result_bind].
    destruct dir.
    + rewrite Harrow. rewrite !trim_segment by apply numeral_segment.
      rewrite !parseNodeId_pretty. reflexivity.
    + rewrite Hnone, Hdash. rewrite !trim_segment by apply numeral_segment.
      rewrite !parseNodeId_pretty. reflexivity.
  - rewrite append_nil_r. rewrite Hw0.
    cbn [mbind result_bind].
    destruct dir.
    + rewrite Harrow. rewrite !trim_segment by apply numeral_segment.
      rewrite !parseNodeId_pretty. reflexivity.
    + rewrite Hnone, Hdash. rewrite !trim_segment by apply numeral_segment.
      rewrite !parseNodeId_pretty. reflexivity.
Qed.

Lemma formatEdge_segment dir e :
  numericEdge e ->
  allChars isSegmentChar (formatEdge dir e) = true /\ formatEdge dir e <> "".
Proof.
  intros (a & b & Hfrom & Hto). unfold formatEdge. rewrite Hfrom, Hto. simpl String_of.
  split.
  - rewrite !allChars_app, !numeral_segment.
    destruct dir, (eweight e) as [w|]; simpl; rewrite ?allChars_app, ?numeral_segment;
      reflexivity.
  - destruct (numeral_shape a) as (c & r & -> & _). rewrite append_cons. discriminate.
Qed.

Lemma parseLoop_formatEdges dir dw es :
  Forall numericEdge es ->
  forall lineNum st,
    (hasDirectedArrows st = true -> dir = true) ->
    (hasUndirectedDashes st = true -> dir = false) ->
    exists arrows dashes,
      parseLoop dw (map (formatEdge dir) es) lineNum st
      = mkParseState (s_edges st ++ es) (s_errors st) arrows dashes
      /\ arrows && dashes = false.
Proof.
  induction 1 as [|e es He _ IH]; intros lineNum st Ha Hd.
  - exists (hasDirectedArrows st), (hasUndirectedDashes st). simpl.
    rewrite app_nil_r. split; [destruct st; reflexivity|].
    destruct (hasDirectedArrows st), (hasUndirectedDashes st); try reflexivity.
    specialize (Ha eq_refl). specialize (Hd eq_refl). congruence.
  - cbn [map parseLoop]. unfold parseStep at 1.
    rewrite (parseEdgeSegment_formatEdge dir e dw He). cbn [p_from p_to p_weight p_isDirected].
    destruct (IH (S lineNum)
                (mkParseState (s_edges st ++ [mkEdge (efrom e) (eto e) (eweight e)])
                   (s_errors st)
                   (if dir then true else hasDirectedArrows st)
                   (if dir then hasUndirectedDashes st else true)))
      as (arrows & dashes & Hrun & Hflags).
    + simpl. destruct dir; [reflexivity|exact Ha].
    + simpl. destruct dir; [exact Hd|reflexivity].
    + exists arrows, dashes. split; [|exact Hflags].
      destruct dir; simpl in Hrun |- *; rewrite Hrun; simpl;
        rewrite <- app_assoc; destruct e; reflexivity.
Qed.

(** X16. [parseEdgeInput] reads back what [formatEdges] writes: for a
    list of edges that is not empty, between integers of absolute
    value at most 2^53 and with or without weights of this kind, the
    text [formatEdges(edges, directed)] is parsed into the same list
    of edges, without an error and without a warning. *)
Theorem parseEdgeInput_formatEdges (es : list Edge) (dir : bool)
    (options : option ParserOptions) :
  es <> [] -> Forall safeEdge es ->
  parseEdgeInput (formatEdges es dir) options = mkParseResult es [] [].
Proof.
  intros Hne Hsafe.
  assert (Hnum : Forall numericEdge es).
  { eapply Forall_impl; [exact Hsafe|].
    intros e [(a & b & Ha & Hb & _) _]. exists a, b. auto. }
  unfold parseEdgeInput, formatEdges. cbv zeta.
  destruct es as [|e es]; [contradiction|].
  assert (Hsegs : Forall (fun t => allChars isSegmentChar t = true /\ t <> "")
                    (map (formatEdge dir) (e :: es))).
  { apply Forall_fmap. eapply Forall_impl; [exact Hnum|].
    intros e' He'. apply formatEdge_segment, He'. }
  assert (Hsplit : filter (fun s => isEmpty s = false)
                     (map trim (split (join ", " (map (formatEdge dir) (e :: es)))))
                   = map (formatEdge dir) (e :: es)).
  { unfold split. cbn [map]. rewrite split_join by exact Hsegs.
    rewrite append_nil_l. cbn [map] in Hsegs |- *.
    apply Forall_cons in Hsegs as [[Hs Hnonempty] Hrest].
    rewrite (trim_segment _ Hs). rewrite filter_cons.
    destruct (decide (isEmpty (formatEdge dir e) = false)) as [_|Hempty].
    2:{ exfalso. apply Hempty. destruct (formatEdge dir e); [contradiction|reflexivity]. }
    f_equal. clear -Hrest. induction es as [|e' es IH]; [reflexivity|].
    cbn [map] in Hrest |- *. apply Forall_cons in Hrest as [[Hs Hnonempty] Hrest].
    rewrite (trim_space_segment _ Hs), filter_cons.
    destruct (decide (isEmpty (formatEdge dir e') = false)) as [_|Hempty].
    2:{ exfalso. apply Hempty. destruct (formatEdge dir e'); [contradiction|reflexivity]. }
    f_equal. apply IH, Hrest. }
  rewrite Hsplit.
  destruct (parseLoop_formatEdges dir (default 1 (options ≫= defaultWeight)) (e :: es) Hnum
              1%nat (mkParseState [] [] false false))
    as (arrows & dashes & Hrun & Hflags); [discriminate..|].
  cbn [map] in Hrun |- *. rewrite Hrun. cbn [s_edges s_errors hasDirectedArrows
    hasUndirectedDashes]. rewrite Hflags. reflexivity.
Qed.

Lemma parseEdgeInput_formatEdges_witness :
  parseEdgeInput
    (formatEdges [mkEdge (NNum 1) (NNum 2) None; mkEdge (NNum (-3)) (NNum 10) (Some (-4))] true)
    None
  = mkParseResult [mkEdge (NNum 1) (NNum 2) None; mkEdge (NNum (-3)) (NNum 10) (Some (-4))]
      [] [].
Proof.
  apply parseEdgeInput_formatEdges; [discriminate|].
  repeat apply Forall_cons_2; [| |apply Forall_nil_2];
    (split;
     [eexists _, _; repeat split; try reflexivity; vm_compute; discriminate
     |intros w [= <-]; vm_compute; discriminate]).
Defined.

(** ** Bellman-Ford: the distances and the paths *)

(** A node at a finite distance other than the start has a
    predecessor. *)
Lemma relax_has_previous start st e :
  (forall v z, mapGet v st.1 = Some (Fin z) ->
     v = start \/ exists u, mapGet v st.2 = Some (Some u)) ->
  forall v z, mapGet v (relax st e).1 = Some (Fin z) ->
    v = start \/ exists u, mapGet v (relax st e).2 = Some (Some u).
Proof.
  intros Hinv v z. unfold relax.
  destruct (relaxable st.1 e); [|apply Hinv]. simpl.
  rewrite !mapGet_mapSet. destruct (decide (eto e = v)); [eauto|apply Hinv].
Qed.

Lemma relaxRounds_has_previous start edges rounds :
  forall st,
    (forall v z, mapGet v st.1 = Some (Fin z) ->
       v = start \/ exists u, mapGet v st.2 = Some (Some u)) ->
    forall v z, mapGet v (relaxRounds rounds edges st).1 = Some (Fin z) ->
      v = start \/ exists u, mapGet v (relaxRounds rounds edges st).2 = Some (Some u).
Proof.
  assert (Hall : forall es st,
            (forall v z, mapGet v st.1 = Some (Fin z) ->
               v = start \/ exists u, mapGet v st.2 = Some (Some u)) ->
            forall v z, mapGet v (foldl relax st es).1 = Some (Fin z) ->
              v = start \/ exists u, mapGet v (foldl relax st es).2 = Some (Some u)).
  { induction es as [|e es IH]; intros st Hinv; simpl; [exact Hinv|].
    apply IH, relax_has_previous, Hinv. }
  induction rounds as [|rounds IH]; intros st Hinv; simpl; [exact Hinv|].
  apply IH, Hall, Hinv.
Qed.

Section ShortestPaths.
Variable g : Graph.
Variable start : NodeId.
Variable edges : list Edge.
Hypothesis settled : forall e, e ∈ edges -> relaxable (bfRelaxed g start edges).1 e = false.

Local Abbreviation K := (known g start).
Local Abbreviation final := (bfRelaxed g start edges).

(** When no edge can be relaxed the start node is at distance 0. *)
Lemma final_start_zero : mapGet start final.1 = Some (Fin 0).
Proof.
  destruct (final_start g start edges) as [z Hz].
  destruct (proj2 (relaxRounds_improves edges (length (getNodes g) - 1)
                     (bfInit (getNodes g) start)) start 0) as (z' & Hz' & Hle).
  { rewrite bfInit_distances. destruct (decide (start = start)); [reflexivity|contradiction]. }
  fold (bfRelaxed g start edges) in Hz'. rewrite Hz in Hz'. injection Hz' as <-.
  destruct (final_realizable g start edges _ _ Hz) as (p & Hp & Hw).
  destruct (potential_along_walk g start edges final.1
              (fun x => proj2 (final_keys g start edges x)) settled
              (p ++ p) start start z) as (b & Hb & Hle').
  { apply isWalk_app. eauto. }
  { exact Hz. }
  rewrite Hz in Hb. injection Hb as <-. rewrite walkWeight_app in Hle'.
  rewrite Hz. f_equal. f_equal. lia.
Qed.

(** The final distances are the weights of the lightest walks. *)
Lemma final_shortest v d :
  mapGet v final.1 = Some d ->
  match d with
  | Fin z => (exists p, isWalk edges K start p v /\ walkWeight p = z)
             /\ forall q, isWalk edges K start q v -> z <= walkWeight q
  | Infinity => forall q, ~ isWalk edges K start q v
  end.
Proof.
  intros Hd.
  assert (Hbound : forall q, isWalk edges K start q v ->
            exists b, mapGet v final.1 = Some (Fin b) /\ b <= walkWeight q).
  { intros q Hq.
    destruct (potential_along_walk g start edges final.1
                (fun x => proj2 (final_keys g start edges x)) settled
                q start v 0 Hq final_start_zero) as (b & Hb & Hle).
    exists b. split; [exact Hb|lia]. }
  destruct d as [z|].
  - split; [apply (final_realizable g start edges _ _ Hd)|].
    intros q Hq. destruct (Hbound q Hq) as (b & Hb & Hle). congruence.
  - intros q Hq. destruct (Hbound q Hq) as (b & Hb & _). congruence.
Qed.

(** The entries of [previous] are tight edges. *)
Lemma final_previous v u :
  mapGet v final.2 = Some (Some u) ->
  exists e du, e ∈ edges /\ efrom e = u /\ eto e = v
    /\ mapGet u final.1 = Some (Fin du)
    /\ mapGet v final.1 = Some (Fin (du + edgeWeight e)).
Proof.
  intros Hp.
  destruct (relaxRounds_predInv edges (length (getNodes g) - 1) (fun _ => O) 1%nat
              (bfInit (getNodes g) start)) as (T & now & Hinv & _).
  { intros v' u' Hp'. exfalso. eapply bfInit_no_previous, Hp'. }
  { intros x. lia. }
  fold (bfRelaxed g start edges) in Hinv.
  destruct (Hinv v u Hp) as (e & du & dv & He & Hf & Ht & Hdu & Hdv & Hle & _).
  exists e, du. split; [exact He|]. split; [exact Hf|]. split; [exact Ht|].
  split; [exact Hdu|].
  pose proof (settled e He) as Hrel. unfold relaxable in Hrel.
  rewrite Hf, Ht, Hdu, Hdv in Hrel. simpl in Hrel. apply Z.ltb_ge in Hrel.
  rewrite Hdv. unfold edgeWeight. f_equal. f_equal. lia.
Qed.

Lemma final_has_previous v z :
  mapGet v final.1 = Some (Fin z) ->
  v = start \/ exists u, mapGet v final.2 = Some (Some u).
Proof.
  apply relaxRounds_has_previous. intros x y. rewrite bfInit_distances.
  destruct (decide (start = x)) as [->|_]; [auto|].
  destruct (decide (x ∈ getNodes g)); discriminate.
Qed.

(** The loop of [reconstructPath] from a node at a finite distance
    walks back to the start along tight edges. *)
Lemma reconstructLoop_walk fuel :
  forall c z acc p,
    mapGet c final.1 = Some (Fin z) ->
    reconstructLoop fuel final.2 start (Some c) acc = Some p ->
    exists q, isWalk edges K start q c /\ walkWeight q = z
      /\ p = visits start q ++ acc.
Proof.
  induction fuel as [|fuel IH]; intros c z acc p Hc Hrun; [discriminate Hrun|].
  simpl in Hrun. destruct (decide (c = start)) as [->|Hne].
  - injection Hrun as <-. exists []. split; [reflexivity|]. split; [|reflexivity].
    rewrite final_start_zero in Hc. injection Hc as <-. reflexivity.
  - destruct (final_has_previous c z Hc) as [->|[u Hu]]; [contradiction|].
    rewrite Hu in Hrun. simpl in Hrun.
    destruct (final_previous c u Hu) as (e & du & He & Hf & Ht & Hdu & Hdv).
    destruct (IH u du (c :: acc) p Hdu Hrun) as (q & Hq & Hw & ->).
    exists (q ++ [e]). split; [|split].
    + rewrite <- Ht. apply isWalk_snoc. exists u.
      split; [exact Hq|]. split; [exact He|]. split; [exact Hf|].
      rewrite Ht. apply (final_keys g start edges). rewrite Hc. eauto.
    + rewrite walkWeight_app, Hw. unfold walkWeight. simpl.
      rewrite Hc in Hdv. injection Hdv as ->. lia.
    + unfold visits. rewrite map_app. simpl. rewrite Ht, <- app_assoc. reflexivity.
Qed.

(** What [reconstructPath] returns for a node other than the start. *)
Lemma reconstructPath_walk fuel nd d p :
  nd <> start ->
  mapGet nd final.1 = Some d ->
  reconstructPath fuel final.2 start nd = Some p ->
  match d with
  | Fin z => exists q, isWalk edges K start q nd /\ walkWeight q = z /\ p = visits start q
  | Infinity => p = []
  end.
Proof.
  intros Hne Hd. unfold reconstructPath.
  destruct (reconstructLoop fuel final.2 start (Some nd) []) as [p0|] eqn:Hrun;
    [|discriminate]. simpl.
  destruct d as [z|].
  - destruct (reconstructLoop_walk fuel nd z [] p0 Hd Hrun) as (q & Hq & Hw & ->).
    rewrite app_nil_r. unfold visits at 1. simpl.
    destruct (decide (start = start)); [|contradiction].
    intros [= <-]. exists q. auto.
  - destruct fuel as [|fuel]; [discriminate Hrun|]. simpl in Hrun.
    destruct (decide (nd = start)); [contradiction|].
    assert (Hprev : default None (mapGet nd final.2) = None).
    { destruct (mapGet nd final.2) as [[u|]|] eqn:Hu; [|reflexivity..].
      destruct (final_previous nd u Hu) as (e & du & _ & _ & _ & _ & Hdv).
      rewrite Hd in Hdv. discriminate Hdv. }
    rewrite Hprev in Hrun. destruct fuel as [|fuel]; [discriminate Hrun|].
    simpl in Hrun. injection Hrun as <-.
    destruct (decide (nd = start)); [contradiction|]. intros [= <-]. reflexivity.
Qed.
End ShortestPaths.

(** The entries of the map that [bfResult] builds. *)
Lemma bfResult_entries fuel st start ns :
  forall acc m, bfResult fuel st start ns acc = Some m ->
    forall nd r, mapGet nd m = Some r ->
      mapGet nd acc = Some r
      \/ (nd ∈ ns /\ nd <> start
          /\ distance r = default Infinity (mapGet nd st.1)
          /\ reconstructPath fuel st.2 start nd = Some (path r)).
Proof.
  induction ns as [|n ns IH]; intros acc m Hrun nd r Hr; simpl in Hrun.
  - injection Hrun as <-. auto.
  - destruct (decide (n = start)) as [->|Hn].
    + destruct (IH _ _ Hrun nd r Hr) as [H|(Hin & H)]; [auto|].
      right. split; [apply elem_of_cons; auto|exact H].
    + destruct (reconstructPath fuel st.2 start n) as [p|] eqn:Hp; [|discriminate Hrun].
      simpl in Hrun.
      destruct (IH _ _ Hrun nd r Hr) as [H|(Hin & H)].
      * rewrite mapGet_mapSet in H. destruct (decide (n = nd)) as [->|Hne]; [|auto].
        injection H as <-. right. split; [apply elem_of_cons; auto|].
        split; [exact Hn|]. split; [reflexivity|exact Hp].
      * right. split; [apply elem_of_cons; auto|exact H].
Qed.

(** What a run of [bellmanFord] that returns the map of the paths
    tells about the relaxed state. *)
Lemma bellmanFord_paths_inv fuel g start edges m :
  getEdges g = Ok edges ->
  bellmanFord fuel g start = Ok (Some (Paths m)) ->
  (forall e, e ∈ edges -> relaxable (bfRelaxed g start edges).1 e = false)
  /\ forall nd r, mapGet nd m = Some r ->
       nd <> start
       /\ mapGet nd (bfRelaxed g start edges).1 = Some (distance r)
       /\ reconstructPath fuel (bfRelaxed g start edges).2 start nd = Some (path r).
Proof.
  intros Hedges. unfold bellmanFord. rewrite Hedges. simpl.
  destruct (existsb (relaxable (bfRelaxed g start edges).1) edges) eqn:Hex;
    [discriminate|].
  destruct (bfResult fuel (bfRelaxed g start edges) start (getNodes g) []) as [m'|] eqn:Hres;
    [|discriminate].
  simpl. intros [= <-]. split.
  - intros e He. apply not_true_is_false. intros Hr.
    rewrite (proj2 (existsb_exists _ _)) in Hex; [discriminate Hex|].
    exists e. split; [apply list_elem_of_In, He|exact Hr].
  - intros nd r Hr.
    destruct (bfResult_entries _ _ _ _ _ _ Hres nd r Hr) as [H|(Hin & Hne & Hd & Hp)];
      [discriminate H|].
    split; [exact Hne|]. split; [|exact Hp].
    destruct (proj2 (final_keys g start edges nd)) as [d Hd'].
    { right. exact Hin. }
    rewrite Hd' in Hd. simpl in Hd. rewrite Hd'. congruence.
Qed.

(** X17. When [bellmanFord] returns the map of the paths, on a graph
    whose weights can be added without rounding, the distance that it
    gives for a node is the weight of a lightest walk from the start
    to the node along the edges of [getEdges]: a walk of this weight
    exists and no walk is lighter.  The distance is [Infinity] exactly
    for the nodes that no walk reaches. *)
Theorem bellmanFord_distances_shortest (g : Graph) (start : NodeId) (edges : list Edge)
    (fuel : nat) (m : list (NodeId * PathResult)) :
  getEdges g = Ok edges ->
  safeWeights g (length (nodes g) * length edges) ->
  bellmanFord fuel g start = Ok (Some (Paths m)) ->
  forall nd r, mapGet nd m = Some r ->
    match distance r with
    | Fin z =>
        (exists p, isWalk edges (known g start) start p nd /\ walkWeight p = z)
        /\ forall q, isWalk edges (known g start) start q nd -> z <= walkWeight q
    | Infinity => forall q, ~ isWalk edges (known g start) start q nd
    end.
Proof.
  intros Hedges _ Hrun nd r Hr.
  destruct (bellmanFord_paths_inv fuel g start edges m Hedges Hrun) as [Hsettled Hm].
  destruct (Hm nd r Hr) as (_ & Hd & _).
  apply (final_shortest g start edges Hsettled nd (distance r) Hd).
Qed.

(** X18. When [bellmanFord] returns the map of the paths, on a graph
    whose weights can be added without rounding, the path that it
    gives for a node at a finite distance is the sequence of the nodes
    of a walk from the start to the node, along the edges of
    [getEdges], whose weight is that distance; for a node at distance
    [Infinity] the path is empty. *)
Theorem bellmanFord_path_is_walk (g : Graph) (start : NodeId) (edges : list Edge)
    (fuel : nat) (m : list (NodeId * PathResult)) :
  getEdges g = Ok edges ->
  safeWeights g (length (nodes g) * length edges) ->
  bellmanFord fuel g start = Ok (Some (Paths m)) ->
  forall nd r, mapGet nd m = Some r ->
    match distance r with
    | Fin z =>
        exists p, isWalk edges (known g start) start p nd /\ walkWeight p = z
          /\ path r = visits start p
    | Infinity => path r = []
    end.
Proof.
  intros Hedges _ Hrun nd r Hr.
  destruct (bellmanFord_paths_inv fuel g start edges m Hedges Hrun) as [Hsettled Hm].
  destruct (Hm nd r Hr) as (Hne & Hd & Hp).
  apply (reconstructPath_walk g start edges Hsettled fuel nd (distance r) (path r) Hne Hd Hp).
Qed.

Lemma bellmanFord_distances_shortest_witness :
  exists g,
    addEdges [mkEdge (NNum 1) (NNum 2) (Some 5); mkEdge (NNum 2) (NNum 3) (Some (-3));
              mkEdge (NNum 1) (NNum 3) (Some 100)]
             (newGraph (mkConfig true true true false)) = Ok g
    /\ forall q,
         isWalk [mkEdge (NNum 1) (NNum 2) (Some 5); mkEdge (NNum 1) (NNum 3) (Some 100);
                 mkEdge (NNum 2) (NNum 3) (Some (-3))]
                (known g (NNum 1)) (NNum 1) q (NNum 3) ->
         2 <= walkWeight q.
Proof.
  eexists. split; [vm_compute; reflexivity|].
  match goal with
  | |- forall q, isWalk ?E (known ?g _) _ q _ -> _ =>
      assert (He : getEdges g = Ok E) by (vm_compute; reflexivity);
      assert (Hb : bellmanFord 5 g (NNum 1)
                   = Ok (Some (Paths [(NNum 2, mkPathResult [NNum 1; NNum 2] (Fin 5));
                                      (NNum 3, mkPathResult [NNum 1; NNum 2; NNum 3] (Fin 2))])))
        by (vm_compute; reflexivity);
      assert (Hsafe : safeWeights g (length (nodes g) * length E)) by (safe_weights 100);
      pose proof (bellmanFord_distances_shortest g (NNum 1) E 5 _ He Hsafe Hb (NNum 3)
                    (mkPathResult [NNum 1; NNum 2; NNum 3] (Fin 2)) eq_refl) as Hs
  end.
  apply Hs.
Defined.

Lemma bellmanFord_path_is_walk_witness :
  exists g,
    addEdges [mkEdge (NNum 1) (NNum 2) (Some 5); mkEdge (NNum 2) (NNum 3) (Some (-3));
              mkEdge (NNum 1) (NNum 3) (Some 100)]
             (newGraph (mkConfig true true true false)) = Ok g
    /\ exists p,
         isWalk [mkEdge (NNum 1) (NNum 2) (Some 5); mkEdge (NNum 1) (NNum 3) (Some 100);
                 mkEdge (NNum 2) (NNum 3) (Some (-3))]
                (known g (NNum 1)) (NNum 1) p (NNum 3)
         /\ walkWeight p = 2 /\ [NNum 1; NNum 2; NNum 3] = visits (NNum 1) p.
Proof.
  eexists. split; [vm_compute; reflexivity|].
  match goal with
  | |- exists p, isWalk ?E (known ?g _) _ p _ /\ _ =>
      assert (He : getEdges g = Ok E) by (vm_compute; reflexivity);
      assert (Hb : bellmanFord 5 g (NNum 1)
                   = Ok (Some (Paths [(NNum 2, mkPathResult [NNum 1; NNum 2] (Fin 5));
                                      (NNum 3, mkPathResult [NNum 1; NNum 2; NNum 3] (Fin 2))])))
        by (vm_compute; reflexivity);
      assert (Hsafe : safeWeights g (length (nodes g) * length E)) by (safe_weights 100);
      pose proof (bellmanFord_path_is_walk g (NNum 1) E 5 _ He Hsafe Hb (NNum 3)
                    (mkPathResult [NNum 1; NNum 2; NNum 3] (Fin 2)) eq_refl) as Hs
  end.
  apply Hs.
Defined.

(** ** The search shared by [isCycle], [isPath] and [isTree] *)

Lemma pending_mono g U V V' :
  (forall x, x ∈ V -> x ∈ V') -> (pending g U V' <= pending g U V)%nat.
Proof.
  intros Hsub. unfold pending. induction U as [|y U IH]; [reflexivity|].
  rewrite !filter_cons.
  destruct (decide (y ∉ V')) as [Hy'|Hy'], (decide (y ∉ V)) as [Hy|Hy]; simpl; try lia.
  exfalso. apply Hy. intros Hin. apply Hy', Hsub, Hin.
Qed.

Lemma pending_setAdd g U V x :
  x ∈ U -> x ∉ V ->
  (pending g U (setAdd x V) + S (length (getNeighbors x g)) <= pending g U V)%nat.
Proof.
  intros Hin Hx. unfold pending. induction U as [|y U IH].
  - apply elem_of_nil in Hin. contradiction.
  - pose proof (pending_mono g U V (setAdd x V)) as Hle. unfold pending in Hle.
    assert (Hsub : forall z, z ∈ V -> z ∈ setAdd x V)
      by (intros z Hz; apply elem_of_setAdd; auto).
    specialize (Hle Hsub). rewrite !filter_cons.
    destruct (decide (x = y)) as [<-|Hne].
    + destruct (decide (x ∉ setAdd x V)) as [Hn|_].
      * exfalso. apply Hn, elem_of_setAdd. auto.
      * destruct (decide (x ∉ V)); [simpl; lia | contradiction].
    + apply elem_of_cons in Hin as [->|Hin]; [contradiction|].
      specialize (IH Hin).
      destruct (decide (y ∉ setAdd x V)) as [Hy'|Hy'], (decide (y ∉ V)) as [Hy|Hy];
        simpl; try lia.
      exfalso. apply Hy. intros Hin'. apply Hy', Hsub, Hin'.
Qed.

Lemma pushUnvisited_spec ns V stack :
  (length (pushUnvisited ns V stack) <= length ns + length stack)%nat
  /\ (forall x, x ∈ pushUnvisited ns V stack ->
        x ∈ stack \/ exists n, n ∈ ns /\ node n = x)
  /\ (forall x, x ∈ stack -> x ∈ pushUnvisited ns V stack)
  /\ (forall n, n ∈ ns -> node n ∈ V \/ node n ∈ pushUnvisited ns V stack).
Proof.
  unfold pushUnvisited. revert stack. induction ns as [|n ns IH]; intros stack; simpl.
  - split; [lia|]. split; [auto|]. split; [auto|].
    intros n Hn. apply elem_of_nil in Hn. contradiction.
  - destruct (decide (node n ∈ V)) as [Hin|Hout].
    + destruct (IH stack) as (Hlen & Hfrom & Hkeep & Hall).
      split; [lia|]. split; [|split; [exact Hkeep|]].
      * intros x Hx. destruct (Hfrom x Hx) as [H|(n' & Hn' & <-)]; [auto|].
        right. exists n'. split; [apply elem_of_cons; auto|reflexivity].
      * intros n' Hn'. apply elem_of_cons in Hn' as [->|Hn']; auto.
    + destruct (IH (node n :: stack)) as (Hlen & Hfrom & Hkeep & Hall).
      split; [simpl in Hlen; lia|]. split; [|split].
      * intros x Hx. destruct (Hfrom x Hx) as [H|(n' & Hn' & <-)].
        -- apply elem_of_cons in H as [->|H]; [|auto].
           right. exists n. split; [apply elem_of_cons; auto|reflexivity].
        -- right. exists n'. split; [apply elem_of_cons; auto|reflexivity].
      * intros x Hx. apply Hkeep, elem_of_cons. auto.
      * intros n' Hn'. apply elem_of_cons in Hn' as [->|Hn']; [|auto].
        right. apply Hkeep, elem_of_cons. auto.
Qed.

Section Reach.
Variable g : Graph.
Variable U : list NodeId.
Hypothesis targets_in_U : forall x n, n ∈ getNeighbors x g -> node n ∈ U.

Lemma reachLoop_fuel_mono fuel :
  forall fuel' stack visited r, (fuel <= fuel')%nat ->
    reachLoop fuel g stack visited = Some r -> reachLoop fuel' g stack visited = Some r.
Proof.
  induction fuel as [|fuel IH]; intros fuel' stack visited r Hle H; [discriminate H|].
  destruct fuel' as [|fuel']; [lia|]. simpl in *.
  destruct stack as [|current stack]; [exact H|].
  destruct (decide (current ∈ visited)); apply IH; (lia || assumption).
Qed.

(** The loop ends, with the nodes that can be reached from [first]. *)
Lemma reachLoop_runs (first : NodeId) fuel :
  forall stack visited,
    (pending g U visited + length stack < fuel)%nat ->
    (forall x, x ∈ stack -> x ∈ U) ->
    NoDup visited ->
    (first ∈ visited \/ first ∈ stack) ->
    (forall x, x ∈ visited \/ x ∈ stack -> reachable g first x) ->
    (forall x n, x ∈ visited -> n ∈ getNeighbors x g ->
       node n ∈ visited \/ node n ∈ stack) ->
    exists r, reachLoop fuel g stack visited = Some r
      /\ NoDup r /\ forall x, x ∈ r <-> reachable g first x.
Proof.
  induction fuel as [|fuel IH]; intros stack visited Hm HU Hnd Hfirst Hreach Hclosed; [lia|].
  simpl. destruct stack as [|current stack].
  - exists visited. split; [reflexivity|]. split; [exact Hnd|].
    intros x. split; [intros Hx; apply Hreach; auto|].
    assert (Hstart : first ∈ visited).
    { destruct Hfirst as [H|H]; [exact H|]. apply elem_of_nil in H. contradiction. }
    intros Hr. clear -Hr Hstart Hclosed.
    induction Hr as [x|x z y (n & Hn & <-) _ IH]; [exact Hstart|].
    apply IH. destruct (Hclosed _ _ Hstart Hn) as [H|H]; [exact H|].
    apply elem_of_nil in H. contradiction.
  - destruct (decide (current ∈ visited)) as [Hin|Hout].
    + apply IH.
      * simpl in Hm. lia.
      * intros x Hx. apply HU, elem_of_cons. auto.
      * exact Hnd.
      * destruct Hfirst as [H|H]; [auto|].
        apply elem_of_cons in H as [->|H]; auto.
      * intros x [Hx|Hx]; apply Hreach; [auto|]. right. apply elem_of_cons. auto.
      * intros x n Hx Hn. destruct (Hclosed x n Hx Hn) as [H|H]; [auto|].
        apply elem_of_cons in H as [->|H]; auto.
    + destruct (pushUnvisited_spec (getNeighbors current g) (setAdd current visited) stack)
        as (Hlen & Hfrom & Hkeep & Hall).
      assert (HcU : current ∈ U) by (apply HU, elem_of_cons; auto).
      pose proof (pending_setAdd g U visited current HcU Hout) as Hdec.
      assert (Hcur : reachable g first current)
        by (apply Hreach; right; apply elem_of_cons; auto).
      apply IH.
      * simpl in Hm. lia.
      * intros x Hx. destruct (Hfrom x Hx) as [H|(n & Hn & <-)].
        -- apply HU, elem_of_cons. auto.
        -- eapply targets_in_U, Hn.
      * unfold setAdd. rewrite decide_False by exact Hout.
        apply NoDup_app. split; [exact Hnd|]. split; [|apply NoDup_singleton].
        intros x Hx Hx'. apply list_elem_of_singleton in Hx' as ->. contradiction.
      * destruct Hfirst as [H|H]; [left; apply elem_of_setAdd; auto|].
        apply elem_of_cons in H as [->|H]; [left; apply elem_of_setAdd; auto|auto].
      * intros x [Hx|Hx].
        -- apply elem_of_setAdd in Hx as [->|Hx]; [exact Hcur|apply Hreach; auto].
        -- destruct (Hfrom x Hx) as [H|(n & Hn & <-)].
           ++ apply Hreach. right. apply elem_of_cons. auto.
           ++ eapply reachable_step; eassumption.
      * intros x n Hx Hn. apply elem_of_setAdd in Hx as [->|Hx]; [apply Hall, Hn|].
        destruct (Hclosed x n Hx Hn) as [H|H]; [left; apply elem_of_setAdd; auto|].
        apply elem_of_cons in H as [->|H]; [left; apply elem_of_setAdd; auto|auto].
Qed.
End Reach.

(** The search from the first node, as [isCycle], [isPath] and
    [isTree] start it. *)
Lemma reachLoop_from_first g first :
  exists visited N,
    (forall fuel, (N <= fuel)%nat -> reachLoop fuel g [first] [] = Some visited)
    /\ NoDup visited /\ forall x, x ∈ visited <-> reachable g first x.
Proof.
  set (U := first :: allTargets g).
  destruct (reachLoop_runs g U) with (first := first) (fuel := S (pending g U [] + 1))
    (stack := [first]) (visited := [] : list NodeId) as (r & Hrun & Hnd & Hiff).
  { intros x n Hn. apply elem_of_cons. right. eapply getNeighbors_targets, Hn. }
  { simpl. lia. }
  { intros x Hx. apply list_elem_of_singleton in Hx as ->. apply elem_of_cons. auto. }
  { apply NoDup_nil_2. }
  { right. apply list_elem_of_singleton. reflexivity. }
  { intros x [Hx|Hx]; [apply elem_of_nil in Hx; contradiction|].
    apply list_elem_of_singleton in Hx as ->. apply rtc_refl. }
  { intros x n Hx. apply elem_of_nil in Hx. contradiction. }
  exists r, (S (pending g U [] + 1)). split; [|split; assumption].
  intros fuel Hfuel. eapply reachLoop_fuel_mono; eassumption.
Qed.

(** On a graph whose neighbor entries point to its nodes, the search
    visits as many nodes as the graph has exactly when all of them can
    be reached from the first. *)
Lemma all_reached_iff g first rest visited :
  closedTargets g -> NoDup (nodes g) -> nodes g = first :: rest ->
  NoDup visited -> (forall x, x ∈ visited <-> reachable g first x) ->
  (Z.of_nat (length visited) =? Z.of_nat (length (nodes g))) = true
  <-> forall x, x ∈ nodes g -> reachable g first x.
Proof.
  intros Hclosed Hnd Hnodes Hnd' Hreach.
  assert (Hstay : forall a b, reachable g a b -> a ∈ nodes g -> b ∈ nodes g).
  { intros a b Hr. induction Hr as [a|a y b (n & Hn & <-) _ IH]; [auto|].
    intros Ha. apply IH. unfold getNeighbors in Hn.
    destruct (adjacencyList g !! String_of a) as [l|] eqn:Hl; simpl in Hn;
      [|apply elem_of_nil in Hn; contradiction].
    eapply Hclosed; eassumption. }
  assert (Hsub : visited ⊆+ nodes g).
  { apply NoDup_submseteq; [exact Hnd'|]. intros x Hx. apply Hreach in Hx.
    apply (Hstay first x Hx). rewrite Hnodes. apply elem_of_cons. auto. }
  rewrite Z.eqb_eq. split.
  - intros Hlen x Hx. apply Hreach.
    assert (Hperm : visited ≡ₚ nodes g)
      by (apply submseteq_length_Permutation; [exact Hsub|lia]).
    rewrite Hperm. exact Hx.
  - intros Hall. f_equal. apply Nat.le_antisymm.
    + apply submseteq_length, Hsub.
    + apply submseteq_length, NoDup_submseteq; [exact Hnd|].
      intros x Hx. apply Hreach, Hall, Hx.
Qed.

(** ** Cycles, paths, trees, stars and regular graphs *)

Lemma forallb_elem {A} (p : A -> bool) (l : list A) :
  forallb p l = true <-> forall x, x ∈ l -> p x = true.
Proof.
  rewrite forallb_forall. split; intros H x Hx; apply H, list_elem_of_In, Hx.
Qed.

(** X19. On a well-formed graph without duplicate nodes, [isCycle]
    ends, and it returns true exactly when the graph has at least
    three nodes, every node has degree 2 and every node can be reached
    from the first. *)
Theorem isCycle_iff (g : Graph) :
  wellFormed g -> NoDup (nodes g) ->
  exists b N,
    (forall fuel, (N <= fuel)%nat -> isCycle fuel g = Some b)
    /\ (b = true <->
        (3 <= length (nodes g))%nat
        /\ (forall x, x ∈ nodes g -> degree (getDegree x g) = 2)
        /\ forall first x, head (nodes g) = Some first -> x ∈ nodes g ->
             reachable g first x).
Proof.
  intros [_ Hclosed] Hnd. unfold isCycle, getNodes. cbv zeta.
  destruct (Z.of_nat (length (nodes g)) <? 3) eqn:Hn.
  { exists false, 0%nat. split; [reflexivity|]. split; [discriminate|].
    intros (Hlen & _). apply Z.ltb_lt in Hn. lia. }
  apply Z.ltb_ge in Hn.
  destruct (forallb (fun nd => degree (getDegree nd g) =? 2) (nodes g)) eqn:Hdeg; cbn [negb].
  2:{ exists false, 0%nat. split; [reflexivity|]. split; [discriminate|].
      intros (_ & Hall & _). exfalso.
      assert (Htrue : forallb (fun nd => degree (getDegree nd g) =? 2) (nodes g) = true).
      { apply forallb_elem. intros x Hx. apply Z.eqb_eq, Hall, Hx. }
      congruence. }
  destruct (nodes g) as [|first rest] eqn:Hnodes; [simpl in Hn; lia|].
  destruct (reachLoop_from_first g first) as (visited & N & Hrun & Hnd' & Hreach).
  exists (Z.of_nat (length visited) =? Z.of_nat (length (first :: rest))), N. split.
  { intros fuel Hfuel. rewrite (Hrun fuel Hfuel). reflexivity. }
  rewrite <- Hnodes in *.
  rewrite (all_reached_iff g first rest visited Hclosed Hnd Hnodes Hnd' Hreach).
  split.
  - intros Hall. split; [lia|]. split.
    + intros x Hx. apply Z.eqb_eq. revert x Hx. apply forallb_elem, Hdeg.
    + intros first' x Hhead. rewrite Hnodes in Hhead. injection Hhead as <-. apply Hall.
  - intros (_ & _ & Hall) x Hx. apply (Hall first x); [rewrite Hnodes; reflexivity|exact Hx].
Qed.

(** The loop of [isPath] over the nodes. *)
Lemma countEndpoint_loop g ns :
  forall c,
    match forEachM (countEndpoint g) ns c with
    | Some c' =>
        (forall x, x ∈ ns -> degree (getDegree x g) = 1 \/ degree (getDegree x g) = 2)
        /\ c' = c + Z.of_nat (length (filter (fun x => degree (getDegree x g) = 1) ns))
    | None =>
        exists x, x ∈ ns /\ degree (getDegree x g) <> 1 /\ degree (getDegree x g) <> 2
    end.
Proof.
  induction ns as [|nd ns IH]; intros c; cbn [forEachM].
  - split; [|cbn; lia]. intros x Hx. apply elem_of_nil in Hx. contradiction.
  - unfold countEndpoint at 1. cbv zeta. rewrite filter_cons.
    destruct (degree (getDegree nd g) =? 1) eqn:H1.
    + apply Z.eqb_eq in H1. specialize (IH (c + 1)).
      destruct (forEachM (countEndpoint g) ns (c + 1)) as [c'|].
      * destruct IH as [Hall ->]. split.
        -- intros x Hx. apply elem_of_cons in Hx as [->|Hx]; [left; exact H1|apply Hall, Hx].
        -- destruct (decide (degree (getDegree nd g) = 1)); [cbn [length]; lia|contradiction].
      * destruct IH as (x & Hx & H). exists x. split; [apply elem_of_cons; auto|exact H].
    + apply Z.eqb_neq in H1. destruct (degree (getDegree nd g) =? 2) eqn:H2; cbn [negb].
      * apply Z.eqb_eq in H2. specialize (IH c).
        destruct (forEachM (countEndpoint g) ns c) as [c'|].
        -- destruct IH as [Hall ->]. split.
           ++ intros x Hx. apply elem_of_cons in Hx as [->|Hx]; [right; exact H2|apply Hall, Hx].
           ++ destruct (decide (degree (getDegree nd g) = 1)); [contradiction|reflexivity].
        -- destruct IH as (x & Hx & H). exists x. split; [apply elem_of_cons; auto|exact H].
      * apply Z.eqb_neq in H2. exists nd. split; [apply elem_of_cons; auto|auto].
Qed.

(** X20. On a well-formed graph without duplicate nodes, [isPath]
    ends, and it returns true exactly when the graph has a single
    node, or at least two nodes that all have degree 1 or 2, exactly
    two of them degree 1, and that can all be reached from the first. *)
Theorem isPath_iff (g : Graph) :
  wellFormed g -> NoDup (nodes g) ->
  exists b N,
    (forall fuel, (N <= fuel)%nat -> isPath fuel g = Some b)
    /\ (b = true <->
        length (nodes g) = 1%nat
        \/ ((2 <= length (nodes g))%nat
            /\ (forall x, x ∈ nodes g ->
                  degree (getDegree x g) = 1 \/ degree (getDegree x g) = 2)
            /\ length (filter (fun x => degree (getDegree x g) = 1) (nodes g)) = 2%nat
            /\ forall first x, head (nodes g) = Some first -> x ∈ nodes g ->
                 reachable g first x)).
Proof.
  intros [_ Hclosed] Hnd. unfold isPath, getNodes. cbv zeta.
  destruct (Z.of_nat (length (nodes g)) <? 2) eqn:Hn.
  { exists (Z.of_nat (length (nodes g)) =? 1), 0%nat. split; [reflexivity|].
    apply Z.ltb_lt in Hn. rewrite Z.eqb_eq. split; [intros H; left; lia|].
    intros [H|(H & _)]; lia. }
  apply Z.ltb_ge in Hn.
  pose proof (countEndpoint_loop g (nodes g) 0) as Hloop.
  destruct (forEachM (countEndpoint g) (nodes g) 0) as [c|].
  2:{ destruct Hloop as (x & Hx & H1 & H2).
      exists false, 0%nat. split; [reflexivity|]. split; [discriminate|].
      intros [H|(_ & Hall & _)]; [lia|]. destruct (Hall x Hx); contradiction. }
  destruct Hloop as [Hall ->]. rewrite Z.add_0_l.
  destruct (Z.of_nat (length (filter (fun x => degree (getDegree x g) = 1) (nodes g))) =? 2)
    eqn:Hends; cbn [negb].
  2:{ apply Z.eqb_neq in Hends.
      exists false, 0%nat. split; [reflexivity|]. split; [discriminate|].
      intros [H|(_ & _ & H & _)]; lia. }
  apply Z.eqb_eq in Hends.
  destruct (nodes g) as [|first rest] eqn:Hnodes; [simpl in Hn; lia|].
  destruct (reachLoop_from_first g first) as (visited & N & Hrun & Hnd' & Hreach).
  exists (Z.of_nat (length visited) =? Z.of_nat (length (first :: rest))), N. split.
  { intros fuel Hfuel. rewrite (Hrun fuel Hfuel). reflexivity. }
  rewrite <- Hnodes in *.
  rewrite (all_reached_iff g first rest visited Hclosed Hnd Hnodes Hnd' Hreach).
  split.
  - intros Hreached. right. split; [lia|]. split; [exact Hall|]. split; [lia|].
    intros first' x Hhead. rewrite Hnodes in Hhead. injection Hhead as <-. apply Hreached.
  - intros [H|(_ & _ & _ & Hreached)]; [lia|]. intros x Hx.
    apply (Hreached first x); [rewrite Hnodes; reflexivity|exact Hx].
Qed.

(** X21. On a well-formed graph without duplicate nodes, [isTree]
    ends, and it returns true exactly when the graph is undirected and
    has at most one node, or has an edge counter of twice [n - 1] (the
    counter is halved before it is compared with [n - 1]) and all its
    nodes can be reached from the first. *)
Theorem isTree_iff (g : Graph) :
  wellFormed g -> NoDup (nodes g) ->
  exists b N,
    (forall fuel, (N <= fuel)%nat -> isTree fuel g = Some b)
    /\ (b = true <->
        directed (config g) = false
        /\ ((length (nodes g) <= 1)%nat
            \/ (edgeCount g = 2 * (Z.of_nat (length (nodes g)) - 1)
                /\ forall first x, head (nodes g) = Some first -> x ∈ nodes g ->
                     reachable g first x))).
Proof.
  intros [_ Hclosed] Hnd. unfold isTree, isDirected, getNodes. cbv zeta.
  destruct (directed (config g)) eqn:Hdir.
  { exists false, 0%nat. split; [reflexivity|]. split; [discriminate|].
    intros [H _]. discriminate H. }
  destruct (Z.of_nat (length (nodes g)) =? 0) eqn:H0.
  { apply Z.eqb_eq in H0. exists true, 0%nat. split; [reflexivity|].
    split; [|reflexivity]. intros _. split; [reflexivity|]. left. lia. }
  destruct (Z.of_nat (length (nodes g)) =? 1) eqn:H1.
  { apply Z.eqb_eq in H1. exists true, 0%nat. split; [reflexivity|].
    split; [|reflexivity]. intros _. split; [reflexivity|]. left. lia. }
  apply Z.eqb_neq in H0, H1.
  assert (Hcount : Qeq_bool (totalEdgeCount g)
                     (inject_Z (Z.of_nat (length (nodes g)) - 1)) = true
                   <-> edgeCount g = 2 * (Z.of_nat (length (nodes g)) - 1)).
  { unfold totalEdgeCount. rewrite Hdir. rewrite Qeq_bool_iff.
    unfold Qeq, Qdiv, Qmult, Qinv, inject_Z. simpl. lia. }
  destruct (Qeq_bool (totalEdgeCount g) (inject_Z (Z.of_nat (length (nodes g)) - 1)))
    eqn:Hq; cbn [negb].
  2:{ exists false, 0%nat. split; [reflexivity|]. split; [discriminate|].
      intros (_ & [H|(H & _)]); [lia|]. apply Hcount in H. discriminate H. }
  destruct (nodes g) as [|first rest] eqn:Hnodes; [simpl in H0; lia|].
  destruct (reachLoop_from_first g first) as (visited & N & Hrun & Hnd' & Hreach).
  exists (Z.of_nat (length visited) =? Z.of_nat (length (first :: rest))), N. split.
  { intros fuel Hfuel. rewrite (Hrun fuel Hfuel). reflexivity. }
  rewrite <- Hnodes in *.
  rewrite (all_reached_iff g first rest visited Hclosed Hnd Hnodes Hnd' Hreach).
  split.
  - intros Hreached. split; [reflexivity|]. right. split; [apply Hcount; reflexivity|].
    intros first' x Hhead. rewrite Hnodes in Hhead. injection Hhead as <-. apply Hreached.
  - intros (_ & [H|(_ & Hreached)]); [lia|]. intros x Hx.
    apply (Hreached first x); [rewrite Hnodes; reflexivity|exact Hx].
Qed.

(** X22. [isTree] rejects the trees that [buildGraphFromData] builds:
    for a valid undirected record with different keys, at least two
    nodes and one edge less than nodes (as every tree has), the edge
    counter is [n - 1], its half is compared with [n - 1], and
    [isTree] returns false without looking at the graph. *)
Theorem isTree_rejects_trees (d : GraphData) (g : Graph) :
  validGraphData d -> distinctKeys d -> directed (d_config d) = false ->
  buildGraphFromData d = Ok g ->
  (2 <= length (nodes g))%nat ->
  length (d_edges d) = (length (nodes g) - 1)%nat ->
  forall fuel, isTree fuel g = Some false.
Proof.
  intros Hvalid Hkeys Hdir Hbuild Hn Hedges fuel.
  destruct (addEdges_buildInv d Hvalid Hkeys (d_edges d) []
              (addNodes (d_nodes d) (newGraph (d_config d))) eq_refl
              (addNodes_buildInv d))
    as (g' & Hbuild' & [_ Hconfig Hcount _ _ _]).
  unfold buildGraphFromData in Hbuild. rewrite Hbuild' in Hbuild.
  injection Hbuild as <-. simpl in Hcount.
  unfold isTree, isDirected, getNodes. cbv zeta. rewrite Hconfig, Hdir.
  destruct (Z.of_nat (length (nodes g')) =? 0) eqn:H0; [apply Z.eqb_eq in H0; lia|].
  destruct (Z.of_nat (length (nodes g')) =? 1) eqn:H1; [apply Z.eqb_eq in H1; lia|].
  assert (Hq : Qeq_bool (totalEdgeCount g')
                 (inject_Z (Z.of_nat (length (nodes g')) - 1)) = false).
  { apply not_true_is_false. intros Hq. apply Qeq_bool_iff in Hq.
    unfold totalEdgeCount in Hq. rewrite Hconfig, Hdir, Hcount, Hedges in Hq.
    unfold Qeq, Qdiv, Qmult, Qinv, inject_Z in Hq. simpl in Hq. lia. }
  rewrite Hq. reflexivity.
Qed.

Lemma isTree_rejects_trees_witness :
  exists g, buildGraphFromData pathData = Ok g /\ forall fuel, isTree fuel g = Some false.
Proof.
  assert (Hvalid : validGraphData pathData).
  { split; [|split].
    - intros e He. simpl in He. list_cases He; split; in_list.
    - discriminate.
    - intros _ i j e1 e2 Hij Hi Hj [[Hf Ht]|(_ & Hf & Ht)];
        destruct i as [|[|i]], j as [|[|j]]; simpl in Hi, Hj;
        try discriminate; try contradiction;
        injection Hi as <-; injection Hj as <-; discriminate. }
  assert (Hkeys : distinctKeys pathData).
  { split.
    - intros x y Hx Hy Hxy. simpl in Hx, Hy.
      list_cases Hx; list_cases Hy; try reflexivity; vm_compute in Hxy; discriminate.
    - apply (bool_decide_unpack _). vm_compute. exact I. }
  eexists. split; [vm_compute; reflexivity|].
  apply (isTree_rejects_trees pathData); [exact Hvalid|exact Hkeys|reflexivity| |simpl; lia|reflexivity].
  vm_compute. reflexivity.
Defined.

(** The loop of [isStar] over nodes that all have degree 2. *)
Lemma countCenter_degree_two g n ns :
  (forall x, x ∈ ns -> degree (getDegree x g) = 2) ->
  forall c,
    forEachM (countCenter g n) ns c
    = if decide (n = 3) then Some (c + Z.of_nat (length ns))
      else match ns with [] => Some c | _ :: _ => None end.
Proof.
  induction ns as [|nd ns IH]; intros Hall c; cbn [forEachM].
  - destruct (decide (n = 3)); [f_equal; cbn; lia|reflexivity].
  - unfold countCenter at 1. cbv zeta.
    rewrite (Hall nd) by (apply elem_of_cons; auto).
    destruct (decide (n = 3)) as [->|Hn].
    + change (2 =? 3 - 1) with true. cbv iota.
      rewrite IH by (intros x Hx; apply Hall, elem_of_cons; auto).
      destruct (decide (3 = 3)); [|contradiction]. f_equal. cbn [length]. lia.
    + destruct (2 =? n - 1) eqn:H2; [apply Z.eqb_eq in H2; lia|]. reflexivity.
Qed.

Lemma countEndpoint_degree_two g ns :
  (forall x, x ∈ ns -> degree (getDegree x g) = 2) ->
  forall c, forEachM (countEndpoint g) ns c = Some c.
Proof.
  induction ns as [|nd ns IH]; intros Hall c; cbn [forEachM]; [reflexivity|].
  unfold countEndpoint at 1. cbv zeta.
  rewrite (Hall nd) by (apply elem_of_cons; auto).
  change (2 =? 1) with false. change (2 =? 2) with true. cbn [negb].
  apply IH. intros x Hx. apply Hall, elem_of_cons. auto.
Qed.

(** X23. A graph that [isCycle] accepts is regular of degree 2 for
    [isRegular], and neither a star for [isStar] nor a path for
    [isPath]. *)
Theorem isCycle_excludes (g : Graph) (fuel : nat) :
  isCycle fuel g = Some true ->
  isRegular g = mkRegularResult true (Some 2)
  /\ isStar g = false
  /\ forall fuel', isPath fuel' g = Some false.
Proof.
  unfold isCycle, getNodes. cbv zeta.
  destruct (Z.of_nat (length (nodes g)) <? 3) eqn:Hn; [discriminate|].
  apply Z.ltb_ge in Hn.
  destruct (forallb (fun nd => degree (getDegree nd g) =? 2) (nodes g)) eqn:Hdeg;
    cbn [negb]; [|discriminate].
  intros _.
  assert (Hall : forall x, x ∈ nodes g -> degree (getDegree x g) = 2).
  { intros x Hx. apply Z.eqb_eq. revert x Hx. apply forallb_elem, Hdeg. }
  destruct (nodes g) as [|first rest] eqn:Hnodes; [simpl in Hn; lia|].
  split; [|split].
  - unfold isRegular, getNodes. rewrite Hnodes.
    rewrite (Hall first) by (apply elem_of_cons; auto).
    rewrite Hdeg. reflexivity.
  - unfold isStar, getNodes. cbv zeta. rewrite Hnodes.
    destruct (Z.of_nat (length (first :: rest)) <? 3) eqn:Hn3;
      [apply Z.ltb_lt in Hn3; lia|].
    rewrite (countCenter_degree_two g _ _ Hall).
    destruct (decide (Z.of_nat (length (first :: rest)) = 3)) as [H3|H3]; [|reflexivity].
    apply Z.eqb_neq. lia.
  - intros fuel'. unfold isPath, getNodes. cbv zeta. rewrite Hnodes.
    destruct (Z.of_nat (length (first :: rest)) <? 2) eqn:Hn2;
      [apply Z.ltb_lt in Hn2; lia|].
    rewrite (countEndpoint_degree_two g _ Hall). reflexivity.
Qed.

Lemma isCycle_excludes_witness :
  exists g, buildGraphFromData triangleData = Ok g
    /\ isRegular g = mkRegularResult true (Some 2)
    /\ isStar g = false
    /\ forall fuel', isPath fuel' g = Some false.
Proof.
  eexists. split; [vm_compute; reflexivity|].
  apply (isCycle_excludes _ 10). vm_compute. reflexivity.
Defined.

(** X24. A graph in which every node has its neighbor list and that
    [isComplete] accepts is regular for [isRegular]; when it has at
    least two nodes the common degree is [n - 1] in an undirected
    graph and, in-degree and out-degree being added, twice [n - 1] in
    a directed graph. *)
Theorem isComplete_regular (g : Graph) :
  wellKeyed g ->
  isComplete g = true ->
  regular (isRegular g) = true
  /\ ((2 <= length (nodes g))%nat ->
      r_degree (isRegular g)
      = Some (if directed (config g)
              then 2 * (Z.of_nat (length (nodes g)) - 1)
              else Z.of_nat (length (nodes g)) - 1)).
Proof.
  intros _. unfold isComplete, isRegular, isDirected, getNodes. cbv zeta.
  destruct (nodes g) as [|first rest] eqn:Hnodes.
  { intros _. split; [reflexivity|]. simpl. lia. }
  destruct (Z.of_nat (length (first :: rest)) <=? 1) eqn:Hn.
  { apply Z.leb_le in Hn. destruct rest as [|second rest]; [|simpl in Hn; lia].
    intros _. cbn [forallb]. rewrite Z.eqb_refl. split; [reflexivity|]. simpl. lia. }
  intros Hall. rewrite forallb_elem in Hall.
  set (k := if directed (config g)
            then 2 * (Z.of_nat (length (first :: rest)) - 1)
            else Z.of_nat (length (first :: rest)) - 1).
  assert (Hdeg : forall x, x ∈ first :: rest -> degree (getDegree x g) = k).
  { intros x Hx. specialize (Hall x Hx). unfold k. unfold getDegree in *. cbv zeta in *.
    cbn [inDegree outDegree degree] in *.
    destruct (directed (config g)).
    - apply andb_true_iff in Hall as [Hin Hout%Z.eqb_eq]. apply Z.eqb_eq in Hin. lia.
    - apply Z.eqb_eq, Hall. }
  rewrite (Hdeg first) by (apply elem_of_cons; auto).
  assert (Hreg : forallb (fun nd => degree (getDegree nd g) =? k) (first :: rest) = true).
  { apply forallb_elem. intros x Hx. apply Z.eqb_eq, Hdeg, Hx. }
  rewrite Hreg. split; reflexivity.
Qed.

(** The graph of the triangle record is well formed. *)
Lemma triangle_built :
  exists g, buildGraphFromData triangleData = Ok g
    /\ wellFormed g /\ NoDup (nodes g) /\ nodes g = [NNum 1; NNum 2; NNum 3].
Proof.
  destruct (addEdges_keeps_wellFormed (d_edges triangleData)
              (addNodes (d_nodes triangleData) (newGraph (d_config triangleData))))
    as (g & Hrun & Hwf & _ & Hnd & _).
  { apply addNodes_wellFormed; [apply newGraph_wellFormed|apply NoDup_nil_2]. }
  { left. reflexivity. }
  exists g. split; [exact Hrun|]. split; [exact Hwf|]. split.
  - apply Hnd, addNodes_wellFormed; [apply newGraph_wellFormed|apply NoDup_nil_2].
  - vm_compute in Hrun. injection Hrun as <-. reflexivity.
Qed.

Lemma isCycle_iff_witness :
  exists g, buildGraphFromData triangleData = Ok g
    /\ exists b N,
         (forall fuel, (N <= fuel)%nat -> isCycle fuel g = Some b)
         /\ (b = true <->
             (3 <= length (nodes g))%nat
             /\ (forall x, x ∈ nodes g -> degree (getDegree x g) = 2)
             /\ forall first x, head (nodes g) = Some first -> x ∈ nodes g ->
                  reachable g first x).
Proof.
  destruct triangle_built as (g & Hrun & Hwf & Hnd & _).
  exists g. split; [exact Hrun|]. exact (isCycle_iff g Hwf Hnd).
Defined.

Lemma isPath_iff_witness :
  exists g, buildGraphFromData triangleData = Ok g
    /\ exists b N,
         (forall fuel, (N <= fuel)%nat -> isPath fuel g = Some b)
         /\ (b = true <->
             length (nodes g) = 1%nat
             \/ ((2 <= length (nodes g))%nat
                 /\ (forall x, x ∈ nodes g ->
                       degree (getDegree x g) = 1 \/ degree (getDegree x g) = 2)
                 /\ length (filter (fun x => degree (getDegree x g) = 1) (nodes g)) = 2%nat
                 /\ forall first x, head (nodes g) = Some first -> x ∈ nodes g ->
                      reachable g first x)).
Proof.
  destruct triangle_built as (g & Hrun & Hwf & Hnd & _).
  exists g. split; [exact Hrun|]. exact (isPath_iff g Hwf Hnd).
Defined.

Lemma isTree_iff_witness :
  exists g, buildGraphFromData triangleData = Ok g
    /\ exists b N,
         (forall fuel, (N <= fuel)%nat -> isTree fuel g = Some b)
         /\ (b = true <->
             directed (config g) = false
             /\ ((length (nodes g) <= 1)%nat
                 \/ (edgeCount g = 2 * (Z.of_nat (length (nodes g)) - 1)
                     /\ forall first x, head (nodes g) = Some first -> x ∈ nodes g ->
                          reachable g first x))).
Proof.
  destruct triangle_built as (g & Hrun & Hwf & Hnd & _).
  exists g. split; [exact Hrun|]. exact (isTree_iff g Hwf Hnd).
Defined.

Lemma isComplete_regular_witness :
  exists g, buildGraphFromData triangleData = Ok g /\ regular (isRegular g) = true.
Proof.
  eexists. split; [vm_compute; reflexivity|].
  apply isComplete_regular; [|vm_compute; reflexivity].
  intros x Hx. simpl in Hx. list_cases Hx; vm_compute; eexists; reflexivity.
Defined.

(** ** Two-coloring *)

Lemma mapSet_keys {V} (m : list (NodeId * V)) k v :
  map fst (mapSet k v m)
  = if decide (mapGet k m = None) then map fst m ++ [k] else map fst m.
Proof.
  induction m as [|[k' v'] m IH]; simpl; [reflexivity|].
  destruct (decide (k' = k)) as [->|Hne]; simpl.
  - destruct (decide (Some v' = None)) as [H|_]; [discriminate H|reflexivity].
  - rewrite IH. destruct (decide (mapGet k m = None)); reflexivity.
Qed.

Lemma mapGet_None_keys {V} (m : list (NodeId * V)) k :
  mapGet k m = None <-> k ∉ map fst m.
Proof.
  induction m as [|[k' v'] m IH]; simpl.
  - split; [intros _; apply not_elem_of_nil|reflexivity].
  - destruct (decide (k' = k)) as [->|Hne].
    + split; [discriminate|]. intros H. exfalso. apply H, elem_of_cons. auto.
    + rewrite IH. rewrite not_elem_of_cons. split; [auto|intros [_ H]; exact H].
Qed.

Lemma mapSet_NoDup {V} (m : list (NodeId * V)) k v :
  NoDup (map fst m) -> NoDup (map fst (mapSet k v m)).
Proof.
  intros Hnd. rewrite mapSet_keys.
  destruct (decide (mapGet k m = None)) as [Hk|_]; [|exact Hnd].
  apply NoDup_app. split; [exact Hnd|]. split; [|apply NoDup_singleton].
  intros x Hx Hx'. apply list_elem_of_singleton in Hx' as ->.
  apply mapGet_None_keys in Hk. contradiction.
Qed.

Lemma mapGet_elem {V} (m : list (NodeId * V)) k v :
  NoDup (map fst m) -> (mapGet k m = Some v <-> (k, v) ∈ m).
Proof.
  induction m as [|[k' v'] m IH]; intros Hnd; simpl.
  - split; [discriminate|]. intros H. apply elem_of_nil in H. contradiction.
  - simpl in Hnd. apply NoDup_cons in Hnd as [Hk' Hnd].
    destruct (decide (k' = k)) as [->|Hne].
    + split.
      * intros [= ->]. apply elem_of_cons. auto.
      * intros H. apply elem_of_cons in H as [[= ->]|H]; [reflexivity|].
        exfalso. apply Hk'. apply list_elem_of_fmap. exists (k, v). auto.
    + rewrite (IH Hnd). rewrite elem_of_cons. split; [auto|].
      intros [[= -> ->]|H]; [contradiction|exact H].
Qed.

Section Bipartite.
Variable g : Graph.

Local Abbreviation U := (universe g).

Lemma targets_in_universe x n : n ∈ getNeighbors x g -> node n ∈ U.
Proof. intros H. apply elem_of_app. right. eapply getNeighbors_targets, H. Qed.

(** The loop over the neighbors of a node of color [c], when it ends
    without a conflict: the neighbors have the other color. *)
Lemma colorNeighbors_other c ns :
  c = 0 \/ c = 1 ->
  forall st st',
    forEachM (colorNeighbor c) ns st = Some st' ->
    NoDup (map fst st.1) ->
    (forall x cx, mapGet x st.1 = Some cx -> cx = 0 \/ cx = 1) ->
    NoDup (map fst st'.1)
    /\ (forall x cx, mapGet x st'.1 = Some cx -> cx = 0 \/ cx = 1)
    /\ (forall x cx, mapGet x st.1 = Some cx -> mapGet x st'.1 = Some cx)
    /\ forall n, n ∈ ns -> mapGet (node n) st'.1 = Some (1 - c).
Proof.
  intros Hc. induction ns as [|a ns IH]; intros st st' Hrun Hnd Hval; simpl in Hrun.
  - injection Hrun as <-. split; [exact Hnd|]. split; [exact Hval|]. split; [auto|].
    intros n Hn. apply elem_of_nil in Hn. contradiction.
  - destruct (colorNeighbor c a st) as [st1|] eqn:Hstep; [|discriminate Hrun].
    assert (Hstep' : NoDup (map fst st1.1)
              /\ (forall x cx, mapGet x st1.1 = Some cx -> cx = 0 \/ cx = 1)
              /\ (forall x cx, mapGet x st.1 = Some cx -> mapGet x st1.1 = Some cx)
              /\ mapGet (node a) st1.1 = Some (1 - c)).
    { destruct st as [color queue]. unfold colorNeighbor in Hstep. simpl in *.
      destruct (mapGet (node a) color) as [ca|] eqn:Ha.
      - destruct (decide (ca = c)) as [|Hne]; [discriminate Hstep|].
        injection Hstep as <-. simpl. split; [exact Hnd|]. split; [exact Hval|].
        split; [auto|]. rewrite Ha. f_equal. destruct (Hval _ _ Ha); lia.
      - injection Hstep as <-. simpl. split; [apply mapSet_NoDup, Hnd|]. split; [|split].
        + intros x cx. rewrite mapGet_mapSet.
          destruct (decide (node a = x)); [intros [= <-]; lia|apply Hval].
        + intros x cx Hx. rewrite mapGet_mapSet.
          destruct (decide (node a = x)) as [<-|]; [congruence|exact Hx].
        + apply mapGet_mapSet_eq. }
    destruct Hstep' as (Hnd1 & Hval1 & Hmono1 & Ha1).
    destruct (IH st1 st' Hrun Hnd1 Hval1) as (Hnd' & Hval' & Hmono' & Hall).
    split; [exact Hnd'|]. split; [exact Hval'|]. split; [auto|].
    intros n Hn. apply elem_of_cons in Hn as [->|Hn]; [auto|apply Hall, Hn].
Qed.

Lemma colorWhile_fuel_mono fuel :
  forall fuel' st r, (fuel <= fuel')%nat ->
    colorWhile fuel g st = Some r -> colorWhile fuel' g st = Some r.
Proof.
  induction fuel as [|fuel IH]; intros fuel' st r Hle H; [discriminate H|].
  destruct fuel' as [|fuel']; [lia|]. simpl in *.
  destruct st.2 as [|current queue]; [exact H|].
  destruct (forEachM _ _ _) as [st'|]; [|exact H].
  apply IH; [lia|exact H].
Qed.

(** One turn of the [while] loop that meets no conflict. *)
Lemma colorWhile_step color current queue c color1 queue1 :
  coloring g color (current :: queue) ->
  mapGet current color = Some c ->
  forEachM (colorNeighbor c) (getNeighbors current g) (color, queue)
  = Some (color1, queue1) ->
  coloring g color1 queue1
  /\ (forall x cx, mapGet x color = Some cx -> mapGet x color1 = Some cx)
  /\ (length queue1 + 2 * unmapped U color1 <= length queue + 2 * unmapped U color)%nat.
Proof.
  intros [Hnd Hval Hq Hdone] Hcur Hloop.
  pose proof (colorNeighbors_step g c _ _ _ (targets_in_universe current) Hloop)
    as [Hmono Hqueue Hnew Hcol Hmeas]. simpl in *.
  destruct (colorNeighbors_other c (getNeighbors current g) (Hval _ _ Hcur)
              _ _ Hloop Hnd Hval) as (Hnd1 & Hval1 & _ & Hall). simpl in *.
  split; [|split; [exact Hmono|exact Hmeas]].
  split; [exact Hnd1|exact Hval1| |].
  - apply Hcol. intros x Hx. apply Hq, elem_of_cons. auto.
  - intros x cx Hx.
    destruct (Hnew x) as [Hold|Hin]; [rewrite Hx; discriminate| |auto].
    destruct (mapGet x color) as [cx0|] eqn:Hx0; [|contradiction].
    rewrite (Hmono x cx0 Hx0) in Hx. injection Hx as <-.
    destruct (Hdone x cx0 Hx0) as [Hin|Hprop].
    + apply elem_of_cons in Hin as [->|Hin]; [|auto].
      right. rewrite Hcur in Hx0. injection Hx0 as <-. exact Hall.
    + right. intros n Hn. apply Hmono, Hprop, Hn.
Qed.

(** The [while] loop ends; when it ends without a conflict every
    node that has a color has its neighbors in the other color. *)
Lemma colorWhile_runs fuel :
  forall color queue,
    coloring g color queue ->
    (length queue + 2 * unmapped U color < fuel)%nat ->
    exists r, colorWhile fuel g (color, queue) = Some r
      /\ forall color', r = Some color' ->
           coloring g color' []
           /\ forall x cx, mapGet x color = Some cx -> mapGet x color' = Some cx.
Proof.
  induction fuel as [|fuel IH]; intros color queue Hinv Hm; [lia|].
  destruct queue as [|current queue]; simpl.
  - eexists. split; [reflexivity|]. intros color' [= <-]. auto.
  - destruct (mapGet current color) as [c|] eqn:Hcur;
      [|exfalso; eapply (col_queue _ _ _ Hinv); [apply elem_of_cons; auto | exact Hcur]].
    simpl.
    destruct (forEachM (colorNeighbor c) (getNeighbors current g) (color, queue))
      as [[color1 queue1]|] eqn:Hloop; [|eexists; split; [reflexivity|discriminate]].
    destruct (colorWhile_step _ _ _ _ _ _ Hinv Hcur Hloop) as (Hinv1 & Hmono & Hmeas).
    destruct (IH color1 queue1 Hinv1) as (r & Hr & Hpost); [simpl in Hm; lia|].
    exists r. split; [exact Hr|]. intros color' Hc'.
    destruct (Hpost color' Hc') as [Hinv' Hmono']. split; [exact Hinv'|auto].
Qed.

Lemma colorFor_fuel_mono fuel fuel' starts :
  (fuel <= fuel')%nat ->
  forall color r, colorFor fuel g starts color = Some r ->
    colorFor fuel' g starts color = Some r.
Proof.
  intros Hle. induction starts as [|start starts IH]; intros color r H; simpl in *;
    [exact H|].
  destruct (mapHas start color); [apply IH, H|].
  destruct (colorWhile fuel g (mapSet start 0 color, [start])) as [r1|] eqn:Hw;
    [|discriminate H].
  rewrite (colorWhile_fuel_mono fuel fuel' _ _ Hle Hw).
  destruct r1 as [color'|]; [apply IH, H|exact H].
Qed.

(** The loop over the start nodes. *)
Lemma colorFor_runs fuel starts :
  (2 + 2 * length U <= fuel)%nat ->
  forall color,
    coloring g color [] ->
    exists r, colorFor fuel g starts color = Some r
      /\ forall color', r = Some color' ->
           coloring g color' []
           /\ (forall x cx, mapGet x color = Some cx -> mapGet x color' = Some cx)
           /\ forall s, s ∈ starts -> mapGet s color' <> None.
Proof.
  intros Hfuel. induction starts as [|start starts IH]; intros color Hinv; simpl.
  - eexists. split; [reflexivity|]. intros color' [= <-]. split; [exact Hinv|].
    split; [auto|]. intros s Hs. apply elem_of_nil in Hs. contradiction.
  - unfold mapHas. destruct (mapGet start color) as [c|] eqn:Hstart.
    + destruct (IH color Hinv) as (r & Hr & Hpost). exists r. split; [exact Hr|].
      intros color' Hc'. destruct (Hpost color' Hc') as (Hinv' & Hmono & Hall).
      split; [exact Hinv'|]. split; [exact Hmono|].
      intros s Hs. apply elem_of_cons in Hs as [->|Hs]; [|auto].
      rewrite (Hmono _ _ Hstart). discriminate.
    + destruct Hinv as [Hnd Hval _ Hdone].
      destruct (colorWhile_runs fuel (mapSet start 0 color) [start]) as (r1 & Hr1 & Hpost1).
      * split.
        -- apply mapSet_NoDup, Hnd.
        -- intros x cx. rewrite mapGet_mapSet.
           destruct (decide (start = x)); [intros [= <-]; auto|apply Hval].
        -- intros x Hx. apply list_elem_of_singleton in Hx as ->.
           rewrite mapGet_mapSet_eq. discriminate.
        -- intros x cx. rewrite mapGet_mapSet.
           destruct (decide (start = x)) as [<-|Hne].
           ++ intros _. left. apply list_elem_of_singleton. reflexivity.
           ++ intros Hx. right. destruct (Hdone x cx Hx) as [Hin|Hprop];
                [apply elem_of_nil in Hin; contradiction|].
              intros n Hn. rewrite mapGet_mapSet.
              destruct (decide (start = node n)) as [Heq|]; [|apply Hprop, Hn].
              rewrite Heq, (Hprop n Hn) in Hstart. discriminate Hstart.
      * simpl. pose proof (unmapped_le g (mapSet start 0 color)). lia.
      * rewrite Hr1. destruct r1 as [color1|];
          [|eexists; split; [reflexivity|discriminate]].
        destruct (Hpost1 color1 eq_refl) as [Hinv1 Hmono1].
        destruct (IH color1 Hinv1) as (r & Hr & Hpost). exists r. split; [exact Hr|].
        intros color' Hc'. destruct (Hpost color' Hc') as (Hinv' & Hmono & Hall).
        split; [exact Hinv'|]. split.
        -- intros x cx Hx. apply Hmono, Hmono1. rewrite mapGet_mapSet.
           destruct (decide (start = x)) as [<-|]; [congruence|exact Hx].
        -- intros s Hs. apply elem_of_cons in Hs as [->|Hs]; [|auto].
           rewrite (Hmono start 0); [discriminate|]. apply Hmono1, mapGet_mapSet_eq.
Qed.
End Bipartite.

Section BipartiteComplete.
Variable g : Graph.
Variable f : NodeId -> bool.
Hypothesis proper : properColoring g f.
Hypothesis mirrored : symmetric g.
Hypothesis closed : closedTargets g.

Lemma neighbor_is_node x n : x ∈ nodes g -> n ∈ getNeighbors x g -> node n ∈ nodes g.
Proof.
  intros _ Hn. unfold getNeighbors in Hn.
  destruct (adjacencyList g !! String_of x) as [l|] eqn:Hl; simpl in Hn;
    [|apply elem_of_nil in Hn; contradiction].
  eapply closed; eassumption.
Qed.

(** The loop over the neighbors of a node [current] of this run: it
    meets no conflict. *)
Lemma colorNeighbors_proper color0 start current c ns :
  coloring g color0 [] ->
  current ∈ nodes g -> mapGet current color0 = None ->
  c = 0 \/ c = 1 -> (c = 0 <-> f current = f start) ->
  (forall n, n ∈ ns -> n ∈ getNeighbors current g) ->
  forall color queue,
    runInv g f color0 start color queue ->
    exists color' queue',
      forEachM (colorNeighbor c) ns (color, queue) = Some (color', queue')
      /\ runInv g f color0 start color' queue'.
Proof.
  intros Hinv0 Hcur Hnew Hc Hside. induction ns as [|a ns IH]; intros Hns color queue Hinv.
  - exists color, queue. split; [reflexivity|exact Hinv].
  - assert (Ha : a ∈ getNeighbors current g) by (apply Hns, elem_of_cons; auto).
    assert (Hns' : forall n, n ∈ ns -> n ∈ getNeighbors current g)
      by (intros n Hn; apply Hns, elem_of_cons; auto).
    assert (Hfa : f (node a) = negb (f current)) by (apply proper; assumption).
    destruct Hinv as [Hnodes Hold Hq Hs].
    cbn [forEachM]. unfold colorNeighbor at 1.
    destruct (mapGet (node a) color) as [ca|] eqn:Hca.
    + destruct (decide (ca = c)) as [->|Hne].
      * exfalso. destruct (mapGet (node a) color0) as [ca0|] eqn:Hca0.
        -- (* colored by an earlier run: its neighbors were colored then *)
           destruct (col_done _ _ _ Hinv0 _ _ Hca0) as [Hin|Hdone];
             [apply elem_of_nil in Hin; contradiction|].
           destruct (mirrored current (node a) Hcur) as (n' & Hn' & Hback);
             [exists a; auto|].
           specialize (Hdone n' Hn'). rewrite Hback, Hnew in Hdone. discriminate Hdone.
        -- (* colored by this run: [f] tells the two nodes apart *)
           pose proof (Hs (node a) c Hca0 Hca) as Hsa.
           rewrite Hfa in Hsa. clear -Hsa Hside.
           destruct (f current), (f start); simpl in *; intuition congruence.
      * apply IH; [exact Hns'|]. split; assumption.
    + apply IH; [exact Hns'|]. split.
      * intros x. rewrite mapGet_mapSet. destruct (decide (node a = x)) as [<-|].
        -- intros _. eapply neighbor_is_node; eassumption.
        -- apply Hnodes.
      * intros x cx Hx. rewrite mapGet_mapSet.
        destruct (decide (node a = x)) as [<-|]; [|apply Hold, Hx].
        rewrite (Hold _ _ Hx) in Hca. discriminate Hca.
      * intros x Hx. apply elem_of_app in Hx as [Hx|Hx]; [apply Hq, Hx|].
        apply list_elem_of_singleton in Hx as ->.
        destruct (mapGet (node a) color0) as [ca0|] eqn:Hca0; [|reflexivity].
        rewrite (Hold _ _ Hca0) in Hca. discriminate Hca.
      * intros x cx Hx0. rewrite mapGet_mapSet.
        destruct (decide (node a = x)) as [<-|]; [|apply Hs, Hx0].
        intros [= <-]. rewrite Hfa. clear -Hc Hside.
        destruct Hc as [-> | ->].
        -- assert (Heq : f current = f start) by (apply Hside; reflexivity).
           rewrite Heq. split; [intros H; discriminate H|].
           destruct (f start); discriminate.
        -- assert (Hne : f current <> f start) by (intros H; apply Hside in H; discriminate H).
           split; [intros _|reflexivity].
           destruct (f current), (f start); simpl; congruence.
Qed.

(** A run of the [while] loop ends without a conflict. *)
Lemma colorWhile_proper color0 start fuel :
  coloring g color0 [] ->
  forall color queue,
    coloring g color queue ->
    runInv g f color0 start color queue ->
    (length queue + 2 * unmapped (universe g) color < fuel)%nat ->
    exists color',
      colorWhile fuel g (color, queue) = Some (Some color')
      /\ coloring g color' []
      /\ (forall x cx, mapGet x color = Some cx -> mapGet x color' = Some cx)
      /\ forall x, mapGet x color' <> None -> x ∈ nodes g.
Proof.
  intros Hinv0. induction fuel as [|fuel IH]; intros color queue Hinv Hrun Hm; [lia|].
  destruct queue as [|current queue]; simpl.
  - exists color. split; [reflexivity|]. split; [exact Hinv|]. split; [auto|].
    apply (ri_nodes _ _ _ _ _ _ Hrun).
  - destruct (mapGet current color) as [c|] eqn:Hcur;
      [|exfalso; eapply (col_queue _ _ _ Hinv); [apply elem_of_cons; auto | exact Hcur]].
    simpl.
    assert (Hnew : mapGet current color0 = None)
      by (apply (ri_queue _ _ _ _ _ _ Hrun), elem_of_cons; auto).
    destruct (colorNeighbors_proper color0 start current c (getNeighbors current g) Hinv0)
      with (color := color) (queue := queue) as (color1 & queue1 & Hloop & Hrun1).
    + apply (ri_nodes _ _ _ _ _ _ Hrun). rewrite Hcur. discriminate.
    + exact Hnew.
    + apply (col_values _ _ _ Hinv _ _ Hcur).
    + apply (ri_side _ _ _ _ _ _ Hrun _ _ Hnew Hcur).
    + auto.
    + destruct Hrun as [Hnodes Hold Hq Hs]. split; [exact Hnodes|exact Hold| |exact Hs].
      intros x Hx. apply Hq, elem_of_cons. auto.
    + rewrite Hloop.
      destruct (colorWhile_step g _ _ _ _ _ _ Hinv Hcur Hloop) as (Hinv1 & Hmono & Hmeas).
      destruct (IH color1 queue1 Hinv1 Hrun1) as (color' & Hr & Hinv' & Hmono' & Hnodes');
        [simpl in Hm; lia|].
      exists color'. split; [exact Hr|]. split; [exact Hinv'|]. split; [auto|exact Hnodes'].
Qed.

(** The loop over the start nodes ends without a conflict. *)
Lemma colorFor_proper fuel starts :
  (2 + 2 * length (universe g) <= fuel)%nat ->
  (forall s, s ∈ starts -> s ∈ nodes g) ->
  forall color,
    coloring g color [] ->
    (forall x, mapGet x color <> None -> x ∈ nodes g) ->
    exists color', colorFor fuel g starts color = Some (Some color').
Proof.
  intros Hfuel. induction starts as [|start starts IH]; intros Hstarts color Hinv Hnodes;
    simpl; [eauto|].
  assert (Hstarts' : forall s, s ∈ starts -> s ∈ nodes g)
    by (intros s Hs; apply Hstarts, elem_of_cons; auto).
  unfold mapHas. destruct (mapGet start color) as [c|] eqn:Hstart; [apply IH; assumption|].
  destruct (colorWhile_proper color start fuel Hinv (mapSet start 0 color) [start])
    as (color1 & Hr1 & Hinv1 & _ & Hnodes1).
  - destruct Hinv as [Hnd Hval _ Hdone]. split.
    + apply mapSet_NoDup, Hnd.
    + intros x cx. rewrite mapGet_mapSet.
      destruct (decide (start = x)); [intros [= <-]; auto|apply Hval].
    + intros x Hx. apply list_elem_of_singleton in Hx as ->.
      rewrite mapGet_mapSet_eq. discriminate.
    + intros x cx. rewrite mapGet_mapSet.
      destruct (decide (start = x)) as [<-|Hne].
      * intros _. left. apply list_elem_of_singleton. reflexivity.
      * intros Hx. right. destruct (Hdone x cx Hx) as [Hin|Hprop];
          [apply elem_of_nil in Hin; contradiction|].
        intros n Hn. rewrite mapGet_mapSet.
        destruct (decide (start = node n)) as [Heq|]; [|apply Hprop, Hn].
        rewrite Heq, (Hprop n Hn) in Hstart. discriminate Hstart.
  - split.
    + intros x. rewrite mapGet_mapSet. destruct (decide (start = x)) as [<-|].
      * intros _. apply Hstarts, elem_of_cons. auto.
      * apply Hnodes.
    + intros x cx Hx. rewrite mapGet_mapSet.
      destruct (decide (start = x)) as [<-|]; [congruence|exact Hx].
    + intros x Hx. apply list_elem_of_singleton in Hx as ->. exact Hstart.
    + intros x cx Hx0. rewrite mapGet_mapSet.
      destruct (decide (start = x)) as [<-|Hne].
      * intros [= <-]. split; reflexivity.
      * intros Hx. rewrite Hx in Hx0. discriminate Hx0.
  - simpl. pose proof (unmapped_le g (mapSet start 0 color)). lia.
  - rewrite Hr1. apply IH; assumption.
Qed.
End BipartiteComplete.

Lemma partition_elem (color : list (NodeId * Z)) (P : NodeId * Z -> Prop)
    `{forall kv, Decision (P kv)} x :
  NoDup (map fst color) ->
  x ∈ map fst (filter P color) <-> exists c, mapGet x color = Some c /\ P (x, c).
Proof.
  intros Hnd. rewrite list_elem_of_fmap. split.
  - intros ([k c] & -> & Hin). apply list_elem_of_filter in Hin as [HP Hin].
    exists c. split; [apply mapGet_elem; assumption|exact HP].
  - intros (c & Hc & HP). exists (x, c). split; [reflexivity|].
    apply list_elem_of_filter. split; [exact HP|]. apply mapGet_elem; assumption.
Qed.

(** X25. On a well-formed graph [isBipartite] ends.  When it answers
    true, its two partitions are disjoint, together they hold every
    node of the graph, and every neighbor entry of a node of one
    partition points to a node of the other; when it answers false it
    gives no partitions. *)
Theorem isBipartite_partitions (g : Graph) :
  wellFormed g ->
  exists r N,
    (forall fuel, (N <= fuel)%nat -> isBipartite fuel g = Some r)
    /\ (r_isBipartite r = false -> partitions r = None)
    /\ (r_isBipartite r = true ->
        exists p1 p2, partitions r = Some (p1, p2)
          /\ (forall x, x ∈ nodes g -> x ∈ p1 \/ x ∈ p2)
          /\ (forall x, x ∈ p1 -> x ∉ p2)
          /\ forall x n, n ∈ getNeighbors x g ->
               (x ∈ p1 -> node n ∈ p2) /\ (x ∈ p2 -> node n ∈ p1)).
Proof.
  intros _. set (N := (2 + 2 * length (universe g))%nat).
  assert (Hempty : coloring g [] []).
  { split; [apply NoDup_nil_2|discriminate| |discriminate].
    intros x Hx. apply elem_of_nil in Hx. contradiction. }
  destruct (colorFor_runs g N (nodes g) (Nat.le_refl _) [] Hempty) as (r & Hr & Hpost).
  assert (Hrun : forall fuel, (N <= fuel)%nat -> colorFor fuel g (getNodes g) [] = Some r).
  { intros fuel Hfuel. eapply colorFor_fuel_mono; eassumption. }
  destruct r as [color|].
  - destruct (Hpost color eq_refl) as ([Hnd Hval _ Hdone] & _ & Hall).
    eexists _, N. split; [|split].
    + intros fuel Hfuel. unfold isBipartite. rewrite (Hrun fuel Hfuel). reflexivity.
    + discriminate.
    + intros _. eexists _, _. split; [reflexivity|]. split; [|split].
      * intros x Hx. specialize (Hall x Hx).
        destruct (mapGet x color) as [c|] eqn:Hc; [|contradiction].
        destruct (decide (c = 0)) as [->|Hne].
        -- left. apply (proj2 (partition_elem color (fun kv => kv.2 = 0) x Hnd)). eauto.
        -- right. apply (proj2 (partition_elem color (fun kv => kv.2 <> 0) x Hnd)). eauto.
      * intros x H1 H2.
        apply (proj1 (partition_elem color (fun kv => kv.2 = 0) x Hnd)) in H1 as (c & Hc & Hz). simpl in Hz. subst c.
        apply (proj1 (partition_elem color (fun kv => kv.2 <> 0) x Hnd)) in H2 as (c' & Hc' & Hne). simpl in Hne.
        congruence.
      * intros x n Hn. split.
        -- intros H1.
           apply (proj1 (partition_elem color (fun kv => kv.2 = 0) x Hnd)) in H1 as (c & Hc & Hz). simpl in Hz. subst c.
           destruct (Hdone x 0 Hc) as [Hin|Hprop]; [apply elem_of_nil in Hin; contradiction|].
           apply (proj2 (partition_elem color (fun kv => kv.2 <> 0) (node n) Hnd)).
           exists (1 - 0). split; [apply Hprop, Hn|simpl; lia].
        -- intros H2.
           apply (proj1 (partition_elem color (fun kv => kv.2 <> 0) x Hnd)) in H2 as (c & Hc & Hne). simpl in Hne.
           destruct (Hdone x c Hc) as [Hin|Hprop]; [apply elem_of_nil in Hin; contradiction|].
           apply (proj2 (partition_elem color (fun kv => kv.2 = 0) (node n) Hnd)).
           exists (1 - c). split; [apply Hprop, Hn|]. simpl. destruct (Hval x c Hc); lia.
  - exists (mkBipartiteResult false None), N. split; [|split].
    + intros fuel Hfuel. unfold isBipartite. rewrite (Hrun fuel Hfuel). reflexivity.
    + reflexivity.
    + discriminate.
Qed.

(** X26. On a well-formed graph whose neighbor entries have their
    mirrors (as in an undirected graph), [isBipartite] answers true
    exactly when the nodes can be colored with two colors so that
    every neighbor entry joins nodes of different colors. *)
Theorem isBipartite_iff_two_colorable (g : Graph) :
  wellFormed g -> symmetric g ->
  exists r N,
    (forall fuel, (N <= fuel)%nat -> isBipartite fuel g = Some r)
    /\ (r_isBipartite r = true <-> exists f, properColoring g f).
Proof.
  intros [_ Hclosed] Hsym.
  set (N := (2 + 2 * length (universe g))%nat).
  assert (Hempty : coloring g [] []).
  { split; [apply NoDup_nil_2|discriminate| |discriminate].
    intros x Hx. apply elem_of_nil in Hx. contradiction. }
  destruct (colorFor_runs g N (nodes g) (Nat.le_refl _) [] Hempty) as (r & Hr & Hpost).
  assert (Hrun : forall fuel, (N <= fuel)%nat -> colorFor fuel g (getNodes g) [] = Some r).
  { intros fuel Hfuel. eapply colorFor_fuel_mono; eassumption. }
  destruct r as [color|].
  - eexists _, N. split.
    + intros fuel Hfuel. unfold isBipartite. rewrite (Hrun fuel Hfuel). reflexivity.
    + split; [|reflexivity]. intros _.
      destruct (Hpost color eq_refl) as ([Hnd Hval _ Hdone] & _ & Hall).
      exists (fun x => bool_decide (mapGet x color = Some 0)).
      intros x n Hx Hn. specialize (Hall x Hx).
      destruct (mapGet x color) as [c|] eqn:Hc; [|contradiction].
      destruct (Hdone x c Hc) as [Hin|Hprop]; [apply elem_of_nil in Hin; contradiction|].
      rewrite (Hprop n Hn). destruct (Hval x c Hc) as [-> | ->]; reflexivity.
  - exists (mkBipartiteResult false None), N. split.
    + intros fuel Hfuel. unfold isBipartite. rewrite (Hrun fuel Hfuel). reflexivity.
    + split; [discriminate|]. intros [f Hf]. exfalso.
      destruct (colorFor_proper g f Hf Hsym Hclosed N (nodes g) (Nat.le_refl _))
        with (color := [] : list (NodeId * Z)) as [color Hcolor];
        [auto|exact Hempty|intros x Hx; contradiction|].
      unfold N in *. rewrite Hcolor in Hr. discriminate Hr.
Qed.

Lemma isBipartite_iff_two_colorable_witness :
  exists g, buildGraphFromData pathData = Ok g
    /\ exists r N,
         (forall fuel, (N <= fuel)%nat -> isBipartite fuel g = Some r)
         /\ (r_isBipartite r = true <-> exists f, properColoring g f).
Proof.
  destruct (addEdges_keeps_wellFormed (d_edges pathData)
              (addNodes (d_nodes pathData) (newGraph (d_config pathData))))
    as (g & Hrun & Hwf & _).
  { apply addNodes_wellFormed; [apply newGraph_wellFormed|apply NoDup_nil_2]. }
  { left. reflexivity. }
  exists g. split; [exact Hrun|].
  apply isBipartite_iff_two_colorable; [exact Hwf|].
  vm_compute in Hrun. injection Hrun as <-.
  intros x y Hx (n & Hn & <-). simpl in Hx.
  list_cases Hx; vm_compute in Hn; list_cases Hn;
    match goal with
    | |- neighborOf _ _ ?x => exists (mkNeighbor x 1); split; [|reflexivity]
    end; vm_compute; in_list.
Defined.

(** ** Prim's algorithm *)

Lemma insertBy_Permutation {A} (key : A -> Z) x l : insertBy key x l ≡ₚ x :: l.
Proof.
  induction l as [|y l IH]; simpl; [reflexivity|].
  destruct (key x <? key y); [reflexivity|].
  rewrite IH. apply Permutation_swap.
Qed.

Lemma sortBy_Permutation {A} (key : A -> Z) l : sortBy key l ≡ₚ l.
Proof.
  unfold sortBy.
  assert (H : forall acc, foldl (fun acc x => insertBy key x acc) acc l ≡ₚ acc ++ l).
  { induction l as [|x l IH]; intros acc; simpl; [now rewrite app_nil_r|].
    rewrite IH, insertBy_Permutation. rewrite <- Permutation_middle. reflexivity. }
  apply (H []).
Qed.

Lemma frontier_spec from keep ns e w :
  (e, w) ∈ frontier from keep ns
  <-> exists n, n ∈ ns /\ keep (node n) = true
        /\ e = mkEdge from (node n) (Some (weight n)) /\ w = weight n.
Proof.
  unfold frontier. rewrite list_elem_of_fmap. split.
  - intros (n & [= -> ->] & Hn). apply list_elem_of_filter in Hn as [Hk Hn]. eauto.
  - intros (n & Hn & Hk & -> & ->). exists n. split; [reflexivity|].
    apply list_elem_of_filter. auto.
Qed.

Lemma frontier_length from keep ns : (length (frontier from keep ns) <= length ns)%nat.
Proof. unfold frontier. rewrite length_map. apply length_filter. Qed.

Section Prim.
Variable g : Graph.
Variable s : NodeId.
Variable recordSteps : bool.
Variable n : nat.
Variable U : list NodeId.
Hypothesis targets_in_U : forall x m, m ∈ getNeighbors x g -> node m ∈ U.

Lemma primLoop_fuel_mono fuel :
  forall fuel' st r, (fuel <= fuel')%nat ->
    primLoop fuel g recordSteps n st = Some r ->
    primLoop fuel' g recordSteps n st = Some r.
Proof.
  induction fuel as [|fuel IH]; intros fuel' st r Hle H; [discriminate H|].
  destruct fuel' as [|fuel']; [lia|]. simpl in *.
  destruct (sortBy snd (pq st)) as [|[edge w] rest]; [exact H|].
  destruct (negb (length (p_visited st) <? n)%nat); [exact H|].
  destruct (decide (eto edge ∈ p_visited st)); apply IH; (lia || assumption).
Qed.

(** The loop ends and keeps the invariant; it stops when the queue
    is empty or when as many nodes are visited as the graph has. *)
Lemma primLoop_runs fuel :
  forall st,
    primInv g s st ->
    (pending g U (p_visited st) + length (pq st) < fuel)%nat ->
    exists st', primLoop fuel g recordSteps n st = Some st'
      /\ primInv g s st'
      /\ (pq st' = [] \/ (n <= length (p_visited st'))%nat).
Proof.
  induction fuel as [|fuel IH]; intros st Hinv Hm; [lia|].
  simpl. pose proof (sortBy_Permutation snd (pq st)) as Hperm.
  destruct (sortBy snd (pq st)) as [|[edge w] rest] eqn:Hsorted.
  - exists st. split; [reflexivity|]. split; [exact Hinv|]. left.
    symmetry in Hperm. apply Permutation_nil_r in Hperm. exact Hperm.
  - destruct (length (p_visited st) <? n)%nat eqn:Hsize; simpl.
    2:{ exists st. split; [reflexivity|]. split; [exact Hinv|]. right.
        apply Nat.ltb_ge in Hsize. exact Hsize. }
    assert (Hlen : length (pq st) = S (length rest))
      by (rewrite <- Hperm; reflexivity).
    assert (Hin : forall e' w', (e', w') ∈ pq st <-> (e', w') = (edge, w) \/ (e', w') ∈ rest).
    { intros e' w'. rewrite <- Hperm. apply elem_of_cons. }
    destruct Hinv as [Hvis Hnd Hweight Htree Hqueue Hreach Hfront].
    destruct (Hqueue edge w) as (Hfrom & Hw & Hslot); [apply Hin; auto|].
    destruct (decide (eto edge ∈ p_visited st)) as [Hseen|Hnew].
    + apply IH; [|simpl; lia]. split; simpl; try assumption.
      * intros e' w' He'. apply Hqueue, Hin. auto.
      * intros x m Hx Hm'. destruct (Hfront x m Hx Hm') as [H|(e' & w' & He' & Hto)]; [auto|].
        apply Hin in He' as [[= -> ->]|He']; [left; rewrite <- Hto; exact Hseen|].
        right. eauto.
    + assert (HtoU : eto edge ∈ U) by (eapply (targets_in_U _ (mkNeighbor _ _)), Hslot).
      pose proof (pending_setAdd g U (p_visited st) (eto edge) HtoU Hnew) as Hdec.
      pose proof (frontier_length (eto edge)
                    (fun x => bool_decide (x ∉ setAdd (eto edge) (p_visited st)))
                    (getNeighbors (eto edge) g)) as Hfl.
      assert (Hadd : setAdd (eto edge) (p_visited st) = p_visited st ++ [eto edge])
        by (unfold setAdd; rewrite decide_False by exact Hnew; reflexivity).
      apply IH; [|simpl; rewrite length_app; lia]. split; simpl.
      * rewrite Hadd, Hvis, map_app. reflexivity.
      * rewrite Hadd. apply NoDup_app. split; [exact Hnd|]. split; [|apply NoDup_singleton].
        intros x Hx Hx'. apply list_elem_of_singleton in Hx' as ->. contradiction.
      * rewrite Hweight, walkWeight_app. unfold walkWeight at 3. simpl.
        unfold edgeWeight. rewrite Hw. simpl. lia.
      * intros before e after Heq.
        destruct (decide (after = [])) as [->|Hafter].
        -- apply app_inj_tail in Heq as [<- <-]. split.
           ++ rewrite <- Hvis. exact Hfrom.
           ++ unfold edgeWeight. rewrite Hw. exact Hslot.
        -- destruct (exists_last Hafter) as (after' & e' & ->).
           rewrite app_comm_cons, app_assoc in Heq.
           apply app_inj_tail in Heq as [Heq _]. eapply Htree. exact Heq.
      * intros e' w' He'. apply elem_of_app in He' as [He'|He'].
        -- destruct (Hqueue e' w') as (H1 & H2 & H3); [apply Hin; auto|].
           split; [apply elem_of_setAdd; auto|auto].
        -- apply frontier_spec in He' as (m & Hm' & _ & -> & ->). simpl.
           split; [apply elem_of_setAdd; auto|]. split; [reflexivity|].
           destruct m; exact Hm'.
      * intros x Hx. apply elem_of_setAdd in Hx as [->|Hx]; [|apply Hreach, Hx].
        eapply rtc_r; [apply Hreach, Hfrom|]. eexists. split; [exact Hslot|reflexivity].
      * intros x m Hx Hm'.
        destruct (decide (node m ∈ setAdd (eto edge) (p_visited st))) as [Hv|Hv]; [auto|].
        right. apply elem_of_setAdd in Hx as [->|Hx].
        -- exists (mkEdge (eto edge) (node m) (Some (weight m))), (weight m).
           split; [|reflexivity]. apply elem_of_app. right. apply frontier_spec.
           exists m. split; [exact Hm'|]. split; [|auto].
           apply bool_decide_eq_true_2, Hv.
        -- destruct (Hfront x m Hx Hm') as [H|(e' & w' & He' & Hto)].
           ++ exfalso. apply Hv, elem_of_setAdd. auto.
           ++ apply Hin in He' as [[= -> ->]|He'].
              ** exfalso. apply Hv, elem_of_setAdd. auto.
              ** exists e', w'. split; [apply elem_of_app; auto|exact Hto].
Qed.
End Prim.

Lemma reachable_in_nodes g a b :
  closedTargets g -> reachable g a b -> a ∈ nodes g -> b ∈ nodes g.
Proof.
  intros Hclosed Hr. induction Hr as [x|x z y (m & Hm & <-) _ IH]; [auto|].
  intros _. apply IH. unfold getNeighbors in Hm.
  destruct (adjacencyList g !! String_of x) as [l|] eqn:Hl; simpl in Hm;
    [|apply elem_of_nil in Hm; contradiction].
  eapply Hclosed; eassumption.
Qed.

(** X27. On an undirected well-formed graph whose nodes are listed
    once and whose weights can be added without rounding, [prim]
    started at a node of the graph ends, and its edges form a tree
    rooted at the start that spans what can be reached from it: the
    start and the targets of the edges are pairwise different and are
    exactly the reachable nodes, every edge follows a neighbor entry
    out of the start or of the target of an earlier edge, and
    [totalWeight] is the sum of the weights of the edges. *)
Theorem prim_spanning_tree (g : Graph) (start : option NodeId) (recordSteps : bool)
    (first : NodeId) (rest : list NodeId) :
  isDirected g = false ->
  wellFormed g ->
  NoDup (nodes g) ->
  safeWeights g (length (nodes g)) ->
  nodes g = first :: rest ->
  default first start ∈ nodes g ->
  exists r N,
    (forall fuel, (N <= fuel)%nat -> prim fuel g start recordSteps = Ok (Some r))
    /\ totalWeight r = walkWeight (t_edges r)
    /\ NoDup (default first start :: map eto (t_edges r))
    /\ (forall x, x ∈ default first start :: map eto (t_edges r)
                  <-> reachable g (default first start) x)
    /\ (forall before e after, t_edges r = before ++ e :: after ->
          efrom e ∈ default first start :: map eto before
          /\ mkNeighbor (eto e) (edgeWeight e) ∈ getNeighbors (efrom e) g).
Proof.
  intros Hdir [_ Hclosed] Hnd _ Hnodes Hs. set (s := default first start) in *.
  set (st0 := mkPrimState [s] [] [] 0 0
                (frontier s (fun _ => true) (getNeighbors s g))).
  assert (Htargets : forall x m, m ∈ getNeighbors x g -> node m ∈ nodes g).
  { intros x m Hm. unfold getNeighbors in Hm.
    destruct (adjacencyList g !! String_of x) as [l|] eqn:Hl; simpl in Hm;
      [|apply elem_of_nil in Hm; contradiction].
    eapply Hclosed; eassumption. }
  assert (Hinv0 : primInv g s st0).
  { split; simpl.
    - reflexivity.
    - apply NoDup_singleton.
    - reflexivity.
    - intros [|b0 before] e after Heq; discriminate Heq.
    - intros e' w' He. apply frontier_spec in He as (m & Hm & _ & -> & ->). simpl.
      split; [apply list_elem_of_singleton; reflexivity|]. split; [reflexivity|].
      destruct m; exact Hm.
    - intros x Hx. apply list_elem_of_singleton in Hx as ->. apply rtc_refl.
    - intros x m Hx Hm. apply list_elem_of_singleton in Hx as ->. right.
      exists (mkEdge s (node m) (Some (weight m))), (weight m).
      split; [|reflexivity]. apply frontier_spec. exists m. auto. }
  set (N := S (pending g (nodes g) (p_visited st0) + length (pq st0))).
  destruct (primLoop_runs g s recordSteps (length (getNodes g)) (nodes g) Htargets
              N st0 Hinv0 ltac:(unfold N; lia))
    as (st' & Hrun & [Hvis Hndv Hweight Htree Hqueue Hreach Hfront] & Hstop).
  exists (mkSpanningTreeResult (p_mstEdges st') (p_totalWeight st')
            (if recordSteps then Some (p_steps st') else None)), N.
  split; [|split; [|split; [|split]]]; simpl.
  - intros fuel Hfuel.
    pose proof (primLoop_fuel_mono g recordSteps _ N fuel st0 st' Hfuel Hrun) as Hrun'.
    unfold prim. rewrite Hdir. unfold st0, getNodes in *. revert Hrun'.
    generalize (length (nodes g)). intros n Hrun'. rewrite Hnodes. fold s.
    rewrite Hrun'. reflexivity.
  - exact Hweight.
  - rewrite <- Hvis. exact Hndv.
  - intros x. rewrite <- Hvis. split; [apply Hreach|]. intros Hr.
    destruct Hstop as [Hempty|Hfull].
    + apply (reachable_closed g (p_visited st') s x); [| |exact Hr].
      * rewrite Hvis. apply elem_of_cons. auto.
      * intros z m Hz Hm. destruct (Hfront z m Hz Hm) as [H|(e & w & He & _)]; [exact H|].
        rewrite Hempty in He. apply elem_of_nil in He. contradiction.
    + assert (Hsub : p_visited st' ⊆+ nodes g).
      { apply NoDup_submseteq; [exact Hndv|].
        intros z Hz. eapply reachable_in_nodes; [exact Hclosed|apply Hreach, Hz|exact Hs]. }
      assert (Hperm : p_visited st' ≡ₚ nodes g)
        by (apply submseteq_length_Permutation; [exact Hsub|exact Hfull]).
      rewrite Hperm. eapply reachable_in_nodes; eassumption.
  - exact Htree.
Qed.

Lemma prim_spanning_tree_witness :
  exists g, buildGraphFromData pathData = Ok g
    /\ exists r N,
         (forall fuel, (N <= fuel)%nat -> prim fuel g (Some (NNum 2)) false = Ok (Some r))
         /\ totalWeight r = walkWeight (t_edges r)
         /\ NoDup (NNum 2 :: map eto (t_edges r))
         /\ (forall x, x ∈ NNum 2 :: map eto (t_edges r) <-> reachable g (NNum 2) x)
         /\ (forall before e after, t_edges r = before ++ e :: after ->
               efrom e ∈ NNum 2 :: map eto before
               /\ mkNeighbor (eto e) (edgeWeight e) ∈ getNeighbors (efrom e) g).
Proof.
  destruct (addEdges_keeps_wellFormed (d_edges pathData)
              (addNodes (d_nodes pathData) (newGraph (d_config pathData))))
    as (g & Hrun & Hwf & _ & Hnd & _).
  { apply addNodes_wellFormed; [apply newGraph_wellFormed|apply NoDup_nil_2]. }
  { left. reflexivity. }
  exists g. split; [exact Hrun|].
  assert (Hnodup : NoDup (nodes g))
    by (apply Hnd, addNodes_wellFormed; [apply newGraph_wellFormed|apply NoDup_nil_2]).
  vm_compute in Hrun. injection Hrun as <-.
  apply (prim_spanning_tree _ (Some (NNum 2)) false (NNum 1) [NNum 2; NNum 3]).
  - reflexivity.
  - exact Hwf.
  - exact Hnodup.
  - safe_weights 1.
  - reflexivity.
  - simpl. in_list.
Defined.

(** ** Removing a node *)

Lemma splice1_sublist i l : splice1 i l `sublist_of` l.
Proof.
  unfold splice1. rewrite <- (take_drop i l) at 3.
  apply sublist_app; [reflexivity|].
  replace (S i) with (i + 1)%nat by lia. rewrite <- drop_drop.
  apply sublist_drop.
Qed.

Lemma findIndex_None_filter t l :
  findIndex t l = None -> filter (fun n => node n ≠ t) l = l.
Proof.
  induction l as [|n l IH]; simpl; [reflexivity|].
  destruct (decide (node n = t)) as [Heq|Hne]; [discriminate|].
  intros H. rewrite filter_cons_True by exact Hne. f_equal. apply IH.
  destruct (findIndex t l); [discriminate H|reflexivity].
Qed.

Lemma filter_absent t l :
  t ∉ map node l -> filter (fun n => node n ≠ t) l = l.
Proof.
  induction l as [|n l IH]; simpl; [reflexivity|]. intros H.
  apply not_elem_of_cons in H as [Hne Hl].
  rewrite filter_cons_True by (intros Heq; apply Hne; symmetry; exact Heq).
  f_equal. apply IH, Hl.
Qed.

(** In a list that names no node twice, removing the first entry
    for a node removes all its entries. *)
Lemma splice1_filter t l i :
  NoDup (map node l) -> findIndex t l = Some i ->
  splice1 i l = filter (fun n => node n ≠ t) l.
Proof.
  revert i. induction l as [|n l IH]; intros i Hnd H; simpl in H; [discriminate H|].
  apply NoDup_cons in Hnd as [Hn Hnd].
  destruct (decide (node n = t)) as [Heq|Hne].
  - injection H as <-. unfold splice1. simpl. rewrite drop_0.
    rewrite filter_cons_False by (intros Hc; apply Hc, Heq).
    symmetry. apply filter_absent. rewrite <- Heq. exact Hn.
  - destruct (findIndex t l) as [j|]; [|discriminate H]. injection H as <-.
    rewrite filter_cons_True by exact Hne.
    unfold splice1 in *. simpl. f_equal. apply IH; [exact Hnd|reflexivity].
Qed.

Lemma filter_filter_same t (l : list Neighbor) :
  filter (fun n => node n ≠ t) (filter (fun n => node n ≠ t) l)
  = filter (fun n => node n ≠ t) l.
Proof.
  induction l as [|n l IH]; [reflexivity|].
  destruct (decide (node n ≠ t)) as [H|H].
  - rewrite !filter_cons_True by exact H. f_equal. exact IH.
  - rewrite !filter_cons_False by exact H. exact IH.
Qed.

Lemma sublist_simple (l' l : list Neighbor) :
  l' `sublist_of` l -> NoDup (map node l) -> NoDup (map node l').
Proof.
  intros Hs Hnd. pose proof (fmap_sublist node _ _ Hs) as H. eapply sublist_NoDup; eassumption.
Qed.

(** What [removeEdge] does to the lists of a graph whose lists name
    no node twice. *)
Lemma removeEdge_simple from to h :
  (forall key l, adjacencyList h !! key = Some l -> NoDup (map node l)) ->
  (directed (config h) = false -> is_Some (adjacencyList h !! String_of to)) ->
  exists h', removeEdge from to h = Ok h'
    /\ nodes h' = nodes h /\ config h' = config h
    /\ (forall key, adjacencyList h' !! key = adjacencyList h !! key
          \/ ((key = String_of from \/ key = String_of to)
              /\ exists l l', adjacencyList h !! key = Some l
                   /\ adjacencyList h' !! key = Some l' /\ l' `sublist_of` l))
    /\ (String_of from ≠ String_of to ->
          adjacencyList h' !! String_of from
          = filter (fun n => node n ≠ to) <$> adjacencyList h !! String_of from)
    /\ (String_of from ≠ String_of to ->
          adjacencyList h' !! String_of to = adjacencyList h !! String_of to
          \/ adjacencyList h' !! String_of to
             = filter (fun n => node n ≠ from) <$> adjacencyList h !! String_of to).
Proof.
  intros Hsimple Hto. unfold removeEdge. cbv zeta.
  destruct (adjacencyList h !! String_of from) as [fromList|] eqn:Hfrom.
  2:{ exists h. split; [reflexivity|]. split; [reflexivity|]. split; [reflexivity|].
      split; [auto|]. split; [intros _; rewrite Hfrom; reflexivity|auto]. }
  destruct (findIndex to fromList) as [index|] eqn:Hidx.
  2:{ exists h. split; [reflexivity|]. split; [reflexivity|]. split; [reflexivity|].
      split; [auto|]. split; [|auto].
      intros _. rewrite Hfrom. simpl. rewrite (findIndex_None_filter _ _ Hidx). reflexivity. }
  pose proof (splice1_filter to fromList index (Hsimple _ _ Hfrom) Hidx) as Hsp.
  pose proof (splice1_sublist index fromList) as Hsub.
  set (g1 := mkGraph _ _ _ _).
  destruct (directed (config h)) eqn:Hdir; simpl.
  - exists g1. split; [reflexivity|]. split; [reflexivity|]. split; [reflexivity|].
    split; [|split].
    + intros key. simpl. destruct (decide (key = String_of from)) as [->|Hne].
      * right. split; [auto|]. exists fromList, (splice1 index fromList).
        rewrite lookup_insert_eq. auto.
      * left. rewrite lookup_insert_ne by congruence. reflexivity.
    + intros _. simpl. rewrite lookup_insert_eq, ?Hfrom, Hsp. reflexivity.
    + intros Hne. left. simpl. rewrite lookup_insert_ne by exact Hne. reflexivity.
  - destruct (Hto eq_refl) as [toList0 HtoList0].
    assert (is_Some (adjacencyList g1 !! String_of to)) as [toList HtoList]
      by (simpl; apply wellKeyed_insert; eauto).
    rewrite (listAt_Some _ _ _ HtoList). simpl.
    destruct (findIndex from toList) as [reverseIndex|] eqn:Hrev.
    + eexists. split; [reflexivity|]. split; [reflexivity|]. split; [reflexivity|].
      pose proof (splice1_sublist reverseIndex toList) as Hsub'.
      split; [|split].
      * intros key. simpl.
        destruct (decide (key = String_of to)) as [->|Hne].
        -- right. split; [auto|]. rewrite lookup_insert_eq.
           exists toList0, (splice1 reverseIndex toList).
           split; [exact HtoList0|]. split; [reflexivity|].
           etransitivity; [exact Hsub'|]. simpl in HtoList.
           destruct (decide (String_of from = String_of to)) as [Heq|Hne].
           ++ rewrite Heq, lookup_insert_eq in HtoList. injection HtoList as <-.
              rewrite Heq in Hfrom. rewrite Hfrom in HtoList0. injection HtoList0 as <-.
              exact Hsub.
           ++ rewrite lookup_insert_ne in HtoList by exact Hne.
              rewrite HtoList in HtoList0. injection HtoList0 as <-. reflexivity.
        -- rewrite lookup_insert_ne by congruence.
           destruct (decide (key = String_of from)) as [->|Hne'].
           ++ right. split; [auto|]. exists fromList, (splice1 index fromList).
              rewrite lookup_insert_eq. auto.
           ++ left. rewrite lookup_insert_ne by congruence. reflexivity.
      * intros Hne. simpl. rewrite lookup_insert_ne by congruence.
        rewrite lookup_insert_eq, ?Hfrom, Hsp. reflexivity.
      * intros Hne. right. simpl. rewrite lookup_insert_eq.
        simpl in HtoList. rewrite lookup_insert_ne in HtoList by exact Hne.
        rewrite HtoList. simpl. f_equal.
        apply splice1_filter; [eapply Hsimple; exact HtoList|exact Hrev].
    + exists g1. split; [reflexivity|]. split; [reflexivity|]. split; [reflexivity|].
      split; [|split].
      * intros key. simpl. destruct (decide (key = String_of from)) as [->|Hne].
        -- right. split; [auto|]. exists fromList, (splice1 index fromList).
           rewrite lookup_insert_eq. auto.
        -- left. rewrite lookup_insert_ne by congruence. reflexivity.
      * intros _. simpl. rewrite lookup_insert_eq, ?Hfrom, Hsp. reflexivity.
      * intros Hne. left. simpl. rewrite lookup_insert_ne by exact Hne. reflexivity.
Qed.

Lemma removeEdge_keeps_simple (h h' : Graph) (keys : list string) :
  (forall key, adjacencyList h' !! key = adjacencyList h !! key
     \/ (key ∈ keys
         /\ exists l l', adjacencyList h !! key = Some l
              /\ adjacencyList h' !! key = Some l' /\ l' `sublist_of` l)) ->
  (forall key, is_Some (adjacencyList h' !! key) <-> is_Some (adjacencyList h !! key))
  /\ ((forall key l, adjacencyList h !! key = Some l -> NoDup (map node l)) ->
      forall key l, adjacencyList h' !! key = Some l -> NoDup (map node l)).
Proof.
  intros Hstep. split.
  - intros key. destruct (Hstep key) as [->|(_ & l & l' & -> & -> & _)]; [reflexivity|].
    split; eauto.
  - intros Hsimple key l Hl.
    destruct (Hstep key) as [Heq|(_ & l0 & l' & Hl0 & Hl' & Hsub)].
    + rewrite Heq in Hl. eapply Hsimple, Hl.
    + rewrite Hl' in Hl. injection Hl as <-.
      eapply sublist_simple; [exact Hsub|]. eapply Hsimple, Hl0.
Qed.

Section RemoveNode.
Variable g : Graph.
Variable id : NodeId.
Hypothesis keyed : wellKeyed g.
Hypothesis distinct : forall x y, x ∈ nodes g -> y ∈ nodes g ->
  String_of x = String_of y -> x = y.
Hypothesis known : id ∈ nodes g.

(** One round of the loop of [removeNode]: the two calls of
    [removeEdge] for a node [x] return, and [x] is done. *)
Lemma removeIncident_step done h x :
  x ∈ nodes g -> removeInv g id done h ->
  exists h2, (h1 ← removeEdge x id h; removeEdge id x h1) = Ok h2
    /\ removeInv g id (done ++ [x]) h2.
Proof.
  intros Hx [Hn Hc Hk Hs Hl].
  destruct (removeEdge_simple x id h Hs) as (h1 & Hrun1 & N1 & C1 & K1 & F1 & T1).
  { intros _. apply Hk, keyed, known. }
  assert (K1' : forall key, adjacencyList h1 !! key = adjacencyList h !! key
     \/ (key ∈ [String_of x; String_of id]
         /\ exists l l', adjacencyList h !! key = Some l
              /\ adjacencyList h1 !! key = Some l' /\ l' `sublist_of` l)).
  { intros key. destruct (K1 key) as [H|([->| ->] & H)]; [auto|right..];
      (split; [|exact H]); apply list_elem_of_In; simpl; auto. }
  destruct (removeEdge_keeps_simple h h1 _ K1') as [Hk1 Hs1].
  specialize (Hs1 Hs).
  destruct (removeEdge_simple id x h1 Hs1) as (h2 & Hrun2 & N2 & C2 & K2 & F2 & T2).
  { intros _. apply Hk1, Hk, keyed, Hx. }
  assert (K2' : forall key, adjacencyList h2 !! key = adjacencyList h1 !! key
     \/ (key ∈ [String_of x; String_of id]
         /\ exists l l', adjacencyList h1 !! key = Some l
              /\ adjacencyList h2 !! key = Some l' /\ l' `sublist_of` l)).
  { intros key. destruct (K2 key) as [H|([->| ->] & H)]; [auto|right..];
      (split; [|exact H]); apply list_elem_of_In; simpl; auto. }
  destruct (removeEdge_keeps_simple h1 h2 _ K2') as [Hk2 Hs2].
  specialize (Hs2 Hs1).
  exists h2. split; [rewrite Hrun1; simpl; exact Hrun2|].
  split.
  - congruence.
  - congruence.
  - intros key. rewrite Hk2, Hk1. apply Hk.
  - exact Hs2.
  - intros y Hy Hyid. destruct (Hl y Hy Hyid) as (L & HL & Hfilter & Hdone).
    assert (Hkid : String_of y ≠ String_of id)
      by (intros Heq; apply Hyid, distinct; assumption).
    destruct (decide (y = x)) as [->|Hyx].
    + assert (Hne : String_of x ≠ String_of id) by exact Hkid.
      specialize (F1 Hne). rewrite HL in F1. simpl in F1.
      exists (filter (fun n => node n ≠ id) L).
      split; [|split].
      * destruct (T2 (not_eq_sym Hne)) as [H|H]; rewrite H, F1; [reflexivity|].
        simpl. rewrite filter_filter_same. reflexivity.
      * rewrite filter_filter_same. exact Hfilter.
      * intros _. exact Hfilter.
    + assert (Hkx : String_of y ≠ String_of x)
        by (intros Heq; apply Hyx, distinct; assumption).
      assert (Hout : String_of y ∉ [String_of x; String_of id]).
      { intros Hin. apply elem_of_cons in Hin as [Hin|Hin]; [contradiction|].
        apply list_elem_of_singleton in Hin. contradiction. }
      exists L. split; [|split].
      * destruct (K2' (String_of y)) as [->|[Hin _]]; [|contradiction].
        destruct (K1' (String_of y)) as [->|[Hin _]]; [exact HL|contradiction].
      * exact Hfilter.
      * intros Hin. apply Hdone. apply elem_of_app in Hin as [Hin|Hin]; [exact Hin|].
        apply list_elem_of_singleton in Hin. contradiction.
Qed.

Lemma removeIncident_simple todo :
  forall done h,
    (forall x, x ∈ todo -> x ∈ nodes g) ->
    removeInv g id done h ->
    exists h', removeIncident id todo h = Ok h' /\ removeInv g id (done ++ todo) h'.
Proof.
  induction todo as [|x todo IH]; intros done h Hsub Hinv.
  - exists h. split; [reflexivity|]. rewrite app_nil_r. exact Hinv.
  - destruct (removeIncident_step done h x) as (h2 & Hrun & Hinv2);
      [apply Hsub; left|exact Hinv|].
    destruct (IH (done ++ [x]) h2) as (h' & Hrun' & Hinv');
      [intros y Hy; apply Hsub; right; exact Hy|exact Hinv2|].
    exists h'. split.
    + simpl. destruct (removeEdge x id h) as [h1|msg]; [|discriminate Hrun].
      simpl in *. rewrite Hrun. simpl. exact Hrun'.
    + rewrite <- app_assoc in Hinv'. exact Hinv'.
Qed.
End RemoveNode.

Lemma filter_other_node (id : NodeId) (l : list NodeId) :
  id ∉ l -> filter (fun x => x ≠ id) l = l.
Proof.
  induction l as [|y l IH]; [reflexivity|]. intros H.
  apply not_elem_of_cons in H as [Hne Hl].
  rewrite filter_cons_True by (intros Heq; apply Hne; symmetry; exact Heq).
  f_equal. apply IH, Hl.
Qed.

Lemma getNeighbors_lookup g x l :
  adjacencyList g !! String_of x = Some l -> getNeighbors x g = l.
Proof. intros H. unfold getNeighbors. rewrite H. reflexivity. Qed.

(** X28. [removeNode] on a well-formed simple graph never throws.
    The graph that it returns has the other nodes, in their order, and
    the same configuration; the list of each of them is its former list
    without the entries for the removed node; the removed node has no
    list any more; and the graph is again well formed and simple. *)
Theorem removeNode_simple_graph (id : NodeId) (g : Graph) :
  wellFormed g -> simpleGraph g ->
  exists g', removeNode id g = Ok g'
    /\ nodes g' = filter (fun x => x ≠ id) (nodes g)
    /\ config g' = config g
    /\ (forall x, x ∈ nodes g' ->
          getNeighbors x g' = filter (fun n => node n ≠ id) (getNeighbors x g))
    /\ (id ∈ nodes g -> adjacencyList g' !! String_of id = None)
    /\ wellFormed g' /\ simpleGraph g'.
Proof.
  intros [Hkeyed Hclosed] (Hkeys & Hdistinct & Hsimple). unfold removeNode.
  destruct (decide (id ∈ nodes g)) as [Hid|Hid].
  2:{ exists g. split; [reflexivity|].
      split; [symmetry; apply filter_other_node, Hid|]. split; [reflexivity|].
      split; [|split; [contradiction|split; [split; assumption|]]].
      - intros x Hx. symmetry. apply filter_absent.
        intros Hin. apply list_elem_of_fmap in Hin as (n & -> & Hn).
        apply Hid. unfold getNeighbors in Hn.
        destruct (adjacencyList g !! String_of x) as [l|] eqn:Hl; simpl in Hn;
          [|apply elem_of_nil in Hn; contradiction].
        eapply Hclosed; eassumption.
      - split; [exact Hkeys|]. split; assumption. }
  assert (Hinv0 : removeInv g id [] g).
  { split; try reflexivity; [exact Hsimple|].
    intros x Hx _. destruct (Hkeyed x Hx) as [l Hl]. exists l.
    rewrite (getNeighbors_lookup _ _ _ Hl). split; [exact Hl|].
    split; [reflexivity|]. intros Hin. apply elem_of_nil in Hin. contradiction. }
  destruct (removeIncident_simple g id Hkeyed Hdistinct Hid (nodes g) [] g
              ltac:(auto) Hinv0) as (h & Hrun & [Hn Hc Hk Hs Hl]).
  rewrite Hrun. simpl. eexists. split; [reflexivity|]. simpl.
  assert (Hlist : forall x, x ∈ nodes g -> x ≠ id ->
            delete (String_of id) (adjacencyList h) !! String_of x
            = Some (filter (fun n => node n ≠ id) (getNeighbors x g))).
  { intros x Hx Hne. destruct (Hl x Hx Hne) as (l & Hlx & _ & Hdone).
    rewrite lookup_delete_ne by (intros Heq; apply Hne; symmetry; apply Hdistinct; auto).
    rewrite Hlx, Hdone; [reflexivity|exact Hx]. }
  assert (Hmember : forall x, x ∈ filter (fun x => x ≠ id) (nodes g) <-> x ∈ nodes g /\ x ≠ id).
  { intros x. rewrite list_elem_of_filter. tauto. }
  assert (Hkey' : forall key, is_Some (delete (String_of id) (adjacencyList h) !! key) ->
            exists x, x ∈ nodes g /\ x ≠ id /\ key = String_of x).
  { intros key Hsome. destruct (decide (key = String_of id)) as [->|Hne].
    - rewrite lookup_delete_eq in Hsome. destruct Hsome as [? H]. discriminate H.
    - rewrite lookup_delete_ne in Hsome by congruence.
      apply Hk, Hkeys in Hsome as (x & Hx & ->). exists x. split; [exact Hx|].
      split; [|reflexivity]. intros ->. apply Hne. reflexivity. }
  split; [rewrite Hn; reflexivity|]. split; [exact Hc|].
  split; [|split; [|split; [split|split; [|split]]]].
  - intros x Hx. rewrite Hn in Hx. apply Hmember in Hx as [Hx Hne].
    apply getNeighbors_lookup. simpl. apply Hlist; assumption.
  - intros _. apply lookup_delete_eq.
  - intros x Hx. simpl in *. rewrite Hn in Hx. apply Hmember in Hx as [Hx Hne].
    rewrite Hlist by assumption. eauto.
  - intros key l n Hl' Hin. simpl in *. rewrite Hn. apply Hmember.
    destruct (Hkey' key) as (x & Hx & Hne & ->); [eauto|].
    rewrite Hlist in Hl' by assumption. injection Hl' as <-.
    apply list_elem_of_filter in Hin as [Hnode Hin]. split; [|exact Hnode].
    unfold getNeighbors in Hin. destruct (Hkeyed x Hx) as [l Hlx].
    rewrite Hlx in Hin. simpl in Hin. eapply Hclosed; eassumption.
  - intros key Hsome. simpl in *. destruct (Hkey' key Hsome) as (x & Hx & Hne & ->).
    exists x. split; [|reflexivity]. rewrite Hn. apply Hmember. auto.
  - intros x y Hx Hy. simpl in *. rewrite Hn in Hx, Hy.
    apply Hmember in Hx as [Hx _]. apply Hmember in Hy as [Hy _]. apply Hdistinct; assumption.
  - intros key l Hl'. simpl in *.
    destruct (decide (key = String_of id)) as [->|Hne].
    + rewrite lookup_delete_eq in Hl'. discriminate Hl'.
    + rewrite lookup_delete_ne in Hl' by congruence. eapply Hs, Hl'.
Qed.

Lemma removeNode_simple_graph_witness :
  exists g, buildGraphFromData pathData = Ok g
    /\ exists g', removeNode (NNum 2) g = Ok g'
         /\ nodes g' = filter (fun x => x ≠ NNum 2) (nodes g)
         /\ config g' = config g
         /\ (forall x, x ∈ nodes g' ->
               getNeighbors x g' = filter (fun n => node n ≠ NNum 2) (getNeighbors x g))
         /\ (NNum 2 ∈ nodes g -> adjacencyList g' !! String_of (NNum 2) = None)
         /\ wellFormed g' /\ simpleGraph g'.
Proof.
  destruct (addEdges_keeps_wellFormed (d_edges pathData)
              (addNodes (d_nodes pathData) (newGraph (d_config pathData))))
    as (g & Hrun & Hwf & _).
  { apply addNodes_wellFormed; [apply newGraph_wellFormed|apply NoDup_nil_2]. }
  { left. reflexivity. }
  exists g. split; [exact Hrun|].
  apply removeNode_simple_graph; [exact Hwf|].
  vm_compute in Hrun. injection Hrun as <-. clear Hwf.
  split; [|split].
  - intros key [l Hl]. apply elem_of_map_to_list in Hl. vm_compute in Hl.
    entry_cases Hl;
      [exists (NNum 3)|exists (NNum 1)|exists (NNum 2)]; (split; [in_list|reflexivity]).
  - intros x y Hx Hy. simpl in Hx, Hy.
    list_cases Hx; list_cases Hy; vm_compute; (reflexivity || discriminate).
  - intros key l Hl. apply elem_of_map_to_list in Hl. vm_compute in Hl.
    entry_cases Hl; apply (bool_decide_unpack _); vm_compute; exact I.
Defined.

(** ** Kruskal's algorithm and its union-find structure *)

Lemma getParent_set x y v uf rk :
  getParent (Some y) (mkUnionFind (mapSet (Some x) (Some v) (parent uf)) rk)
  = if decide (x = y) then Some v else getParent (Some y) uf.
Proof.
  unfold getParent. simpl. rewrite mapGet_mapSet.
  destruct (decide (x = y)) as [->|Hne].
  - rewrite decide_True by reflexivity. reflexivity.
  - rewrite decide_False by congruence. reflexivity.
Qed.

Lemma getRank_set x y v uf pa :
  getRank (Some y) (mkUnionFind pa (mapSet (Some x) (Some v) (rank uf)))
  = if decide (x = y) then Some v else getRank (Some y) uf.
Proof.
  unfold getRank. simpl. rewrite mapGet_mapSet.
  destruct (decide (x = y)) as [->|Hne].
  - rewrite decide_True by reflexivity. reflexivity.
  - rewrite decide_False by congruence. reflexivity.
Qed.

(** [find] returns the representative, given fuel for the ranks
    above the node; the classes and the ranks stay as they are. *)
Lemma uf_find_spec ns K rep fuel :
  forall x uf r,
    ufInv ns K rep uf -> x ∈ ns ->
    getRank (Some x) uf = Some r ->
    (Z.to_nat (K - r) < fuel)%nat ->
    exists uf', uf_find fuel (Some x) uf = Some (Some (rep x), uf')
      /\ ufInv ns K rep uf' /\ rank uf' = rank uf
      /\ exists rr, getRank (Some (rep x)) uf = Some rr /\ r <= rr /\ (rep x ≠ x -> r < rr).
Proof.
  induction fuel as [|fuel IH]; intros x uf r Hinv Hx Hr Hfuel; [lia|].
  pose proof Hinv as [Hrep Hparent Hrank Horder].
  destruct (Hparent x Hx) as (p & Hp & Hpin & Hpeq & Hroot).
  simpl. rewrite Hp.
  destruct (decide (Some p = Some x)) as [[= ->]|Hne].
  - assert (Hself : rep x = x) by (apply Hroot; reflexivity).
    rewrite Hself. exists uf. split; [reflexivity|]. split; [exact Hinv|].
    split; [reflexivity|]. exists r. split; [exact Hr|]. split; [lia|].
    intros H. contradiction.
  - assert (Hpx : p ≠ x) by (intros ->; apply Hne; reflexivity).
    destruct (Hrank p Hpin) as (rp & Hrp & Hrp0 & HrpK).
    pose proof (Horder x p r rp Hx Hp Hpx Hr Hrp) as Hlt.
    destruct (IH p uf rp Hinv Hpin Hrp ltac:(lia))
      as (uf1 & Hrun & Hinv1 & Hrk1 & rr & Hrr & Hle & _).
    rewrite Hrun. simpl. rewrite Hpeq in *.
    eexists. split; [rewrite getParent_set, decide_True by reflexivity; reflexivity|].
    assert (Hxroot : rep x ≠ x).
    { intros Heq. apply Hpx, Hroot, Heq. }
    destruct Hinv1 as [Hrep1 Hparent1 Hrank1 Horder1].
    split; [|split; [exact Hrk1|exists rr; split; [exact Hrr|split; [lia|intros _; lia]]]].
    split.
    + exact Hrep.
    + intros y Hy. rewrite getParent_set.
      destruct (decide (x = y)) as [<-|Hxy]; [|apply Hparent1, Hy].
      exists (rep x). split; [reflexivity|]. split; [apply Hrep, Hx|].
      split; [apply Hrep, Hx|reflexivity].
    + intros y Hy. apply Hrank1, Hy.
    + intros y q ry rq Hy. rewrite getParent_set.
      destruct (decide (x = y)) as [<-|Hxy]; [|apply Horder1, Hy].
      intros [= <-] _. unfold getRank. simpl. fold (getRank (Some x) uf1).
      fold (getRank (Some (rep x)) uf1).
      unfold getRank in *. rewrite Hrk1, Hr, Hrr. intros [= <-] [= <-]. lia.
Qed.

Lemma uf_find_fuel_mono fuel :
  forall fuel' x uf r, (fuel <= fuel')%nat ->
    uf_find fuel x uf = Some r -> uf_find fuel' x uf = Some r.
Proof.
  induction fuel as [|fuel IH]; intros fuel' x uf r Hle H; [discriminate H|].
  destruct fuel' as [|fuel']; [lia|]. simpl in *.
  destruct (decide (getParent x uf = x)); [exact H|].
  destruct (uf_find fuel (getParent x uf) uf) as [[root uf1]|] eqn:Hrec; [|discriminate H].
  rewrite (IH fuel' _ _ _ ltac:(lia) Hrec). exact H.
Qed.

(** Hanging the root [l] under the root [w]: the class of [l] joins
    that of [w]. *)
Lemma uf_link ns K rep uf w l rl rw rw' rk' :
  ufInv ns K rep uf ->
  w ∈ ns -> l ∈ ns -> rep w = w -> rep l = l -> w ≠ l ->
  getRank (Some l) uf = Some rl ->
  getRank (Some w) uf = Some rw ->
  (forall y, y ≠ w ->
     getRank (Some y) (mkUnionFind (mapSet (Some l) (Some w) (parent uf)) rk')
     = getRank (Some y) uf) ->
  getRank (Some w) (mkUnionFind (mapSet (Some l) (Some w) (parent uf)) rk') = Some rw' ->
  rw <= rw' <= K + 1 -> rl < rw' ->
  ufInv ns (K + 1) (fun z => if decide (rep z = l) then w else rep z)
        (mkUnionFind (mapSet (Some l) (Some w) (parent uf)) rk').
Proof.
  intros [Hrep Hparent Hrank Horder] Hw Hl Hrw Hrl Hwl Hrankl Hrankw Hother Hnew Hbound Hlt.
  assert (Hroot : forall y, y ∈ ns -> getParent (Some y) uf = Some y <-> rep y = y).
  { intros y Hy. destruct (Hparent y Hy) as (p & Hp & _ & _ & Hiff). rewrite Hp.
    split; [intros [= ->]; apply Hiff; reflexivity|].
    intros H. f_equal. apply Hiff, H. }
  split.
  - intros x Hx. destruct (Hrep x Hx) as [Hin Hidem].
    destruct (decide (rep x = l)) as [Heq|Hne].
    + split; [exact Hw|]. rewrite decide_False by congruence. exact Hrw.
    + split; [exact Hin|]. rewrite decide_False by congruence. exact Hidem.
  - intros x Hx. rewrite getParent_set.
    destruct (decide (l = x)) as [<-|Hlx].
    + exists w. split; [reflexivity|]. split; [exact Hw|].
      rewrite (decide_False (P := rep w = l)) by congruence.
      rewrite (decide_True (P := rep l = l)) by exact Hrl.
      split; [exact Hrw|]. split; intros H; congruence.
    + destruct (Hparent x Hx) as (p & Hp & Hpin & Hpeq & Hiff).
      exists p. split; [exact Hp|]. split; [exact Hpin|]. rewrite Hpeq.
      split; [reflexivity|]. rewrite Hiff.
      destruct (decide (rep x = l)) as [Heq|Hne]; [|reflexivity].
      split; intros H; [congruence|]. exfalso. subst x. congruence.
  - intros x Hx. destruct (decide (x = w)) as [->|Hxw].
    + exists rw'. split; [exact Hnew|].
      destruct (Hrank w Hw) as (r0 & Hr0 & Hge & _).
      rewrite Hrankw in Hr0. injection Hr0 as <-. lia.
    + rewrite (Hother x Hxw). destruct (Hrank x Hx) as (r & Hr & Hr0 & HrK).
      exists r. split; [exact Hr|lia].
  - intros x p r rp Hx. rewrite getParent_set.
    destruct (decide (l = x)) as [<-|Hlx].
    + intros [= <-] _. rewrite (Hother l (not_eq_sym Hwl)), Hrankl, Hnew.
      intros [= <-] [= <-]. exact Hlt.
    + intros Hp Hpx. assert (Hxw : x ≠ w).
      { intros ->. apply Hpx. apply Hroot in Hrw; [|exact Hw]. congruence. }
      rewrite (Hother x Hxw). intros Hr.
      destruct (decide (p = w)) as [->|Hpw].
      * rewrite Hnew. intros [= <-].
        pose proof (Horder x w r rw Hx Hp Hpx Hr Hrankw). lia.
      * rewrite (Hother p Hpw). intros Hrp. exact (Horder x p r rp Hx Hp Hpx Hr Hrp).
Qed.

(** [union] of two nodes of different classes joins the classes. *)
Lemma uf_union_spec ns K rep fuel x y uf :
  ufInv ns K rep uf -> x ∈ ns -> y ∈ ns -> rep x ≠ rep y ->
  (Z.to_nat K < fuel)%nat ->
  exists w l uf',
    uf_union fuel (Some x) (Some y) uf = Some (true, uf')
    /\ ((w = rep x /\ l = rep y) \/ (w = rep y /\ l = rep x))
    /\ ufInv ns (K + 1) (fun z => if decide (rep z = l) then w else rep z) uf'.
Proof.
  intros Hinv Hx Hy Hne Hfuel. unfold uf_union.
  destruct (uf_rank _ _ _ _ Hinv x Hx) as (rx & Hrx & Hrx0 & _).
  destruct (uf_find_spec ns K rep fuel x uf rx Hinv Hx Hrx ltac:(lia))
    as (uf1 & Hrun1 & Hinv1 & _).
  rewrite Hrun1. simpl.
  destruct (uf_rank _ _ _ _ Hinv1 y Hy) as (ry & Hry & Hry0 & _).
  destruct (uf_find_spec ns K rep fuel y uf1 ry Hinv1 Hy Hry ltac:(lia))
    as (uf2 & Hrun2 & Hinv2 & _).
  rewrite Hrun2. simpl.
  rewrite decide_False by congruence.
  pose proof Hinv2 as [Hrep _ Hrank _].
  destruct (Hrep x Hx) as [Hrxin Hrxid]. destruct (Hrep y Hy) as [Hryin Hryid].
  destruct (Hrank _ Hrxin) as (a & Ha & Ha0 & HaK).
  destruct (Hrank _ Hryin) as (b & Hb & Hb0 & HbK).
  rewrite Ha, Hb. simpl.
  destruct (a <? b) eqn:Hab; [|destruct (b <? a) eqn:Hba].
  - apply Z.ltb_lt in Hab. exists (rep y), (rep x). eexists.
    split; [reflexivity|]. split; [auto|].
    apply (uf_link ns K rep uf2 (rep y) (rep x) a b b); try assumption; try lia.
    + congruence.
    + intros z _. reflexivity.
  - apply Z.ltb_lt in Hba. exists (rep x), (rep y). eexists.
    split; [reflexivity|]. split; [auto|].
    apply (uf_link ns K rep uf2 (rep x) (rep y) b a a); try assumption; try lia.
    intros z _. reflexivity.
  - apply Z.ltb_ge in Hab. apply Z.ltb_ge in Hba.
    exists (rep x), (rep y). eexists.
    split; [reflexivity|]. split; [auto|].
    apply (uf_link ns K rep uf2 (rep x) (rep y) b a (a + 1)); try assumption; try lia.
    + intros z Hz. rewrite getRank_set, decide_False by congruence. reflexivity.
    + rewrite getRank_set, decide_True by reflexivity. reflexivity.
Qed.

Lemma uf_union_fuel_mono fuel fuel' x y uf r :
  (fuel <= fuel')%nat ->
  uf_union fuel x y uf = Some r -> uf_union fuel' x y uf = Some r.
Proof.
  intros Hle. unfold uf_union.
  destruct (uf_find fuel x uf) as [[root1 uf1]|] eqn:H1; [|discriminate].
  rewrite (uf_find_fuel_mono _ _ _ _ _ Hle H1). simpl.
  destruct (uf_find fuel y uf1) as [[root2 uf2]|] eqn:H2; [|discriminate].
  rewrite (uf_find_fuel_mono _ _ _ _ _ Hle H2). simpl. auto.
Qed.

(** The structure that the constructor builds: every node is a
    class of its own, of rank 0. *)
Lemma newUnionFind_get ns :
  forall uf0 x,
    let uf := foldl (fun uf nd => mkUnionFind (mapSet (Some nd) (Some nd) (parent uf))
                                              (mapSet (Some nd) (Some 0) (rank uf)))
                    uf0 ns in
    (x ∈ ns -> getParent (Some x) uf = Some x /\ getRank (Some x) uf = Some 0)
    /\ (x ∉ ns -> getParent (Some x) uf = getParent (Some x) uf0
                  /\ getRank (Some x) uf = getRank (Some x) uf0).
Proof.
  induction ns as [|a ns IH]; intros uf0 x; simpl.
  - split; [intros H; apply elem_of_nil in H; contradiction|auto].
  - destruct (IH (mkUnionFind (mapSet (Some a) (Some a) (parent uf0))
                              (mapSet (Some a) (Some 0) (rank uf0))) x) as [Hin Hout].
    split.
    + intros Hx. destruct (decide (x ∈ ns)) as [Hns|Hns]; [apply Hin, Hns|].
      apply elem_of_cons in Hx as [->|Hx]; [|contradiction].
      destruct (Hout Hns) as [-> ->].
      rewrite getParent_set, getRank_set, !decide_True by reflexivity. auto.
    + intros Hx. apply not_elem_of_cons in Hx as [Hne Hns].
      destruct (Hout Hns) as [-> ->].
      rewrite getParent_set, getRank_set, !decide_False by congruence. auto.
Qed.

Lemma newUnionFind_inv ns : ufInv ns 0 (fun x => x) (newUnionFind ns).
Proof.
  assert (Hget : forall x, x ∈ ns ->
            getParent (Some x) (newUnionFind ns) = Some x
            /\ getRank (Some x) (newUnionFind ns) = Some 0).
  { intros x Hx. apply (newUnionFind_get ns (mkUnionFind [] []) x), Hx. }
  split.
  - auto.
  - intros x Hx. exists x. split; [apply Hget, Hx|]. split; [exact Hx|].
    split; [reflexivity|tauto].
  - intros x Hx. exists 0. split; [apply Hget, Hx|lia].
  - intros x p r rp Hx Hp Hpx. destruct (Hget x Hx) as [Hp' _].
    rewrite Hp' in Hp. injection Hp as <-. contradiction.
Qed.

Lemma joined_sym es x y : joined es x y -> joined es y x.
Proof.
  intros H. induction H as [x|x z y (e & He & Hxy) _ IH]; [apply rtc_refl|].
  eapply rtc_r; [exact IH|]. exists e. split; [exact He|tauto].
Qed.

Lemma joined_mono es es' x y :
  (forall e, e ∈ es -> e ∈ es') -> joined es x y -> joined es' x y.
Proof.
  intros Hsub H. induction H as [x|x z y (e & He & Hxy) _ IH]; [apply rtc_refl|].
  eapply rtc_l; [|exact IH]. exists e. auto.
Qed.

Lemma joined_edge es e : e ∈ es -> joined es (efrom e) (eto e).
Proof. intros He. apply rtc_once. exists e. auto. Qed.

Lemma joined_rep (rep : NodeId -> NodeId) es x y :
  (forall e, e ∈ es -> rep (efrom e) = rep (eto e)) ->
  joined es x y -> rep x = rep y.
Proof.
  intros Hsame H. induction H as [x|x z y (e & He & Hxy) _ IH]; [reflexivity|].
  rewrite <- IH. specialize (Hsame e He).
  destruct Hxy as [[<- <-]|[<- <-]]; congruence.
Qed.

Lemma filter_length_iff {A} (P P' : A -> Prop)
    `{forall x, Decision (P x)} `{forall x, Decision (P' x)} (l : list A) :
  (forall x, x ∈ l -> (P' x <-> P x)) ->
  length (filter P' l) = length (filter P l).
Proof.
  induction l as [|x l IH]; intros Hiff; [reflexivity|].
  assert (IH' : length (filter P' l) = length (filter P l))
    by (apply IH; intros y Hy; apply Hiff; right; exact Hy).
  rewrite !filter_cons.
  destruct (decide (P' x)) as [Hp'|Hp'], (decide (P x)) as [Hp|Hp]; simpl; try lia.
  - exfalso. apply Hp, Hiff; [left|exact Hp'].
  - exfalso. apply Hp', Hiff; [left|exact Hp].
Qed.

(** Taking one element out of the elements that a filter keeps. *)
Lemma filter_length_remove {A} `{EqDecision A} (P P' : A -> Prop)
    `{forall x, Decision (P x)} `{forall x, Decision (P' x)} (l : list A) (a : A) :
  NoDup l -> a ∈ l -> P a ->
  (forall x, x ∈ l -> (P' x <-> P x /\ x ≠ a)) ->
  S (length (filter P' l)) = length (filter P l).
Proof.
  induction l as [|x l IH]; intros Hnd Ha Hpa Hiff.
  - apply elem_of_nil in Ha. contradiction.
  - apply NoDup_cons in Hnd as [Hx Hnd]. rewrite !filter_cons.
    destruct (decide (x = a)) as [->|Hne].
    + destruct (decide (P' a)) as [Hp'|_]; [apply Hiff in Hp' as [_ Hc]; [contradiction|left]|].
      destruct (decide (P a)) as [_|Hc]; [|contradiction]. simpl. f_equal.
      apply filter_length_iff. intros y Hy. rewrite Hiff by (right; exact Hy).
      split; [tauto|]. intros Hp. split; [exact Hp|]. intros ->. contradiction.
    + apply elem_of_cons in Ha as [->|Ha]; [contradiction|].
      assert (IH' : S (length (filter P' l)) = length (filter P l)).
      { apply IH; [exact Hnd|exact Ha|exact Hpa|].
        intros y Hy. apply Hiff. right. exact Hy. }
      destruct (decide (P' x)) as [Hp'|Hp'], (decide (P x)) as [Hp|Hp]; simpl; try lia.
      * exfalso. apply Hp. apply Hiff in Hp' as [Hp' _]; [exact Hp'|left].
      * exfalso. apply Hp', Hiff; [left|]. auto.
Qed.

Lemma length_one_eq {A} (l : list A) a b : length l = 1%nat -> a ∈ l -> b ∈ l -> a = b.
Proof.
  destruct l as [|x [|y l]]; simpl; intros Hlen Ha Hb; try discriminate Hlen.
  apply list_elem_of_singleton in Ha, Hb. congruence.
Qed.

Section Kruskal.
Variable ns : list NodeId.
Variable recordSteps : bool.
Hypothesis nodes_once : NoDup ns.

(** The state after an edge whose ends are in one class. *)
Lemma kruskalInv_skip rep st uf2 steps count :
  kruskalInv ns rep st ->
  ufInv ns (Z.of_nat (length (mstEdges st))) rep uf2 ->
  kruskalInv ns rep (mkKruskalState uf2 (mstEdges st) steps (k_totalWeight st) count).
Proof. intros [? ? ? ? ? ? ?] Huf. split; simpl; assumption. Qed.

(** The state after an edge between two classes. *)
Lemma kruskalInv_add rep st uf3 steps count edge w l :
  kruskalInv ns rep st ->
  efrom edge ∈ ns -> eto edge ∈ ns ->
  rep (efrom edge) ≠ rep (eto edge) ->
  (w = rep (efrom edge) /\ l = rep (eto edge))
  \/ (w = rep (eto edge) /\ l = rep (efrom edge)) ->
  ufInv ns (Z.of_nat (length (mstEdges st)) + 1)
        (fun z => if decide (rep z = l) then w else rep z) uf3 ->
  kruskalInv ns (fun z => if decide (rep z = l) then w else rep z)
    (mkKruskalState uf3 (mstEdges st ++ [edge]) steps
       (k_totalWeight st + default 1 (eweight edge)) count).
Proof.
  intros [Huf Hends Hsame Hjoined Hcount Hforest Hweight] Hfrom Hto Hne Hwl Huf3.
  pose proof Huf as [Hrep _ _ _].
  assert (Hw : w ∈ ns /\ rep w = w /\ l ∈ ns /\ rep l = l /\ w ≠ l).
  { destruct (Hrep _ Hfrom) as [? ?], (Hrep _ Hto) as [? ?].
    destruct Hwl as [[-> ->]|[-> ->]]; repeat split; auto. }
  destruct Hw as (Hwin & Hwid & Hlin & Hlid & Hdiff).
  assert (Hwl' : joined (mstEdges st ++ [edge]) l w).
  { assert (Hft : joined (mstEdges st ++ [edge]) (rep (efrom edge)) (rep (eto edge))).
    { etransitivity; [apply joined_sym; eapply joined_mono; [|apply Hjoined, Hfrom];
                        intros e He; apply elem_of_app; auto|].
      etransitivity; [apply (joined_edge _ edge), elem_of_app; right; left|].
      eapply joined_mono; [|apply Hjoined, Hto]. intros e He. apply elem_of_app. auto. }
    destruct Hwl as [[-> ->]|[-> ->]]; [apply joined_sym|]; exact Hft. }
  split; simpl.
  - rewrite length_app. simpl.
    replace (Z.of_nat (length (mstEdges st) + 1)) with (Z.of_nat (length (mstEdges st)) + 1)
      by lia. exact Huf3.
  - intros e He. apply elem_of_app in He as [He|He]; [apply Hends, He|].
    apply list_elem_of_singleton in He as ->. auto.
  - intros e He. apply elem_of_app in He as [He|He].
    + rewrite (Hsame e He). reflexivity.
    + apply list_elem_of_singleton in He as ->.
      destruct Hwl as [[-> ->]|[-> ->]].
      * rewrite decide_False by exact Hne. rewrite decide_True by reflexivity. reflexivity.
      * rewrite decide_True by reflexivity. rewrite decide_False by congruence. reflexivity.
  - intros x Hx.
    assert (Hold : joined (mstEdges st ++ [edge]) x (rep x)).
    { eapply joined_mono; [|apply Hjoined, Hx]. intros e He. apply elem_of_app. auto. }
    destruct (decide (rep x = l)) as [Heq|_]; [|exact Hold].
    etransitivity; [exact Hold|]. rewrite Heq. exact Hwl'.
  - rewrite length_app. simpl.
    pose proof (filter_length_remove (fun x => rep x = x)
                  (fun x => (if decide (rep x = l) then w else rep x) = x)
                  ns l nodes_once Hlin Hlid) as Hrem.
    rewrite <- Hcount, <- Hrem; [lia|].
    intros x Hx. destruct (decide (rep x = l)) as [Heq|Hnl].
    + split; [intros ->; congruence|]. intros [Hself Hxl]. congruence.
    + split; [intros Hself; split; [exact Hself|congruence]|tauto].
  - intros before e after Heq.
    destruct (decide (after = [])) as [->|Hafter].
    + apply app_inj_tail in Heq as [<- <-]. intros Hj.
      apply Hne. eapply joined_rep; [exact Hsame|exact Hj].
    + destruct (exists_last Hafter) as (after' & e' & ->).
      rewrite app_comm_cons, app_assoc in Heq.
      apply app_inj_tail in Heq as [Heq _]. eapply Hforest, Heq.
  - rewrite Hweight, walkWeight_app. unfold walkWeight at 3. simpl.
    unfold edgeWeight. lia.
Qed.
End Kruskal.

Lemma kruskalLoop_fuel_mono fuel fuel' recordSteps n es :
  (fuel <= fuel')%nat ->
  forall st r, kruskalLoop fuel recordSteps n es st = Some r ->
    kruskalLoop fuel' recordSteps n es st = Some r.
Proof.
  intros Hle. induction es as [|edge es IH]; intros st r H; simpl in *; [exact H|].
  destruct (uf_find fuel (Some (efrom edge)) (k_uf st)) as [[r1 uf1]|] eqn:H1;
    [|discriminate H].
  rewrite (uf_find_fuel_mono _ _ _ _ _ Hle H1). simpl in *.
  destruct (uf_find fuel (Some (eto edge)) uf1) as [[r2 uf2]|] eqn:H2; [|discriminate H].
  rewrite (uf_find_fuel_mono _ _ _ _ _ Hle H2). simpl in *.
  destruct (decide (r1 ≠ r2)); [|apply IH, H].
  destruct (uf_union fuel (Some (efrom edge)) (Some (eto edge)) uf2) as [[b uf3]|] eqn:H3;
    [|discriminate H].
  rewrite (uf_union_fuel_mono _ _ _ _ _ _ Hle H3). simpl in *.
  destruct (_ =? _); [exact H|apply IH, H].
Qed.

Section KruskalLoop.
Variable ns : list NodeId.
Variable recordSteps : bool.
Hypothesis nodes_once : NoDup ns.

(** The loop of [kruskal] returns, with fuel above the number of
    edges; the edges that it adds are edges of its list, and the two
    ends of every edge of its list are joined by the chosen edges. *)
Lemma kruskalLoop_runs fuel es :
  forall rep st,
    kruskalInv ns rep st ->
    (forall e, e ∈ es -> efrom e ∈ ns /\ eto e ∈ ns) ->
    (length (mstEdges st) + length es < fuel)%nat ->
    exists rep' st',
      kruskalLoop fuel recordSteps (length ns) es st = Some st'
      /\ kruskalInv ns rep' st'
      /\ (exists more, mstEdges st' = mstEdges st ++ more /\ forall e, e ∈ more -> e ∈ es)
      /\ (forall e, e ∈ es -> joined (mstEdges st') (efrom e) (eto e)).
Proof.
  induction es as [|edge es IH]; intros rep st Hinv Hends Hfuel.
  - exists rep, st. split; [reflexivity|]. split; [exact Hinv|]. split.
    + exists []. rewrite app_nil_r. split; [reflexivity|auto].
    + intros e He. apply elem_of_nil in He. contradiction.
  - destruct (Hends edge) as [Hfrom Hto]; [left|].
    pose proof (ki_uf _ _ _ Hinv) as Huf.
    simpl in Hfuel. simpl.
    destruct (uf_rank _ _ _ _ Huf _ Hfrom) as (rf & Hrf & Hrf0 & _).
    destruct (uf_find_spec ns _ rep fuel _ _ rf Huf Hfrom Hrf ltac:(lia))
      as (uf1 & Hrun1 & Huf1 & _).
    rewrite Hrun1. simpl.
    destruct (uf_rank _ _ _ _ Huf1 _ Hto) as (rt & Hrt & Hrt0 & _).
    destruct (uf_find_spec ns _ rep fuel _ _ rt Huf1 Hto Hrt ltac:(lia))
      as (uf2 & Hrun2 & Huf2 & _).
    rewrite Hrun2. simpl.
    destruct (decide (Some (rep (efrom edge)) ≠ Some (rep (eto edge)))) as [Hne|Heq].
    + assert (Hne' : rep (efrom edge) ≠ rep (eto edge)) by congruence.
      destruct (uf_union_spec ns _ rep fuel _ _ uf2 Huf2 Hfrom Hto Hne' ltac:(lia))
        as (w & l & uf3 & Hrun3 & Hwl & Huf3).
      rewrite Hrun3. simpl.
      match goal with
      | |- context [mkKruskalState uf3 ?m ?s ?t ?c] =>
          pose proof (kruskalInv_add ns nodes_once rep st uf3 s c edge w l
                        Hinv Hfrom Hto Hne' Hwl Huf3) as Hinv'
      end.
      destruct (_ =? _) eqn:Hbreak.
      * eexists _, _. split; [reflexivity|]. split; [exact Hinv'|]. split.
        -- exists [edge]. split; [reflexivity|]. intros e He.
           apply list_elem_of_singleton in He as ->. left.
        -- apply Z.eqb_eq in Hbreak. simpl.
           pose proof (ki_count _ _ _ Hinv') as Hcount. simpl in Hcount.
           pose proof (ki_uf _ _ _ Hinv') as [Hrep' _ _ _].
           assert (Hall : forall x y, x ∈ ns -> y ∈ ns -> joined (mstEdges st ++ [edge]) x y).
           { intros x y Hx Hy.
             pose proof (ki_joined _ _ _ Hinv' x Hx) as Hjx.
             pose proof (ki_joined _ _ _ Hinv' y Hy) as Hjy. simpl in Hjx, Hjy.
             etransitivity; [exact Hjx|]. apply joined_sym.
             etransitivity; [exact Hjy|].
             match goal with
             | |- joined _ ?a ?b => replace a with b; [apply rtc_refl|]
             end.
             match type of Hcount with
             | (length ?F + _ = _)%nat =>
                 assert (Hone : length F = 1%nat) by lia;
                 apply (length_one_eq F _ _ Hone)
             end; apply list_elem_of_filter; split; apply Hrep'; assumption. }
           intros e He. destruct (Hends e He) as [? ?]. apply Hall; assumption.
      * destruct (IH _ _ Hinv') as (rep'' & st'' & Hrun & Hinv'' & (more & Hmore & Hsub) & Hall).
        { intros e He. apply Hends. right. exact He. }
        { simpl. rewrite length_app. simpl. lia. }
        exists rep'', st''. split; [exact Hrun|]. split; [exact Hinv''|]. split.
        -- exists (edge :: more). simpl in Hmore. rewrite Hmore, <- app_assoc.
           split; [reflexivity|]. intros e He.
           apply elem_of_cons in He as [->|He]; [left|right; apply Hsub, He].
        -- intros e He. apply elem_of_cons in He as [->|He]; [|apply Hall, He].
           apply joined_edge. simpl in Hmore. rewrite Hmore.
           apply elem_of_app. left. apply elem_of_app. right. left.
    + assert (Heq' : rep (efrom edge) = rep (eto edge)).
      { destruct (decide (rep (efrom edge) = rep (eto edge))) as [H|H]; [exact H|].
        exfalso. apply Heq. congruence. }
      match goal with
      | |- context [mkKruskalState uf2 ?m ?s ?t ?c] =>
          pose proof (kruskalInv_skip ns rep st uf2 s c Hinv Huf2) as Hinv'
      end.
      destruct (IH _ _ Hinv') as (rep'' & st'' & Hrun & Hinv'' & (more & Hmore & Hsub) & Hall).
      { intros e He. apply Hends. right. exact He. }
      { simpl. lia. }
      exists rep'', st''. split; [exact Hrun|]. split; [exact Hinv''|]. split.
      * exists more. split; [exact Hmore|]. intros e He. right. apply Hsub, He.
      * intros e He. apply elem_of_cons in He as [->|He]; [|apply Hall, He].
        simpl in Hmore. rewrite Hmore.
        eapply joined_mono; [intros e He; apply elem_of_app; left; exact He|].
        etransitivity; [apply (ki_joined _ _ _ Hinv), Hfrom|].
        rewrite Heq'. apply joined_sym, (ki_joined _ _ _ Hinv), Hto.
Qed.
End KruskalLoop.

(** On a well-formed graph [getEdges] returns edges between nodes. *)
Lemma getEdges_endpoints g :
  wellFormed g ->
  exists es, getEdges g = Ok es
    /\ forall e, e ∈ es -> efrom e ∈ nodes g /\ eto e ∈ nodes g.
Proof.
  intros [Hkeyed Hclosed].
  destruct (getEdgesLoop_scanned g (nodes g) Hkeyed ([], []))
    as ([out seen] & Hrun & [Hfrom _ _ _ _]).
  exists out. split; [exact Hrun|]. intros e He. simpl in Hfrom.
  destruct (Hfrom e He) as [H|(from & n & Hin & ->)];
    [apply elem_of_nil in H; contradiction|].
  apply slotsOfNodes_elem in Hin as [Hx Hn]. simpl. split; [exact Hx|].
  unfold getNeighbors in Hn.
  destruct (adjacencyList g !! String_of from) as [l|] eqn:Hl; simpl in Hn;
    [|apply elem_of_nil in Hn; contradiction].
  eapply Hclosed; eassumption.
Qed.

Lemma newKruskal_inv ns :
  kruskalInv ns (fun x => x) (mkKruskalState (newUnionFind ns) [] [] 0 0).
Proof.
  split; simpl.
  - apply newUnionFind_inv.
  - intros e He. apply elem_of_nil in He. contradiction.
  - intros e He. apply elem_of_nil in He. contradiction.
  - intros x _. apply rtc_refl.
  - rewrite Nat.add_0_r. induction ns as [|x ns IH]; [reflexivity|].
    rewrite filter_cons_True by reflexivity. simpl. now rewrite IH.
  - intros [|b before] e after Heq; discriminate Heq.
  - reflexivity.
Qed.

(** X29. On an undirected well-formed graph whose nodes are listed
    once and whose weights can be added without rounding, [kruskal]
    ends, and its edges are a spanning forest of the edges that
    [getEdges] gives: they are among these edges, none of them joins
    two nodes that the edges chosen before it join already, two nodes
    are joined by the chosen edges exactly when they are joined by the
    edges of the graph, and [totalWeight] is the sum of the weights of
    the chosen edges. *)
Theorem kruskal_spanning_forest (g : Graph) (recordSteps : bool) :
  isDirected g = false -> wellFormed g -> NoDup (nodes g) ->
  safeWeights g (length (nodes g)) ->
  exists es r N,
    getEdges g = Ok es
    /\ (forall fuel, (N <= fuel)%nat -> kruskal fuel g recordSteps = Ok (Some r))
    /\ totalWeight r = walkWeight (t_edges r)
    /\ (forall e, e ∈ t_edges r -> e ∈ es)
    /\ (forall before e after, t_edges r = before ++ e :: after ->
          ~ joined before (efrom e) (eto e))
    /\ (forall x y, joined (t_edges r) x y <-> joined es x y).
Proof.
  intros Hdir Hwf Hnd _.
  destruct (getEdges_endpoints g Hwf) as (es & Hes & Hends).
  set (sorted := sortBy (fun e => default 1 (eweight e)) es).
  assert (Hperm : sorted ≡ₚ es) by apply sortBy_Permutation.
  set (N := S (length sorted)).
  destruct (kruskalLoop_runs (nodes g) recordSteps Hnd N sorted _ _
              (newKruskal_inv (nodes g)))
    as (rep & st & Hrun & Hinv & (more & Hmore & Hsub) & Hall).
  { intros e He. apply Hends. rewrite <- Hperm. exact He. }
  { simpl. unfold N. lia. }
  simpl in Hmore.
  assert (Hin : forall e, e ∈ mstEdges st -> e ∈ es).
  { intros e He. rewrite Hmore in He. rewrite <- Hperm. apply Hsub, He. }
  exists es, (mkSpanningTreeResult (mstEdges st) (k_totalWeight st)
                (if recordSteps then Some (k_steps st) else None)), N.
  split; [exact Hes|]. split; [|split; [|split; [|split]]]; simpl.
  - intros fuel Hfuel. unfold kruskal. rewrite Hdir, Hes. simpl. fold sorted.
    unfold getNodes.
    rewrite (kruskalLoop_fuel_mono N fuel _ _ _ Hfuel _ _ Hrun). reflexivity.
  - apply (ki_weight _ _ _ Hinv).
  - exact Hin.
  - apply (ki_forest _ _ _ Hinv).
  - intros x y. split; [apply joined_mono, Hin|].
    intros H. induction H as [x|x z y (e & He & Hxy) _ IH]; [apply rtc_refl|].
    etransitivity; [|exact IH].
    assert (Hj : joined (mstEdges st) (efrom e) (eto e))
      by (apply Hall; rewrite Hperm; exact He).
    destruct Hxy as [[<- <-]|[<- <-]]; [exact Hj|apply joined_sym, Hj].
Qed.

Lemma kruskal_spanning_forest_witness :
  exists g, buildGraphFromData pathData = Ok g
    /\ exists es r N,
         getEdges g = Ok es
         /\ (forall fuel, (N <= fuel)%nat -> kruskal fuel g true = Ok (Some r))
         /\ totalWeight r = walkWeight (t_edges r)
         /\ (forall e, e ∈ t_edges r -> e ∈ es)
         /\ (forall before e after, t_edges r = before ++ e :: after ->
               ~ joined before (efrom e) (eto e))
         /\ (forall x y, joined (t_edges r) x y <-> joined es x y).
Proof.
  destruct (addEdges_keeps_wellFormed (d_edges pathData)
              (addNodes (d_nodes pathData) (newGraph (d_config pathData))))
    as (g & Hrun & Hwf & _ & Hnd & _).
  { apply addNodes_wellFormed; [apply newGraph_wellFormed|apply NoDup_nil_2]. }
  { left. reflexivity. }
  exists g. split; [exact Hrun|].
  assert (Hnodup : NoDup (nodes g))
    by (apply Hnd, addNodes_wellFormed; [apply newGraph_wellFormed|apply NoDup_nil_2]).
  vm_compute in Hrun. injection Hrun as <-.
  apply kruskal_spanning_forest; [reflexivity|exact Hwf|exact Hnodup|].
  safe_weights 1.
Defined.

(** ** Dijkstra's algorithm *)

Lemma insertBy_ascending x l : ascending l -> ascending (insertBy snd x l).
Proof.
  induction l as [|y l IH]; simpl.
  - intros _. split; [|exact I]. intros b Hb. apply elem_of_nil in Hb. contradiction.
  - intros [Hy Hl]. destruct (x.2 <? y.2) eqn:Hlt.
    + apply Z.ltb_lt in Hlt. simpl. split; [|split; assumption].
      intros b Hb. apply elem_of_cons in Hb as [->|Hb]; [lia|].
      specialize (Hy b Hb). lia.
    + apply Z.ltb_ge in Hlt. simpl. split; [|apply IH, Hl].
      intros b Hb. rewrite insertBy_Permutation in Hb.
      apply elem_of_cons in Hb as [->|Hb]; [exact Hlt|apply Hy, Hb].
Qed.

Lemma sortBy_ascending l : ascending (sortBy snd l).
Proof.
  unfold sortBy.
  assert (H : forall acc, ascending acc ->
            ascending (foldl (fun acc x => insertBy snd x acc) acc l)).
  { induction l as [|x l IH]; intros acc Hacc; simpl; [exact Hacc|].
    apply IH, insertBy_ascending, Hacc. }
  apply H. exact I.
Qed.

Lemma elem_of_enqueue e p items a :
  a ∈ enqueue e p items <-> a = (e, p) \/ a ∈ items.
Proof.
  unfold enqueue. rewrite sortBy_Permutation, elem_of_app, list_elem_of_singleton. tauto.
Qed.

Lemma enqueue_length e p items : length (enqueue e p items) = S (length items).
Proof.
  unfold enqueue. rewrite sortBy_Permutation, length_app. simpl. lia.
Qed.

Lemma routeWeight_app p q : routeWeight (p ++ q) = routeWeight p + routeWeight q.
Proof. unfold routeWeight. induction p as [|n p IH]; simpl; [reflexivity|]. lia. Qed.

Lemma isRoute_snoc g x p y n :
  isRoute g x p y -> n ∈ getNeighbors y g -> isRoute g x (p ++ [n]) (node n).
Proof.
  revert x. induction p as [|m p IH]; intros x; simpl.
  - intros -> Hn. auto.
  - intros [Hm Hp] Hn. split; [exact Hm|]. apply IH; assumption.
Qed.

(** The invariant reads four of the variables only. *)
Lemma dijkstraInv_ext g start todo st st' :
  dj_distances st' = dj_distances st -> dj_previous st' = dj_previous st ->
  dj_items st' = dj_items st -> dj_visited st' = dj_visited st ->
  dijkstraInv g start todo st -> dijkstraInv g start todo st'.
Proof.
  destruct st, st'. simpl. intros -> -> -> -> [? ? ? ? ? ? ? ? ? ? ? ? ?].
  split; assumption.
Qed.

Section Dijkstra.
Variable g : Graph.
Variable start : NodeId.
Variable recordSteps : bool.
Hypothesis closed : closedTargets g.
Hypothesis nonneg : forall x n, n ∈ getNeighbors x g -> 0 <= weight n.

Lemma neighbor_known x n : n ∈ getNeighbors x g -> known g start (node n).
Proof.
  intros Hn. right. unfold getNeighbors in Hn.
  destruct (adjacencyList g !! String_of x) as [l|] eqn:Hl; simpl in Hn;
    [|apply elem_of_nil in Hn; contradiction].
  eapply closed; eassumption.
Qed.

Lemma routeWeight_nonneg p : forall x y, isRoute g x p y -> 0 <= routeWeight p.
Proof.
  induction p as [|n p IH]; intros x y; simpl; [unfold routeWeight; simpl; lia|].
  intros [Hn Hp]. specialize (IH _ _ Hp). specialize (nonneg _ _ Hn).
  unfold routeWeight in *. simpl. lia.
Qed.

(** One round of the loop over the neighbors of the current node
    [c], the farthest of the visited nodes. *)
Lemma relaxNeighbor_inv c dc st n todo :
  dijkstraInv g start ((c, n) :: todo) st ->
  c ∈ dj_visited st ->
  mapGet c (dj_distances st) = Some (Fin dc) ->
  (forall u du, u ∈ dj_visited st -> mapGet u (dj_distances st) = Some (Fin du) -> du <= dc) ->
  n ∈ getNeighbors c g ->
  let st' := relaxNeighbor recordSteps c (Some (Fin dc)) st n in
  dijkstraInv g start todo st'
  /\ dj_visited st' = dj_visited st
  /\ (forall u, u ∈ dj_visited st ->
        mapGet u (dj_distances st') = mapGet u (dj_distances st))
  /\ (length (dj_items st') <= S (length (dj_items st)))%nat.
Proof.
  intros Hinv Hc Hdc Hmax Hn.
  pose proof Hinv as [Hkeys Hstart Hroute Hprev Hbefore Hhas Hvis Hnd Hord Hitems Hsorted
                        Hpend Hsettled].
  destruct (proj2 (Hkeys (node n)) (neighbor_known c n Hn)) as [old Hold].
  pose proof (nonneg _ _ Hn) as Hw.
  destruct (Hroute c dc Hdc) as (pc & Hpc & Hpcw).
  pose proof (routeWeight_nonneg _ _ _ Hpc) as Hdc0.
  assert (Hskip : distLt (Fin (dc + weight n)) old = false ->
    forall st2, dj_distances st2 = dj_distances st -> dj_previous st2 = dj_previous st ->
      dj_items st2 = dj_items st -> dj_visited st2 = dj_visited st ->
      dijkstraInv g start todo st2
      /\ dj_visited st2 = dj_visited st
      /\ (forall u, u ∈ dj_visited st ->
            mapGet u (dj_distances st2) = mapGet u (dj_distances st))
      /\ (length (dj_items st2) <= S (length (dj_items st)))%nat).
  { intros Hlt st2 HD HP HI HV.
    split; [|split; [exact HV|split; [intros u _; rewrite HD; reflexivity|rewrite HI; lia]]].
    apply (dijkstraInv_ext g start todo st st2 HD HP HI HV).
    split; try assumption.
    intros u n' du Hu Hn' Hdu.
    destruct (Hsettled u n' du Hu Hn' Hdu) as [Hin|Hok]; [|auto].
    apply elem_of_cons in Hin as [[= -> ->]|Hin]; [|auto].
    right. rewrite Hdc in Hdu. injection Hdu as <-.
    destruct old as [o|]; [|discriminate Hlt]. simpl in Hlt. apply Z.ltb_ge in Hlt.
    exists o. auto. }
  unfold relaxNeighbor. cbv zeta. simpl fmap. rewrite Hold.
  change (distAdd (Fin dc) (weight n)) with (Fin (dc + weight n)). cbv iota beta.
  destruct (distLt (Fin (dc + weight n)) old) eqn:Hlt.
  2:{ destruct recordSteps; apply (Hskip eq_refl); reflexivity. }
  clear Hskip. set (x := node n) in *. set (z := dc + weight n) in *.
  assert (Hxv : x ∉ dj_visited st).
  { intros Hx. destruct (Hvis x Hx) as (dx & Hdx).
    pose proof (Hmax x dx Hx Hdx). rewrite Hdx in Hold. injection Hold as <-.
    simpl in Hlt. apply Z.ltb_lt in Hlt. lia. }
  assert (Hxs : x ≠ start).
  { intros Heq. rewrite Heq, Hstart in Hold. injection Hold as <-.
    simpl in Hlt. apply Z.ltb_lt in Hlt. lia. }
  assert (Hxc : x ≠ c) by (intros Heq; apply Hxv; rewrite Heq; exact Hc).
  assert (Hless : forall o, mapGet x (dj_distances st) = Some (Fin o) -> z < o).
  { intros o Ho. rewrite Ho in Hold. injection Hold as <-.
    simpl in Hlt. apply Z.ltb_lt in Hlt. exact Hlt. }
  split; [|split; [reflexivity|split]].
  - split; simpl.
    + intros y. rewrite mapGet_mapSet. destruct (decide (x = y)) as [<-|Hne]; [|apply Hkeys].
      split; [intros _; apply (neighbor_known c n Hn)|eauto].
    + rewrite mapGet_mapSet, decide_False by exact Hxs. exact Hstart.
    + intros v zv. rewrite mapGet_mapSet. destruct (decide (x = v)) as [<-|Hne]; [|apply Hroute].
      intros [= <-]. exists (pc ++ [n]). split; [exact (isRoute_snoc g start pc c n Hpc Hn)|].
      rewrite routeWeight_app, Hpcw. unfold routeWeight. simpl. unfold z. lia.
    + intros v u. rewrite mapGet_mapSet. destruct (decide (x = v)) as [<-|Hne].
      * intros [= <-]. split; [exact Hxs|]. split; [exact Hc|].
        exists n, dc. split; [exact Hn|]. split; [reflexivity|].
        rewrite !mapGet_mapSet, decide_False by exact Hxc.
        rewrite decide_True by reflexivity. auto.
      * intros Hu. destruct (Hprev v u Hu) as (Hvs & Huv & n' & du & Hn' & Hnode & Hdu & Hdv).
        split; [exact Hvs|]. split; [exact Huv|]. exists n', du.
        split; [exact Hn'|]. split; [exact Hnode|].
        rewrite !mapGet_mapSet, decide_False by (intros Heq; apply Hxv; rewrite Heq; exact Huv).
        rewrite decide_False by exact Hne. auto.
    + intros v u V1 V2. rewrite mapGet_mapSet. destruct (decide (x = v)) as [<-|Hne].
      * intros _ HV. exfalso. apply Hxv. rewrite HV. apply elem_of_app. right. left.
      * apply Hbefore.
    + intros v zv. rewrite !mapGet_mapSet. destruct (decide (x = v)) as [<-|Hne]; [eauto|].
      apply Hhas.
    + intros v Hv. rewrite mapGet_mapSet, decide_False
        by (intros Heq; apply Hxv; rewrite Heq; exact Hv). apply Hvis, Hv.
    + exact Hnd.
    + intros u y du dy Hu Hy. rewrite !mapGet_mapSet.
      rewrite decide_False by (intros Heq; apply Hxv; rewrite Heq; exact Hu).
      intros Hdu. destruct (decide (x = y)) as [<-|Hne]; [|apply (Hord u y); assumption].
      intros [= <-]. pose proof (Hmax u du Hu Hdu). unfold z. lia.
    + intros y p Hy. apply elem_of_enqueue in Hy as [[= -> ->]|Hy].
      * exists z. rewrite mapGet_mapSet, decide_True by reflexivity. split; [reflexivity|lia].
      * destruct (Hitems y p Hy) as (zy & Hzy & Hle). rewrite mapGet_mapSet.
        destruct (decide (x = y)) as [<-|Hne]; [|eauto].
        exists z. split; [reflexivity|]. pose proof (Hless zy Hzy). lia.
    + apply sortBy_ascending.
    + intros y zy Hy. rewrite mapGet_mapSet. destruct (decide (x = y)) as [<-|Hne].
      * intros [= <-]. apply elem_of_enqueue. auto.
      * intros Hzy. apply elem_of_enqueue. right. apply Hpend; assumption.
    + intros u n' du Hu Hn'.
      rewrite mapGet_mapSet, decide_False by (intros Heq; apply Hxv; rewrite Heq; exact Hu).
      intros Hdu. rewrite mapGet_mapSet.
      destruct (Hsettled u n' du Hu Hn' Hdu) as [Hin|(dv & Hdv & Hle)].
      * apply elem_of_cons in Hin as [[= -> ->]|Hin]; [|auto].
        right. fold x. rewrite decide_True by reflexivity.
        rewrite Hdc in Hdu. injection Hdu as <-. exists z. split; [reflexivity|unfold z; lia].
      * right. destruct (decide (x = node n')) as [Heq|Hne]; [|eauto].
        exists z. split; [reflexivity|]. rewrite <- Heq in Hdv. pose proof (Hless dv Hdv). lia.
  - intros u Hu. simpl. rewrite mapGet_mapSet, decide_False
      by (intros Heq; apply Hxv; rewrite Heq; exact Hu). reflexivity.
  - simpl. rewrite enqueue_length. lia.
Qed.
End Dijkstra.


Section DijkstraLoop.
Variable g : Graph.
Variable start : NodeId.
Variable recordSteps : bool.
Hypothesis closed : closedTargets g.
Hypothesis nonneg : forall x n, n ∈ getNeighbors x g -> 0 <= weight n.

(** The loop over the neighbors of the current node. *)
Lemma relaxAll_inv c dc ns :
  forall st,
    (forall n, n ∈ ns -> n ∈ getNeighbors c g) ->
    dijkstraInv g start ((fun n => (c, n)) <$> ns) st ->
    c ∈ dj_visited st ->
    mapGet c (dj_distances st) = Some (Fin dc) ->
    (forall u du, u ∈ dj_visited st -> mapGet u (dj_distances st) = Some (Fin du) ->
       du <= dc) ->
    let st' := foldl (relaxNeighbor recordSteps c (Some (Fin dc))) st ns in
    dijkstraInv g start [] st'
    /\ dj_visited st' = dj_visited st
    /\ (length (dj_items st') <= length (dj_items st) + length ns)%nat.
Proof.
  induction ns as [|n ns IH]; intros st Hsub Hinv Hc Hdc Hmax.
  - simpl. split; [exact Hinv|]. split; [reflexivity|lia].
  - simpl. destruct (relaxNeighbor_inv g start recordSteps closed nonneg c dc st n _
                       Hinv Hc Hdc Hmax) as (Hinv1 & HV & HD & Hlen).
    { apply Hsub. left. }
    destruct (IH (relaxNeighbor recordSteps c (Some (Fin dc)) st n)) as (Hinv2 & HV2 & Hlen2).
    + intros m Hm. apply Hsub. right. exact Hm.
    + exact Hinv1.
    + rewrite HV. exact Hc.
    + rewrite (HD c Hc). exact Hdc.
    + intros u du. rewrite HV. intros Hu. rewrite (HD u Hu). apply Hmax, Hu.
    + split; [exact Hinv2|]. split; [congruence|lia].
Qed.

(** Dropping the head of the queue when its node is visited. *)
Lemma dijkstraInv_drop st c p rest :
  dijkstraInv g start [] st -> dj_items st = (c, p) :: rest -> c ∈ dj_visited st ->
  dijkstraInv g start []
    (mkDijkstraState (dj_distances st) (dj_previous st) rest (dj_visited st)
       (dj_steps st) (dj_stepCount st)).
Proof.
  intros [Hkeys Hstart Hroute Hprev Hbefore Hhas Hvis Hnd Hord Hitems Hsorted Hpend Hsettled]
         Hq Hc.
  rewrite Hq in *. split; simpl; try assumption.
  - intros x q Hx. apply Hitems. right. exact Hx.
  - apply Hsorted.
  - intros x z Hx Hz. specialize (Hpend x z Hx Hz).
    apply elem_of_cons in Hpend as [[= -> ->]|H]; [contradiction|exact H].
Qed.

(** Visiting the node at the head of the queue: it is the nearest
    of the nodes that are not visited. *)
Lemma dijkstraInv_visit st c p rest steps count :
  dijkstraInv g start [] st -> dj_items st = (c, p) :: rest -> c ∉ dj_visited st ->
  exists dc,
    mapGet c (dj_distances st) = Some (Fin dc)
    /\ dijkstraInv g start ((fun n => (c, n)) <$> getNeighbors c g)
         (mkDijkstraState (dj_distances st) (dj_previous st) rest
            (setAdd c (dj_visited st)) steps count)
    /\ (forall u du, u ∈ setAdd c (dj_visited st) ->
          mapGet u (dj_distances st) = Some (Fin du) -> du <= dc).
Proof.
  intros [Hkeys Hstart Hroute Hprev Hbefore Hhas Hvis Hnd Hord Hitems Hsorted Hpend Hsettled]
         Hq Hc.
  rewrite Hq in *. destruct (Hitems c p) as (dc & Hdc & Hle); [left|].
  exists dc. split; [exact Hdc|].
  rewrite (setAdd_fresh c _ Hc).
  assert (Hmin : forall x dx, x ∉ dj_visited st ->
            mapGet x (dj_distances st) = Some (Fin dx) -> dc <= dx).
  { intros x dx Hx Hdx. specialize (Hpend x dx Hx Hdx).
    apply elem_of_cons in Hpend as [[= -> ->]|H]; [lia|].
    destruct Hsorted as [Hhead _]. specialize (Hhead _ H). simpl in Hhead. lia. }
  split; [split; simpl; try assumption|].
  - intros v u Hu. destruct (Hprev v u Hu) as (Hvs & Huv & H).
    split; [exact Hvs|]. split; [apply elem_of_app; auto|exact H].
  - intros v u V1 V2 Hu HV.
    destruct (decide (V2 = [])) as [->|HV2].
    + apply app_inj_tail in HV as [<- _]. apply (Hprev v u Hu).
    + destruct (exists_last HV2) as (V2' & last & ->).
      rewrite app_comm_cons, app_assoc in HV. apply app_inj_tail in HV as [HV _].
      eapply Hbefore; eassumption.
  - intros v Hv. apply elem_of_app in Hv as [Hv|Hv]; [apply Hvis, Hv|].
    apply list_elem_of_singleton in Hv as ->. eauto.
  - apply NoDup_app. split; [exact Hnd|]. split; [|apply NoDup_singleton].
    intros x Hx Hx'. apply list_elem_of_singleton in Hx' as ->. contradiction.
  - intros u x du dx Hu Hx Hdu Hdx.
    assert (Hx' : x ∉ dj_visited st) by (intros H; apply Hx, elem_of_app; auto).
    apply elem_of_app in Hu as [Hu|Hu]; [eapply Hord; eassumption|].
    apply list_elem_of_singleton in Hu as ->. rewrite Hdc in Hdu. injection Hdu as <-.
    eapply Hmin; eassumption.
  - intros x q Hx. apply Hitems. right. exact Hx.
  - apply Hsorted.
  - intros x z Hx Hz.
    assert (Hx' : x ∉ dj_visited st) by (intros H; apply Hx, elem_of_app; auto).
    specialize (Hpend x z Hx' Hz).
    apply elem_of_cons in Hpend as [[= -> ->]|H]; [|exact H].
    exfalso. apply Hx, elem_of_app. right. left.
  - intros u n du Hu Hn Hdu. apply elem_of_app in Hu as [Hu|Hu].
    + destruct (Hsettled u n du Hu Hn Hdu) as [H|H]; [|auto].
      apply elem_of_nil in H. contradiction.
    + apply list_elem_of_singleton in Hu as ->. left.
      apply list_elem_of_fmap. eauto.
  - intros u du Hu Hdu. apply elem_of_app in Hu as [Hu|Hu].
    + eapply Hord; eassumption.
    + apply list_elem_of_singleton in Hu as ->. rewrite Hdc in Hdu. injection Hdu as <-. lia.
Qed.

Local Abbreviation U := (start :: nodes g).

(** The node at the head of the queue, when it is not visited, is
    as far as any route to it is heavy. *)
Lemma head_optimal st c p rest dc :
  dijkstraInv g start [] st -> dj_items st = (c, p) :: rest -> c ∉ dj_visited st ->
  mapGet c (dj_distances st) = Some (Fin dc) ->
  forall q, isRoute g start q c -> dc <= routeWeight q.
Proof.
  intros Hinv Hq Hc Hdc.
  pose proof Hinv as [Hkeys Hstart Hroute Hprev Hbefore Hhas Hvis Hnd Hord Hitems Hsorted
                        Hpend Hsettled].
  rewrite Hq in *.
  assert (Hmin : forall x dx, x ∉ dj_visited st ->
            mapGet x (dj_distances st) = Some (Fin dx) -> dc <= dx).
  { intros x dx Hx Hdx. specialize (Hpend x dx Hx Hdx).
    destruct (Hitems c p) as (dc' & Hdc' & Hle); [left|].
    rewrite Hdc in Hdc'. injection Hdc' as <-.
    apply elem_of_cons in Hpend as [[= -> ->]|H]; [lia|].
    destruct Hsorted as [Hhead _]. specialize (Hhead _ H). simpl in Hhead. lia. }
  assert (Hgo : forall q x dx, x ∈ dj_visited st ->
            mapGet x (dj_distances st) = Some (Fin dx) ->
            isRoute g x q c -> dc <= dx + routeWeight q).
  { induction q as [|n q IH]; intros x dx Hx Hdx; simpl.
    - intros ->. contradiction.
    - intros [Hn Hr].
      destruct (Hsettled x n dx Hx Hn Hdx) as [H|(dn & Hdn & Hle)];
        [apply elem_of_nil in H; contradiction|].
      pose proof (routeWeight_nonneg g nonneg _ _ _ Hr) as Hq0.
      unfold routeWeight in *. simpl.
      destruct (decide (node n ∈ dj_visited st)) as [Hv|Hv].
      + specialize (IH _ _ Hv Hdn Hr). lia.
      + specialize (Hmin _ _ Hv Hdn). lia. }
  intros q Hr. destruct (decide (start ∈ dj_visited st)) as [Hs|Hs].
  - specialize (Hgo q start 0 Hs Hstart Hr). lia.
  - specialize (Hmin start 0 Hs Hstart).
    pose proof (routeWeight_nonneg g nonneg _ _ _ Hr). lia.
Qed.

(** The loop ends: with an empty queue, or at the [end] node, which
    is then visited and at its final distance. *)
Lemma dijkstraLoop_runs fuel target :
  forall st,
    dijkstraInv g start [] st ->
    (pending g U (dj_visited st) + length (dj_items st) < fuel)%nat ->
    exists st', dijkstraLoop fuel g target recordSteps st = Some st'
      /\ ((dijkstraInv g start [] st' /\ dj_items st' = [])
          \/ exists e de todo,
               target = Some e /\ dijkstraInv g start todo st'
               /\ e ∈ dj_visited st'
               /\ mapGet e (dj_distances st') = Some (Fin de)
               /\ forall q, isRoute g start q e -> de <= routeWeight q).
Proof.
  induction fuel as [|fuel IH]; intros st Hinv Hm; [lia|].
  simpl. destruct (dj_items st) as [|[c p] rest] eqn:Hq.
  - exists st. auto.
  - simpl in Hm. destruct (decide (c ∈ dj_visited st)) as [Hc|Hc].
    + apply IH; [eapply dijkstraInv_drop; eassumption|simpl; lia].
    + match goal with
      | |- context [mkDijkstraState _ _ rest _ ?s ?k] =>
          destruct (dijkstraInv_visit st c p rest s k Hinv Hq Hc) as (dc & Hdc & Hinv1 & Hmax)
      end.
      destruct (decide (target = Some c)) as [Ht|_].
      { eexists. split; [reflexivity|]. right. exists c, dc, ((fun n => (c, n)) <$> getNeighbors c g).
        split; [exact Ht|]. split; [exact Hinv1|]. simpl.
        split; [apply elem_of_setAdd; auto|]. split; [exact Hdc|].
        eapply head_optimal; eassumption. }
      rewrite Hdc. destruct (decide (Some (Fin dc) = Some Infinity)) as [Habs|_];
        [discriminate Habs|].
      match goal with
      | |- context [foldl _ ?st1 _] =>
          destruct (relaxAll_inv c dc (getNeighbors c g) st1) as (Hinv2 & HV & Hlen);
            [auto|exact Hinv1|simpl; apply elem_of_setAdd; auto|exact Hdc|exact Hmax|]
      end.
      simpl in HV, Hlen.
      apply IH; [exact Hinv2|]. rewrite HV.
      assert (HcU : c ∈ U).
      { destruct (proj1 (di_keys _ _ _ _ Hinv c)) as [->|H]; [eauto|left|right; exact H]. }
      pose proof (pending_setAdd g U (dj_visited st) c HcU Hc). lia.
Qed.

Lemma dijkstraLoop_fuel_mono fuel :
  forall fuel' target st r, (fuel <= fuel')%nat ->
    dijkstraLoop fuel g target recordSteps st = Some r ->
    dijkstraLoop fuel' g target recordSteps st = Some r.
Proof.
  induction fuel as [|fuel IH]; intros fuel' target st r Hle H; [discriminate H|].
  destruct fuel' as [|fuel']; [lia|]. simpl in *.
  destruct (dj_items st) as [|[c p] rest]; [exact H|].
  destruct (decide (c ∈ dj_visited st)); [apply IH; [lia|exact H]|].
  destruct (decide (target = Some c)); [exact H|].
  destruct (decide (mapGet c (dj_distances st) = Some Infinity));
    (apply IH; [lia|exact H]).
Qed.
End DijkstraLoop.


(** The state in which the loop of [dijkstra] starts. *)
Lemma dijkstra_init_inv g start :
  dijkstraInv g start []
    (mkDijkstraState (bfInit (getNodes g) start).1 (bfInit (getNodes g) start).2
       (enqueue start 0 []) [] [] 0).
Proof.
  assert (Hfin : forall v z, mapGet v (bfInit (getNodes g) start).1 = Some (Fin z) ->
            v = start /\ z = 0).
  { intros v z. rewrite bfInit_distances.
    destruct (decide (start = v)) as [->|_]; [intros [= <-]; auto|].
    destruct (decide (v ∈ getNodes g)); discriminate. }
  split; cbn [dj_distances dj_previous dj_items dj_visited].
  - intros x. rewrite bfInit_distances. unfold known, getNodes.
    destruct (decide (start = x)) as [->|Hne]; [split; eauto|].
    destruct (decide (x ∈ nodes g)) as [Hin|Hout]; [split; eauto|].
    split; [intros [? H]; discriminate H | intros [->|H]; contradiction].
  - rewrite bfInit_distances, decide_True by reflexivity. reflexivity.
  - intros v z Hv. destruct (Hfin v z Hv) as [-> ->]. exists []. split; reflexivity.
  - intros v u Hu. exfalso. eapply bfInit_no_previous, Hu.
  - intros v u V1 V2 Hu. exfalso. eapply bfInit_no_previous, Hu.
  - intros v z Hv. left. apply (Hfin v z Hv).
  - intros v Hv. apply elem_of_nil in Hv. contradiction.
  - apply NoDup_nil_2.
  - intros u x du dx Hu. apply elem_of_nil in Hu. contradiction.
  - intros x p Hx. apply elem_of_enqueue in Hx as [[= -> ->]|Hx];
      [|apply elem_of_nil in Hx; contradiction].
    exists 0. rewrite bfInit_distances, decide_True by reflexivity. split; [reflexivity|lia].
  - apply sortBy_ascending.
  - intros x z _ Hx. destruct (Hfin x z Hx) as [-> ->]. apply elem_of_enqueue. auto.
  - intros u n du Hu. apply elem_of_nil in Hu. contradiction.
Qed.

Section DijkstraPaths.
Variable g : Graph.
Variable start : NodeId.
Variable st : DijkstraState.
Variable todo : list (NodeId * Neighbor).
Hypothesis inv : dijkstraInv g start todo st.

(** The loop of [reconstructPath] from a visited node follows the
    entries of [previous] back to the start, along a route whose
    weight is the distance of the node. *)
Lemma reconstructLoop_route k :
  forall V1 c V2 z fuel acc,
    dj_visited st = V1 ++ c :: V2 -> (length V1 <= k)%nat ->
    mapGet c (dj_distances st) = Some (Fin z) -> (k < fuel)%nat ->
    exists q, isRoute g start q c /\ routeWeight q = z
      /\ reconstructLoop fuel (dj_previous st) start (Some c) acc
         = Some (routeNodes start q ++ acc).
Proof.
  induction k as [|k IH]; intros V1 c V2 z fuel acc HV Hlen Hc Hfuel;
    (destruct fuel as [|fuel]; [lia|]); simpl;
    destruct (decide (c = start)) as [->|Hne].
  1,3: exists []; split; [reflexivity|]; split; [|reflexivity];
       rewrite (di_start _ _ _ _ inv) in Hc; injection Hc as <-; reflexivity.
  - destruct (di_has_previous _ _ _ _ inv c z Hc) as [->|[u Hu]]; [contradiction|].
    pose proof (di_before _ _ _ _ inv c u V1 V2 Hu HV) as Hin.
    destruct V1; [apply elem_of_nil in Hin; contradiction|simpl in Hlen; lia].
  - destruct (di_has_previous _ _ _ _ inv c z Hc) as [->|[u Hu]]; [contradiction|].
    rewrite Hu. simpl.
    pose proof (di_before _ _ _ _ inv c u V1 V2 Hu HV) as Hin.
    destruct (di_previous _ _ _ _ inv c u Hu) as (_ & _ & n & du & Hn & Hnode & Hdu & Hdc).
    apply list_elem_of_split in Hin as (A & B & ->).
    destruct (IH A u (B ++ c :: V2) du fuel (c :: acc)) as (q & Hq & Hw & Hrun).
    + rewrite HV, <- app_assoc. reflexivity.
    + rewrite length_app in Hlen. simpl in Hlen. lia.
    + exact Hdu.
    + lia.
    + exists (q ++ [n]). split; [|split].
      * rewrite <- Hnode. exact (isRoute_snoc g start q u n Hq Hn).
      * rewrite routeWeight_app, Hw. unfold routeWeight. simpl.
        rewrite Hc in Hdc. injection Hdc as ->. lia.
      * rewrite Hrun. unfold routeNodes. rewrite map_app. simpl.
        rewrite Hnode, <- app_assoc. reflexivity.
Qed.

(** What [reconstructPath] returns for a visited node. *)
Lemma reconstructPath_visited fuel nd z :
  nd ∈ dj_visited st -> mapGet nd (dj_distances st) = Some (Fin z) ->
  (length (dj_visited st) < fuel)%nat ->
  exists q, isRoute g start q nd /\ routeWeight q = z
    /\ reconstructPath fuel (dj_previous st) start nd = Some (routeNodes start q).
Proof.
  intros Hin Hd Hfuel. apply list_elem_of_split in Hin as (V1 & V2 & HV).
  destruct (reconstructLoop_route (length V1) V1 nd V2 z fuel [] HV ltac:(lia) Hd)
    as (q & Hq & Hw & Hrun).
  { rewrite HV, length_app in Hfuel. simpl in Hfuel. lia. }
  exists q. split; [exact Hq|]. split; [exact Hw|].
  unfold reconstructPath. rewrite Hrun. simpl. rewrite decide_True by reflexivity.
  rewrite app_nil_r. reflexivity.
Qed.

(** What it returns for a node that has no finite distance. *)
Lemma reconstructPath_unreached fuel nd :
  (forall z, mapGet nd (dj_distances st) ≠ Some (Fin z)) -> (2 <= fuel)%nat ->
  reconstructPath fuel (dj_previous st) start nd = Some [].
Proof.
  intros Hd Hfuel. destruct fuel as [|[|fuel]]; [lia..|].
  assert (Hne : nd ≠ start).
  { intros ->. apply (Hd 0), (di_start _ _ _ _ inv). }
  unfold reconstructPath. simpl. rewrite decide_False by exact Hne.
  assert (Hprev : default None (mapGet nd (dj_previous st)) = None).
  { destruct (mapGet nd (dj_previous st)) as [[u|]|] eqn:Hu; [|reflexivity..].
    destruct (di_previous _ _ _ _ inv nd u Hu) as (_ & _ & n & du & _ & _ & _ & Hdv).
    exfalso. eapply Hd, Hdv. }
  rewrite Hprev. simpl. rewrite decide_False by exact Hne. reflexivity.
Qed.
End DijkstraPaths.

Section DijkstraEmptied.
Variable g : Graph.
Variable start : NodeId.
Variable st : DijkstraState.
Hypothesis nonneg : forall x n, n ∈ getNeighbors x g -> 0 <= weight n.
Hypothesis inv : dijkstraInv g start [] st.
Hypothesis done : dj_items st = [].

(** When the queue is empty the nodes at a finite distance are
    visited. *)
Lemma finite_visited v z :
  mapGet v (dj_distances st) = Some (Fin z) -> v ∈ dj_visited st.
Proof.
  intros Hv. destruct (decide (v ∈ dj_visited st)) as [H|H]; [exact H|].
  pose proof (di_pending _ _ _ _ inv v z H Hv) as Hin. rewrite done in Hin.
  apply elem_of_nil in Hin. contradiction.
Qed.

(** No route is lighter than the distance of its end. *)
Lemma distance_below_routes q :
  forall x dx v, mapGet x (dj_distances st) = Some (Fin dx) ->
    isRoute g x q v ->
    exists dv, mapGet v (dj_distances st) = Some (Fin dv) /\ dv <= dx + routeWeight q.
Proof.
  induction q as [|n q IH]; intros x dx v Hx; simpl.
  - intros <-. exists dx. split; [exact Hx|]. unfold routeWeight. simpl. lia.
  - intros [Hn Hq].
    destruct (di_settled _ _ _ _ inv x n dx (finite_visited x dx Hx) Hn Hx)
      as [H|(dn & Hdn & Hle)]; [apply elem_of_nil in H; contradiction|].
    destruct (IH (node n) dn v Hdn Hq) as (dv & Hdv & Hle').
    exists dv. split; [exact Hdv|]. unfold routeWeight in *. simpl. lia.
Qed.

(** The distance and the path of a node when the queue is empty. *)
Lemma emptied_shortest fuel nd :
  (S (length (dj_visited st)) < fuel)%nat ->
  exists p, reconstructPath fuel (dj_previous st) start nd = Some p
    /\ shortestTo g start nd (mapGet nd (dj_distances st)) p.
Proof.
  intros Hfuel. unfold shortestTo.
  assert (Hnone : (forall z, mapGet nd (dj_distances st) ≠ Some (Fin z)) ->
            reconstructPath fuel (dj_previous st) start nd = Some []
            /\ forall q, ~ isRoute g start q nd).
  { intros Hd. split; [eapply reconstructPath_unreached; [exact inv|exact Hd|lia]|].
    intros q Hq.
    destruct (distance_below_routes q start 0 nd (di_start _ _ _ _ inv) Hq)
      as (dv & Hdv & _).
    eapply Hd, Hdv. }
  destruct (mapGet nd (dj_distances st)) as [[z|]|] eqn:Hd.
  - destruct (reconstructPath_visited g start st [] inv fuel nd z
                (finite_visited nd z Hd) Hd ltac:(lia)) as (q & Hq & Hw & Hrun).
    exists (routeNodes start q). split; [exact Hrun|]. split; [eauto|].
    intros q' Hq'.
    destruct (distance_below_routes q' start 0 nd (di_start _ _ _ _ inv) Hq')
      as (dv & Hdv & Hle).
    rewrite Hd in Hdv. injection Hdv as <-. lia.
  - exists []. destruct Hnone as [H1 H2]; [discriminate|auto].
  - exists []. destruct Hnone as [H1 H2]; [discriminate|auto].
Qed.
End DijkstraEmptied.

(** The loop that builds the map of the paths returns when
    [reconstructPath] does, with an entry for every node but the
    start. *)
Lemma bfResult_builds fuel st start ns :
  (forall nd, nd ∈ ns -> nd ≠ start ->
     exists p, reconstructPath fuel st.2 start nd = Some p) ->
  forall acc, exists m, bfResult fuel st start ns acc = Some m
    /\ forall nd, (nd ∈ ns /\ nd ≠ start) \/ is_Some (mapGet nd acc) ->
         is_Some (mapGet nd m).
Proof.
  induction ns as [|n ns IH]; intros Hall acc; simpl.
  - exists acc. split; [reflexivity|]. intros nd [[H _]|H]; [|exact H].
    apply elem_of_nil in H. contradiction.
  - assert (Hall' : forall nd, nd ∈ ns -> nd ≠ start ->
              exists p, reconstructPath fuel st.2 start nd = Some p)
      by (intros nd Hnd; apply Hall; right; exact Hnd).
    destruct (decide (n = start)) as [->|Hn].
    + destruct (IH Hall' acc) as (m & Hrun & Hm). exists m. split; [exact Hrun|].
      intros nd [[Hin Hne]|H]; apply Hm; [|auto].
      apply elem_of_cons in Hin as [->|Hin]; [contradiction|auto].
    + destruct (Hall n) as [p Hp]; [left|exact Hn|]. rewrite Hp. simpl.
      destruct (IH Hall' (mapSet n (mkPathResult p (default Infinity (mapGet n st.1))) acc))
        as (m & Hrun & Hm).
      exists m. split; [exact Hrun|].
      intros nd H. apply Hm. rewrite mapGet_mapSet.
      destruct (decide (n = nd)) as [->|Hne]; [right; eauto|].
      destruct H as [[Hin Hns]|H]; [|auto].
      apply elem_of_cons in Hin as [->|Hin]; [contradiction|auto].
Qed.


Lemma reconstructLoop_fuel_mono fuel :
  forall fuel' previous start current acc p, (fuel <= fuel')%nat ->
    reconstructLoop fuel previous start current acc = Some p ->
    reconstructLoop fuel' previous start current acc = Some p.
Proof.
  induction fuel as [|fuel IH]; intros fuel' previous start current acc p Hle H;
    [discriminate H|].
  destruct fuel' as [|fuel']; [lia|]. simpl in *.
  destruct current as [c|]; [|exact H].
  destruct (decide (c = start)); [exact H|]. apply IH; [lia|exact H].
Qed.

Lemma reconstructPath_fuel_mono fuel fuel' previous start target p :
  (fuel <= fuel')%nat ->
  reconstructPath fuel previous start target = Some p ->
  reconstructPath fuel' previous start target = Some p.
Proof.
  intros Hle. unfold reconstructPath.
  destruct (reconstructLoop fuel previous start (Some target) []) as [p0|] eqn:Hrun;
    [|discriminate].
  rewrite (reconstructLoop_fuel_mono _ _ _ _ _ _ _ Hle Hrun). auto.
Qed.

Lemma bfResult_fuel_mono fuel fuel' st start ns :
  (fuel <= fuel')%nat ->
  forall acc m, bfResult fuel st start ns acc = Some m ->
    bfResult fuel' st start ns acc = Some m.
Proof.
  intros Hle. induction ns as [|n ns IH]; intros acc m H; simpl in *; [exact H|].
  destruct (decide (n = start)); [apply IH, H|].
  destruct (reconstructPath fuel st.2 start n) as [p|] eqn:Hp; [|discriminate H].
  rewrite (reconstructPath_fuel_mono _ _ _ _ _ _ Hle Hp). simpl in *. apply IH, H.
Qed.

(** X30. On a well-formed graph whose weights are not negative and
    can be added without rounding, [dijkstra] from a node of the graph
    ends.  With an [end] node it gives the distance and the path of
    this node; without one, a map that has an entry for every node
    other than the start, and for no other.  A finite distance is the
    weight of a lightest route from the start, and the path lists the
    nodes of a route of this weight; the other nodes are those that no
    route reaches, and their path is empty. *)
Theorem dijkstra_shortest (g : Graph) (start : NodeId) (target : option NodeId)
    (recordSteps : bool) :
  wellFormed g ->
  start ∈ nodes g ->
  safeWeights g (length (nodes g)) ->
  (forall x n, n ∈ getNeighbors x g -> 0 <= weight n) ->
  exists res N,
    (forall fuel, (N <= fuel)%nat ->
       dijkstra fuel g start target recordSteps = Some res)
    /\ match target, res with
       | Some e, Single r => shortestTo g start e (sp_distance r) (sp_path r)
       | None, AllPaths m =>
           (forall nd, is_Some (mapGet nd m) <-> nd ∈ nodes g /\ nd ≠ start)
           /\ forall nd r, mapGet nd m = Some r ->
                shortestTo g start nd (Some (distance r)) (path r)
       | _, _ => False
       end.
Proof.
  intros [_ Hclosed] _ _ Hnonneg.
  pose proof (dijkstra_init_inv g start) as Hinv0.
  set (st0 := mkDijkstraState _ _ _ _ _ _) in Hinv0.
  set (N1 := S (pending g (start :: nodes g) (dj_visited st0) + length (dj_items st0))).
  destruct (dijkstraLoop_runs g start recordSteps Hclosed Hnonneg N1 target st0 Hinv0
              ltac:(unfold N1; lia)) as (st & Hrun & Hend).
  set (N := (N1 + S (S (S (length (dj_visited st)))))%nat).
  assert (Hloop : forall fuel, (N <= fuel)%nat ->
            dijkstraLoop fuel g target recordSteps st0 = Some st).
  { intros fuel Hfuel.
    apply (dijkstraLoop_fuel_mono g recordSteps N1 fuel target st0 st); [|exact Hrun].
    unfold N in Hfuel. lia. }
  destruct target as [e|].
  - assert (Hpath : exists p, reconstructPath N (dj_previous st) start e = Some p
                      /\ shortestTo g start e (mapGet e (dj_distances st)) p).
    { destruct Hend as [[Hinv Hdone]|(e' & de & todo & [= <-] & Hinv & Hin & Hde & Hopt)].
      - apply (emptied_shortest g start st Hinv Hdone). unfold N. lia.
      - destruct (reconstructPath_visited g start st todo Hinv N e de Hin Hde
                    ltac:(unfold N; lia)) as (q & Hq & Hw & Hp).
        exists (routeNodes start q). split; [exact Hp|]. rewrite Hde. simpl. eauto. }
    destruct Hpath as (p & Hp & Hspec).
    exists (Single (mkSinglePath p (mapGet e (dj_distances st))
                      (if recordSteps then Some (dj_steps st) else None))), N.
    split; [|exact Hspec].
    intros fuel Hfuel. unfold dijkstra. cbv zeta. fold st0. rewrite (Hloop fuel Hfuel).
    simpl. rewrite (reconstructPath_fuel_mono N fuel _ _ _ _ Hfuel Hp). reflexivity.
  - destruct Hend as [[Hinv Hdone]|(e' & de & todo & Habs & _)]; [|discriminate Habs].
    assert (Hpaths : forall nd, nd ∈ getNodes g -> nd ≠ start ->
              exists p, reconstructPath N (dj_previous st) start nd = Some p).
    { intros nd _ _.
      destruct (emptied_shortest g start st Hinv Hdone N nd ltac:(unfold N; lia))
        as (p & Hp & _). eauto. }
    destruct (bfResult_builds N (dj_distances st, dj_previous st) start (getNodes g)
                Hpaths []) as (m & Hres & Hm).
    exists (AllPaths m), N. split; [|split].
    + intros fuel Hfuel. unfold dijkstra. cbv zeta. fold st0. rewrite (Hloop fuel Hfuel).
      simpl. rewrite (bfResult_fuel_mono N fuel _ _ _ Hfuel _ _ Hres). reflexivity.
    + intros nd. split.
      * intros [r Hr].
        destruct (bfResult_entries _ _ _ _ _ _ Hres nd r Hr) as [H|(Hin & Hne & _)];
          [discriminate H|auto].
      * intros [Hin Hne]. apply Hm. auto.
    + intros nd r Hr.
      destruct (bfResult_entries _ _ _ _ _ _ Hres nd r Hr) as [H|(Hin & Hne & Hd & Hp)];
        [discriminate H|].
      simpl in Hd, Hp.
      destruct (proj2 (di_keys _ _ _ _ Hinv nd)) as [d Hd']; [right; exact Hin|].
      rewrite Hd' in Hd. simpl in Hd.
      destruct (emptied_shortest g start st Hinv Hdone N nd ltac:(unfold N; lia))
        as (p & Hp' & Hspec).
      rewrite Hp in Hp'. injection Hp' as <-. rewrite Hd' in Hspec. rewrite Hd. exact Hspec.
Qed.

Lemma dijkstra_shortest_witness :
  exists g,
    addEdges [mkEdge (NNum 1) (NNum 2) (Some 5); mkEdge (NNum 2) (NNum 3) (Some 3);
              mkEdge (NNum 1) (NNum 3) (Some 100)]
             (newGraph (mkConfig true true true false)) = Ok g
    /\ exists res N,
         (forall fuel, (N <= fuel)%nat ->
            dijkstra fuel g (NNum 1) (Some (NNum 3)) true = Some res)
         /\ match res with
            | Single r => shortestTo g (NNum 1) (NNum 3) (sp_distance r) (sp_path r)
            | AllPaths _ => False
            end.
Proof.
  destruct (addEdges_keeps_wellFormed
              [mkEdge (NNum 1) (NNum 2) (Some 5); mkEdge (NNum 2) (NNum 3) (Some 3);
               mkEdge (NNum 1) (NNum 3) (Some 100)]
              (newGraph (mkConfig true true true false)))
    as (g & Hrun & Hwf & _).
  { apply newGraph_wellFormed. }
  { left. reflexivity. }
  exists g. split; [exact Hrun|].
  vm_compute in Hrun. injection Hrun as <-.
  apply (dijkstra_shortest _ (NNum 1) (Some (NNum 3)) true);
    [exact Hwf|simpl; in_list|safe_weights 100|].
  intros x n Hn. unfold getNeighbors in Hn. revert Hn.
  generalize (String_of x). intros key Hn.
  destruct (_ !! key) as [l|] eqn:Hl; simpl in Hn;
    [|apply elem_of_nil in Hn; contradiction].
  apply elem_of_map_to_list in Hl. vm_compute in Hl.
  entry_cases Hl; list_cases Hn; simpl; lia.
Defined.

(** ** [bellmanFord] and the negative cycles of the graph *)

(** What [getEdges] reports: an edge is a neighbor entry of a node,
    and the key of every neighbor entry of a node is that of an edge. *)
Lemma getEdges_entries g edges :
  getEdges g = Ok edges ->
  (forall e, e ∈ edges ->
     efrom e ∈ nodes g /\ entryOf e ∈ getNeighbors (efrom e) g)
  /\ (forall from n, from ∈ nodes g -> n ∈ getNeighbors from g ->
        exists e, e ∈ edges
          /\ keyOf (directed (config g)) e = edgeKey (directed (config g)) from (node n)).
Proof.
  intros Hrun.
  destruct (getEdgesLoop_scanned g (nodes g) (getEdgesLoop_lists _ _ _ _ Hrun) ([], []))
    as ([out seen] & Hrun' & [Hfrom _ _ Hall Hkeys]).
  unfold getEdges in Hrun. rewrite Hrun in Hrun'. injection Hrun' as ->.
  simpl in *. split.
  - intros e He.
    destruct (Hfrom e He) as [H|(from & n & Hin & ->)];
      [apply elem_of_nil in H; contradiction|].
    apply slotsOfNodes_elem in Hin as [Hx Hn]. simpl. split; [exact Hx|].
    unfold entryOf. simpl. rewrite edgeWeight_reported. now destruct n.
  - intros from n Hx Hn. apply Hkeys.
    + intros k Hk. apply elem_of_nil in Hk. contradiction.
    + apply Hall. apply slotsOfNodes_elem. auto.
Qed.

(** A walk along the edges of [getEdges] is a route of the graph, of
    the same weight and through the same nodes. *)
Lemma walk_is_route g edges K :
  getEdges g = Ok edges ->
  forall p x y, isWalk edges K x p y ->
    isRoute g x (entryOf <$> p) y /\ routeWeight (entryOf <$> p) = walkWeight p.
Proof.
  intros Hrun. destruct (getEdges_entries g edges Hrun) as [Hent _].
  induction p as [|e p IH]; intros x y Hp; simpl in *.
  - split; [exact Hp|reflexivity].
  - destruct Hp as (He & <- & _ & Hp). destruct (IH _ _ Hp) as [Hr Hw].
    split; [split; [apply Hent, He|exact Hr]|].
    change (weight (entryOf e) + routeWeight (entryOf <$> p)
            = edgeWeight e + walkWeight p).
    rewrite Hw. reflexivity.
Qed.

Lemma routeNodes_entries x p : routeNodes x (entryOf <$> p) = visits x p.
Proof.
  unfold routeNodes, visits. f_equal. rewrite <- list_fmap_compose. reflexivity.
Qed.

Lemma NoDup_map_node_eq (l : list Neighbor) n1 n2 :
  NoDup (map node l) -> n1 ∈ l -> n2 ∈ l -> node n1 = node n2 -> n1 = n2.
Proof.
  induction l as [|a l IH]; intros Hnd H1 H2 Heq.
  - apply elem_of_nil in H1. contradiction.
  - simpl in Hnd. apply NoDup_cons in Hnd as [Ha Hnd].
    apply elem_of_cons in H1 as [->|H1]; apply elem_of_cons in H2 as [->|H2].
    + reflexivity.
    + exfalso. apply Ha. rewrite Heq. apply list_elem_of_fmap. eauto.
    + exfalso. apply Ha. rewrite <- Heq. apply list_elem_of_fmap. eauto.
    + apply IH; assumption.
Qed.

(** In a directed graph without parallel edges whose pairs of nodes
    have different keys, [getEdges] loses no neighbor entry: a route
    from a node is a walk along its edges, of the same weight. *)
Lemma route_is_walk g edges start :
  getEdges g = Ok edges ->
  directed (config g) = true ->
  closedTargets g -> noParallelEntries g -> distinctPairKeys g ->
  forall p x y, x ∈ nodes g -> isRoute g x p y ->
    exists q, isWalk edges (known g start) x q y /\ walkWeight q = routeWeight p.
Proof.
  intros Hrun Hdir Hclosed Hpar Hkeys.
  destruct (getEdges_entries g edges Hrun) as [Hent Hall].
  assert (Hin : forall x n, n ∈ getNeighbors x g -> node n ∈ nodes g).
  { intros x n Hn. unfold getNeighbors in Hn.
    destruct (adjacencyList g !! String_of x) as [l|] eqn:Hl; simpl in Hn;
      [|apply elem_of_nil in Hn; contradiction].
    eapply Hclosed; eassumption. }
  induction p as [|n p IH]; intros x y Hx Hp; simpl in Hp.
  - exists []. split; [exact Hp|reflexivity].
  - destruct Hp as [Hn Hp].
    destruct (Hall x n Hx Hn) as (e & He & Hkey).
    destruct (Hent e He) as [Hfrom Hentry].
    assert (Hto : eto e ∈ nodes g) by apply (Hin _ _ Hentry).
    destruct (Hkeys (efrom e) (eto e) x (node n) Hfrom Hto Hx (Hin _ _ Hn) Hkey)
      as [Hf Ht].
    assert (Hsame : entryOf e = n).
    { rewrite Hf in Hentry. unfold getNeighbors in Hn, Hentry.
      destruct (adjacencyList g !! String_of x) as [l|] eqn:Hl; simpl in Hn, Hentry;
        [|apply elem_of_nil in Hn; contradiction].
      apply (NoDup_map_node_eq l); [eapply Hpar; eassumption|assumption..]. }
    destruct (IH (node n) y (Hin _ _ Hn) Hp) as (q & Hq & Hw).
    exists (e :: q). split.
    + simpl. split; [exact He|]. split; [exact Hf|]. rewrite Ht.
      split; [right; apply (Hin _ _ Hn)|exact Hq].
    + change (edgeWeight e + walkWeight q = weight n + routeWeight p).
      rewrite Hw, <- Hsame. reflexivity.
Qed.

Lemma isRoute_end_in_nodes g :
  closedTargets g ->
  forall p x y, x ∈ nodes g -> isRoute g x p y -> y ∈ nodes g.
Proof.
  intros Hclosed. induction p as [|n p IH]; intros x y Hx Hp; simpl in Hp.
  - now subst y.
  - destruct Hp as [Hn Hp]. apply (IH (node n) y); [|exact Hp].
    unfold getNeighbors in Hn.
    destruct (adjacencyList g !! String_of x) as [l|] eqn:Hl; simpl in Hn;
      [|apply elem_of_nil in Hn; contradiction].
    eapply Hclosed; eassumption.
Qed.

(** What [safeWeights] gives: the weight of a route of at most [count]
    entries is in the range in which the sums are exact. *)
Lemma routeWeight_bounded g bound :
  (forall x n, n ∈ getNeighbors x g -> Z.abs (weight n) <= bound) ->
  forall p x y, isRoute g x p y ->
    Z.abs (routeWeight p) <= Z.of_nat (length p) * bound.
Proof.
  intros Hbound. induction p as [|n p IH]; intros x y Hp; simpl in Hp.
  - simpl. lia.
  - destruct Hp as [Hn Hp]. specialize (IH _ _ Hp). specialize (Hbound _ _ Hn).
    change (routeWeight (n :: p)) with (weight n + routeWeight p).
    rewrite length_cons, Nat2Z.inj_succ. lia.
Qed.

Lemma safeWeights_route g count p x y :
  safeWeights g count -> isRoute g x p y -> (length p <= count)%nat ->
  Z.abs (routeWeight p) <= 2 ^ 53.
Proof.
  intros (bound & Hbound & Hcount) Hp Hlen.
  pose proof (routeWeight_bounded g bound Hbound p x y Hp) as Hw.
  destruct p as [|n p]; [simpl; lia|].
  assert (0 <= bound).
  { destruct Hp as [Hn _]. specialize (Hbound _ _ Hn). lia. }
  nia.
Qed.

(** The map of [bellmanFord] has entries for nodes of the graph only. *)
Lemma bellmanFord_entries_nodes fuel g start m :
  bellmanFord fuel g start = Ok (Some (Paths m)) ->
  forall nd, is_Some (mapGet nd m) -> nd ∈ nodes g.
Proof.
  unfold bellmanFord. destruct (getEdges g) as [edges|msg]; [|discriminate]. simpl.
  destruct (existsb (relaxable (bfRelaxed g start edges).1) edges); [discriminate|].
  destruct (bfResult fuel (bfRelaxed g start edges) start (getNodes g) []) as [m'|] eqn:Hres;
    [|discriminate].
  simpl. intros [= <-] nd [r Hr].
  destruct (bfResult_entries _ _ _ _ _ _ Hres nd r Hr) as [H|(Hin & _)];
    [discriminate H|exact Hin].
Qed.

(** C8. On a directed well-formed graph without parallel edges, in
    which different pairs of nodes have different [getEdges] keys and
    whose weights can be added without rounding, [bellmanFord] from a
    node of the graph returns [null] exactly when a cycle of negative
    weight can be reached from the start by following neighbor
    entries.  Otherwise it returns, with enough fuel for the
    reconstruction of the paths, a map that has an entry for exactly
    the nodes other than the start: a finite distance is the weight of
    a lightest route from the start, and the path lists the nodes of a
    route of this weight; the nodes at distance [Infinity] are those
    that no route reaches, and their path is empty. *)
Theorem bellmanFord_null_iff_negative_cycle g start edges :
  getEdges g = Ok edges ->
  directed (config g) = true ->
  wellFormed g -> noParallelEntries g -> distinctPairKeys g ->
  start ∈ nodes g ->
  safeWeights g (length (nodes g) * length edges) ->
  (forall fuel, bellmanFord fuel g start = Ok (Some Null) <-> negativeCycleFrom g start)
  /\ (~ negativeCycleFrom g start ->
      exists N, forall fuel, (N <= fuel)%nat ->
        exists m, bellmanFord fuel g start = Ok (Some (Paths m))
          /\ (forall nd, is_Some (mapGet nd m) <-> nd ∈ nodes g /\ nd <> start)
          /\ forall nd r, mapGet nd m = Some r ->
               shortestTo g start nd (Some (distance r)) (path r)).
Proof.
  intros Hedges Hdir [_ Hclosed] Hpar Hkeys Hstart _.
  destruct (bellmanFord_null_iff_detected g start edges Hedges)
    as (Hnull & Hreach & Hnone & Hmap).
  assert (Hup : negativeCycleFrom g start ->
                negativeCycleReachable edges (known g start) start).
  { intros (c & p0 & pc & H0 & Hc & Hw).
    destruct (route_is_walk g edges start Hedges Hdir Hclosed Hpar Hkeys p0 start c Hstart H0)
      as (q0 & Hq0 & _).
    assert (Hcn : c ∈ nodes g)
      by exact (isRoute_end_in_nodes g Hclosed p0 start c Hstart H0).
    destruct (route_is_walk g edges start Hedges Hdir Hclosed Hpar Hkeys pc c c Hcn Hc)
      as (qc & Hqc & Hwc).
    exists c, q0, qc. split; [exact Hq0|]. split; [exact Hqc|]. lia. }
  assert (Hdown : negativeCycleReachable edges (known g start) start ->
                  negativeCycleFrom g start).
  { intros (c & p0 & pc & H0 & Hc & Hw).
    destruct (walk_is_route g edges _ Hedges p0 start c H0) as [Hr0 _].
    destruct (walk_is_route g edges _ Hedges pc c c Hc) as [Hrc Hwc].
    exists c, (entryOf <$> p0), (entryOf <$> pc).
    split; [exact Hr0|]. split; [exact Hrc|]. lia. }
  assert (Hquiet : ~ negativeCycleFrom g start -> ~ negativeCycleDetected g start edges).
  { intros Hno. apply Hnone. intros c p0 pc H0 Hc.
    destruct (Z.lt_ge_cases (walkWeight pc) 0) as [Hlt|Hge]; [|exact Hge].
    exfalso. apply Hno, Hdown. exists c, p0, pc. auto. }
  split.
  - intros fuel. split.
    + intros Hdet. apply (Hnull fuel) in Hdet.
      destruct (Classical_Prop.classic (negativeCycleFrom g start)) as [Hyes|Hno];
        [exact Hyes|].
      exfalso. exact (Hquiet Hno Hdet).
    + intros Hcyc. apply (Hnull fuel), Hreach, Hup, Hcyc.
  - intros Hno. destruct (Hmap (Hquiet Hno)) as (N & HN).
    exists N. intros fuel Hfuel. destruct (HN fuel Hfuel) as (m & Hrun & Hall).
    exists m. split; [exact Hrun|].
    destruct (bellmanFord_paths_inv fuel g start edges m Hedges Hrun) as [Hsettled Hm].
    split.
    + intros nd. split.
      * intros Hsome.
        split; [exact (bellmanFord_entries_nodes fuel g start m Hrun nd Hsome)|].
        destruct Hsome as [r Hr]. apply (Hm nd r Hr).
      * intros [Hnd Hne]. destruct (Hall nd Hnd Hne) as (r & Hr & _). eauto.
    + intros nd r Hr. destruct (Hm nd r Hr) as (Hne & Hd & Hp).
      pose proof (final_shortest g start edges Hsettled nd (distance r) Hd) as Hshort.
      pose proof (reconstructPath_walk g start edges Hsettled fuel nd (distance r)
                    (path r) Hne Hd Hp) as Hpath.
      unfold shortestTo. destruct (distance r) as [z|].
      * destruct Hshort as [_ Hleast]. destruct Hpath as (q & Hq & Hw & Hv).
        destruct (walk_is_route g edges _ Hedges q start nd Hq) as [Hr' Hw'].
        split.
        -- exists (entryOf <$> q). split; [exact Hr'|]. split; [lia|].
           rewrite routeNodes_entries. exact Hv.
        -- intros q' Hq'.
           destruct (route_is_walk g edges start Hedges Hdir Hclosed Hpar Hkeys
                       q' start nd Hstart Hq') as (w & Hwalk & Hww).
           specialize (Hleast w Hwalk). lia.
      * split; [exact Hpath|]. intros q' Hq'.
        destruct (route_is_walk g edges start Hedges Hdir Hclosed Hpar Hkeys
                    q' start nd Hstart Hq') as (w & Hwalk & _).
        exact (Hshort w Hwalk).
Qed.

(** The theorem at the graph of the edges 1 -> 2 and 2 -> 1 of weight
    -5, from the node 1: the two entries are a negative cycle, and the
    result is [null]. *)
Lemma bellmanFord_null_iff_negative_cycle_witness :
  exists g, negativeTwoCycle = Ok g
    /\ forall fuel, bellmanFord fuel g (NNum 1) = Ok (Some Null).
Proof.
  destruct (addEdges_keeps_wellFormed
              [mkEdge (NNum 1) (NNum 2) (Some (-5)); mkEdge (NNum 2) (NNum 1) (Some (-5))]
              (newGraph (mkConfig true true true false)))
    as (g & Hrun & Hwf & _).
  { apply newGraph_wellFormed. }
  { left. reflexivity. }
  exists g. split; [exact Hrun|].
  vm_compute in Hrun. injection Hrun as <-.
  intros fuel.
  match goal with |- bellmanFord _ ?g _ = _ =>
    apply (proj1 (bellmanFord_null_iff_negative_cycle g (NNum 1)
                    [mkEdge (NNum 1) (NNum 2) (Some (-5));
                     mkEdge (NNum 2) (NNum 1) (Some (-5))]
                    ltac:(vm_compute; reflexivity) eq_refl Hwf
                    ltac:(intros key l Hl; lookup_cases Hl;
                          apply (bool_decide_unpack _); vm_compute; exact I)
                    ltac:(intros a b c d Ha Hb Hc Hd Hk; simpl in Ha, Hb, Hc, Hd;
                          list_cases Ha; list_cases Hb; list_cases Hc; list_cases Hd;
                          first [split; reflexivity | vm_compute in Hk; discriminate Hk])
                    ltac:(simpl; in_list)
                    ltac:(safe_weights 5)) fuel)
  end.
  exists (NNum 1), [], [mkNeighbor (NNum 2) (-5); mkNeighbor (NNum 1) (-5)].
  split; [reflexivity|]. split; [|reflexivity].
  simpl. split; [vm_compute; in_list|]. split; [vm_compute; in_list|reflexivity].
Defined.

(** With parallel edges the statement fails.  [getEdges] reports one
    edge for each key [from->to]: of the two edges 1 -> 2 it gives
    [bellmanFord] the first, of weight 5.  The cycle of the entries
    1 -> 2 of weight -10 and 2 -> 1 of weight 3, of weight -7, can be
    reached from the node 1, and [bellmanFord] returns a map, in which
    the node 2 is at distance 5, and never [null]. *)
Lemma bellmanFord_misses_parallel_edge :
  exists g, parallelEdgeCycle = Ok g
    /\ negativeCycleFrom g (NNum 1)
    /\ (forall fuel, bellmanFord fuel g (NNum 1) <> Ok (Some Null))
    /\ bellmanFord 2 g (NNum 1)
       = Ok (Some (Paths [(NNum 2, mkPathResult [NNum 1; NNum 2] (Fin 5))])).
Proof.
  eexists. split; [vm_compute; reflexivity|]. split; [|split].
  - exists (NNum 1), [], [mkNeighbor (NNum 2) (-10); mkNeighbor (NNum 1) 3].
    split; [reflexivity|]. split; [|reflexivity].
    simpl. split; [vm_compute; in_list|]. split; [vm_compute; in_list|reflexivity].
  - intros fuel Hnull.
    match type of Hnull with bellmanFord _ ?g _ = _ =>
      apply (proj1 (bellmanFord_null_iff_detected g (NNum 1)
                      [mkEdge (NNum 1) (NNum 2) (Some 5); mkEdge (NNum 2) (NNum 1) (Some 3)]
                      ltac:(vm_compute; reflexivity)) fuel) in Hnull
    end.
    destruct Hnull as (e & He & Hrel).
    list_cases He; vm_compute in Hrel; discriminate Hrel.
  - vm_compute. reflexivity.
Qed.

(** ** A neighbor entry that outlives its node *)

(** C10. The state in which [isBipartite] is called on a graph with a
    self-loop and does not answer.  [addEdge] has stored the edge from
    "a" to "toString" twice; [removeNode("toString")] removes the
    node, its list and, [removeEdge] taking out one entry at a time,
    one of the two entries of "a".  The graph to which the self-loop
    on "u" is then added has the nodes "a" and "u", has "u" in the
    list of "u", and keeps in the list of "a" an entry for "toString",
    which is not a node and has no list: the graph is not well formed,
    and the coloring, which starts at "a", reads next the list of
    "toString". *)
Theorem removeNode_leaves_parallel_entry :
  exists g, danglingSelfLoop = Ok g
    /\ nodes g = [NStr "a"; NStr "u"]
    /\ getNeighbors (NStr "u") g = [mkNeighbor (NStr "u") 1]
    /\ getNeighbors (NStr "a") g = [mkNeighbor (NStr "toString") 1]
    /\ adjacencyList g !! "toString" = None
    /\ ~ closedTargets g.
Proof.
  eexists. split; [vm_compute; reflexivity|].
  split; [reflexivity|]. split; [vm_compute; reflexivity|].
  split; [vm_compute; reflexivity|]. split; [vm_compute; reflexivity|].
  intros Hclosed.
  specialize (Hclosed "a" [mkNeighbor (NStr "toString") 1] (mkNeighbor (NStr "toString") 1)).
  simpl in Hclosed.
  assert (Hin : NStr "toString" ∈ [NStr "a"; NStr "u"]).
  { apply Hclosed; [vm_compute; reflexivity|in_list]. }
  apply elem_of_cons in Hin as [Hin|Hin]; [discriminate Hin|].
  apply elem_of_cons in Hin as [Hin|Hin]; [discriminate Hin|].
  apply elem_of_nil in Hin. exact Hin.
Qed.

(** ** The theorems on small graphs *)

(** The theorem on self-loops at the undirected graph of the single
    edge 1-1. *)
Lemma isBipartite_single_self_loop :
  exists g,
    addEdge (mkEdge (NNum 1) (NNum 1) None) (newGraph undirectedConfig) = Ok g
    /\ exists N, forall fuel, (N <= fuel)%nat ->
         isBipartite fuel g = Some (mkBipartiteResult false None).
Proof.
  destruct (addEdge_keeps_wellFormed (mkEdge (NNum 1) (NNum 1) None)
              (newGraph undirectedConfig)) as (g & Hrun & Hwf & _).
  { apply newGraph_wellFormed. }
  { left. reflexivity. }
  exists g. split; [exact Hrun|].
  vm_compute in Hrun. injection Hrun as <-.
  apply (isBipartite_self_loop _ (NNum 1)); [exact Hwf|simpl; in_list|].
  exists (mkNeighbor (NNum 1) 1). split; [|reflexivity]. vm_compute. in_list.
Defined.

(** Both depth-first searches at the triangle, from the node 1. *)
Lemma dfs_dfsIterative_same_order_witness :
  exists g, buildGraphFromData triangleData = Ok g
    /\ exists order N, forall fuel, (N <= fuel)%nat ->
         dfs fuel g (NNum 1) = Some order /\ dfsIterative fuel g (NNum 1) = Some order.
Proof.
  destruct triangle_built as (g & Hrun & Hwf & _ & Hnodes).
  exists g. split; [exact Hrun|].
  destruct (dfs_dfsIterative_same_order g (NNum 1) Hwf) as (order & N & Hboth & _).
  { rewrite Hnodes. in_list. }
  exists order, N. exact Hboth.
Defined.

(** [removeEdge(1, 2)] at the undirected graph of the edge 1-2: the
    entry of 2 in the list of 1 and its mirror are removed. *)
Lemma removeEdge_wellFormed_witness :
  exists g, oneEdgeGraph = Ok g
    /\ exists g', removeEdge (NNum 1) (NNum 2) g = Ok g' /\ wellFormed g'
         /\ nodes g' = nodes g /\ config g' = config g.
Proof.
  destruct (addEdge_keeps_wellFormed (mkEdge (NNum 1) (NNum 2) None)
              (addNode (NNum 1) (newGraph undirectedConfig))) as (g & Hrun & Hwf & _).
  { apply addNode_wellFormed, newGraph_wellFormed. }
  { left. reflexivity. }
  exists g. split; [exact Hrun|].
  vm_compute in Hrun. injection Hrun as <-.
  apply removeEdge_wellFormed; [exact Hwf|].
  vm_compute. eexists. reflexivity.
Defined.

(** The traversals at the triangle 1-2, 2-3, 3-1, from the node 1. *)
Lemma dfs_visits_reachable_witness :
  exists g, buildGraphFromData triangleData = Ok g
    /\ exists order N,
         (forall fuel, (N <= fuel)%nat -> dfs fuel g (NNum 1) = Some order)
         /\ NoDup order /\ head order = Some (NNum 1)
         /\ forall x, x ∈ order <-> reachable g (NNum 1) x.
Proof.
  destruct triangle_built as (g & Hrun & Hwf & _ & Hnodes).
  exists g. split; [exact Hrun|].
  apply dfs_visits_reachable; [exact Hwf|]. rewrite Hnodes. in_list.
Defined.

Lemma bfs_visits_reachable_witness :
  exists g, buildGraphFromData triangleData = Ok g
    /\ exists order N,
         (forall fuel, (N <= fuel)%nat -> bfs fuel g (NNum 1) = Some order)
         /\ NoDup order /\ head order = Some (NNum 1)
         /\ forall x, x ∈ order <-> reachable g (NNum 1) x.
Proof.
  destruct triangle_built as (g & Hrun & Hwf & _ & Hnodes).
  exists g. split; [exact Hrun|].
  apply bfs_visits_reachable; [exact Hwf|]. rewrite Hnodes. in_list.
Defined.

Lemma bfs_dfs_same_nodes_witness :
  exists g, buildGraphFromData triangleData = Ok g
    /\ exists breadth depth N,
         (forall fuel, (N <= fuel)%nat ->
            bfs fuel g (NNum 1) = Some breadth /\ dfs fuel g (NNum 1) = Some depth)
         /\ breadth ≡ₚ depth.
Proof.
  destruct triangle_built as (g & Hrun & Hwf & _ & Hnodes).
  exists g. split; [exact Hrun|].
  apply bfs_dfs_same_nodes; [exact Hwf|]. rewrite Hnodes. in_list.
Defined.

(** The components and the coloring at the triangle. *)
Lemma findConnectedComponents_partition_witness :
  exists g, buildGraphFromData triangleData = Ok g
    /\ exists r N,
         (forall fuel, (N <= fuel)%nat -> findConnectedComponents fuel g = Some r)
         /\ count r = Z.of_nat (length (components r))
         /\ NoDup (concat (components r))
         /\ forall x, x ∈ nodes g -> x ∈ concat (components r).
Proof.
  destruct triangle_built as (g & Hrun & Hwf & _).
  exists g. split; [exact Hrun|].
  destruct (findConnectedComponents_partition g Hwf) as (r & N & Hr & Hc & Hnd & Hall & _).
  exists r, N. auto.
Defined.

Lemma isBipartite_partitions_witness :
  exists g, buildGraphFromData triangleData = Ok g
    /\ exists r N,
         (forall fuel, (N <= fuel)%nat -> isBipartite fuel g = Some r)
         /\ (r_isBipartite r = false -> partitions r = None).
Proof.
  destruct triangle_built as (g & Hrun & Hwf & _).
  exists g. split; [exact Hrun|].
  destruct (isBipartite_partitions g Hwf) as (r & N & Hr & Hfalse & _).
  exists r, N. auto.
Defined.

(** [parseNodeId] at the numeral of 2^53. *)
Lemma parseNodeId_numeral_witness :
  parseNodeId (String_of (NNum 9007199254740992)) = Ok (NNum 9007199254740992).
Proof.
  apply parseNodeId_numeral. vm_compute. discriminate.
Defined.
